(** * TypeDoc reflection store, file registry and deserializer

    A shallow embedding of
      - [FileRegistry]            (models/FileRegistry.ts),
      - [ProjectReflection]       (models/ProjectReflection.ts),
      - [Deserializer]            (serialization/deserializer.ts)
    together with the properties the specification states about them.

    JavaScript values are modelled as follows.  Numbers used as ids and
    counters are [Z]; strings are [string]; a [Map] or an object used as a
    table is a [gmap]; an array is a [list]; [undefined] is [None].  Object
    identity of reflections is their [id]: the id is unique per process, so
    [a === b] on reflections is equality of ids.  Truthiness tests of the
    source ([if (x)]) are written out: a number is falsy when it is [0], a
    string when it is empty, [undefined] always. *)

From stdpp Require Import gmap strings list fin_maps pretty sorting.
From Stdlib Require Import ZArith Lia Ascii String.

Local Open Scope Z_scope.

Set Warnings "-register-all,-clear-no-such-hyp,-notation-for-abbreviation".

(** ** JavaScript string primitives *)

Module JsString.

(** [s.indexOf(c)] for a one-character needle: the position of the first
    occurrence, [-1] when there is none. *)
Fixpoint indexOfFrom (c : ascii) (s : string) (i : Z) : Z :=
  match s with
  | EmptyString => -1
  | String x s' => if Ascii.eqb x c then i else indexOfFrom c s' (i + 1)
  end.

Definition indexOf (s : string) (c : ascii) : Z := indexOfFrom c s 0.

Definition clamp (n : Z) (len : Z) : Z := Z.max 0 (Z.min n len).

(** [s.substring(start, stop)]: both ends are clamped to the string and
    swapped when out of order. *)
Definition substring (s : string) (start stop : Z) : string :=
  let len := Z.of_nat (String.length s) in
  let a := clamp start len in
  let b := clamp stop len in
  let lo := Z.min a b in
  let hi := Z.max a b in
  String.substring (Z.to_nat lo) (Z.to_nat (hi - lo)) s.

(** [s.substring(start)] *)
Definition substringFrom (s : string) (start : Z) : string :=
  substring s start (Z.of_nat (String.length s)).

(** [s.lastIndexOf(c)] *)
Fixpoint lastIndexOfFrom (c : ascii) (s : string) (i : Z) (found : Z) : Z :=
  match s with
  | EmptyString => found
  | String x s' =>
      lastIndexOfFrom c s' (i + 1) (if Ascii.eqb x c then i else found)
  end.

Definition lastIndexOf (s : string) (c : ascii) : Z :=
  lastIndexOfFrom c s 0 (-1).

(** A string is falsy exactly when it is empty. *)
Definition truthy (s : string) : bool :=
  match s with EmptyString => false | _ => true end.

Fixpoint contains (c : ascii) (s : string) : bool :=
  match s with
  | EmptyString => false
  | String x s' => Ascii.eqb x c || contains c s'
  end.

End JsString.

(** ** Path helpers *)

Module NormalizedPathUtils.

(** Modelled from the spec: [NormalizedPathUtils.basename] is not part of
    the sources at hand.  The spec calls it "the path's base name": the
    last component of a [/]-separated path. *)
Definition basename (path : string) : string :=
  JsString.substringFrom path (JsString.lastIndexOf path "/"%char + 1).

(** Modelled from the spec: [NormalizedPathUtils.splitFilename] is not part
    of the sources at hand.  The spec has the counter "appended before the
    extension": the extension starts at the last dot of the file name; a
    name without a dot (or with only a leading dot) has no extension. *)
Definition splitFilename (file : string) : string * string :=
  let lastDot := JsString.lastIndexOf file "."%char in
  if lastDot <? 1 then (file, "")
  else (JsString.substring file 0 lastDot, JsString.substringFrom file lastDot).

End NormalizedPathUtils.

(** ** The file registry *)

Module FileRegistry.

(** [mediaToReflection] is a [Map] keyed by file ids; the deserializer can
    also store under the key [undefined] (a file id it cannot translate),
    which is the field [undefinedMedia]. *)
Record t := mk {
  nextId : Z;
  mediaToReflection : gmap Z Z;
  undefinedMedia : option Z;
  mediaToPath : gmap Z string;
  reflectionToPath : gmap Z string;
  pathToMedia : gmap string Z;
  names : gmap Z string;
  nameUsage : gmap string Z;
}.

(** [new FileRegistry()] *)
Definition empty : t :=
  {| nextId := 1; mediaToReflection := ∅; undefinedMedia := None; mediaToPath := ∅;
     reflectionToPath := ∅; pathToMedia := ∅; names := ∅; nameUsage := ∅ |}.

Record registered := { target : Z; anchor : option string }.

Definition registerAbsolute (r : t) (absolute : string) : registered * t :=
  let anchorIndex := JsString.indexOf absolute "#"%char in
  let anchor :=
    if decide (anchorIndex = -1) then None
    else Some (JsString.substringFrom absolute (anchorIndex + 1)) in
  let absolute :=
    if decide (anchorIndex = -1) then absolute
    else JsString.substring absolute 0 anchorIndex in
  let fresh :=
    ({| target := nextId r; anchor := anchor |},
     {| nextId := nextId r + 1;
        mediaToReflection := mediaToReflection r; undefinedMedia := undefinedMedia r;
        mediaToPath := <[nextId r := absolute]> (mediaToPath r);
        reflectionToPath := reflectionToPath r;
        pathToMedia := <[absolute := nextId r]> (pathToMedia r);
        names := names r;
        nameUsage := nameUsage r |}) in
  match pathToMedia r !! absolute with
  | Some existing =>
      if decide (existing = 0) then fresh
      else ({| target := existing; anchor := anchor |}, r)
  | None => fresh
  end.

(** The path that [registerAbsolute] looks up and stores: the given path
    up to its first [#]. *)
Definition withoutAnchor (absolute : string) : string :=
  let anchorIndex := JsString.indexOf absolute "#"%char in
  if decide (anchorIndex = -1) then absolute
  else JsString.substring absolute 0 anchorIndex.

Definition set_mediaToReflection (f : gmap Z Z → gmap Z Z) (r : t) : t :=
  {| nextId := nextId r;
     mediaToReflection := f (mediaToReflection r); undefinedMedia := undefinedMedia r;
     mediaToPath := mediaToPath r;
     reflectionToPath := reflectionToPath r;
     pathToMedia := pathToMedia r;
     names := names r;
     nameUsage := nameUsage r |}.

Definition set_reflectionToPath (f : gmap Z string → gmap Z string) (r : t) : t :=
  {| nextId := nextId r;
     mediaToReflection := mediaToReflection r; undefinedMedia := undefinedMedia r;
     mediaToPath := mediaToPath r;
     reflectionToPath := f (reflectionToPath r);
     pathToMedia := pathToMedia r;
     names := names r;
     nameUsage := nameUsage r |}.

(** [registerReflection(absolute, reflection)]; the reflection is given by
    its id, the only part of it the registry reads. *)
Definition registerReflection (r : t) (absolute : string) (reflection : Z) : t :=
  let '(res, r1) := registerAbsolute r absolute in
  let r2 := set_reflectionToPath (<[reflection := absolute]>) r1 in
  set_mediaToReflection (<[target res := reflection]>) r2.

Definition registerReflectionPath (r : t) (absolute : string) (reflection : Z) : t :=
  let '(res, r1) := registerAbsolute r absolute in
  set_mediaToReflection (<[target res := reflection]>) r1.

Definition getReflectionPath (r : t) (reflection : Z) : option string :=
  reflectionToPath r !! reflection.

Definition set_undefinedMedia (v : option Z) (r : t) : t :=
  {| nextId := nextId r;
     mediaToReflection := mediaToReflection r;
     undefinedMedia := v;
     mediaToPath := mediaToPath r;
     reflectionToPath := reflectionToPath r;
     pathToMedia := pathToMedia r;
     names := names r;
     nameUsage := nameUsage r |}.

(** [mediaToReflection.delete(media)], where [media] may be [undefined]
    (the source asserts with [!] that it is not): that deletes the entry
    kept under the key [undefined], if there is one. *)
Definition removeReflection (r : t) (reflection : Z) : t :=
  match reflectionToPath r !! reflection with
  | Some absolute =>
      if JsString.truthy absolute then
        match pathToMedia r !! absolute with
        | Some media => set_mediaToReflection (delete media) r
        | None => set_undefinedMedia None r
        end
      else r
  | None => r
  end.

(** What [resolve] returns: a path, a reflection, or [undefined].  The
    project is passed as its lookup function [getReflectionById]. *)
Inductive resolved (R : Type) :=
| ResolvedPath (p : string)
| ResolvedReflection (refl : R)
| ResolvedUndefined.
Arguments ResolvedPath {R} p.
Arguments ResolvedReflection {R} refl.
Arguments ResolvedUndefined {R}.

Definition resolvePath (r : t) (id : Z) : option string := mediaToPath r !! id.

Definition resolve {R : Type} (r : t) (id : Z)
    (getReflectionById : Z → option R) : resolved R :=
  let viaPath :=
    match mediaToPath r !! id with
    | Some p => ResolvedPath p
    | None => ResolvedUndefined
    end in
  match mediaToReflection r !! id with
  | Some reflId =>
      if decide (reflId = 0) then viaPath
      else match getReflectionById reflId with
           | Some refl => ResolvedReflection refl
           | None => ResolvedUndefined
           end
  | None => viaPath
  end.

(** The candidate [`${name}-${counter}${ext}`]. *)
Definition suffixed (name ext : string) (counter : Z) : string :=
  name +:+ "-" +:+ pretty counter +:+ ext.

(** The loop [while (nameUsage.has(candidate)) ++counter], with the number
    of iterations bounded by [fuel]; [None] when the bound is hit. *)
Fixpoint freeCounter (fuel : nat) (usage : gmap string Z)
    (name ext : string) (counter : Z) : option Z :=
  match fuel with
  | O => None
  | S fuel' =>
      match usage !! suffixed name ext counter with
      | Some _ => freeCounter fuel' usage name ext (counter + 1)
      | None => Some counter
      end
  end.

Definition set_names (nm : gmap Z string) (us : gmap string Z) (r : t) : t :=
  {| nextId := nextId r;
     mediaToReflection := mediaToReflection r; undefinedMedia := undefinedMedia r;
     mediaToPath := mediaToPath r;
     reflectionToPath := reflectionToPath r;
     pathToMedia := pathToMedia r;
     names := nm;
     nameUsage := us |}.

(** [getName(id)].  The loop runs at most [size nameUsage + 1] times, as
    [freeCounter_total] shows, so the fuel given here is never used up;
    the outer [option] is that case, the inner one is [undefined]. *)
Definition getName (r : t) (id : Z) : option (option string * t) :=
  match mediaToPath r !! id with
  | None => Some (None, r)
  | Some absolute =>
      if negb (JsString.truthy absolute) then Some (None, r)
      else
        match names r !! id with
        | Some n => Some (Some n, r)
        | None =>
            let file := NormalizedPathUtils.basename absolute in
            match nameUsage r !! file with
            | None =>
                Some (Some file,
                      set_names (<[id := file]> (names r))
                                (<[file := 1]> (nameUsage r)) r)
            | Some counter0 =>
                let '(name, ext) := NormalizedPathUtils.splitFilename file in
                match freeCounter (S (size (nameUsage r))) (nameUsage r)
                                  name ext counter0 with
                | None => None
                | Some counter =>
                    let cand := suffixed name ext counter in
                    Some (Some cand,
                          set_names
                            (<[id := cand]> (names r))
                            (<[cand := counter + 1]>
                               (<[file := counter + 1]> (nameUsage r))) r)
                end
            end
        end
  end.

(** Display names asked for one after the other, as a renderer does. *)
Fixpoint getNames (r : t) (ids : list Z) : option (list (option string) * t) :=
  match ids with
  | [] => Some ([], r)
  | id :: ids' =>
      match getName r id with
      | None => None
      | Some (n, r1) =>
          match getNames r1 ids' with
          | None => None
          | Some (ns, r2) => Some (n :: ns, r2)
          end
      end
  end.

(** [getNameToAbsoluteMap()].  The loop runs over [names.entries()], in
    the order in which the names were handed out; the registry as modelled
    keeps the entries and not their order, so they are passed in.  A file
    without a path gives the value [undefined] (the source asserts with [!]
    that there is one). *)
Definition getNameToAbsoluteMap (r : t) (entries : list (Z * string))
    : gmap string (option string) :=
  foldl (λ result entry, <[entry.2 := mediaToPath r !! entry.1]> result) ∅ entries.

(** What [registerAbsolute] does once the anchor is split off. *)
Definition registerStripped (r : t) (absolute : string) (a : option string)
    : registered * t :=
  let fresh :=
    ({| target := nextId r; anchor := a |},
     {| nextId := nextId r + 1;
        mediaToReflection := mediaToReflection r; undefinedMedia := undefinedMedia r;
        mediaToPath := <[nextId r := absolute]> (mediaToPath r);
        reflectionToPath := reflectionToPath r;
        pathToMedia := <[absolute := nextId r]> (pathToMedia r);
        names := names r;
        nameUsage := nameUsage r |}) in
  match pathToMedia r !! absolute with
  | Some existing =>
      if decide (existing = 0) then fresh
      else ({| target := existing; anchor := a |}, r)
  | None => fresh
  end.

(** The id counter only grows, so it stays positive in every registry
    built from [new FileRegistry()]. *)
Inductive reachable : t → Prop :=
| reach_empty : reachable empty
| reach_registerAbsolute r p :
    reachable r → reachable (registerAbsolute r p).2
| reach_registerReflection r p refl :
    reachable r → reachable (registerReflection r p refl)
| reach_registerReflectionPath r p refl :
    reachable r → reachable (registerReflectionPath r p refl)
| reach_removeReflection r refl :
    reachable r → reachable (removeReflection r refl)
| reach_getName r id n r' :
    reachable r → getName r id = Some (n, r') → reachable r'.

(** The names [getName] hands out to files that share a base name, from
    counter [k] on. *)
Fixpoint suffixedFrom (name ext : string) (k : Z) (n : nat) : list (option string) :=
  match n with
  | O => []
  | S n' => Some (suffixed name ext k) :: suffixedFrom name ext (k + 1) n'
  end.

(** Files that still wait for a display name and share the base name [file]. *)
Definition unnamed (r : t) (file : string) (ids : list Z) : Prop :=
  ∀ i, i ∈ ids →
    ∃ p, mediaToPath r !! i = Some p ∧ JsString.truthy p = true
         ∧ NormalizedPathUtils.basename p = file ∧ names r !! i = None.

(** The same condition for one file, as a test. *)
Definition awaitsName (r : t) (file : string) (i : Z) : bool :=
  match mediaToPath r !! i with
  | Some p =>
      JsString.truthy p
      && bool_decide (NormalizedPathUtils.basename p = file)
      && bool_decide (names r !! i = None)
  | None => false
  end.

(** A reflection registered under a path that carries an anchor. *)
Definition anchoredCanonical : t := registerReflection empty "/a/b.md#sec" 7.

(** Three files called [index.md] in three directories. *)
Definition threeIndexFiles : t :=
  (registerAbsolute
     (registerAbsolute
        (registerAbsolute empty "/a/index.md").2 "/b/index.md").2 "/c/index.md").2.

(** [index.md], [index-1.md] and [index.md] again, in three directories,
    the first two of them asked for their names. *)
Definition interleavedIndexFiles : t :=
  (registerAbsolute
     (registerAbsolute
        (registerAbsolute empty "/a/index.md").2 "/b/index-1.md").2 "/c/index.md").2.

Definition interleavedIndexFilesNamed : t :=
  default interleavedIndexFiles (snd <$> getNames interleavedIndexFiles [1; 2]).

(** Two files called [x.md] and one called [x-1.md]. *)
Definition suffixLikeFiles : t :=
  (registerAbsolute
     (registerAbsolute
        (registerAbsolute empty "/a/x.md").2 "/b/x.md").2 "/c/x-1.md").2.

(** The same registry once the three files were asked for their names. *)
Definition threeIndexFilesNamed : t :=
  default threeIndexFiles (snd <$> getNames threeIndexFiles [1; 2; 3]).

(** What every registry built from [new FileRegistry()] keeps: file ids
    are positive and below the counter, the two path maps are inverse to
    each other, a display name that was handed out is marked as used, no
    two files have the same display name, and a file with a display name
    has a path. *)
Record kept (r : t) : Prop := {
  kept_next : 0 < nextId r;
  kept_ids : ∀ p id,
    pathToMedia r !! p = Some id → 0 < id < nextId r ∧ mediaToPath r !! id = Some p;
  kept_paths : ∀ id p, mediaToPath r !! id = Some p → pathToMedia r !! p = Some id;
  kept_used : ∀ id n, names r !! id = Some n → is_Some (nameUsage r !! n);
  kept_distinct : ∀ a b n, names r !! a = Some n → names r !! b = Some n → a = b;
  kept_named : ∀ id n, names r !! id = Some n → is_Some (mediaToPath r !! id);
}.

End FileRegistry.

(** ** Reflections *)

Module Models.

Inductive ReflectionVariant :=
| VProject | VDeclaration | VSignature | VParam | VTypeParam | VDocument | VReference.

#[global] Instance ReflectionVariant_eq_dec : EqDecision ReflectionVariant.
Proof. solve_decision. Defined.

(** [ReflectionKind] is a number on the wire; only the kinds the
    deserializer names are listed. *)
Module ReflectionKind.
Definition Project : Z := 1.
Definition Module : Z := 2.
Definition TypeParameter : Z := 131072.
Definition Reference : Z := 4194304.
Definition Document : Z := 8388608.
End ReflectionKind.

Inductive TraverseProperty :=
| Children | Documents | Parameters | TypeLiteral | TypeParameter
| Signatures | IndexSignature | GetSignature | SetSignature.

#[global] Instance TraverseProperty_eq_dec : EqDecision TraverseProperty.
Proof. solve_decision. Defined.

(** A [ReflectionSymbolId] is identified by its stable key, which is what
    [StableKeyMap] compares. *)
Definition ReflectionSymbolId := string.

(** The type model, after the builders of the deserializer.  A
    [ReflectionType] owns a declaration, held by reference (its id); a
    [ReferenceType] names its target by reflection id, by symbol, or not at
    all. *)
Inductive ReferenceTarget :=
| TargetId (id : Z)
| TargetSymbol (sid : ReflectionSymbolId)
| TargetBroken.

Inductive LiteralValue :=
| LitString (s : string) | LitNumber (n : Z) | LitBoolean (b : bool)
| LitNull | LitBigInt (negative : bool) (value : string).

Inductive SomeTypeOf {D : Type} :=
| ArrayType (elementType : SomeTypeOf)
| ConditionalType (checkType extendsType trueType falseType : SomeTypeOf)
| IndexedAccessType (objectType indexType : SomeTypeOf)
| InferredType (name : string) (constraint : option SomeTypeOf)
| IntersectionType (types : list SomeTypeOf)
| IntrinsicType (name : string)
| LiteralType (value : LiteralValue)
| MappedType (parameter : string) (parameterType templateType : SomeTypeOf)
    (readonlyModifier optionalModifier : option string) (nameType : option SomeTypeOf)
| OptionalType (elementType : SomeTypeOf)
| PredicateType (name : string) (asserts : bool) (targetType : option SomeTypeOf)
| QueryType (queryType : SomeTypeOf)
| ReferenceType (name : string) (target : ReferenceTarget)
    (typeArguments : option (list SomeTypeOf))
| ReflectionType (declaration : D)
| RestType (elementType : SomeTypeOf)
| TemplateLiteralType (head : string) (tail : list (SomeTypeOf * string))
| TupleType (elements : list SomeTypeOf)
| NamedTupleMember (name : string) (isOptional : bool) (element : SomeTypeOf)
| TypeOperatorType (target : SomeTypeOf) (operator : string)
| UnionType (types : list SomeTypeOf)
| UnknownType (name : string).
Arguments SomeTypeOf : clear implicits.

Definition SomeType := SomeTypeOf Z.

(** The typed slots of a reflection; [None] is a property that is not
    set (or was [delete]d).  Reflections are held by reference. *)
Record SlotsOf {D : Type} := {
  children : option (list D);
  documents : option (list D);
  childrenIncludingDocuments : option (list Z);
  groups : option (list (string * list Z));
  categories : option (list (string * list Z));
  typeParameters : option (list D);
  type : option (SomeTypeOf D);
  defaultType : option (SomeTypeOf D);
  signatures : option (list D);
  indexSignatures : option (list D);
  getSignature : option D;
  setSignature : option D;
  parameters : option (list D);
}.
Arguments SlotsOf : clear implicits.

Definition Slots := SlotsOf Z.

Definition noSlots : Slots :=
  {| children := None; documents := None; childrenIncludingDocuments := None;
     groups := None; categories := None; typeParameters := None; type := None;
     defaultType := None;
     signatures := None; indexSignatures := None; getSignature := None;
     setSignature := None; parameters := None |}.

(** A reflection object.  [target] is set on reference reflections only. *)
Record Reflection := {
  id : Z;
  name : string;
  kind : Z;
  variant : ReflectionVariant;
  parent : option Z;
  target : option ReferenceTarget;
  slots : Slots;
}.

Definition set_slots (f : Slots → Slots) (r : Reflection) : Reflection :=
  {| id := id r; name := name r; kind := kind r; variant := variant r;
     parent := parent r; target := target r; slots := f (slots r) |}.

Definition set_parent (p : option Z) (r : Reflection) : Reflection :=
  {| id := id r; name := name r; kind := kind r; variant := variant r;
     parent := p; target := target r; slots := slots r |}.

Definition set_name (n : string) (r : Reflection) : Reflection :=
  {| id := id r; name := n; kind := kind r; variant := variant r;
     parent := parent r; target := target r; slots := slots r |}.

Definition set_target (t : option ReferenceTarget) (r : Reflection) : Reflection :=
  {| id := id r; name := name r; kind := kind r; variant := variant r;
     parent := parent r; target := t; slots := slots r |}.

(** [removeIfPresent(arr, item)]: the first occurrence is spliced out. *)
Fixpoint removeFirst (x : Z) (l : list Z) : list Z :=
  match l with
  | [] => []
  | y :: l' => if decide (y = x) then l' else y :: removeFirst x l'
  end.

(** [removeIfPresent(slot, item); if (!slot?.length) delete slot] *)
Definition removeFromSlot (x : Z) (slot : option (list Z)) : option (list Z) :=
  match slot with
  | None => None
  | Some l => match removeFirst x l with [] => None | l' => Some l' end
  end.

Definition pushToSlot (x : Z) (slot : option (list Z)) : option (list Z) :=
  Some (default [] slot ++ [x]).

Definition typeLiteral (ty : option SomeType) : list Z :=
  match ty with Some (ReflectionType d) => [d] | _ => [] end.

Definition tagged (p : TraverseProperty) (l : list Z) : list (Z * TraverseProperty) :=
  (λ c, (c, p)) <$> l.

(** Modelled from the spec: [traverse] of the reflection classes other than
    [TypeParameterReflection] is not part of the sources at hand.  The spec
    has it visit "signatures → parameters → type parameters → index
    signatures → type-literal → nested children"; the get and set signature
    are put with the signatures and the documents after the children, so
    that every property the callback of [removeReflection] handles is
    visited.  A type parameter has no child reflections (that one is in the
    sources).  The result lists the visits in order. *)
Definition traverse (r : Reflection) : list (Z * TraverseProperty) :=
  match variant r with
  | VTypeParam => []
  | _ =>
      let s := slots r in
      tagged Signatures (default [] (signatures s))
      ++ tagged GetSignature (option_list (getSignature s))
      ++ tagged SetSignature (option_list (setSignature s))
      ++ tagged Parameters (default [] (parameters s))
      ++ tagged TypeParameter (default [] (typeParameters s))
      ++ tagged IndexSignature (default [] (indexSignatures s))
      ++ tagged TypeLiteral (typeLiteral (type s))
      ++ tagged Children (default [] (children s))
      ++ tagged Documents (default [] (documents s))
  end.

(** Modelled from the spec: [ContainerReflection.removeChild] is not part of
    the sources at hand; it takes the reflection out of "the children list"
    of its parent. *)
Definition removeChild (x : Z) (s : Slots) : Slots :=
  {| children := removeFromSlot x (children s);
     documents := removeFromSlot x (documents s);
     childrenIncludingDocuments := removeFromSlot x (childrenIncludingDocuments s);
     groups := groups s; categories := categories s;
     typeParameters := typeParameters s; type := type s;
     defaultType := defaultType s;
     signatures := signatures s; indexSignatures := indexSignatures s;
     getSignature := getSignature s; setSignature := setSignature s;
     parameters := parameters s |}.

(** Modelled from the spec: [ContainerReflection.addChild] is not part of the
    sources at hand; it "appends them to target's child list", documents to
    the list of documents. *)
Definition addChild (x : Z) (isDocument : bool) (s : Slots) : Slots :=
  {| children := if isDocument then children s else pushToSlot x (children s);
     documents := if isDocument then pushToSlot x (documents s) else documents s;
     childrenIncludingDocuments := pushToSlot x (childrenIncludingDocuments s);
     groups := groups s; categories := categories s;
     typeParameters := typeParameters s; type := type s;
     defaultType := defaultType s;
     signatures := signatures s; indexSignatures := indexSignatures s;
     getSignature := getSignature s; setSignature := setSignature s;
     parameters := parameters s |}.

(** The [switch] in the callback of [removeReflection]. *)
Definition detachSlot (x : Z) (p : TraverseProperty) (s : Slots) : Slots :=
  let upd sigs get set idx params tparams ty :=
    {| children := children s; documents := documents s;
       childrenIncludingDocuments := childrenIncludingDocuments s;
       groups := groups s; categories := categories s;
       typeParameters := tparams; type := ty; defaultType := defaultType s;
       signatures := sigs; indexSignatures := idx;
       getSignature := get; setSignature := set; parameters := params |} in
  match p with
  | Children | Documents => removeChild x s
  | GetSignature =>
      upd (signatures s) None (setSignature s) (indexSignatures s)
          (parameters s) (typeParameters s) (type s)
  | IndexSignature =>
      upd (signatures s) (getSignature s) (setSignature s)
          (removeFromSlot x (indexSignatures s))
          (parameters s) (typeParameters s) (type s)
  | Parameters =>
      upd (signatures s) (getSignature s) (setSignature s) (indexSignatures s)
          (removeFromSlot x (parameters s)) (typeParameters s) (type s)
  | SetSignature =>
      upd (signatures s) (getSignature s) None (indexSignatures s)
          (parameters s) (typeParameters s) (type s)
  | Signatures =>
      upd (removeFromSlot x (signatures s)) (getSignature s) (setSignature s)
          (indexSignatures s) (parameters s) (typeParameters s) (type s)
  | TypeLiteral =>
      upd (signatures s) (getSignature s) (setSignature s) (indexSignatures s)
          (parameters s) (typeParameters s) (Some (IntrinsicType "Object"))
  | TypeParameter =>
      upd (signatures s) (getSignature s) (setSignature s) (indexSignatures s)
          (parameters s) (removeFromSlot x (typeParameters s)) (type s)
  end.

(** [parent.traverse(callback)] with the callback of [removeReflection]:
    the first visit of [x] decides which slot is cleaned, and stops the
    traversal. *)
Definition detach (x : Z) (parentObj : Reflection) : Reflection :=
  match List.find (λ cp, bool_decide (cp.1 = x)) (traverse parentObj) with
  | Some (_, p) => set_slots (detachSlot x p) parentObj
  | None => parentObj
  end.

(** The reflections a traversal visits under a given property. *)
Definition slotList (p : TraverseProperty) (s : Slots) : list Z :=
  match p with
  | Children => default [] (children s)
  | Documents => default [] (documents s)
  | Parameters => default [] (parameters s)
  | TypeLiteral => typeLiteral (type s)
  | TypeParameter => default [] (typeParameters s)
  | Signatures => default [] (signatures s)
  | IndexSignature => default [] (indexSignatures s)
  | GetSignature => option_list (getSignature s)
  | SetSignature => option_list (setSignature s)
  end.

Definition kidsOf (o : Reflection) : list Z := default [] (children (slots o)).

(** *** Maps over the reflections that types and slots hold *)

(** The same type over other reflections: [f] on the declarations that
    reflection types hold, [g] on the targets of reference types. *)
Section tmap.
Context {D D' : Type} (f : D → D') (g : ReferenceTarget → ReferenceTarget).
Fixpoint tmap (t : SomeTypeOf D) : SomeTypeOf D' :=
  match t with
  | ArrayType e => ArrayType (tmap e)
  | ConditionalType c x t1 t2 => ConditionalType (tmap c) (tmap x) (tmap t1) (tmap t2)
  | IndexedAccessType o i => IndexedAccessType (tmap o) (tmap i)
  | InferredType n c => InferredType n (tmap <$> c)
  | IntersectionType ts => IntersectionType (tmap <$> ts)
  | IntrinsicType n => IntrinsicType n
  | LiteralType v => LiteralType v
  | MappedType p pt tp r o nt => MappedType p (tmap pt) (tmap tp) r o (tmap <$> nt)
  | OptionalType e => OptionalType (tmap e)
  | PredicateType n a tg => PredicateType n a (tmap <$> tg)
  | QueryType q => QueryType (tmap q)
  | ReferenceType n tg args => ReferenceType n (g tg) (option_map (fmap (M:=list) tmap) args)
  | ReflectionType d => ReflectionType (f d)
  | RestType e => RestType (tmap e)
  | TemplateLiteralType h tl => TemplateLiteralType h ((λ p, (tmap p.1, p.2)) <$> tl)
  | TupleType es => TupleType (tmap <$> es)
  | NamedTupleMember n o e => NamedTupleMember n o (tmap e)
  | TypeOperatorType t o => TypeOperatorType (tmap t) o
  | UnionType ts => UnionType (tmap <$> ts)
  | UnknownType n => UnknownType n
  end.
End tmap.

(** The same slots over other reflections.  The lists of ids
    ([childrenIncludingDocuments], [groups], [categories]) stay. *)
Definition smap {D D' : Type} (f : D → D')
    (g : ReferenceTarget → ReferenceTarget) (s : SlotsOf D) : SlotsOf D' :=
  {| children := fmap (M := list) f <$> children s;
     documents := fmap (M := list) f <$> documents s;
     childrenIncludingDocuments := childrenIncludingDocuments s;
     groups := groups s; categories := categories s;
     typeParameters := fmap (M := list) f <$> typeParameters s;
     type := tmap f g <$> type s;
     defaultType := tmap f g <$> defaultType s;
     signatures := fmap (M := list) f <$> signatures s;
     indexSignatures := fmap (M := list) f <$> indexSignatures s;
     getSignature := f <$> getSignature s;
     setSignature := f <$> setSignature s;
     parameters := fmap (M := list) f <$> parameters s |}.

Definition noIds {D : Type} (s : SlotsOf D) : SlotsOf D :=
  {| children := children s; documents := documents s;
     childrenIncludingDocuments := None; groups := None; categories := None;
     typeParameters := typeParameters s; type := type s;
     defaultType := defaultType s;
     signatures := signatures s; indexSignatures := indexSignatures s;
     getSignature := getSignature s; setSignature := setSignature s;
     parameters := parameters s |}.

(** What a reflection of a given variant serializes and revives of its
    slots.  [TypeParameterReflection] has its [type] and its [default]
    and nothing else; the classes of the other variants are not part of the
    sources at hand, and keep every slot. *)
Definition ownSlots {D : Type} (v : ReflectionVariant) (s : SlotsOf D) : SlotsOf D :=
  match v with
  | VTypeParam =>
      {| children := None; documents := None; childrenIncludingDocuments := None;
         groups := None; categories := None; typeParameters := None;
         type := type s; defaultType := defaultType s;
         signatures := None; indexSignatures := None; getSignature := None;
         setSignature := None; parameters := None |}
  | _ => s
  end.

(** *** Trees of reflections *)

(** Modelled from the spec: [JSONOutput.SomeReflection] (schema.ts) is not
    part of the sources at hand.  By the spec the wire format is a "nested
    object" document in which "every nested reflection/type carries a
    variant/type discriminator"; a reflection is written with its scalar
    fields and, nested in it, the reflections and types of its slots.  The
    label is the id on the wire, and nothing in a shape. *)
Inductive TreeOf {L : Type} :=
| Node (label : L) (name : string) (variant : ReflectionVariant) (kind : Z)
    (owned : SlotsOf TreeOf).
Arguments TreeOf : clear implicits.

Definition Wire := TreeOf Z.
Definition Shape := TreeOf unit.

Definition label {L : Type} (t : TreeOf L) : L := match t with Node l _ _ _ _ => l end.
Definition nameOf {L : Type} (t : TreeOf L) : string :=
  match t with Node _ n _ _ _ => n end.
Definition variantOfTree {L : Type} (t : TreeOf L) : ReflectionVariant :=
  match t with Node _ _ v _ _ => v end.
Definition kindOf {L : Type} (t : TreeOf L) : Z := match t with Node _ _ _ k _ => k end.
Definition owned {L : Type} (t : TreeOf L) : SlotsOf (TreeOf L) :=
  match t with Node _ _ _ _ s => s end.

(** What is left of a wire reflection "up to renumbering": ids, and the
    targets of references, which are ids, are forgotten. *)
Fixpoint erase (w : Wire) : Shape :=
  match w with
  | Node _ n v k s => Node () n v k (noIds (smap erase (λ _, TargetBroken) s))
  end.

(** *** Types and slots that agree up to their reflections *)

(** Two types that differ only in the declarations of their reflection
    types, which [R] relates, and in the targets of their reference types,
    which [T] relates. *)
Inductive TRel {D D' : Type} (R : D → D' → Prop)
    (T : ReferenceTarget → ReferenceTarget → Prop) : SomeTypeOf D → SomeTypeOf D' → Prop :=
| TRel_Array e e' : TRel R T e e' → TRel R T (ArrayType e) (ArrayType e')
| TRel_Conditional c c' x x' t1 t1' t2 t2' :
    TRel R T c c' → TRel R T x x' → TRel R T t1 t1' → TRel R T t2 t2' →
    TRel R T (ConditionalType c x t1 t2) (ConditionalType c' x' t1' t2')
| TRel_Indexed o o' i i' :
    TRel R T o o' → TRel R T i i' → TRel R T (IndexedAccessType o i) (IndexedAccessType o' i')
| TRel_Inferred n c c' :
    option_Forall2 (TRel R T) c c' → TRel R T (InferredType n c) (InferredType n c')
| TRel_Intersection ts ts' :
    Forall2 (TRel R T) ts ts' → TRel R T (IntersectionType ts) (IntersectionType ts')
| TRel_Intrinsic n : TRel R T (IntrinsicType n) (IntrinsicType n)
| TRel_Literal v : TRel R T (LiteralType v) (LiteralType v)
| TRel_Mapped p pt pt' tp tp' r o nt nt' :
    TRel R T pt pt' → TRel R T tp tp' → option_Forall2 (TRel R T) nt nt' →
    TRel R T (MappedType p pt tp r o nt) (MappedType p pt' tp' r o nt')
| TRel_Optional e e' : TRel R T e e' → TRel R T (OptionalType e) (OptionalType e')
| TRel_Predicate n a tg tg' :
    option_Forall2 (TRel R T) tg tg' → TRel R T (PredicateType n a tg) (PredicateType n a tg')
| TRel_Query q q' : TRel R T q q' → TRel R T (QueryType q) (QueryType q')
| TRel_Reference n tg tg' args args' :
    T tg tg' →
    option_Forall2 (Forall2 (TRel R T)) args args' →
    TRel R T (ReferenceType n tg args) (ReferenceType n tg' args')
| TRel_Reflection d d' : R d d' → TRel R T (ReflectionType d) (ReflectionType d')
| TRel_Rest e e' : TRel R T e e' → TRel R T (RestType e) (RestType e')
| TRel_Template h tl tl' :
    Forall2 (λ p p', TRel R T p.1 p'.1 ∧ p.2 = p'.2) tl tl' →
    TRel R T (TemplateLiteralType h tl) (TemplateLiteralType h tl')
| TRel_Tuple es es' : Forall2 (TRel R T) es es' → TRel R T (TupleType es) (TupleType es')
| TRel_Named n o e e' :
    TRel R T e e' → TRel R T (NamedTupleMember n o e) (NamedTupleMember n o e')
| TRel_Operator t t' o :
    TRel R T t t' → TRel R T (TypeOperatorType t o) (TypeOperatorType t' o)
| TRel_Union ts ts' : Forall2 (TRel R T) ts ts' → TRel R T (UnionType ts) (UnionType ts')
| TRel_Unknown n : TRel R T (UnknownType n) (UnknownType n).

Record SRel {D D' : Type} (R : D → D' → Prop)
    (T : ReferenceTarget → ReferenceTarget → Prop) (s : SlotsOf D) (s' : SlotsOf D')
    : Prop := {
  srel_signatures : option_Forall2 (Forall2 R) (signatures s) (signatures s');
  srel_getSignature : option_Forall2 R (getSignature s) (getSignature s');
  srel_setSignature : option_Forall2 R (setSignature s) (setSignature s');
  srel_parameters : option_Forall2 (Forall2 R) (parameters s) (parameters s');
  srel_typeParameters :
    option_Forall2 (Forall2 R) (typeParameters s) (typeParameters s');
  srel_indexSignatures :
    option_Forall2 (Forall2 R) (indexSignatures s) (indexSignatures s');
  srel_type : option_Forall2 (TRel R T) (type s) (type s');
  srel_defaultType : option_Forall2 (TRel R T) (defaultType s) (defaultType s');
  srel_children : option_Forall2 (Forall2 R) (children s) (children s');
  srel_documents : option_Forall2 (Forall2 R) (documents s) (documents s');
}.

(** *** Induction over nested types and trees *)

Section type_ind.
Context {D : Type} (P : SomeTypeOf D → Prop).
Hypothesis HArray : ∀ e, P e → P (ArrayType e).
Hypothesis HConditional : ∀ c x t1 t2, P c → P x → P t1 → P t2 → P (ConditionalType c x t1 t2).
Hypothesis HIndexed : ∀ o i, P o → P i → P (IndexedAccessType o i).
Hypothesis HInferred : ∀ n c, from_option P True c → P (InferredType n c).
Hypothesis HIntersection : ∀ ts, Forall P ts → P (IntersectionType ts).
Hypothesis HIntrinsic : ∀ n, P (IntrinsicType n).
Hypothesis HLiteral : ∀ v, P (LiteralType v).
Hypothesis HMapped : ∀ p pt tp r o nt, P pt → P tp → from_option P True nt →
  P (MappedType p pt tp r o nt).
Hypothesis HOptional : ∀ e, P e → P (OptionalType e).
Hypothesis HPredicate : ∀ n a tg, from_option P True tg → P (PredicateType n a tg).
Hypothesis HQuery : ∀ q, P q → P (QueryType q).
Hypothesis HReference : ∀ n tg args, from_option (Forall P) True args →
  P (ReferenceType n tg args).
Hypothesis HReflection : ∀ d, P (ReflectionType d).
Hypothesis HRest : ∀ e, P e → P (RestType e).
Hypothesis HTemplate : ∀ h tl, Forall (λ p, P p.1) tl → P (TemplateLiteralType h tl).
Hypothesis HTuple : ∀ es, Forall P es → P (TupleType es).
Hypothesis HNamed : ∀ n o e, P e → P (NamedTupleMember n o e).
Hypothesis HOperator : ∀ t o, P t → P (TypeOperatorType t o).
Hypothesis HUnion : ∀ ts, Forall P ts → P (UnionType ts).
Hypothesis HUnknown : ∀ n, P (UnknownType n).

Fixpoint SomeTypeOf_nested_ind (t : SomeTypeOf D) : P t :=
  let all := fix all (l : list (SomeTypeOf D)) : Forall P l :=
    match l with
    | [] => List.Forall_nil _
    | x :: l' => List.Forall_cons _ x l' (SomeTypeOf_nested_ind x) (all l')
    end in
  let opt := λ (o : option (SomeTypeOf D)),
    match o return from_option P True o with
    | Some x => SomeTypeOf_nested_ind x
    | None => I
    end in
  match t with
  | ArrayType e => HArray e (SomeTypeOf_nested_ind e)
  | ConditionalType c x t1 t2 =>
      HConditional c x t1 t2 (SomeTypeOf_nested_ind c) (SomeTypeOf_nested_ind x)
        (SomeTypeOf_nested_ind t1) (SomeTypeOf_nested_ind t2)
  | IndexedAccessType o i =>
      HIndexed o i (SomeTypeOf_nested_ind o) (SomeTypeOf_nested_ind i)
  | InferredType n c => HInferred n c (opt c)
  | IntersectionType ts => HIntersection ts (all ts)
  | IntrinsicType n => HIntrinsic n
  | LiteralType v => HLiteral v
  | MappedType p pt tp r o nt =>
      HMapped p pt tp r o nt (SomeTypeOf_nested_ind pt) (SomeTypeOf_nested_ind tp) (opt nt)
  | OptionalType e => HOptional e (SomeTypeOf_nested_ind e)
  | PredicateType n a tg => HPredicate n a tg (opt tg)
  | QueryType q => HQuery q (SomeTypeOf_nested_ind q)
  | ReferenceType n tg args =>
      HReference n tg args
        match args return from_option (Forall P) True args with
        | Some l => all l
        | None => I
        end
  | ReflectionType d => HReflection d
  | RestType e => HRest e (SomeTypeOf_nested_ind e)
  | TemplateLiteralType h tl =>
      HTemplate h tl
        ((fix all (l : list (SomeTypeOf D * string)) : Forall (λ p, P p.1) l :=
            match l with
            | [] => List.Forall_nil _
            | p :: l' => List.Forall_cons (λ p, P p.1) p l' (SomeTypeOf_nested_ind p.1) (all l')
            end) tl)
  | TupleType es => HTuple es (all es)
  | NamedTupleMember n o e => HNamed n o e (SomeTypeOf_nested_ind e)
  | TypeOperatorType t o => HOperator t o (SomeTypeOf_nested_ind t)
  | UnionType ts => HUnion ts (all ts)
  | UnknownType n => HUnknown n
  end.
End type_ind.

Definition option_diag {A} (Q : A → A → Prop) (o : option A) :
  from_option (λ x, Q x x) True o → option_Forall2 Q o o :=
  match o return from_option (λ x, Q x x) True o → option_Forall2 Q o o with
  | Some x => λ H, Some_Forall2 Q x x H
  | None => λ _, None_Forall2 Q
  end.

Definition TRel_diag {D : Type} (P : D → Prop) (rec : ∀ d, P d) :
  ∀ t : SomeTypeOf D, TRel (λ x _, P x) (λ _ _, True) t t.
Proof.
  refine (SomeTypeOf_nested_ind _ _ _ _ _ _ _ _ _ _ _ _ _ _ _ _ _ _ _ _ _).
  - intros e H. exact (TRel_Array _ _ e e H).
  - intros c x t1 t2 Hc Hx H1 H2. exact (TRel_Conditional _ _ _ _ _ _ _ _ _ _ Hc Hx H1 H2).
  - intros o i Ho Hi. exact (TRel_Indexed _ _ _ _ _ _ Ho Hi).
  - intros n c Hc. exact (TRel_Inferred _ _ n c c (option_diag _ c Hc)).
  - intros ts H. exact (TRel_Intersection _ _ ts ts (Forall_Forall2_diag _ ts H)).
  - intros n. exact (TRel_Intrinsic _ _ n).
  - intros v. exact (TRel_Literal _ _ v).
  - intros p pt tp r o nt Hpt Htp Hnt.
    exact (TRel_Mapped _ _ p _ _ _ _ r o nt nt Hpt Htp (option_diag _ nt Hnt)).
  - intros e H. exact (TRel_Optional _ _ e e H).
  - intros n a tg H. exact (TRel_Predicate _ _ n a tg tg (option_diag _ tg H)).
  - intros q H. exact (TRel_Query _ _ q q H).
  - intros n tg args H. refine (TRel_Reference _ _ n tg tg args args I _).
    destruct args as [l|]; [|exact (None_Forall2 _)].
    exact (Some_Forall2 _ l l (Forall_Forall2_diag _ l H)).
  - intros d. exact (TRel_Reflection _ _ d d (rec d)).
  - intros e H. exact (TRel_Rest _ _ e e H).
  - intros h tl H. refine (TRel_Template _ _ h tl tl (Forall_Forall2_diag _ tl _)).
    exact (Forall_impl _ _ tl H (λ p Hp, conj Hp eq_refl)).
  - intros es H. exact (TRel_Tuple _ _ es es (Forall_Forall2_diag _ es H)).
  - intros n o e H. exact (TRel_Named _ _ n o e e H).
  - intros t o H. exact (TRel_Operator _ _ t t o H).
  - intros ts H. exact (TRel_Union _ _ ts ts (Forall_Forall2_diag _ ts H)).
  - intros n. exact (TRel_Unknown _ _ n).
Defined.

Section tree_ind.
Context {L : Type} (P : TreeOf L → Prop).
Hypothesis HNode : ∀ l n v k s,
  SRel (λ x _, P x) (λ _ _, True) s s → P (Node l n v k s).

Fixpoint TreeOf_nested_ind (w : TreeOf L) : P w :=
  match w with
  | Node l n v k s =>
      let all := fix all (ws : list (TreeOf L)) : Forall2 (λ x _, P x) ws ws :=
        match ws with
        | [] => List.Forall2_nil _
        | x :: ws' => List.Forall2_cons x x (TreeOf_nested_ind x) (all ws')
        end in
      let some := λ o : option (list (TreeOf L)),
        match o return option_Forall2 (Forall2 (λ x _, P x)) o o with
        | Some ws => Some_Forall2 _ ws ws (all ws)
        | None => None_Forall2 _
        end in
      let one := λ o : option (TreeOf L),
        match o return option_Forall2 (λ x _, P x) o o with
        | Some x => Some_Forall2 _ x x (TreeOf_nested_ind x)
        | None => None_Forall2 _
        end in
      let ty := λ o : option (SomeTypeOf (TreeOf L)),
        match o return option_Forall2 (TRel (λ x _, P x) (λ _ _, True)) o o with
        | Some t => Some_Forall2 _ t t (TRel_diag P TreeOf_nested_ind t)
        | None => None_Forall2 _
        end in
      HNode l n v k s
        {| srel_signatures := some (signatures s);
           srel_getSignature := one (getSignature s);
           srel_setSignature := one (setSignature s);
           srel_parameters := some (parameters s);
           srel_typeParameters := some (typeParameters s);
           srel_indexSignatures := some (indexSignatures s);
           srel_type := ty (type s);
           srel_defaultType := ty (defaultType s);
           srel_children := some (children s);
           srel_documents := some (documents s) |}
  end.
End tree_ind.

End Models.

(** * Code with state and exceptions *)

Module Effects.

Import Models.

(** Code that changes a state [S] and returns, or throws an [E]; what it
    changed before it threw stays changed. *)
Definition SE (S E A : Type) : Type := S → S * (E + A).

Definition ret {S E A : Type} (a : A) : SE S E A := λ s, (s, inr a).

Definition bind {S E A B : Type} (m : SE S E A) (k : A → SE S E B) : SE S E B :=
  λ s, match m s with
       | (s', inr a) => k a s'
       | (s', inl e) => (s', inl e)
       end.

Definition throw {S E A : Type} (e : E) : SE S E A := λ s, (s, inl e).

(** [for (const x of xs) ys.push(f(x))] and [o && f(o)] *)
Section mapM.
Context {S E A B : Type} (f : A → SE S E B).
Fixpoint mapM (l : list A) : SE S E (list B) :=
  match l with
  | [] => ret []
  | x :: l' => bind (f x) (λ y, bind (mapM l') (λ ys, ret (y :: ys)))
  end.
Definition optM (o : option A) : SE S E (option B) :=
  match o with None => ret None | Some x => bind (f x) (λ y, ret (Some y)) end.
End mapM.

(** *** Traversals of types and slots *)

(** A type is rebuilt from its parts, in the order in which the builders of
    the deserializer evaluate them; [f] runs on the declaration of a
    reflection type.  The target of a reference type is not traversed: [g]
    says what becomes of it. *)
Section traverseType.
Context {S E D D' : Type} (f : D → SE S E D') (g : ReferenceTarget → ReferenceTarget).
Fixpoint traverseType (t : SomeTypeOf D) : SE S E (SomeTypeOf D') :=
  match t with
  | ArrayType e => bind (traverseType e) (λ e', ret (ArrayType e'))
  | ConditionalType c x t1 t2 =>
      bind (traverseType c) (λ c', bind (traverseType x) (λ x',
      bind (traverseType t1) (λ t1', bind (traverseType t2) (λ t2',
      ret (ConditionalType c' x' t1' t2')))))
  | IndexedAccessType o i =>
      bind (traverseType o) (λ o', bind (traverseType i) (λ i',
      ret (IndexedAccessType o' i')))
  | InferredType n c => bind (optM traverseType c) (λ c', ret (InferredType n c'))
  | IntersectionType ts => bind (mapM traverseType ts) (λ ts', ret (IntersectionType ts'))
  | IntrinsicType n => ret (IntrinsicType n)
  | LiteralType v => ret (LiteralType v)
  | MappedType p pt tp r o nt =>
      bind (traverseType pt) (λ pt', bind (traverseType tp) (λ tp',
      bind (optM traverseType nt) (λ nt',
      ret (MappedType p pt' tp' r o nt'))))
  | OptionalType e => bind (traverseType e) (λ e', ret (OptionalType e'))
  | PredicateType n a tg => bind (optM traverseType tg) (λ tg', ret (PredicateType n a tg'))
  | QueryType q => bind (traverseType q) (λ q', ret (QueryType q'))
  | ReferenceType n tg args =>
      bind (optM (mapM traverseType) args) (λ args', ret (ReferenceType n (g tg) args'))
  | ReflectionType d => bind (f d) (λ d', ret (ReflectionType d'))
  | RestType e => bind (traverseType e) (λ e', ret (RestType e'))
  | TemplateLiteralType h tl =>
      bind (mapM (λ p, bind (traverseType p.1) (λ t', ret (t', p.2))) tl)
        (λ tl', ret (TemplateLiteralType h tl'))
  | TupleType es => bind (mapM traverseType es) (λ es', ret (TupleType es'))
  | NamedTupleMember n o e => bind (traverseType e) (λ e', ret (NamedTupleMember n o e'))
  | TypeOperatorType t o => bind (traverseType t) (λ t', ret (TypeOperatorType t' o))
  | UnionType ts => bind (mapM traverseType ts) (λ ts', ret (UnionType ts'))
  | UnknownType n => ret (UnknownType n)
  end.
End traverseType.

(** The slots are rebuilt in the order of the traversal: signatures, get
    and set signature, parameters, type parameters, index signatures, the
    types, children, documents.  The lists of ids stay. *)
Definition traverseSlots {S E D D' : Type} (f : D → SE S E D')
    (g : ReferenceTarget → ReferenceTarget) (s : SlotsOf D) : SE S E (SlotsOf D') :=
  bind (optM (mapM f) (signatures s)) (λ sigs,
  bind (optM f (getSignature s)) (λ get,
  bind (optM f (setSignature s)) (λ set,
  bind (optM (mapM f) (parameters s)) (λ params,
  bind (optM (mapM f) (typeParameters s)) (λ tparams,
  bind (optM (mapM f) (indexSignatures s)) (λ idx,
  bind (optM (traverseType f g) (type s)) (λ ty,
  bind (optM (traverseType f g) (defaultType s)) (λ dflt,
  bind (optM (mapM f) (children s)) (λ kids,
  bind (optM (mapM f) (documents s)) (λ docs,
  ret {| children := kids; documents := docs;
         childrenIncludingDocuments := childrenIncludingDocuments s;
         groups := groups s; categories := categories s;
         typeParameters := tparams; type := ty; defaultType := dflt;
         signatures := sigs; indexSignatures := idx;
         getSignature := get; setSignature := set;
         parameters := params |})))))))))).

(** What a reflection of the variant [v] serializes and revives of its
    slots: a [TypeParameterReflection] its [type] and its [default], the
    others every slot. *)
Definition traverseOwn {S E D D' : Type} (f : D → SE S E D')
    (g : ReferenceTarget → ReferenceTarget) (v : ReflectionVariant) (s : SlotsOf D)
    : SE S E (SlotsOf D') :=
  match v with
  | VTypeParam =>
      bind (optM (traverseType f g) (type s)) (λ ty,
      bind (optM (traverseType f g) (defaultType s)) (λ dflt,
      ret {| children := None; documents := None;
             childrenIncludingDocuments := None; groups := None;
             categories := None; typeParameters := None;
             type := ty; defaultType := dflt;
             signatures := None; indexSignatures := None;
             getSignature := None; setSignature := None;
             parameters := None |}))
  | _ => traverseSlots f g s
  end.

(** *** Specifications *)

(** From a state that satisfies [Pre], the code returns, in a state that
    [step] relates to the first one, and [Q] holds of the state and the
    result. *)
Definition hoare {S E A : Type} (step : S → S → Prop) (Pre : S → Prop)
    (m : SE S E A) (Q : S → A → Prop) : Prop :=
  ∀ σ, Pre σ → ∃ σ' a, m σ = (σ', inr a) ∧ step σ σ' ∧ Q σ' a.

Definition stable {S : Type} (step : S → S → Prop) (F : S → Prop) : Prop :=
  ∀ σ σ', F σ → step σ σ' → F σ'.

End Effects.

(** ** The reflection store *)

Module ProjectReflection.

Import Models.

(** The loop [for (const x of xs) body] over a state, where the body may
    fail to return. *)
Fixpoint forEach {A S : Type} (body : S → A → option S) (s : S) (xs : list A)
    : option S :=
  match xs with
  | [] => Some s
  | x :: xs' =>
      match body s x with
      | Some s' => forEach body s' xs'
      | None => None
      end
  end.

(** A value of [symbolToReflectionIdMap]: [number | number[]]. *)
Inductive SymbolEntry :=
| One (id : Z)
| Many (ids : list Z).

Record SymbolIndex := {
  symbolToReflectionIdMap : gmap ReflectionSymbolId SymbolEntry;
  reflectionIdToSymbolIdMap : gmap Z ReflectionSymbolId;
  removedSymbolIds : gset ReflectionSymbolId;
}.

Definition noSymbols : SymbolIndex :=
  {| symbolToReflectionIdMap := ∅; reflectionIdToSymbolIdMap := ∅;
     removedSymbolIds := ∅ |}.

(** The project with its indexes, and the reflection objects it may refer
    to.  [objs] holds every reflection object that was created, registered
    or not, under its id; [nextReflectionId] is the id counter;
    [reflections] is the id table, which stores each registered object
    under its own id and is therefore kept as the set of registered ids. *)
Record t := {
  objs : gmap Z Reflection;
  nextReflectionId : Z;
  self : Z;
  reflections : gset Z;
  reflectionChildren : gmap Z (list Z);
  referenceGraph : option (gmap Z (list Z));
  symbols : SymbolIndex;
  files : FileRegistry.t;
}.

Definition set_objs (f : gmap Z Reflection → gmap Z Reflection) (w : t) : t :=
  {| objs := f (objs w); nextReflectionId := nextReflectionId w; self := self w;
     reflections := reflections w; reflectionChildren := reflectionChildren w;
     referenceGraph := referenceGraph w; symbols := symbols w; files := files w |}.

Definition set_reflections (f : gset Z → gset Z) (w : t) : t :=
  {| objs := objs w; nextReflectionId := nextReflectionId w; self := self w;
     reflections := f (reflections w); reflectionChildren := reflectionChildren w;
     referenceGraph := referenceGraph w; symbols := symbols w; files := files w |}.

Definition set_reflectionChildren (f : gmap Z (list Z) → gmap Z (list Z)) (w : t) : t :=
  {| objs := objs w; nextReflectionId := nextReflectionId w; self := self w;
     reflections := reflections w; reflectionChildren := f (reflectionChildren w);
     referenceGraph := referenceGraph w; symbols := symbols w; files := files w |}.

Definition set_referenceGraph (g : option (gmap Z (list Z))) (w : t) : t :=
  {| objs := objs w; nextReflectionId := nextReflectionId w; self := self w;
     reflections := reflections w; reflectionChildren := reflectionChildren w;
     referenceGraph := g; symbols := symbols w; files := files w |}.

Definition set_symbols (f : SymbolIndex → SymbolIndex) (w : t) : t :=
  {| objs := objs w; nextReflectionId := nextReflectionId w; self := self w;
     reflections := reflections w; reflectionChildren := reflectionChildren w;
     referenceGraph := referenceGraph w; symbols := f (symbols w); files := files w |}.

Definition set_files (f : FileRegistry.t → FileRegistry.t) (w : t) : t :=
  {| objs := objs w; nextReflectionId := nextReflectionId w; self := self w;
     reflections := reflections w; reflectionChildren := reflectionChildren w;
     referenceGraph := referenceGraph w; symbols := symbols w; files := f (files w) |}.

(** Modelled from the spec: the constructor of [Reflection] is not part of
    the sources at hand.  The spec gives every reflection an id that is
    "process-wide unique, monotonically assigned ..., never reused"; the new
    object gets the next id and the parent it was constructed with. *)
Definition newReflection (w : t) (v : ReflectionVariant) (nm : string) (k : Z)
    (par : option Z) (tgt : option ReferenceTarget) : Z * t :=
  let i := nextReflectionId w in
  let o := {| id := i; name := nm; kind := k; variant := v; parent := par;
              target := tgt; slots := noSlots |} in
  (i, {| objs := <[i := o]> (objs w); nextReflectionId := i + 1; self := self w;
         reflections := reflections w; reflectionChildren := reflectionChildren w;
         referenceGraph := referenceGraph w; symbols := symbols w;
         files := files w |}).

(** [new ProjectReflection(name, registry)] in a process whose id counter
    stands at [firstId] and whose objects so far are [heap]. *)
Definition newProject (heap : gmap Z Reflection) (firstId : Z) (nm : string)
    (registry : FileRegistry.t) : t :=
  let o := {| id := firstId; name := nm; kind := ReflectionKind.Project;
              variant := VProject; parent := None; target := None;
              slots := noSlots |} in
  {| objs := <[firstId := o]> heap; nextReflectionId := firstId + 1;
     self := firstId; reflections := {[firstId]}; reflectionChildren := ∅;
     referenceGraph := None; symbols := noSymbols; files := registry |}.

Definition getReflectionById (w : t) (i : Z) : option Reflection :=
  if decide (i ∈ reflections w) then objs w !! i else None.

(** The parent a reflection object has now. *)
Definition parentOf (w : t) (r : Z) : option Z :=
  match objs w !! r with Some o => parent o | None => None end.

Definition registerSymbolIdIn (r : Z) (sid : ReflectionSymbolId)
    (ix : SymbolIndex) : SymbolIndex :=
  {| removedSymbolIds := removedSymbolIds ix ∖ {[sid]};
     reflectionIdToSymbolIdMap := <[r := sid]> (reflectionIdToSymbolIdMap ix);
     symbolToReflectionIdMap :=
       match symbolToReflectionIdMap ix !! sid with
       | Some (One previous) =>
           if decide (previous = 0)
           then <[sid := One r]> (symbolToReflectionIdMap ix)
           else <[sid := Many [previous; r]]> (symbolToReflectionIdMap ix)
       | Some (Many previous) =>
           <[sid := Many (previous ++ [r])]> (symbolToReflectionIdMap ix)
       | None => <[sid := One r]> (symbolToReflectionIdMap ix)
       end |}.

Definition registerSymbolId (w : t) (r : Z) (sid : ReflectionSymbolId) : t :=
  set_symbols (registerSymbolIdIn r sid) w.

Definition symbolIdHasBeenRemoved (w : t) (sid : ReflectionSymbolId) : bool :=
  bool_decide (sid ∈ removedSymbolIds (symbols w)).

(** The result holds [getReflectionById(id)!] for each id; an element is
    [None] where that lookup is [undefined]. *)
Definition getReflectionsFromSymbolId (w : t) (sid : ReflectionSymbolId)
    : list (option Reflection) :=
  match symbolToReflectionIdMap (symbols w) !! sid with
  | Some (One i) => [getReflectionById w i]
  | Some (Many ids) => getReflectionById w <$> ids
  | None => []
  end.

Definition getReflectionFromSymbolId (w : t) (sid : ReflectionSymbolId)
    : option Reflection :=
  match getReflectionsFromSymbolId w sid with
  | r :: _ => r
  | [] => None
  end.

Definition getSymbolIdFromReflection (w : t) (r : Z) : option ReflectionSymbolId :=
  reflectionIdToSymbolIdMap (symbols w) !! r.

(** [registerReflection(reflection, id, filePath)] *)
Definition registerReflection (w : t) (r : Z) (sid : option ReflectionSymbolId)
    (filePath : option string) : t :=
  let w := set_referenceGraph None w in
  let w :=
    match parentOf w r with
    | Some p =>
        set_reflectionChildren
          (λ m, <[p := default [] (m !! p) ++ [r]]> m) w
    | None => w
    end in
  let w := set_reflections (λ t, {[r]} ∪ t) w in
  let w := match sid with Some sid => registerSymbolId w r sid | None => w end in
  match filePath with
  | Some path =>
      if JsString.truthy path
      then set_files (λ f, FileRegistry.registerReflection f path r) w
      else w
  | None => w
  end.

(** Modelled from the spec: [ReferenceReflection.tryGetTargetReflection] is
    not part of the sources at hand.  By the spec the target "resolves
    either directly to another reflection or indirectly via symbol lookup;
    resolution ... may fail if the target was removed". *)
Definition tryGetTargetReflection (w : t) (ref : Reflection) : option Reflection :=
  match target ref with
  | Some (TargetId i) => getReflectionById w i
  | Some (TargetSymbol sid) => getReflectionFromSymbolId w sid
  | Some TargetBroken | None => None
  end.

(** The keys of the id table in the order [for (const id in reflections)]
    visits them: ascending. *)
Definition reflectionIds (w : t) : list Z :=
  merge_sort Z.le (elements (reflections w)).

Definition addReference (w : t) (g : gmap Z (list Z)) (i : Z) : gmap Z (list Z) :=
  match getReflectionById w i with
  | Some ref =>
      match variant ref with
      | VReference =>
          match tryGetTargetReflection w ref with
          | Some tgt => <[id tgt := default [] (g !! id tgt) ++ [id ref]]> g
          | None => g
          end
      | _ => g
      end
  | None => g
  end.

Definition buildReferenceGraph (w : t) : gmap Z (list Z) :=
  foldl (addReference w) ∅ (reflectionIds w).

(** [getReferenceGraph()]: the graph, and the store that now caches it. *)
Definition getReferenceGraph (w : t) : gmap Z (list Z) * t :=
  match referenceGraph w with
  | Some g => (g, w)
  | None =>
      let g := buildReferenceGraph w in (g, set_referenceGraph (Some g) w)
  end.

(** The symbol part of [_removeReflection]. *)
Definition unregisterSymbol (r : Z) (ix : SymbolIndex) : SymbolIndex :=
  let cleaned :=
    match reflectionIdToSymbolIdMap ix !! r with
    | Some sid =>
        match symbolToReflectionIdMap ix !! sid with
        | Some (One saved) =>
            if decide (saved = r)
            then {| symbolToReflectionIdMap := delete sid (symbolToReflectionIdMap ix);
                    reflectionIdToSymbolIdMap := reflectionIdToSymbolIdMap ix;
                    removedSymbolIds := {[sid]} ∪ removedSymbolIds ix |}
            else ix
        | Some (Many saved) =>
            {| symbolToReflectionIdMap :=
                 <[sid := Many (removeFirst r saved)]> (symbolToReflectionIdMap ix);
               reflectionIdToSymbolIdMap := reflectionIdToSymbolIdMap ix;
               removedSymbolIds :=
                 match removeFirst r saved with
                 | [] => {[sid]} ∪ removedSymbolIds ix
                 | _ => removedSymbolIds ix
                 end |}
        | None => ix
        end
    | None => ix
    end in
  {| symbolToReflectionIdMap := symbolToReflectionIdMap cleaned;
     reflectionIdToSymbolIdMap := delete r (reflectionIdToSymbolIdMap cleaned);
     removedSymbolIds := removedSymbolIds cleaned |}.

(** The second half of [removeReflection]: the parent drops [r] from the
    first slot in which its traversal meets it. *)
Definition detachFromParent (w : t) (r : Z) : t :=
  match parentOf w r with
  | Some p =>
      match objs w !! p with
      | Some po => set_objs (<[p := detach r po]>) w
      | None => w
      end
  | None => w
  end.

(** The body of the first loop of [_removeReflection]:
    [const ref = getReflectionById(id); if (ref) this.removeReflection(ref)],
    with [rec] for [_removeReflection]. *)
Definition removeReferrer (rec : t → Z → option t) (w : t) (i : Z) : option t :=
  match getReflectionById w i with
  | Some _ =>
      match rec w i with
      | Some w' => Some (detachFromParent w' i)
      | None => None
      end
  | None => Some w
  end.

(** The body of its second loop:
    [if (child?.parent === reflection) this._removeReflection(child)]. *)
Definition removeChildOf (rec : t → Z → option t) (r : Z) (w : t) (childId : Z)
    : option t :=
  match getReflectionById w childId with
  | Some child =>
      if decide (parent child = Some r) then rec w childId else Some w
  | None => Some w
  end.

(** Its last lines: the entry of the children index, the symbol index and
    the id table. *)
Definition forget (r : Z) (w : t) : t :=
  set_reflections (λ t, t ∖ {[r]})
    (set_symbols (unregisterSymbol r)
       (set_reflectionChildren (delete r) w)).

(** [graph.delete(reflection.id)] on the cached graph. *)
Definition dropReferrers (r : Z) (w : t) : t :=
  set_referenceGraph (delete r <$> referenceGraph w) w.

(** [_removeReflection(reflection)].  The function calls itself for the
    references to the reflection (through [removeReflection]) and for its
    children; [fuel] bounds the depth of these calls, and [None] is returned
    when it is used up. *)
Fixpoint _removeReflection (fuel : nat) (w : t) (r : Z) : option t :=
  match fuel with
  | O => None
  | S fuel' =>
      let w := set_files (λ f, FileRegistry.removeReflection f r) w in
      let '(graph, w) := getReferenceGraph w in
      match forEach (removeReferrer (_removeReflection fuel')) w
                    (default [] (graph !! r)) with
      | None => None
      | Some w =>
          let w := dropReferrers r w in
          match forEach (removeChildOf (_removeReflection fuel') r) w
                        (default [] (reflectionChildren w !! r)) with
          | None => None
          | Some w => Some (forget r w)
          end
      end
  end.

(** [removeReflection(reflection)] *)
Definition removeReflection (fuel : nat) (w : t) (r : Z) : option t :=
  match _removeReflection fuel w r with
  | Some w' => Some (detachFromParent w' r)
  | None => None
  end.

(** One turn of the loop of [mergeReflections]. *)
Definition moveChild (source target : Z) (w : t) (childId : Z) : t :=
  match getReflectionById w childId with
  | Some childRefl =>
      if decide (parent childRefl = Some source) then
        let w := set_objs (<[childId := set_parent (Some target) childRefl]>) w in
        let w := set_reflectionChildren
                   (λ m, <[target := default [] (m !! target) ++ [childId]]> m) w in
        match objs w !! target with
        | Some t =>
            set_objs
              (<[target :=
                   set_slots
                     (addChild childId (bool_decide (variant childRefl = VDocument)))
                     t]>) w
        | None => w
        end
      else w
  | None => w
  end.

Definition stillChild (source : Z) (w : t) (childId : Z) : bool :=
  match getReflectionById w childId with
  | Some childRefl => bool_decide (parent childRefl = Some source)
  | None => false
  end.

Definition dropGroups (s : Slots) : Slots :=
  {| children := children s; documents := documents s;
     childrenIncludingDocuments := childrenIncludingDocuments s;
     groups := None; categories := None;
     typeParameters := typeParameters s; type := type s;
     defaultType := defaultType s;
     signatures := signatures s; indexSignatures := indexSignatures s;
     getSignature := getSignature s; setSignature := setSignature s;
     parameters := parameters s |}.

(** [mergeReflections(source, target)].  When source and target are the
    same reflection, the list that is read and the list that is appended to
    are one array: a child that is moved is appended and met again, so the
    loop does not end once a single child qualifies; that is the [None]
    of the first branch. *)
Definition mergeReflections (fuel : nat) (w : t) (source target : Z) : option t :=
  let w := set_referenceGraph None w in
  let oldChildrenIds := default [] (reflectionChildren w !! source) in
  let w := set_reflectionChildren
             (λ m, match m !! target with Some _ => m | None => <[target := []]> m end) w in
  let moved :=
    if decide (source = target) then
      if existsb (stillChild source w) oldChildrenIds then None else Some w
    else Some (foldl (moveChild source target) w oldChildrenIds) in
  match moved with
  | None => None
  | Some w =>
      let w := set_reflectionChildren (delete source) w in
      match removeReflection fuel w source with
      | None => None
      | Some w =>
          match objs w !! target with
          | Some t => Some (set_objs (<[target := set_slots dropGroups t]>) w)
          | None => Some w
          end
      end
  end.

(** *** Notions used to state the properties of the store *)

(** A reflection object without its slots: what the removal never changes. *)
Definition head (o : Reflection) : Reflection := set_slots (λ _, noSlots) o.

Definition heads (w : t) : gmap Z Reflection := head <$> objs w.

(** The entry of the children index for [p], as [getNoInsert(p) || []]. *)
Definition childrenOf (w : t) (p : Z) : list Z :=
  default [] (reflectionChildren w !! p).

(** What a removal may do to a store: slots of objects aside, it only takes
    ids out of the id table and whole entries out of the children index. *)
Record shrinks (w w' : t) : Prop := {
  shrinks_heads : heads w' = heads w;
  shrinks_table : reflections w' ⊆ reflections w;
  shrinks_children : ∀ q,
    reflectionChildren w' !! q = reflectionChildren w !! q
    ∨ (reflectionChildren w' !! q = None ∧ q ∉ reflections w');
  shrinks_nextId : nextReflectionId w' = nextReflectionId w;
}.

(** The two halves of the consistency of the children index.  Soundness
    speaks of every object, registered or not. *)
Definition indexSound (w : t) : Prop :=
  ∀ x q, x ∈ childrenOf w q → parentOf w x = Some q.

Definition indexComplete (w : t) : Prop :=
  ∀ c p, c ∈ reflections w → parentOf w c = Some p → c ∈ childrenOf w p.

(** *** Sequences of store operations *)

(** The operations a build pass performs: creating a reflection object,
    and the three store methods.  The methods are handed objects, that is,
    ids under which an object exists. *)
Inductive Op :=
| OpNew (v : ReflectionVariant) (nm : string) (k : Z) (par : option Z)
    (tgt : option ReferenceTarget)
| OpRegister (r : Z) (sid : option ReflectionSymbolId) (filePath : option string)
| OpRemove (r : Z)
| OpMerge (source target : Z).

Definition isObject (w : t) (r : Z) : bool := bool_decide (is_Some (objs w !! r)).

Definition exec (fuel : nat) (w : t) (op : Op) : option t :=
  match op with
  | OpNew v nm k par tgt => Some (newReflection w v nm k par tgt).2
  | OpRegister r sid path =>
      if isObject w r then Some (registerReflection w r sid path) else None
  | OpRemove r => if isObject w r then removeReflection fuel w r else None
  | OpMerge source target =>
      if isObject w source && isObject w target
      then mergeReflections fuel w source target else None
  end.

Definition run (fuel : nat) (w : t) (ops : list Op) : option t :=
  forEach (exec fuel) w ops.

(** What holds of every store reached by such operations. *)
Record storeInv (w : t) : Prop := {
  inv_fresh : ∀ i, is_Some (objs w !! i) → i < nextReflectionId w;
  inv_table : ∀ i, i ∈ reflections w → is_Some (objs w !! i);
  inv_sound : indexSound w;
  inv_complete : indexComplete w;
}.

(** What the loop of [mergeReflections] keeps: the index is consistent
    except for the entry of [source], which is dropped after the loop. *)
Record mergeInv (source : Z) (w : t) : Prop := {
  minv_fresh : ∀ i, is_Some (objs w !! i) → i < nextReflectionId w;
  minv_table : ∀ i, i ∈ reflections w → is_Some (objs w !! i);
  minv_sound : ∀ x q, q ≠ source → x ∈ childrenOf w q → parentOf w x = Some q;
  minv_complete : ∀ c p, p ≠ source →
    c ∈ reflections w → parentOf w c = Some p → c ∈ childrenOf w p;
}.

(** A small build: [R] (id 1) gets the modules [A] (2) and [C] (4), [A] the
    child [B] (3); then [A] is merged into [C] and [C] is removed. *)
Definition sampleOps : list Op :=
  [ OpNew VDeclaration "A" ReflectionKind.Module (Some 1) None;
    OpRegister 2 None None;
    OpNew VDeclaration "B" 64 (Some 2) None;
    OpRegister 3 (Some "B") None;
    OpNew VDeclaration "C" ReflectionKind.Module (Some 1) None;
    OpRegister 4 None (Some "/src/c.ts");
    OpMerge 2 4;
    OpRemove 4 ].

Definition sampleRun : option t :=
  run 8 (newProject ∅ 1 "R" FileRegistry.empty) sampleOps.

(** *** The symbol index along a removal *)

Definition unregisterAll (l : list Z) (ix : SymbolIndex) : SymbolIndex :=
  foldl (λ ix y, unregisterSymbol y ix) ix l.

(** A removal unregisters, one after the other, reflections that are gone
    from the id table when it returns. *)
Record unregisters (w w' : t) : Prop := {
  unreg_shrinks : shrinks w w';
  unreg_trace : ∃ l,
    symbols w' = unregisterAll l (symbols w) ∧ ∀ y, y ∈ l → y ∉ reflections w';
}.

(** The part of the symbol index that concerns the symbol [s]: its entry,
    the reflections recorded as described by [s], and its tombstone. *)
Record symbolState (s : ReflectionSymbolId) (entry : option SymbolEntry)
    (owners : list Z) (tomb : bool) (ix : SymbolIndex) : Prop := {
  sym_entry : symbolToReflectionIdMap ix !! s = entry;
  sym_owners : ∀ y, reflectionIdToSymbolIdMap ix !! y = Some s ↔ y ∈ owners;
  sym_tomb : s ∈ removedSymbolIds ix ↔ tomb = true;
}.

(** A declaration [D] (id 2) and its signature [S] (id 3), both recorded
    for the symbol ["f"], as the converter does for a function type. *)
Definition declarationWithSignature : t :=
  let w := newProject ∅ 1 "R" FileRegistry.empty in
  let '(d, w) := newReflection w VDeclaration "__type" 65536 (Some 1) None in
  let w := registerReflection w d (Some "f") None in
  let '(sg, w) := newReflection w VSignature "__type" 4096 (Some d) None in
  let w := registerSymbolId w sg "f" in
  registerReflection w sg None None.

(** A project whose own id is [0], recorded for the symbol ["m"] together
    with a module (id 1). *)
Definition projectWithIdZero : t :=
  let w := newProject ∅ 0 "R" FileRegistry.empty in
  let w := registerSymbolId w 0 "m" in
  let '(m, w) := newReflection w VDeclaration "m" ReflectionKind.Module (Some 0) None in
  registerReflection w m (Some "m") None.

(** Two modules [A] (id 2) and [B] (id 3) under the root [R] (id 1). *)
Definition twoSiblings : t :=
  let w := newProject ∅ 1 "R" FileRegistry.empty in
  let '(a, w) := newReflection w VDeclaration "A" ReflectionKind.Module (Some 1) None in
  let w := registerReflection w a None None in
  let '(b, w) := newReflection w VDeclaration "B" ReflectionKind.Module (Some 1) None in
  registerReflection w b None None.

(** *** The cascade of a removal *)

Definition variantOf (w : t) (i : Z) : option ReflectionVariant :=
  variant <$> objs w !! i.

(** Why a reflection may be removed in the course of removing [r0]: it is
    [r0], or a reference, or it has a parent. *)
Definition removable (r0 : Z) (w : t) (x : Z) : Prop :=
  x = r0 ∨ variantOf w x = Some VReference ∨ is_Some (parentOf w x).

(** What holds in the course of a removal, with respect to the reference
    graph [g0], the children index [k0] and the id table [t0] at its
    start: an entry of the graph or of the index is either as it was, or
    dropped with the reflections it listed removed; and a reflection that
    has been removed has had its referrers and its children removed. *)
Record cascadeInv (r0 : Z) (g0 k0 : gmap Z (list Z)) (t0 : gset Z) (w : t)
    : Prop := {
  casc_table : ∀ i, i ∈ reflections w → is_Some (objs w !! i);
  casc_refs : ∀ x ref,
    ref ∈ default [] (g0 !! x) → variantOf w ref = Some VReference;
  casc_graph : ∃ g, referenceGraph w = Some g ∧ ∀ x,
    g !! x = g0 !! x
    ∨ (g !! x = None ∧ ∀ ref, ref ∈ default [] (g0 !! x) → ref ∉ reflections w);
  casc_children : ∀ x,
    reflectionChildren w !! x = k0 !! x
    ∨ (reflectionChildren w !! x = None
       ∧ ∀ c, c ∈ default [] (k0 !! x) → parentOf w c = Some x →
              c ∉ reflections w);
  casc_removed : ∀ x, x ∈ t0 → x ∉ reflections w →
    removable r0 w x
    ∧ (∀ ref, ref ∈ default [] (g0 !! x) → ref ∉ reflections w)
    ∧ (∀ c, c ∈ default [] (k0 !! x) → parentOf w c = Some x →
            c ∉ reflections w);
}.

(** Reference [i] is listed under [x] in the reference graph of [w] as
    [ref]. *)
Definition contributes (w : t) (i x ref : Z) : Prop :=
  ∃ o tgt, getReflectionById w i = Some o ∧ variant o = VReference
           ∧ tryGetTargetReflection w o = Some tgt ∧ id tgt = x ∧ id o = ref.

(** The slots of the objects only lose reflections. *)
Definition slotsShrink (w w' : t) : Prop :=
  ∀ p o, objs w !! p = Some o →
    ∃ o', objs w' !! p = Some o' ∧ variant o' = variant o
          ∧ (∀ c pr, c ∈ slotList pr (slots o') → c ∈ slotList pr (slots o))
          ∧ kidsOf o' `sublist_of` kidsOf o.

(** [parent.addChild(child)] on the objects [p] and [c]. *)
Definition attachChild (w : t) (p c : Z) : t :=
  match objs w !! p, objs w !! c with
  | Some po, Some co =>
      set_objs
        (<[p := set_slots (addChild c (bool_decide (variant co = VDocument))) po]>) w
  | _, _ => w
  end.

(** The root [R] (id 1) with the child [A] (id 2), which has the child [B]
    (id 3); a reference (id 4) under [R] points at [B]. *)
Definition rootAB : t :=
  let w := newProject ∅ 1 "R" FileRegistry.empty in
  let '(a, w) := newReflection w VDeclaration "A" ReflectionKind.Module (Some 1) None in
  let w := attachChild (registerReflection w a None None) 1 a in
  let '(b, w) := newReflection w VDeclaration "B" 64 (Some a) None in
  let w := attachChild (registerReflection w b None None) a b in
  let '(r, w) := newReflection w VReference "B" ReflectionKind.Reference (Some 1)
                   (Some (TargetId b)) in
  attachChild (registerReflection w r None None) 1 r.

(** [twoSiblings] with a symbol for each of the two modules. *)
Definition siblingsWithSymbols : t :=
  registerSymbolId (registerSymbolId twoSiblings 2 "a") 3 "b".

(** The same store with one more object under [R] (id 5), added to the
    children of [R] but not registered with the project. *)
Definition unregisteredChild : t :=
  let '(x, w) := newReflection rootAB VDeclaration "X" 64 (Some 1) None in
  attachChild w 1 x.

(** *** The depth of a removal *)

(** [rank] bounds the depth of the calls that [_removeReflection] makes of
    itself: it decreases from a reflection to the references that the
    reference graph lists for it, and to the reflections that the children
    index lists for it and that have it for parent. *)
Definition ranked (rank : Z → nat) (w : t) : Prop :=
  map_Forall (λ x refs, Forall (λ ref, (rank ref < rank x)%nat) refs)
    (getReferenceGraph w).1
  ∧ map_Forall
      (λ x kids, Forall (λ c, parentOf w c = Some x → (rank c < rank x)%nat) kids)
      (reflectionChildren w).

(** What a removal may do to a store whose reference graph is cached: it
    shrinks the store, and an entry of the graph is as it was or dropped. *)
Definition cacheShrinks (w w' : t) : Prop :=
  shrinks w w'
  ∧ ∀ g, referenceGraph w = Some g →
      ∃ g', referenceGraph w' = Some g' ∧ ∀ x, g' !! x = g !! x ∨ g' !! x = None.

(** A cached reference graph that can stand for the one that would be
    built now: it lists only references, and it lists every registered
    reference under the reflection that its target resolves to.  (Nothing
    is asked of a store that has no cached graph.) *)
Definition graphCurrent (w : t) : bool :=
  match referenceGraph w with
  | None => true
  | Some g =>
      bool_decide
        (map_Forall
           (λ _ refs, Forall (λ ref, variantOf w ref = Some VReference) refs) g)
      && bool_decide
           (map_Forall
              (λ x refs, Forall (λ ref, ref ∈ default [] (g !! x)) refs)
              (buildReferenceGraph w))
  end.

(** The stores in which the symbol [s] was never registered: a new
    project, and what the creation of reflection objects and the methods
    of the store make of such a store, as long as no call registers [s]. *)
Inductive neverRegistered (s : ReflectionSymbolId) : t → Prop :=
| never_newProject heap firstId nm registry :
    neverRegistered s (newProject heap firstId nm registry)
| never_newReflection w v nm k par tgt :
    neverRegistered s w → neverRegistered s (newReflection w v nm k par tgt).2
| never_registerReflection w r sid path :
    neverRegistered s w → sid ≠ Some s →
    neverRegistered s (registerReflection w r sid path)
| never_registerSymbolId w r sid :
    neverRegistered s w → sid ≠ s → neverRegistered s (registerSymbolId w r sid)
| never_removeReflection fuel w r w' :
    neverRegistered s w → removeReflection fuel w r = Some w' → neverRegistered s w'
| never_mergeReflections fuel w source target w' :
    neverRegistered s w → mergeReflections fuel w source target = Some w' →
    neverRegistered s w'.

(** Two references (ids 2 and 3) under the root [R] (id 1), each with the
    other for target. *)
Definition mutualReferences : t :=
  let w := newProject ∅ 1 "R" FileRegistry.empty in
  let '(a, w) := newReflection w VReference "a" ReflectionKind.Reference (Some 1)
                   (Some (TargetId 3)) in
  let w := registerReflection w a None None in
  let '(b, w) := newReflection w VReference "b" ReflectionKind.Reference (Some 1)
                   (Some (TargetId 2)) in
  registerReflection w b None None.

(** A store whose cached reference graph is out of date: under the root
    [R] (id 1), the modules [A] (id 2) and [X] (id 3) and a reference
    (id 4) to the symbol ["a"]; [X] is removed, which caches the graph, and
    then [A] is registered for the symbol ["a"]. *)
Definition staleGraph : t :=
  let w := newProject ∅ 1 "R" FileRegistry.empty in
  let '(a, w) := newReflection w VDeclaration "A" ReflectionKind.Module (Some 1) None in
  let w := registerReflection w a None None in
  let '(x, w) := newReflection w VDeclaration "X" ReflectionKind.Module (Some 1) None in
  let w := registerReflection w x None None in
  let '(r, w) := newReflection w VReference "a" ReflectionKind.Reference (Some 1)
                   (Some (TargetSymbol "a")) in
  let w := registerReflection w r None None in
  let w := default w (removeReflection 2 w x) in
  registerSymbolId w a "a".

(** [rootAB] once its reference (id 4) was removed: the reference graph is
    cached. *)
Definition rootABAgain : t := default rootAB (removeReflection 3 rootAB 4).

End ProjectReflection.

(** ** The deserializer *)

Module Deserializer.

Import Models Effects.

(** Keep this in sync with [JSONOutput.SCHEMA_VERSION] (ProjectReflection.ts). *)
Definition JSON_SCHEMA_VERSION : string := "2.0".

(** Modelled from the spec: [JSONOutput.SCHEMA_VERSION] (schema.ts) is not
    part of the sources at hand.  The test suite asserts that it equals
    [JSON_SCHEMA_VERSION], and the spec calls the supported versions "a
    short fixed list of schema-version strings". *)
Definition SCHEMA_VERSION : string := JSON_SCHEMA_VERSION.

Definition supportedSchemaVersions : list string := [SCHEMA_VERSION].

(** [arr.join(", ")] *)
Fixpoint join (sep : string) (l : list string) : string :=
  match l with
  | [] => ""
  | [x] => x
  | x :: l' => x +:+ sep +:+ join sep l'
  end.

(** The double quote. *)
Definition quote : string := String (ascii_of_nat 34) EmptyString.

Definition unsupportedVersionMessage (version : string) : string :=
  "Attempted to deserialize version " +:+ quote +:+ version +:+ quote
  +:+ " JSON, which is not supported. Supported versions: "
  +:+ join ", " supportedSchemaVersions.

Inductive Error :=
| ErrorOf (message : string)
| AssertionError (message : string)
| TypeError (message : string).

(** What is handed to the logger.  The text of the messages is not part of
    the sources at hand; a warning is kept as its i18n key and argument. *)
Inductive Message :=
| serialized_project_referenced_0_not_part_of_project (id : Z).

(** The wire form of the file registry. *)
Record WireFileRegistry := {
  entries : option (list (Z * string));
  wireReflections : option (list (Z * Z));
}.

(** The wire form of a project: its own fields; [Body] is the wire form of
    what it inherits from [ContainerReflection]. *)
Record WireProject (Body : Type) := {
  schemaVersion : string;
  wireId : Z;
  wireName : string;
  body : Body;
  packageName : option string;
  packageVersion : option string;
  readme : option (list string);
  symbolIdMap : option (list (Z * ReflectionSymbolId));
  wireFiles : option WireFileRegistry;
}.
Arguments schemaVersion {Body} _.
Arguments wireId {Body} _.
Arguments wireName {Body} _.
Arguments body {Body} _.
Arguments packageName {Body} _.
Arguments packageVersion {Body} _.
Arguments readme {Body} _.
Arguments symbolIdMap {Body} _.
Arguments wireFiles {Body} _.

(** The state a deferred callback can reach: the project under revival
    with the reflection objects, and the public fields of the deserializer.
    [packageInfo] holds the three plain fields of the project reflection. *)
Record Env := {
  world : ProjectReflection.t;
  project : option Z;
  projectRoot : option string;
  oldIdToNewId : gmap Z Z;
  oldFileIdToNewFileId : gmap Z Z;
  activeReflection : list Z;
  logger : list Message;
  packageInfo : option string * option string * option (list string);
}.

Definition set_world (f : ProjectReflection.t → ProjectReflection.t) (e : Env) : Env :=
  {| world := f (world e); project := project e; projectRoot := projectRoot e;
     oldIdToNewId := oldIdToNewId e; oldFileIdToNewFileId := oldFileIdToNewFileId e;
     activeReflection := activeReflection e; logger := logger e;
     packageInfo := packageInfo e |}.

Definition set_maps (ids files : gmap Z Z) (e : Env) : Env :=
  {| world := world e; project := project e; projectRoot := projectRoot e;
     oldIdToNewId := ids; oldFileIdToNewFileId := files;
     activeReflection := activeReflection e; logger := logger e;
     packageInfo := packageInfo e |}.

Definition set_project (p : option Z) (root : option string) (e : Env) : Env :=
  {| world := world e; project := p; projectRoot := root;
     oldIdToNewId := oldIdToNewId e; oldFileIdToNewFileId := oldFileIdToNewFileId e;
     activeReflection := activeReflection e; logger := logger e;
     packageInfo := packageInfo e |}.

Definition set_activeReflection (f : list Z → list Z) (e : Env) : Env :=
  {| world := world e; project := project e; projectRoot := projectRoot e;
     oldIdToNewId := oldIdToNewId e; oldFileIdToNewFileId := oldFileIdToNewFileId e;
     activeReflection := f (activeReflection e); logger := logger e;
     packageInfo := packageInfo e |}.

Definition warn (m : Message) (e : Env) : Env :=
  {| world := world e; project := project e; projectRoot := projectRoot e;
     oldIdToNewId := oldIdToNewId e; oldFileIdToNewFileId := oldFileIdToNewFileId e;
     activeReflection := activeReflection e; logger := logger e ++ [m];
     packageInfo := packageInfo e |}.

Definition set_packageInfo
    (i : option string * option string * option (list string)) (e : Env) : Env :=
  {| world := world e; project := project e; projectRoot := projectRoot e;
     oldIdToNewId := oldIdToNewId e; oldFileIdToNewFileId := oldFileIdToNewFileId e;
     activeReflection := activeReflection e; logger := logger e;
     packageInfo := i |}.

(** What running a callback leaves behind: the state, the work it queued
    with [defer], and the error it threw, if any. *)
Record CbResult (D : Type) := {
  res_env : Env;
  res_deferred : list D;
  res_thrown : option Error;
}.
Arguments res_env {D} _.
Arguments res_deferred {D} _.
Arguments res_thrown {D} _.

(** A deferred callback [(project) => void]. *)
Inductive Deferred :=
| Defer (run : Env → CbResult Deferred).

Definition runDeferred (d : Deferred) : Env → CbResult Deferred :=
  match d with Defer run => run end.

(** The deserializer: the state above and its private queue of deferred
    work. *)
Record De := {
  env : Env;
  deferred : list Deferred;
}.

(** Code of the deserializer: it changes the deserializer and returns, or
    throws; what it changed before it threw stays changed. *)
Definition M (A : Type) : Type := SE De Error A.

Definition assert (cond : bool) (message : string) : M unit :=
  if cond then ret tt else throw (AssertionError message).

Definition getEnv : M Env := λ de, (de, inr (env de)).

Definition modifyEnv (f : Env → Env) : M unit :=
  λ de, ({| env := f (env de); deferred := deferred de |}, inr tt).

Definition getDeferred : M (list Deferred) := λ de, (de, inr (deferred de)).

Definition setDeferred (q : list Deferred) : M unit :=
  λ de, ({| env := env de; deferred := q |}, inr tt).

(** [defer(cb)] *)
Definition defer (cb : Deferred) : M unit :=
  λ de, ({| env := env de; deferred := deferred de ++ [cb] |}, inr tt).

(** [def(project)]: the callback runs on the state; what it queues goes to
    the end of the queue. *)
Definition invoke (d : Deferred) : M unit :=
  λ de,
    let r := runDeferred d (env de) in
    ({| env := res_env r; deferred := deferred de ++ res_deferred r |},
     match res_thrown r with Some e => inl e | None => inr tt end).

(** [for (const x of xs) body(x)] *)
Fixpoint forEachM {A : Type} (body : A → M unit) (xs : list A) : M unit :=
  match xs with
  | [] => ret tt
  | x :: xs' => bind (body x) (λ _, forEachM body xs')
  end.

(** A callback that neither queues work nor throws. *)
Definition quietly (f : Env → Env) : Deferred :=
  Defer (λ e, {| res_env := f e; res_deferred := []; res_thrown := None |}).

(** What a method is called on: a reflection, or some other model object. *)
Inductive Receiver :=
| OfReflection (r : Z)
| OfOther.

(** A [DeserializerComponent], for the wire objects of type [W]. *)
Record Component (W : Type) := {
  priority : Z;
  supports : Receiver → W → bool;
  componentFromObject : Receiver → W → M unit;
}.
Arguments priority {W} _.
Arguments supports {W} _ _ _.
Arguments componentFromObject {W} _ _ _.

(** The loop of the fixup that [ProjectReflection.fromObject] defers: one
    entry of [symbolIdMap]. *)
Definition fixupSymbol (e : Env) (entry : Z * ReflectionSymbolId) : Env :=
  let '(i, sid) := entry in
  match ProjectReflection.getReflectionById (world e)
          (default (-1) (oldIdToNewId e !! i)) with
  | Some refl =>
      set_world (λ w, ProjectReflection.registerSymbolId w (id refl) sid) e
  | None => warn (serialized_project_referenced_0_not_part_of_project i) e
  end.

(** The callback itself; [Object.entries(obj.symbolIdMap || {})]. *)
Definition symbolIdMapFixup (map : option (list (Z * ReflectionSymbolId))) : Deferred :=
  quietly (λ e, foldl fixupSymbol e (default [] map)).

(** The callback that [FileRegistry.fromObject] defers; a file id without
    translation is the key [undefined]. *)
Definition fixupFileReflection (e : Env) (entry : Z * Z) : Env :=
  let '(fileId, reflId) := entry in
  let found :=
    match oldIdToNewId e !! reflId with
    | Some i => ProjectReflection.getReflectionById (world e) i
    | None => None
    end in
  match found with
  | Some refl =>
      set_world
        (ProjectReflection.set_files
           (match oldFileIdToNewFileId e !! fileId with
            | Some f => FileRegistry.set_mediaToReflection (<[f := id refl]>)
            | None => FileRegistry.set_undefinedMedia (Some (id refl))
            end)) e
  | None => e
  end.

(** The reflection that an entry of [reflections] on the wire names:
    [project.getReflectionById(de.oldIdToNewId[reflId]!)]. *)
Definition restoredReflection (e : Env) (reflId : Z) : option Reflection :=
  match oldIdToNewId e !! reflId with
  | Some i => ProjectReflection.getReflectionById (world e) i
  | None => None
  end.

(** The state [e] with [m] for the associations of the file registry of
    its project, and [u] for the one under the key [undefined]. *)
Definition withAssociations (m : gmap Z Z) (u : option Z) (e : Env) : Env :=
  set_world
    (ProjectReflection.set_files
       (λ f, FileRegistry.set_undefinedMedia u
               (FileRegistry.set_mediaToReflection (λ _, m) f))) e.

(** What the entry of [symbolIdMap] for the old id [i] resolves to. *)
Definition resolveOld (e : Env) (i : Z) : option Reflection :=
  ProjectReflection.getReflectionById (world e) (default (-1) (oldIdToNewId e !! i)).

(** The registrations and the warnings of the symbol fixup, entry by
    entry, as read off the state [e0] in which it starts. *)
Definition registerResolved (e0 : Env) (ix : ProjectReflection.SymbolIndex)
    (entry : Z * ReflectionSymbolId) : ProjectReflection.SymbolIndex :=
  match resolveOld e0 entry.1 with
  | Some refl => ProjectReflection.registerSymbolIdIn (id refl) entry.2 ix
  | None => ix
  end.

Definition warningsFor (e0 : Env) (ids : list Z) : list Message :=
  serialized_project_referenced_0_not_part_of_project
    <$> filter (λ i, resolveOld e0 i = None) ids.

(** Running the callbacks of a queue one after the other, each once: the
    state they leave, the work they queue, and whether one of them throws. *)
Definition ranAll (q : list Deferred) (e : Env) : Env :=
  foldl (λ e d, res_env (runDeferred d e)) e q.

Fixpoint queuedBy (q : list Deferred) (e : Env) : list Deferred :=
  match q with
  | [] => []
  | d :: q' => res_deferred (runDeferred d e) ++ queuedBy q' (res_env (runDeferred d e))
  end.

Fixpoint noneThrows (q : list Deferred) (e : Env) : bool :=
  match q with
  | [] => true
  | d :: q' =>
      match res_thrown (runDeferred d e) with
      | Some _ => false
      | None => noneThrows q' (res_env (runDeferred d e))
      end
  end.

(** The callbacks of a queue that the loop [for (const def of deferred)
    def(project)] calls: those up to and including the first one that
    throws; and the error with which that one leaves the loop. *)
Fixpoint reached (q : list Deferred) (e : Env) : list Deferred :=
  match q with
  | [] => []
  | d :: q' =>
      d :: match res_thrown (runDeferred d e) with
           | Some _ => []
           | None => reached q' (res_env (runDeferred d e))
           end
  end.

Fixpoint thrownBy (q : list Deferred) (e : Env) : option Error :=
  match q with
  | [] => None
  | d :: q' =>
      match res_thrown (runDeferred d e) with
      | Some err => Some err
      | None => thrownBy q' (res_env (runDeferred d e))
      end
  end.

(** [Deserializer.fromObject(receiver, obj)], with [receiverFromObject]
    for [receiver.fromObject(this, obj)] and the plugged-in components,
    sorted by priority, that handle wire objects of type [W]. *)
Definition fromObject {W : Type} (deserializers : list (Component W))
    (receiver : Receiver) (receiverFromObject : M unit) (obj : W) : M unit :=
  bind (match receiver with
        | OfReflection r => modifyEnv (set_activeReflection (λ st, st ++ [r]))
        | OfOther => ret tt
        end) (λ _,
  bind receiverFromObject (λ _,
  bind (forEachM
          (λ c, if supports c receiver obj
                then componentFromObject c receiver obj else ret tt)
          deserializers) (λ _,
  match receiver with
  | OfReflection _ => modifyEnv (set_activeReflection (λ st, removelast st))
  | OfOther => ret tt
  end))).

(** Code that leaves the stack of active reflections as it found it when
    it returns, and with what was there still there when it throws. *)
Definition balanced {A : Type} (m : M A) : Prop :=
  ∀ de de' res, m de = (de', res) →
    match res with
    | inr _ => activeReflection (env de') = activeReflection (env de)
    | inl _ => ∃ rest, activeReflection (env de') = activeReflection (env de) ++ rest
    end.

Section revival.

(** The wire form of what a project inherits, and the code that is not part
    of the sources at hand: [NormalizedPathUtils.resolve],
    [Comment.deserializeDisplayParts], [ContainerReflection.fromObject]
    (the [super.fromObject] of the project) and
    [DeclarationReflection.fromObject] (on the module that stands for a
    project in a merge), each on the reflection with the given id. *)
Variable Body : Type.
Variable resolve : string → string → string.
Variable deserializeDisplayParts : list string → M (list string).
Variable containerFromObject : Z → WireProject Body → M unit.
Variable declarationFromObject : Z → WireProject Body → M unit.

(** The plugged-in components, sorted by priority. *)
Variable deserializers : list (Component (WireProject Body)).

(** [FileRegistry.fromObject(de, obj)].  [Object.entries] of a property
    that is not there throws. *)
Definition registerEntry (entry : Z * string) : M unit :=
  let '(fileId, path) := entry in
  modifyEnv (λ e,
    let absolute := resolve (default "" (projectRoot e)) path in
    let '(res, files') :=
      FileRegistry.registerAbsolute (ProjectReflection.files (world e)) absolute in
    set_maps (oldIdToNewId e)
      (<[fileId := FileRegistry.target res]> (oldFileIdToNewFileId e))
      (set_world (ProjectReflection.set_files (λ _, files')) e)).

Definition filesFromObject (obj : WireFileRegistry) : M unit :=
  match entries obj with
  | None => throw (TypeError "Cannot convert undefined or null to object")
  | Some es =>
      bind (forEachM registerEntry es) (λ _,
      defer
        (Defer (λ e,
           match wireReflections obj with
           | None =>
               {| res_env := e; res_deferred := [];
                  res_thrown :=
                    Some (TypeError "Cannot convert undefined or null to object") |}
           | Some rs =>
               {| res_env := foldl fixupFileReflection e rs; res_deferred := [];
                  res_thrown := None |}
           end)))
  end.

(** [ProjectReflection.fromObject(de, obj)], on the project [this]. *)
Definition projectFromObject (this : Z) (obj : WireProject Body) : M unit :=
  bind (containerFromObject this obj) (λ _,
  bind (modifyEnv (λ e,
          set_packageInfo (packageName obj, packageVersion obj, (packageInfo e).2) e))
       (λ _,
  bind (match readme obj with
        | Some parts =>
            bind (deserializeDisplayParts parts) (λ r,
            modifyEnv (λ e,
              set_packageInfo ((packageInfo e).1.1, (packageInfo e).1.2, Some r) e))
        | None => ret tt
        end) (λ _,
  bind (filesFromObject
          (default {| entries := None; wireReflections := None |} (wireFiles obj)))
       (λ _,
  defer (symbolIdMapFixup (symbolIdMap obj)))))).

(** The deferred pass of [reviveProject] and of [reviveProjects]:
    [[
      const deferred = this.deferred;
      this.deferred = [];
      for (const def of deferred) def(project);
      assert(this.deferred.length === 0, "Work may not be double deferred ...");
    ]] *)
Definition runDeferredPass : M unit :=
  bind getDeferred (λ q,
  bind (setDeferred []) (λ _,
  bind (forEachM invoke q) (λ _,
  bind getDeferred (λ q',
  assert (bool_decide (q' = []))
    "Work may not be double deferred when deserializing.")))).

Definition assertBalanced : M unit :=
  bind getEnv (λ e,
  assert (bool_decide (activeReflection e = []))
    "Imbalanced reflection deserialization").

Definition assertNothingDeferred : M unit :=
  bind getDeferred (λ q,
  assert (bool_decide (q = []))
    "Deserializer.defer was called when not deserializing").

Definition checkVersion (obj : WireProject Body) : M unit :=
  if bool_decide (schemaVersion obj ∈ supportedSchemaVersions) then ret tt
  else throw (ErrorOf (unsupportedVersionMessage (schemaVersion obj))).

Record Options := {
  optProjectRoot : string;
  registry : FileRegistry.t;
  alwaysCreateEntryPointModule : bool;
}.

(** [new ProjectReflection(name, registry)] in the running process: the
    objects and the id counter stay, the indexes are those of the new
    project. *)
Definition newProjectIn (w : ProjectReflection.t) (nm : string)
    (reg : FileRegistry.t) : ProjectReflection.t :=
  ProjectReflection.newProject (ProjectReflection.objs w)
    (ProjectReflection.nextReflectionId w) nm reg.

(** The assignments with which [reviveProject] starts the revival: the new
    project, [this.project], [this.projectRoot] and the two id maps. *)
Definition beginProject (name : string) (projectObj : WireProject Body)
    (options : Options) (e : Env) : Env :=
  let w := newProjectIn (world e)
             (if JsString.truthy name then name else wireName projectObj)
             (registry options) in
  set_maps {[wireId projectObj := ProjectReflection.self w]} ∅
    (set_project (Some (ProjectReflection.self w)) (Some (optProjectRoot options))
       (set_world (λ _, w) e)).

(** What [reviveProject] and [reviveProjects] reset before they return. *)
Definition endRevival (e : Env) : Env := set_maps ∅ ∅ (set_project None None e).

(** [reviveProject(name, projectObj, options)]; the result is the id of
    the new project reflection. *)
Definition reviveProject (name : string) (projectObj : WireProject Body)
    (options : Options) : M Z :=
  bind assertNothingDeferred (λ _,
  bind (checkVersion projectObj) (λ _,
  bind (modifyEnv (beginProject name projectObj options)) (λ _,
  bind getEnv (λ e,
  let project := ProjectReflection.self (world e) in
  bind (fromObject deserializers (OfReflection project)
          (projectFromObject project projectObj)
          projectObj) (λ _,
  bind runDeferredPass (λ _,
  bind assertBalanced (λ _,
  bind (modifyEnv endRevival) (λ _,
  ret project)))))))).

(** The module that stands for one project of a merge, registered and added
    to the root, and the id maps of its revival. *)
Definition beginModule (project : Z) (proj : WireProject Body) (e : Env) : Z * Env :=
  let '(projModule, w) :=
    ProjectReflection.newReflection (world e) VDeclaration (wireName proj)
      ReflectionKind.Module (Some project) None in
  let w := ProjectReflection.registerReflection w projModule None None in
  let w := ProjectReflection.attachChild w project projModule in
  (projModule, set_maps {[wireId proj := projModule]} ∅ (set_world (λ _, w) e)).

(** One turn of the loop of [reviveProjects]. *)
Definition reviveModule (project : Z) (proj : WireProject Body) : M unit :=
  bind assertNothingDeferred (λ _,
  bind (checkVersion proj) (λ _,
  bind getEnv (λ e,
  let projModule := (beginModule project proj e).1 in
  bind (modifyEnv (λ e, (beginModule project proj e).2)) (λ _,
  bind (fromObject deserializers (OfReflection projModule)
          (declarationFromObject projModule proj)
          proj) (λ _,
  bind runDeferredPass (λ _,
  assertBalanced)))))).

(** The root of a merge, [this.project] and [this.projectRoot]. *)
Definition beginProjects (name : string) (options : Options) (e : Env) : Env :=
  let w := newProjectIn (world e) name (registry options) in
  set_project (Some (ProjectReflection.self w)) (Some (optProjectRoot options))
    (set_world (λ _, w) e).

(** [reviveProjects(name, projects, options)] *)
Definition reviveProjects (name : string) (projects : list (WireProject Body))
    (options : Options) : M Z :=
  match projects, alwaysCreateEntryPointModule options with
  | [only], false => reviveProject name only options
  | _, _ =>
      bind (modifyEnv (beginProjects name options)) (λ _,
      bind getEnv (λ e,
      let project := ProjectReflection.self (world e) in
      bind (forEachM (reviveModule project) projects) (λ _,
      bind (modifyEnv endRevival) (λ _,
      ret project))))
  end.

(** What the deferred pass and the assertion on the stack of active
    reflections come to: the callbacks of the queue are run in the order of
    the queue, each once, up to the first that throws; its error leaves the
    pass, and the callbacks behind it are neither run nor kept.  When none
    throws, work that they queued fails the first assertion and is not
    run. *)
Definition afterDeferred (de : De) : De * (Error + unit) :=
  let ran := reached (deferred de) (env de) in
  let e2 := ranAll ran (env de) in
  let q2 := queuedBy ran (env de) in
  match thrownBy (deferred de) (env de) with
  | Some err => ({| env := e2; deferred := q2 |}, inl err)
  | None =>
      if bool_decide (q2 = []) then
        if bool_decide (activeReflection e2 = []) then
          ({| env := e2; deferred := [] |}, inr tt)
        else
          ({| env := e2; deferred := [] |},
           inl (AssertionError "Imbalanced reflection deserialization"))
      else
        ({| env := e2; deferred := q2 |},
         inl (AssertionError "Work may not be double deferred when deserializing."))
  end.

End revival.

(** *** The revival of reflections *)

(** [ReflectionKind] of what a builder of [reflectionBuilders] constructs:
    the kind on the wire for declarations, parameters and signatures, the
    kind that the constructor of the class sets for the others. *)
Definition builtKind (v : ReflectionVariant) (wireKind : Z) : Z :=
  match v with
  | VDeclaration | VParam | VSignature => wireKind
  | VDocument => ReflectionKind.Document
  | VReference => ReflectionKind.Reference
  | VTypeParam => ReflectionKind.TypeParameter
  | VProject => ReflectionKind.Project
  end.

(** [constructReflection(obj)]: the builder of the variant, on the
    innermost active reflection; the new id is recorded and the reflection
    registered.  A reference is built with its parent for target (the
    real one is not yet known). *)
Definition constructReflection (obj : Wire) : M Z :=
  bind getEnv (λ e,
  match last (activeReflection e) with
  | None => throw (AssertionError "this.activeReflection.length > 0")
  | Some parent =>
      match variantOfTree obj with
      | VProject =>
          throw (ErrorOf "Not supported, use Deserializer.reviveProject(s) instead.")
      | v =>
          let '(result, w) :=
            ProjectReflection.newReflection (world e) v (nameOf obj)
              (builtKind v (kindOf obj)) (Some parent)
              (match v with VReference => Some (TargetId parent) | _ => None end) in
          bind (modifyEnv (λ e,
                  set_maps (<[label obj := result]> (oldIdToNewId e))
                    (oldFileIdToNewFileId e) (set_world (λ _, w) e))) (λ _,
          match project e with
          | None =>
              throw (TypeError "Cannot read properties of undefined")
          | Some _ =>
              bind (modifyEnv
                      (set_world (λ w,
                         ProjectReflection.registerReflection w result None None)))
                   (λ _, ret result)
          end)
      end
  end).

(** The target that the builder of a reference type gives it:
    [ReferenceType.createResolvedReference(obj.name, -2, null)]. *)
Definition unresolved (_ : ReferenceTarget) : ReferenceTarget := TargetId (-2).

(** The ids of [childrenIncludingDocuments], [groups] and [categories],
    looked up in [oldIdToNewId]. *)
Definition reviveGroup (ids : gmap Z Z) (g : string * list Z) : string * list Z :=
  (g.1, omap (ids !!.) g.2).

Definition reviveIds (ids : gmap Z Z) (s : Slots) : Slots :=
  {| children := children s; documents := documents s;
     childrenIncludingDocuments :=
       option_map (omap (ids !!.)) (childrenIncludingDocuments s);
     groups := option_map (List.map (reviveGroup ids)) (groups s);
     categories := option_map (List.map (reviveGroup ids)) (categories s);
     typeParameters := typeParameters s; type := type s;
     defaultType := defaultType s;
     signatures := signatures s; indexSignatures := indexSignatures s;
     getSignature := getSignature s; setSignature := setSignature s;
     parameters := parameters s |}.

(** Modelled from the spec: [fromObject] of the reflection classes other
    than [TypeParameterReflection] and [ProjectReflection] is not part of
    the sources at hand.  By the spec it "copies scalar fields directly
    and recursively revives nested wire objects into typed children, or
    resolves ids via [oldIdToNewId]".  [revived] revives the slots of the
    wire object; the reflection [this] gets the name on the wire and the
    revived slots. *)
Definition populate (this : Z) (nm : string) (revived : M Slots) : M unit :=
  bind revived (λ s,
  modifyEnv (λ e,
    set_world
      (ProjectReflection.set_objs
         (λ h, match h !! this with
               | Some o =>
                   <[this := set_slots (λ _, reviveIds (oldIdToNewId e) s)
                               (set_name nm o)]> h
               | None => h
               end)) e)).

Section reflections.

(** The plugged-in components that handle wire reflections. *)
Variable deserializers : list (Component Wire).

(** [de.revive(obj, (o) => de.constructReflection(o))], which is also
    what [reviveMany] does to each element: the reflection is constructed
    and then populated by [de.fromObject].  A type parameter revives its
    [type] and its [default] (that class is in the sources). *)
Fixpoint reviveReflection (obj : Wire) : M Z :=
  match obj with
  | Node _ nm v _ s =>
      bind (constructReflection obj) (λ revived,
      bind (fromObject deserializers (OfReflection revived)
              (populate revived nm
                 (traverseOwn reviveReflection unresolved v s))
              obj) (λ _,
      ret revived))
  end.

(** [ContainerReflection.fromObject], the [super.fromObject] of the
    project, on a wire project that carries the slots of the container. *)
Definition containerFromObject (this : Z) (obj : WireProject (SlotsOf Wire)) : M unit :=
  populate this (wireName obj) (traverseSlots reviveReflection unresolved (body obj)).

End reflections.

Arguments checkVersion {Body} _.
Arguments beginProject {Body} _ _ _ _.
Arguments beginModule {Body} _ _ _.

(** [new Deserializer(logger)] in a process whose reflection objects and id
    counter are those of [w]; nothing is being revived. *)
Definition newDeserializer (w : ProjectReflection.t) : De :=
  {| env := {| world := w; project := None; projectRoot := None;
               oldIdToNewId := ∅; oldFileIdToNewFileId := ∅;
               activeReflection := []; logger := [];
               packageInfo := (None, None, None) |};
     deferred := [] |}.

(** *** A sample setting *)

(** The two modules of [twoSiblings] revived from the old ids 10 and 11;
    the old id 12 is mapped to a reflection that the project does not
    hold, and the old id 13 is not mapped. *)
Definition revivedSiblings : Env :=
  set_maps {[10 := 2; 11 := 3; 12 := 99]} ∅
    (env (newDeserializer ProjectReflection.twoSiblings)).

(** The two modules revived with their ids swapped. *)
Definition swappedSiblings : Env :=
  set_maps {[2 := 3; 3 := 2]} ∅ (env (newDeserializer ProjectReflection.twoSiblings)).

(** Work that the inherited part of a sample wire project asks to defer: a
    callback that logs the warning for [n], or a callback that defers
    such a callback when it runs. *)
Inductive SampleWork :=
| LogIt (n : Z)
| DeferAgain (n : Z).

Definition sampleCallback (wk : SampleWork) : Deferred :=
  match wk with
  | LogIt n => quietly (warn (serialized_project_referenced_0_not_part_of_project n))
  | DeferAgain n =>
      Defer (λ e,
        {| res_env := e;
           res_deferred :=
             [quietly (warn (serialized_project_referenced_0_not_part_of_project n))];
           res_thrown := None |})
  end.

Definition sampleFromObject (this : Z) (obj : WireProject (list SampleWork)) : M unit :=
  forEachM (λ wk, defer (sampleCallback wk)) (body obj).

Definition sampleWire (version : string) (nm : string) (work : list SampleWork)
    : WireProject (list SampleWork) :=
  {| schemaVersion := version; wireId := 0; wireName := nm; body := work;
     packageName := None; packageVersion := None; readme := None;
     symbolIdMap := Some [(5, "s")];
     wireFiles := Some {| entries := Some []; wireReflections := Some [] |} |}.

(** A sample wire project without [files]. *)
Definition sampleWithoutFiles : WireProject (list SampleWork) :=
  {| schemaVersion := SCHEMA_VERSION; wireId := 0; wireName := "P"; body := [];
     packageName := Some "pkg"; packageVersion := None; readme := None;
     symbolIdMap := None; wireFiles := None |}.

(** A deserializer on which [defer] was called while nothing was being
    revived. *)
Definition staleDeserializer : De :=
  {| env := env (newDeserializer ProjectReflection.twoSiblings);
     deferred := [sampleCallback (LogIt 1)] |}.

(** A deserializer in the middle of a revival into [twoSiblings], and the
    wire form of a registry of two files. *)
Definition sampleReviving : De :=
  {| env := set_project (Some 1) (Some "/docs/")
              (env (newDeserializer ProjectReflection.twoSiblings));
     deferred := [] |}.

Definition sampleFiles : WireFileRegistry :=
  {| entries := Some [(5, "a.md"); (6, "b.md")];
     wireReflections := Some [(6, 10); (5, 12)] |}.

(** The wire form of a registry with a path that carries an anchor. *)
Definition sampleAnchoredFiles : WireFileRegistry :=
  {| entries := Some [(7, "c.md#sec")]; wireReflections := Some [] |}.

(** The same deserializer inside the [fromObject] of the module [A], and a
    wire reflection to construct there. *)
Definition sampleActive : De :=
  {| env := set_activeReflection (λ _, [1; 2]) (env sampleReviving);
     deferred := [] |}.

Definition sampleNode : Wire :=
  Node 10 "f" VReference 64
    {| children := None; documents := None; childrenIncludingDocuments := None;
       groups := None; categories := None; typeParameters := None; type := None;
       defaultType := None; signatures := None; indexSignatures := None;
       getSignature := None; setSignature := None; parameters := None |}.

Definition sampleOptions : Options :=
  {| optProjectRoot := "/"; registry := FileRegistry.empty;
     alwaysCreateEntryPointModule := false |}.

Definition sampleReviveProject (name : string) (work : list SampleWork)
    : De * (Error + Z) :=
  reviveProject (list SampleWork) (λ _ path, path) ret sampleFromObject []
    name (sampleWire SCHEMA_VERSION "P" work) sampleOptions
    (newDeserializer ProjectReflection.twoSiblings).

(** A sample wire project whose file registry comes without
    [reflections], the skeleton-and-field pass of its revival, and the
    revival. *)
Definition sampleWithoutReflections (work : list SampleWork)
    : WireProject (list SampleWork) :=
  {| schemaVersion := SCHEMA_VERSION; wireId := 0; wireName := "P"; body := work;
     packageName := None; packageVersion := None; readme := None;
     symbolIdMap := Some [(5, "s")];
     wireFiles := Some {| entries := Some []; wireReflections := None |} |}.

Definition samplePassWithoutReflections (work : list SampleWork) : De * (Error + unit) :=
  let obj := sampleWithoutReflections work in
  let e0 :=
    beginProject "" obj sampleOptions (env (newDeserializer ProjectReflection.twoSiblings)) in
  let project := ProjectReflection.self (world e0) in
  fromObject [] (OfReflection project)
    (projectFromObject (list SampleWork) (λ _ path, path) ret sampleFromObject
       project obj)
    obj {| env := e0; deferred := [] |}.

Definition sampleReviveWithoutReflections (work : list SampleWork) : De * (Error + Z) :=
  reviveProject (list SampleWork) (λ _ path, path) ret sampleFromObject []
    "" (sampleWithoutReflections work) sampleOptions
    (newDeserializer ProjectReflection.twoSiblings).

(** A merge of sample wire projects with the given schema versions. *)
Definition sampleMerge (versions : list string) : De * (Error + Z) :=
  reviveProjects (list SampleWork) (λ _ path, path) ret sampleFromObject
    sampleFromObject [] "merged"
    ((λ v, sampleWire v "P" [LogIt 1]) <$> versions) sampleOptions
    (newDeserializer ProjectReflection.twoSiblings).

End Deserializer.

(** * The serializer *)

Module Serializer.

Import Models Effects.

(** The serializer: the project that is being serialized and its root
    directory. *)
Record t := {
  project : ProjectReflection.t;
  projectRoot : string;
}.

(** What serializing throws in the model: the recursion is deeper than
    the stack ([fuel]), or a slot holds what is not a reflection object.
    Neither happens on the finite tree of objects that a project is. *)
Inductive Error :=
| RangeError (message : string)
| TypeError (message : string).

Definition Ser (A : Type) : Type := SE t Error A.

(** The entries of a [Record<number, V>], as [Object.entries] lists
    them: by ascending key. *)
Definition entriesOf {V : Type} (m : gmap Z V) : list (Z * V) :=
  omap (λ k, (λ v, (k, v)) <$> m !! k) (merge_sort Z.le (elements (dom m))).

(** Modelled from the spec: [Serializer.toObject] and the [toObject] of
    the reflection classes other than [TypeParameterReflection] and
    [ProjectReflection] are not part of the sources at hand.  By the spec
    "the Serializer walks the graph to produce wire output", a nested
    object in which every reflection carries its variant: a reflection
    is written with its id, name, variant and kind, and with what its
    slots hold, reflections and types, written the same way. *)
Fixpoint toObject (fuel : nat) (i : Z) : Ser Wire :=
  match fuel with
  | O => throw (RangeError "Maximum call stack size exceeded")
  | S fuel' =>
      λ ser,
        match ProjectReflection.objs (project ser) !! i with
        | None => throw (TypeError "Cannot read properties of undefined") ser
        | Some o =>
            bind (traverseOwn (toObject fuel') (λ tgt, tgt) (variant o) (slots o))
              (λ s, ret (Node (id o) (name o) (variant o) (kind o) s)) ser
        end
  end.

Section project.

(** [NormalizedPathUtils.relative] and [Comment.serializeDisplayParts]
    are not part of the sources at hand. *)
Variable relative : string → string → string.
Variable serializeDisplayParts : list string → list string.

(** [FileRegistry.toObject(ser)].  An association kept under the key
    [undefined] would be written under the property name ["undefined"];
    it is left out here (a registry built by the methods of the class has
    none). *)
Definition filesToObject (ser : t) (files : FileRegistry.t)
    : Deserializer.WireFileRegistry :=
  {| Deserializer.entries :=
       Some (prod_map (λ k, k) (relative (projectRoot ser))
               <$> entriesOf (FileRegistry.mediaToPath files));
     Deserializer.wireReflections :=
       Some (filter
               (λ kv, is_Some (ProjectReflection.getReflectionById (project ser) kv.2))
               (entriesOf (FileRegistry.mediaToReflection files))) |}.

(** [ProjectReflection.toObject(serializer)], on a project with the given
    [packageName], [packageVersion] and [readme]. *)
Definition projectToObject (fuel : nat)
    (info : option string * option string * option (list string))
    : Ser (Deserializer.WireProject (SlotsOf Wire)) :=
  bind (λ ser, toObject fuel (ProjectReflection.self (project ser)) ser) (λ super,
  λ ser,
    ret {| Deserializer.schemaVersion := Deserializer.JSON_SCHEMA_VERSION;
           Deserializer.wireId := label super;
           Deserializer.wireName := nameOf super;
           Deserializer.body := owned super;
           Deserializer.packageName := info.1.1;
           Deserializer.packageVersion := info.1.2;
           Deserializer.readme := serializeDisplayParts <$> info.2;
           Deserializer.symbolIdMap :=
             Some (entriesOf
                     (ProjectReflection.reflectionIdToSymbolIdMap
                        (ProjectReflection.symbols (project ser))));
           Deserializer.wireFiles :=
             Some (filesToObject ser (ProjectReflection.files (project ser))) |}
      ser).

End project.

(** *** A sample setting *)

(** Stand-ins for [NormalizedPathUtils.relative] and
    [NormalizedPathUtils.resolve] in the sample setting, for paths below a
    root that ends in a slash: the path without the root in front, and the
    root in front of the path. *)
Definition sampleRelative (root path : string) : string :=
  JsString.substringFrom path (Z.of_nat (String.length root)).

Definition sampleResolve (root path : string) : string := root +:+ path.

(** A serializer for [twoSiblings], a registry of two files, the second
    one the file of the module [A], and its revival into an empty
    registry. *)
Definition sampleSerializer : t :=
  {| project := ProjectReflection.twoSiblings; projectRoot := "/docs/" |}.

Definition sampleRegistry : FileRegistry.t :=
  FileRegistry.registerReflection
    (FileRegistry.registerAbsolute FileRegistry.empty "/docs/a.md").2 "/docs/b.md" 2.

Definition sampleRevived : Deserializer.De * (Deserializer.Error + unit) :=
  Deserializer.filesFromObject sampleResolve
    (filesToObject sampleRelative sampleSerializer sampleRegistry)
    Deserializer.sampleReviving.

End Serializer.

(** * Graphs up to renumbering *)

Module Isomorphism.

Import Models.

(** The reflection [i], read through [look], is the root of a tree of
    reflections of the given shape: each has the variant, kind and name
    that the shape says, and its slots hold, in order, trees of the shapes
    that the slots of the shape hold; the types are the same up to the
    declarations they own and the targets they refer to.  With [strict],
    every reflection also has the one that holds it for parent, the root
    [par]. *)
Inductive shaped (look : Z → option Reflection) (strict : bool)
    : option Z → Z → Shape → Prop :=
| Shaped par i o sl :
    look i = Some o →
    (strict = true → parent o = par) →
    SRel (shaped look strict (Some i)) (λ _ tgt, tgt = TargetBroken)
      (ownSlots (variant o) (slots o)) sl →
    childrenIncludingDocuments sl = None →
    groups sl = None →
    categories sl = None →
    shaped look strict par i (Node () (name o) (variant o) (kind o) sl).

(** A wire reflection that the builders of the deserializer rebuild as it
    is: no project is nested in it, documents, references and type
    parameters have the kind of their class, and a type parameter has
    nothing but its types. *)
Inductive wellFormed : Wire → Prop :=
| WellFormed i nm v k s :
    v ≠ VProject →
    Deserializer.builtKind v k = k →
    ownSlots v s = s →
    SRel (λ x _, wellFormed x) (λ _ _, True) s s →
    wellFormed (Node i nm v k s).

(** The reflection objects with an id from [lo] up to, not including,
    [hi]. *)
Definition window (h : gmap Z Reflection) (lo hi : Z) (i : Z) : option Reflection :=
  if decide (lo ≤ i < hi) then h !! i else None.

(** The reflection objects and the id counter of the process in which the
    deserializer runs. *)
Definition heap (de : Deserializer.De) : gmap Z Reflection :=
  ProjectReflection.objs (Deserializer.world (Deserializer.env de)).

Definition next (de : Deserializer.De) : Z :=
  ProjectReflection.nextReflectionId (Deserializer.world (Deserializer.env de)).

(** Code of the deserializer that creates reflections takes new ids and
    leaves the reflection objects that were there alone. *)
Definition grows (de de' : Deserializer.De) : Prop :=
  next de ≤ next de' ∧ ∀ i, i < next de → heap de' !! i = heap de !! i.

(** The state between two revivals of reflections: the stack of active
    reflections, a project to register with, and ids from [lo] on to
    give. *)
Definition reviving (stack : list Z) (lo : Z) (de : Deserializer.De) : Prop :=
  Deserializer.activeReflection (Deserializer.env de) = stack
  ∧ is_Some (Deserializer.project (Deserializer.env de))
  ∧ lo ≤ next de.

(** The wire reflection [w] was revived as [y], a child of [p] with an id
    from [lo] on: the objects from [y] up to some later id are a tree of
    the shape of [w]. *)
Definition revivedAs (p lo : Z) (de : Deserializer.De) (w : Wire) (y : Z) : Prop :=
  lo ≤ y
  ∧ ∃ hi, y < hi ≤ next de
          ∧ shaped (window (heap de) y hi) true (Some p) y (erase w).

End Isomorphism.

(** * Properties *)

(** ** Strings *)

Section string_facts.

Local Arguments String.append !_ _ / : simpl nomatch.

Lemma indexOfFrom_absent c s i :
  JsString.contains c s = false → JsString.indexOfFrom c s i = -1.
Proof.
  revert i. induction s as [|x s IH]; intros i; simpl; [done|].
  destruct (Ascii.eqb x c); simpl; [done|]. apply IH.
Qed.

Lemma indexOfFrom_app c p a i :
  JsString.contains c p = false →
  JsString.indexOfFrom c (p +:+ String c a) i = i + Z.of_nat (String.length p).
Proof.
  revert i. induction p as [|x p IH]; intros i; simpl.
  - rewrite Ascii.eqb_refl. lia.
  - destruct (Ascii.eqb x c); simpl; [done|].
    intros H. rewrite IH by done. lia.
Qed.

Lemma length_app (s1 s2 : string) :
  String.length (s1 +:+ s2) = (String.length s1 + String.length s2)%nat.
Proof. induction s1; simpl; congruence. Qed.

Lemma substring_prefix (p q : string) :
  String.substring 0 (String.length p) (p +:+ q) = p.
Proof. induction p as [|x p IH]; simpl; [by destruct q|]. by rewrite IH. Qed.

Lemma substring_suffix (p q : string) :
  String.substring (String.length p) (String.length q) (p +:+ q) = q.
Proof.
  induction p as [|x p IH]; simpl; [|done].
  induction q as [|y q IHq]; simpl; [done|]. by rewrite IHq.
Qed.

Lemma substring_split (s : string) (n : nat) :
  (n ≤ String.length s)%nat →
  String.substring 0 n s +:+ String.substring n (String.length s - n) s = s.
Proof.
  revert n. induction s as [|x s IH]; intros [|n] Hn; simpl in *; try lia; try done.
  - f_equal. clear. induction s as [|y s IHs]; simpl; [done|]. by rewrite IHs.
  - f_equal. apply IH. lia.
Qed.

Lemma js_substring_prefix (p q : string) :
  JsString.substring (p +:+ q) 0 (Z.of_nat (String.length p)) = p.
Proof.
  unfold JsString.substring, JsString.clamp. rewrite length_app.
  replace (Z.min _ _) with 0 by lia.
  replace (Z.max _ _ - 0) with (Z.of_nat (String.length p)) by lia.
  rewrite Nat2Z.id. apply substring_prefix.
Qed.

Lemma js_substringFrom_suffix (p q : string) :
  JsString.substringFrom (p +:+ q) (Z.of_nat (String.length p)) = q.
Proof.
  unfold JsString.substringFrom, JsString.substring, JsString.clamp.
  rewrite length_app.
  replace (Z.min _ _) with (Z.of_nat (String.length p)) by lia.
  replace (Z.max _ _ - _) with (Z.of_nat (String.length q)) by lia.
  rewrite !Nat2Z.id. apply substring_suffix.
Qed.

Lemma app_inj_r (s1 s2 e : string) : s1 +:+ e = s2 +:+ e → s1 = s2.
Proof.
  revert s2. induction s1 as [|x s1 IH]; intros [|y s2] H; simpl in *.
  - done.
  - apply (f_equal String.length) in H. simpl in H. rewrite length_app in H. lia.
  - apply (f_equal String.length) in H. simpl in H. rewrite length_app in H. lia.
  - injection H as -> H. f_equal. by apply IH.
Qed.

Lemma splitFilename_app file name ext :
  NormalizedPathUtils.splitFilename file = (name, ext) → name +:+ ext = file.
Proof.
  unfold NormalizedPathUtils.splitFilename.
  set (d := JsString.lastIndexOf file "."). destruct (d <? 1) eqn:Hd.
  - intros [= <- <-]. clear. induction file; simpl; congruence.
  - intros [= <- <-]. apply Z.ltb_ge in Hd.
    unfold JsString.substringFrom, JsString.substring, JsString.clamp.
    set (len := Z.of_nat (String.length file)).
    destruct (decide (d ≤ len)) as [Hle|Hgt].
    + replace (Z.min (Z.max 0 (Z.min 0 len)) _) with 0 by lia.
      replace (Z.max (Z.max 0 (Z.min 0 len)) _ - 0) with d by lia.
      replace (Z.min (Z.max 0 (Z.min d len)) _) with d by lia.
      replace (Z.max (Z.max 0 (Z.min d len)) _ - d) with (len - d) by lia.
      replace (Z.to_nat 0) with 0%nat by done.
      replace (Z.to_nat (len - d)) with (String.length file - Z.to_nat d)%nat by lia.
      apply substring_split. lia.
    + replace (Z.min (Z.max 0 (Z.min 0 len)) _) with 0 by lia.
      replace (Z.max (Z.max 0 (Z.min 0 len)) _ - 0) with len by lia.
      replace (Z.min (Z.max 0 (Z.min d len)) _) with len by lia.
      replace (Z.max (Z.max 0 (Z.min d len)) _ - len) with 0 by lia.
      replace (Z.to_nat 0) with 0%nat by done. unfold len. rewrite Nat2Z.id.
      pose proof (substring_split file (String.length file) (le_n _)) as E.
      by rewrite Nat.sub_diag in E.
Qed.

End string_facts.

(** ** File registry *)

Section file_registry_facts.

Import FileRegistry.
Local Arguments String.append !_ _ / : simpl nomatch.

Lemma registerAbsolute_plain r p :
  JsString.contains "#" p = false →
  registerAbsolute r p = registerStripped r p None.
Proof.
  intros Hp. unfold registerAbsolute, JsString.indexOf.
  rewrite (indexOfFrom_absent _ _ _ Hp). by rewrite !decide_True by done.
Qed.

Lemma registerAbsolute_anchored r p a :
  JsString.contains "#" p = false →
  registerAbsolute r (p +:+ "#" +:+ a) = registerStripped r p (Some a).
Proof.
  intros Hp. unfold registerAbsolute, JsString.indexOf.
  change ("#" +:+ a) with (String "#" a).
  rewrite (indexOfFrom_app _ _ _ _ Hp). rewrite Z.add_0_l.
  rewrite !decide_False by lia.
  rewrite js_substring_prefix.
  replace (Z.of_nat (String.length p) + 1)
    with (Z.of_nat (String.length (p +:+ "#"))) by (rewrite length_app; simpl; lia).
  replace (p +:+ String "#" a) with ((p +:+ "#") +:+ a).
  - by rewrite js_substringFrom_suffix.
  - clear. induction p; simpl; [done|]. by f_equal.
Qed.

Lemma registerAbsolute_withoutAnchor r p :
  ∃ a, registerAbsolute r p = registerStripped r (withoutAnchor p) a.
Proof. unfold registerAbsolute, registerStripped, withoutAnchor. eauto. Qed.

Lemma withoutAnchor_plain p : JsString.contains "#" p = false → withoutAnchor p = p.
Proof.
  intros Hp. unfold withoutAnchor, JsString.indexOf.
  rewrite (indexOfFrom_absent _ _ _ Hp). by rewrite decide_True by done.
Qed.

Lemma withoutAnchor_anchored p a :
  JsString.contains "#" p = false → withoutAnchor (p +:+ "#" +:+ a) = p.
Proof.
  intros Hp. unfold withoutAnchor, JsString.indexOf.
  change ("#" +:+ a) with (String "#" a).
  rewrite (indexOfFrom_app _ _ _ _ Hp). rewrite Z.add_0_l.
  rewrite decide_False by lia. apply js_substring_prefix.
Qed.

Lemma registerStripped_target r p a b :
  target (registerStripped r p a).1 = target (registerStripped r p b).1
  ∧ (registerStripped r p a).2 = (registerStripped r p b).2.
Proof.
  unfold registerStripped. destruct (pathToMedia r !! p) as [e|]; [|done].
  by destruct (decide (e = 0)).
Qed.

Lemma registerStripped_spec r p a :
  0 < nextId r →
  pathToMedia (registerStripped r p a).2 !! p = Some (target (registerStripped r p a).1)
  ∧ target (registerStripped r p a).1 ≠ 0
  ∧ anchor (registerStripped r p a).1 = a.
Proof.
  intros Hn. unfold registerStripped.
  destruct (pathToMedia r !! p) as [e|] eqn:He.
  - destruct (decide (e = 0)) as [->|Hne]; simpl.
    + rewrite !lookup_insert_eq. repeat split; lia.
    + by rewrite He.
  - simpl. rewrite !lookup_insert_eq. repeat split; lia.
Qed.

Lemma registerStripped_again r p a b :
  0 < nextId r →
  registerStripped (registerStripped r p a).2 p b
  = ({| target := target (registerStripped r p a).1; anchor := b |},
     (registerStripped r p a).2).
Proof.
  intros Hn. destruct (registerStripped_spec r p a Hn) as (H1 & H2 & _).
  unfold registerStripped at 1. rewrite H1. by rewrite decide_False.
Qed.

Lemma registerAbsolute_nextId r p :
  nextId r ≤ nextId (registerAbsolute r p).2.
Proof.
  unfold registerAbsolute.
  repeat (case_match; simpl); lia.
Qed.

Lemma getName_nextId r id n r' :
  getName r id = Some (n, r') → nextId r' = nextId r.
Proof.
  unfold getName. intros H.
  repeat (case_match; simplify_eq/=); done.
Qed.

Lemma reachable_nextId r : reachable r → 0 < nextId r.
Proof.
  induction 1 as [|r p _ IH|r p refl _ IH|r p refl _ IH|r refl _ IH|r id n r' _ IH Hg].
  - done.
  - pose proof (registerAbsolute_nextId r p). lia.
  - unfold registerReflection. pose proof (registerAbsolute_nextId r p).
    destruct (registerAbsolute r p); simpl in *. lia.
  - unfold registerReflectionPath. pose proof (registerAbsolute_nextId r p).
    destruct (registerAbsolute r p); simpl in *. lia.
  - unfold removeReflection. repeat (case_match; simpl); done.
  - by rewrite (getName_nextId _ _ _ _ Hg).
Qed.

Lemma suffixed_length name ext k :
  (String.length name + String.length ext < String.length (suffixed name ext k))%nat.
Proof. unfold suffixed. rewrite !length_app. simpl. lia. Qed.

Lemma suffixed_ne_file name ext file k :
  name +:+ ext = file → suffixed name ext k ≠ file.
Proof.
  intros <- E. pose proof (suffixed_length name ext k) as L.
  rewrite E, length_app in L. lia.
Qed.

Lemma suffixed_inj name ext i j :
  suffixed name ext i = suffixed name ext j → i = j.
Proof.
  unfold suffixed. intros E.
  apply (inj (String.app name)) in E. apply (inj (String.app "-")) in E.
  apply app_inj_r in E. by apply (inj pretty) in E.
Qed.

(** The renaming loop ends: among [size usage + 1] candidates one is free. *)
Lemma freeCounter_bounded fuel (usage : gmap string Z) name ext (K : gset string) c :
  (∀ j, c ≤ j → is_Some (usage !! suffixed name ext j) → suffixed name ext j ∈ K) →
  (size K < fuel)%nat →
  ∃ c', freeCounter fuel usage name ext c = Some c' ∧ c ≤ c'
        ∧ usage !! suffixed name ext c' = None.
Proof.
  revert K c. induction fuel as [|fuel IH]; intros K c HK Hsz; [lia|].
  simpl. destruct (usage !! suffixed name ext c) as [v|] eqn:Hc.
  - assert (suffixed name ext c ∈ K) as Hin by (apply HK; [lia|by rewrite Hc]).
    destruct (IH (K ∖ {[suffixed name ext c]}) (c + 1)) as (c' & -> & ? & ?).
    + intros j Hj Hs. apply elem_of_difference. split; [apply HK; [lia|done]|].
      rewrite elem_of_singleton. intros E%suffixed_inj. lia.
    + assert (size K = size ({[suffixed name ext c]} : gset string)
                       + size (K ∖ {[suffixed name ext c]}))%nat as E.
      { rewrite <- size_union by (apply disjoint_difference_r1; done). f_equal.
        apply set_eq. intros x. rewrite elem_of_union, elem_of_difference.
        rewrite elem_of_singleton. destruct (decide (x = suffixed name ext c)); intuition congruence. }
      rewrite size_singleton in E. lia.
    + exists c'. split; [done|]. split; [lia|done].
  - exists c. split; [done|]. split; [lia|done].
Qed.

Lemma freeCounter_total (usage : gmap string Z) name ext c :
  is_Some (freeCounter (S (size usage)) usage name ext c).
Proof.
  destruct (freeCounter_bounded (S (size usage)) usage name ext (dom usage) c)
    as (c' & -> & _); [|rewrite size_dom; lia|done].
  intros j _ Hs. by apply elem_of_dom.
Qed.

(** [getName] always returns. *)
Lemma getName_total r id : is_Some (getName r id).
Proof.
  unfold getName. destruct (mediaToPath r !! id) as [p|]; [|done].
  destruct (negb (JsString.truthy p)); [done|].
  destruct (names r !! id); [done|].
  destruct (nameUsage r !! NormalizedPathUtils.basename p) as [c0|]; [|done].
  destruct (NormalizedPathUtils.splitFilename _) as [name ext].
  by destruct (freeCounter_total (nameUsage r) name ext c0) as [c ->].
Qed.

Lemma getName_bare r id p :
  mediaToPath r !! id = Some p → JsString.truthy p = true →
  names r !! id = None →
  nameUsage r !! NormalizedPathUtils.basename p = None →
  getName r id
  = Some (Some (NormalizedPathUtils.basename p),
          set_names (<[id := NormalizedPathUtils.basename p]> (names r))
                    (<[NormalizedPathUtils.basename p := 1]> (nameUsage r)) r).
Proof. intros Hp Ht Hn Hu. unfold getName. by rewrite Hp, Ht, Hn, Hu. Qed.

Lemma getName_collision r id p name ext k :
  mediaToPath r !! id = Some p → JsString.truthy p = true →
  names r !! id = None →
  NormalizedPathUtils.splitFilename (NormalizedPathUtils.basename p) = (name, ext) →
  nameUsage r !! NormalizedPathUtils.basename p = Some k →
  nameUsage r !! suffixed name ext k = None →
  getName r id
  = Some (Some (suffixed name ext k),
          set_names (<[id := suffixed name ext k]> (names r))
                    (<[suffixed name ext k := k + 1]>
                       (<[NormalizedPathUtils.basename p := k + 1]> (nameUsage r))) r).
Proof.
  intros Hp Ht Hn Hs Hu Hk. unfold getName. rewrite Hp, Ht, Hn, Hu, Hs. simpl.
  by rewrite Hk.
Qed.

Lemma getNames_collisions file name ext ids :
  NormalizedPathUtils.splitFilename file = (name, ext) →
  NoDup ids →
  ∀ r k,
    unnamed r file ids →
    nameUsage r !! file = Some k →
    (∀ j, k ≤ j → nameUsage r !! suffixed name ext j = None) →
    fst <$> getNames r ids = Some (suffixedFrom name ext k (List.length ids)).
Proof.
  intros Hsplit. induction 1 as [|i ids Hi Hnd IH]; intros r k Hun Hk Hfree; [done|].
  destruct (Hun i) as (p & Hp & Ht & Hb & Hn); [left|]. subst file.
  simpl. rewrite (getName_collision r i p name ext k) by auto using Z.le_refl.
  pose proof (splitFilename_app _ _ _ Hsplit) as Happ.
  match goal with |- context [getNames ?r' ids] =>
    assert (fst <$> getNames r' ids
            = Some (suffixedFrom name ext (k + 1) (List.length ids))) as IH'
  end.
  { apply IH; simpl.
    - intros i' Hi'. destruct (Hun i') as (p' & ? & ? & ? & ?); [by right|].
      exists p'. repeat split; try done. simpl. rewrite lookup_insert_ne; [done|].
      by intros <-.
    - rewrite lookup_insert_ne by (by apply suffixed_ne_file).
      by rewrite lookup_insert_eq.
    - intros j Hj. rewrite lookup_insert_ne by (intros E%suffixed_inj; lia).
      rewrite lookup_insert_ne
        by (intros E; symmetry in E; revert E; by apply suffixed_ne_file).
      apply Hfree. lia. }
  destruct (getNames _ ids) as [[ns r2]|]; simpl in *; [congruence|done].
Qed.

Lemma awaitsName_unnamed r file ids :
  forallb (awaitsName r file) ids = true → unnamed r file ids.
Proof.
  intros H i Hi. apply list_elem_of_In in Hi.
  rewrite forallb_forall in H. specialize (H i Hi). unfold awaitsName in H.
  destruct (mediaToPath r !! i) as [p|]; [|done].
  apply andb_true_iff in H as [H H3]. apply andb_true_iff in H as [H1 H2].
  apply bool_decide_eq_true in H2, H3. by exists p.
Qed.

(** C5: [registerAbsolute] splits the path at its first [#] and looks only
    the part before it up.  Registering [p] and then [p#a] gives the same
    file id both times, with no anchor the first time and the anchor [a] the
    second, and the second call changes nothing; in any registry a path and
    its anchored form get the same id and leave the same registry behind. *)
Theorem registerAbsolute_anchor_dedup (r : t) (p a : string) :
  0 < nextId r →
  JsString.contains "#" p = false →
  let first := registerAbsolute r p in
  let second := registerAbsolute first.2 (p +:+ "#" +:+ a) in
  target second.1 = target first.1
  ∧ anchor first.1 = None
  ∧ anchor second.1 = Some a
  ∧ second.2 = first.2
  ∧ ∀ r', target (registerAbsolute r' (p +:+ "#" +:+ a)).1
            = target (registerAbsolute r' p).1
          ∧ (registerAbsolute r' (p +:+ "#" +:+ a)).2 = (registerAbsolute r' p).2.
Proof.
  intros Hn Hp first second. subst first second.
  rewrite (registerAbsolute_plain r p Hp).
  rewrite (registerAbsolute_anchored _ p a Hp).
  rewrite (registerStripped_again r p None (Some a) Hn). cbn [fst snd target anchor].
  destruct (registerStripped_spec r p None Hn) as (_ & _ & Ha).
  do 4 (split; [done|]). intros r'.
  rewrite (registerAbsolute_plain r' p Hp), (registerAbsolute_anchored r' p a Hp).
  apply registerStripped_target.
Qed.

Lemma registerAbsolute_anchor_dedup_witness :
  target (registerAbsolute (registerAbsolute empty "/a/b.md").2 "/a/b.md#sec").1
  = target (registerAbsolute empty "/a/b.md").1
  ∧ anchor (registerAbsolute empty "/a/b.md").1 = None
  ∧ anchor (registerAbsolute (registerAbsolute empty "/a/b.md").2 "/a/b.md#sec").1
    = Some "sec".
Proof.
  destruct (registerAbsolute_anchor_dedup empty "/a/b.md" "sec")
    as (H1 & H2 & H3 & _); [reflexivity|reflexivity|].
  exact (conj H1 (conj H2 H3)).
Defined.

(** C6, as the specification words it, fails: the second of three files
    called [index.md] is shown as [index-1.md], not [index-2.md]; and after
    two files called [x.md], the first file called [x-1.md] does not keep
    its bare name, which the second [x.md] was given. *)
Lemma getName_collision_counterexample :
  fst <$> getNames threeIndexFiles [1; 2; 3]
  ≠ Some [Some "index.md"; Some "index-2.md"; Some "index-3.md"]
  ∧ fst <$> getNames suffixLikeFiles [1; 2; 3]
    = Some [Some "x.md"; Some "x-1.md"; Some "x-1-2.md"].
Proof. split; vm_compute; [intros [=]|reflexivity]. Qed.

Lemma freeCounter_least fuel (usage : gmap string Z) name ext :
  ∀ c c',
    freeCounter fuel usage name ext c = Some c' →
    c ≤ c'
    ∧ (∀ j, c ≤ j < c' → is_Some (usage !! suffixed name ext j))
    ∧ usage !! suffixed name ext c' = None.
Proof.
  induction fuel as [|fuel IH]; intros c c' H; simpl in H; [done|].
  destruct (usage !! suffixed name ext c) as [v|] eqn:E.
  - apply IH in H as (H1 & H2 & H3). split; [lia|]. split; [|done].
    intros j Hj. destruct (decide (j = c)) as [->|?]; [by rewrite E|].
    apply H2. lia.
  - injection H as <-. split; [lia|]. split; [|done]. intros j Hj. lia.
Qed.

(** C6, amended: a file with a path and without a display name, asked for
    its name, keeps its bare base name when that name is not in use;
    when it is in use, with the counter [k] kept for it, the file gets the
    suffix [-c] before the extension, [c] being the first counter from [k]
    on whose suffixed name is not in use, and [c + 1] is kept for the base
    name and for the new name.  So where neither a base name nor any of
    its suffixed forms is in use, distinct files with that base name that
    have no display name yet get, in the order in which they are asked,
    the bare name and then the suffixes [-1], [-2], ...: three files
    called [index.md] are shown as [index.md], [index-1.md],
    [index-2.md]. *)
Theorem getName_collision_names :
  (∀ r id p,
     mediaToPath r !! id = Some p → JsString.truthy p = true →
     names r !! id = None →
     nameUsage r !! NormalizedPathUtils.basename p = None →
     getName r id
     = Some (Some (NormalizedPathUtils.basename p),
             set_names (<[id := NormalizedPathUtils.basename p]> (names r))
                       (<[NormalizedPathUtils.basename p := 1]> (nameUsage r)) r))
  ∧ (∀ r id p name ext k,
       mediaToPath r !! id = Some p → JsString.truthy p = true →
       names r !! id = None →
       NormalizedPathUtils.splitFilename (NormalizedPathUtils.basename p) = (name, ext) →
       nameUsage r !! NormalizedPathUtils.basename p = Some k →
       ∃ c,
         k ≤ c
         ∧ (∀ j, k ≤ j < c → is_Some (nameUsage r !! suffixed name ext j))
         ∧ nameUsage r !! suffixed name ext c = None
         ∧ getName r id
           = Some (Some (suffixed name ext c),
                   set_names (<[id := suffixed name ext c]> (names r))
                     (<[suffixed name ext c := c + 1]>
                        (<[NormalizedPathUtils.basename p := c + 1]> (nameUsage r))) r))
  ∧ (∀ r file name ext i ids,
       NormalizedPathUtils.splitFilename file = (name, ext) →
       NoDup (i :: ids) →
       forallb (awaitsName r file) (i :: ids) = true →
       nameUsage r !! file = None →
       (∀ j, 1 ≤ j → nameUsage r !! suffixed name ext j = None) →
       fst <$> getNames r (i :: ids)
       = Some (Some file :: suffixedFrom name ext 1 (List.length ids)))
  ∧ fst <$> getNames threeIndexFiles [1; 2; 3]
    = Some [Some "index.md"; Some "index-1.md"; Some "index-2.md"].
Proof.
  split; [exact getName_bare|]. split.
  { intros r id p name ext k Hp Ht Hn Hs Hu.
    destruct (freeCounter_total (nameUsage r) name ext k) as [c Hc].
    exists c. destruct (freeCounter_least _ _ _ _ _ _ Hc) as (H1 & H2 & H3).
    do 3 (split; [done|]).
    unfold getName. rewrite Hp, Ht, Hn, Hu, Hs. cbn [negb]. by rewrite Hc. }
  split; [|vm_compute; reflexivity].
  intros r file name ext i ids Hsplit Hnd Hun%awaitsName_unnamed Hfile Hfree.
  destruct (Hun i) as (p & Hp & Ht & Hb & Hn); [left|]. subst file.
  apply NoDup_cons in Hnd as [Hi Hnd].
  simpl. rewrite (getName_bare r i p) by done.
  pose proof (splitFilename_app _ _ _ Hsplit) as Happ.
  match goal with |- context [getNames ?r' ids] =>
    assert (fst <$> getNames r' ids
            = Some (suffixedFrom name ext 1 (List.length ids))) as IH
  end.
  { apply (getNames_collisions _ name ext ids Hsplit Hnd); simpl.
    - intros i' Hi'. destruct (Hun i') as (p' & ? & ? & ? & ?); [by right|].
      exists p'. repeat split; try done. simpl. rewrite lookup_insert_ne; [done|].
      by intros <-.
    - by rewrite lookup_insert_eq.
    - intros j Hj. rewrite lookup_insert_ne
        by (intros E; revert E; by apply not_eq_sym, suffixed_ne_file).
      by apply Hfree. }
  destruct (getNames _ ids) as [[ns r2]|]; simpl in *; [congruence|done].
Qed.

Lemma getName_collision_names_witness :
  fst <$> getNames threeIndexFiles [1; 2; 3]
  = Some [Some "index.md"; Some "index-1.md"; Some "index-2.md"]
  ∧ ∃ c,
      1 ≤ c
      ∧ (∀ j, 1 ≤ j < c
           → is_Some (nameUsage interleavedIndexFilesNamed !! suffixed "index" ".md" j))
      ∧ nameUsage interleavedIndexFilesNamed !! suffixed "index" ".md" c = None
      ∧ getName interleavedIndexFilesNamed 3
        = Some (Some (suffixed "index" ".md" c),
                set_names
                  (<[3 := suffixed "index" ".md" c]> (names interleavedIndexFilesNamed))
                  (<[suffixed "index" ".md" c := c + 1]>
                     (<[NormalizedPathUtils.basename "/c/index.md" := c + 1]>
                        (nameUsage interleavedIndexFilesNamed)))
                  interleavedIndexFilesNamed).
Proof.
  destruct getName_collision_names as (_ & H2 & H3 & _). split.
  - apply (H3 threeIndexFiles "index.md" "index" ".md" 1 [2; 3]).
    + reflexivity.
    + apply (bool_decide_unpack (NoDup [1; 2; 3])). vm_compute. exact I.
    + vm_compute. reflexivity.
    + vm_compute. reflexivity.
    + intros j _. vm_compute. reflexivity.
  - apply (H2 interleavedIndexFilesNamed 3 "/c/index.md" "index" ".md" 1).
    + vm_compute. reflexivity.
    + vm_compute. reflexivity.
    + vm_compute. reflexivity.
    + vm_compute. reflexivity.
    + vm_compute. reflexivity.
Defined.

(** C10 at a canonical path that carries an anchor: [registerReflection]
    remembers the path with its anchor, [removeReflection] looks that up
    among the stripped paths, finds nothing and deletes nothing.  The file
    id still resolves to the reflection. *)
Theorem removeReflection_anchored_path_keeps_association :
  removeReflection anchoredCanonical 7 = anchoredCanonical
  ∧ mediaToReflection (removeReflection anchoredCanonical 7) !! 1 = Some 7
  ∧ resolve (removeReflection anchoredCanonical 7) 1 (λ id, Some id)
    = ResolvedReflection 7
  ∧ resolvePath (removeReflection anchoredCanonical 7) 1 = Some "/a/b.md"
  ∧ getReflectionPath (removeReflection anchoredCanonical 7) 7 = Some "/a/b.md#sec".
Proof. vm_compute. repeat split; reflexivity. Qed.

End file_registry_facts.

(** ** The reflection store *)

Section store_facts.

Import Models ProjectReflection.

Lemma forEach_inv {A S : Type} (body : S → A → option S) (I : S → Prop) xs :
  (∀ s x s', x ∈ xs → I s → body s x = Some s' → I s') →
  ∀ s s', I s → forEach body s xs = Some s' → I s'.
Proof.
  induction xs as [|x xs IH]; intros Hb s s' Hs; simpl.
  - by intros [= <-].
  - destruct (body s x) as [s1|] eqn:E; [|done].
    apply IH; [|by eapply Hb; [left|..]].
    intros ?????. eapply Hb; [by right|done..].
Qed.

(** A loop invariant together with a fact [Q x] gained when [x] is
    handled and kept from then on. *)
Lemma forEach_post {A S : Type} (body : S → A → option S)
    (I : S → Prop) (Q : A → S → Prop) xs :
  (∀ s x s', x ∈ xs → I s → body s x = Some s' →
     I s' ∧ Q x s' ∧ ∀ y, Q y s → Q y s') →
  ∀ s s', I s → forEach body s xs = Some s' →
    I s' ∧ ∀ x, x ∈ xs → Q x s'.
Proof.
  induction xs as [|x xs IH]; intros Hb s s' Hs; simpl.
  - intros [= <-]. split; [done|]. by intros x ?%elem_of_nil.
  - destruct (body s x) as [s1|] eqn:E; [|done]. intros Hl.
    destruct (Hb s x s1) as (H1 & Hx & _); [by left|done..|].
    assert (∀ y, Q y s1 → Q y s') as Hkeep.
    { clear -Hb Hl H1. revert s1 H1 Hl.
      induction xs as [|z xs IHxs]; intros s1 H1; simpl.
      - by intros [= <-].
      - destruct (body s1 z) as [s2|] eqn:E; [|done]. intros Hl y Hy.
        destruct (Hb s1 z s2) as (H2 & _ & Hk); [by right; left|done..|].
        eapply (IHxs); [|exact H2|exact Hl|by apply Hk].
        intros ?????. apply Hb; [|done..].
        by apply elem_of_cons in H as [->|?]; [left|right; right]. }
    destruct (IH (λ s x s' Hin, Hb s x s' (list_elem_of_further _ _ _ Hin)) s1 s' H1 Hl)
      as [HI HQ].
    split; [done|]. intros y [->|Hy]%elem_of_cons; [by apply Hkeep|by apply HQ].
Qed.

(** A loop whose body returns wherever the invariant holds returns. *)
Lemma forEach_total {A S : Type} (body : S → A → option S) (I : S → Prop) xs :
  (∀ s x, x ∈ xs → I s → ∃ s', body s x = Some s' ∧ I s') →
  ∀ s, I s → ∃ s', forEach body s xs = Some s' ∧ I s'.
Proof.
  induction xs as [|x xs IH]; intros Hb s Hs; simpl; [by exists s|].
  destruct (Hb s x) as (s1 & -> & H1); [by left|done|].
  apply IH; [|done]. intros s2 y Hy. apply Hb. by right.
Qed.

Lemma head_detach x o : head (detach x o) = head o.
Proof. unfold detach. by repeat case_match. Qed.

Lemma parent_head o : parent (head o) = parent o.
Proof. done. Qed.

Lemma parentOf_heads w w' r : heads w' = heads w → parentOf w' r = parentOf w r.
Proof.
  intros H. apply (f_equal (λ m, m !! r)) in H. unfold heads in H.
  rewrite !lookup_fmap in H. unfold parentOf.
  destruct (objs w' !! r) as [o'|], (objs w !! r) as [o|]; by simplify_eq/=.
Qed.

Lemma shrinks_refl w : shrinks w w.
Proof. by split; [| |left|]. Qed.

Lemma shrinks_trans w1 w2 w3 : shrinks w1 w2 → shrinks w2 w3 → shrinks w1 w3.
Proof.
  intros [H1 H2 H3 H4] [G1 G2 G3 G4]. split.
  - congruence.
  - set_solver.
  - intros q. destruct (G3 q) as [->|[-> ?]]; [|by right].
    destruct (H3 q) as [?|[? ?]]; [by left|right]. split; [done|set_solver].
  - congruence.
Qed.

Lemma shrinks_parentOf w w' r : shrinks w w' → parentOf w' r = parentOf w r.
Proof. intros [H _ _ _]. by apply parentOf_heads. Qed.

Lemma shrinks_childrenOf w w' q x :
  shrinks w w' → x ∈ childrenOf w' q → x ∈ childrenOf w q.
Proof.
  intros [_ _ H _]. unfold childrenOf. destruct (H q) as [->|[-> _]]; [done|].
  by intros ?%elem_of_nil.
Qed.

Lemma shrinks_set_files f w : shrinks w (set_files f w).
Proof. by split; [| |left|]. Qed.

Lemma shrinks_set_referenceGraph g w : shrinks w (set_referenceGraph g w).
Proof. by split; [| |left|]. Qed.

Lemma shrinks_getReferenceGraph w : shrinks w (getReferenceGraph w).2.
Proof.
  unfold getReferenceGraph. destruct (referenceGraph w); simpl;
    [apply shrinks_refl|apply shrinks_set_referenceGraph].
Qed.

Lemma shrinks_detachFromParent w r : shrinks w (detachFromParent w r).
Proof.
  unfold detachFromParent. destruct (parentOf w r) as [p|]; [|apply shrinks_refl].
  destruct (objs w !! p) as [po|] eqn:Hp; [|apply shrinks_refl].
  split; simpl; [|done|by left|done].
  unfold heads. simpl. rewrite fmap_insert, head_detach.
  apply insert_id. by rewrite lookup_fmap, Hp.
Qed.

Lemma shrinks_dropReferrers r w : shrinks w (dropReferrers r w).
Proof. apply shrinks_set_referenceGraph. Qed.

Lemma shrinks_forget r w : shrinks w (forget r w).
Proof.
  split; simpl; [done|set_solver| |done].
  intros q. destruct (decide (q = r)) as [->|Hq].
  - right. split; [apply lookup_delete_eq|set_solver].
  - left. by apply lookup_delete_ne.
Qed.

(** A removal that returns has only shrunk the store. *)
Lemma _removeReflection_shrinks fuel :
  ∀ w r w', _removeReflection fuel w r = Some w' → shrinks w w'.
Proof.
  induction fuel as [|fuel IH]; intros w r w'; simpl; [done|].
  destruct (getReferenceGraph _) as [graph w1] eqn:Hg.
  destruct (forEach _ w1 _) as [w2|] eqn:L1; [|done].
  destruct (forEach _ (dropReferrers r w2) _) as [w3|] eqn:L2; [|done].
  intros [= <-].
  eapply shrinks_trans; [apply (shrinks_set_files (λ f, FileRegistry.removeReflection f r))|].
  eapply shrinks_trans.
  { pose proof (shrinks_getReferenceGraph
      (set_files (λ f, FileRegistry.removeReflection f r) w)) as H.
    rewrite Hg in H. exact H. }
  eapply shrinks_trans.
  { eapply (forEach_inv _ (shrinks w1)); [|apply shrinks_refl|exact L1].
    intros s x s' _ Hs. unfold removeReferrer.
    destruct (getReflectionById s x); [|by intros [= <-]].
    destruct (_removeReflection fuel s x) as [s1|] eqn:E; [|done]. intros [= <-].
    eapply shrinks_trans; [exact Hs|]. eapply shrinks_trans; [by eapply IH|].
    apply shrinks_detachFromParent. }
  eapply shrinks_trans; [apply (shrinks_dropReferrers r)|].
  eapply shrinks_trans; [|apply shrinks_forget].
  eapply (forEach_inv _ (shrinks (dropReferrers r w2))); [|apply shrinks_refl|exact L2].
  intros s x s' _ Hs. unfold removeChildOf.
  destruct (getReflectionById s x) as [child|]; [|by intros [= <-]].
  destruct (decide _); [|by intros [= <-]].
  intros E. eapply shrinks_trans; [exact Hs|]. by eapply IH.
Qed.

Lemma _removeReflection_gone fuel w r w' :
  _removeReflection fuel w r = Some w' → r ∉ reflections w'.
Proof.
  destruct fuel as [|fuel]; simpl; [done|].
  destruct (getReferenceGraph _) as [graph w1].
  destruct (forEach _ w1 _) as [w2|]; [|done].
  destruct (forEach _ (dropReferrers r w2) _) as [w3|]; [|done].
  intros [= <-]. simpl. set_solver.
Qed.

Lemma removeReflection_shrinks fuel w r w' :
  removeReflection fuel w r = Some w' → shrinks w w'.
Proof.
  unfold removeReflection. destruct (_removeReflection fuel w r) as [w1|] eqn:E; [|done].
  intros [= <-]. eapply shrinks_trans; [by eapply _removeReflection_shrinks|].
  apply shrinks_detachFromParent.
Qed.

Lemma removeReflection_gone fuel w r w' :
  removeReflection fuel w r = Some w' → r ∉ reflections w'.
Proof.
  unfold removeReflection. destruct (_removeReflection fuel w r) as [w1|] eqn:E; [|done].
  intros [= <-]. pose proof (_removeReflection_gone _ _ _ _ E) as H.
  by pose proof (shrinks_table _ _ (shrinks_detachFromParent w1 r)); set_solver.
Qed.

Lemma getReflectionById_Some w i o :
  getReflectionById w i = Some o ↔ i ∈ reflections w ∧ objs w !! i = Some o.
Proof. unfold getReflectionById. case_decide; naive_solver. Qed.

Lemma getReflectionById_parent w i o :
  getReflectionById w i = Some o → parentOf w i = parent o.
Proof. intros [_ H]%getReflectionById_Some. unfold parentOf. by rewrite H. Qed.

Lemma getReflectionById_None w i :
  getReflectionById w i = None → i ∉ reflections w ∨ parentOf w i = None.
Proof.
  unfold getReflectionById, parentOf. case_decide; [|by left].
  intros ->. by right.
Qed.

(** Steps that leave the id table and the children index alone keep the
    index complete. *)
Lemma indexComplete_frame w w' :
  shrinks w w' → reflectionChildren w' = reflectionChildren w →
  indexComplete w → indexComplete w'.
Proof.
  intros Hs Hc H c p Hin Hp. unfold childrenOf. rewrite Hc.
  apply H; [by apply (shrinks_table _ _ Hs)|].
  by rewrite <- (shrinks_parentOf _ _ c Hs).
Qed.

Lemma indexSound_shrinks w w' : shrinks w w' → indexSound w → indexSound w'.
Proof.
  intros Hs H x q Hx. rewrite (shrinks_parentOf _ _ x Hs).
  apply H. by eapply shrinks_childrenOf.
Qed.

Lemma detachFromParent_children w r :
  reflectionChildren (detachFromParent w r) = reflectionChildren w.
Proof. unfold detachFromParent. by repeat case_match. Qed.

Lemma getReferenceGraph_children w :
  reflectionChildren (getReferenceGraph w).2 = reflectionChildren w.
Proof. unfold getReferenceGraph. by case_match. Qed.

(** The children loop of [_removeReflection]: afterwards no listed child
    that still names [r] as its parent is registered. *)
Lemma removeChildren_post (rec : t → Z → option t) (I : t → Prop) r kids :
  (∀ s x s', I s → parentOf s x = Some r → rec s x = Some s' →
     I s' ∧ shrinks s s' ∧ x ∉ reflections s') →
  ∀ w w', I w → forEach (removeChildOf rec r) w kids = Some w' →
    I w' ∧ shrinks w w'
    ∧ ∀ c, c ∈ kids → c ∉ reflections w' ∨ parentOf w' c ≠ Some r.
Proof.
  intros Hrec w w' HI Hl.
  destruct (forEach_post (removeChildOf rec r)
              (λ s, I s ∧ shrinks w s)
              (λ c s, c ∉ reflections s ∨ parentOf s c ≠ Some r) kids)
    with (s := w) (s' := w') as [[? ?] ?]; [|by split; [|apply shrinks_refl]|done|done].
  intros s x s' _ [Hs Hws]. unfold removeChildOf.
  destruct (getReflectionById s x) as [child|] eqn:Hx.
  - destruct (decide (parent child = Some r)) as [Hp|Hp].
    + intros E. rewrite <- (getReflectionById_parent _ _ _ Hx) in Hp.
      destruct (Hrec _ _ _ Hs Hp E) as (? & Hss & ?).
      split; [split; [done|by eapply shrinks_trans]|]. split; [by left|].
      intros y [Hy|Hy]; [left|right].
      * intros ?. apply Hy. by apply (shrinks_table _ _ Hss).
      * by rewrite (shrinks_parentOf _ _ y Hss).
    + intros [= <-]. split; [done|]. split; [|done].
      right. by rewrite (getReflectionById_parent _ _ _ Hx).
  - intros [= <-]. split; [done|]. split; [|done].
    apply getReflectionById_None in Hx as [?|Hx]; [by left|right]. by rewrite Hx.
Qed.

(** The loop over the referrers keeps what each removal keeps. *)
Lemma removeReferrers_inv (rec : t → Z → option t) (I : t → Prop) refs :
  (∀ s x s', x ∈ refs → I s → rec s x = Some s' →
     I s' ∧ shrinks s s' ∧ x ∉ reflections s') →
  (∀ s x, I s → I (detachFromParent s x)) →
  ∀ w w', I w → forEach (removeReferrer rec) w refs = Some w' →
    I w' ∧ shrinks w w' ∧ ∀ x, x ∈ refs → getReflectionById w' x = None.
Proof.
  intros Hrec Hdet w w' HI Hl.
  destruct (forEach_post (removeReferrer rec)
              (λ s, I s ∧ shrinks w s)
              (λ c s, getReflectionById s c = None) refs)
    with (s := w) (s' := w') as [[? ?] ?]; [|by split; [|apply shrinks_refl]|done|done].
  assert (∀ s s' y, shrinks s s' →
            getReflectionById s y = None → getReflectionById s' y = None) as Hkeep.
  { intros s s' y Hss. unfold getReflectionById.
    pose proof (shrinks_table _ _ Hss). repeat case_decide; try done; [|set_solver].
    intros Hy. pose proof (shrinks_heads _ _ Hss) as Hh.
    apply (f_equal (λ m, m !! y)) in Hh. unfold heads in Hh.
    rewrite !lookup_fmap, Hy in Hh. by destruct (objs s' !! y). }
  intros s x s' Hxin [Hs Hws]. unfold removeReferrer.
  destruct (getReflectionById s x) as [ref|] eqn:Hx.
  - destruct (rec s x) as [s1|] eqn:E; [|done]. intros [= <-].
    destruct (Hrec _ _ _ Hxin Hs E) as (? & Hss & Hgone).
    pose proof (shrinks_detachFromParent s1 x) as Hd.
    split; [split; [by apply Hdet|]|].
    { eapply shrinks_trans; [done|]. by eapply shrinks_trans. }
    split.
    + unfold getReflectionById. rewrite decide_False; [done|].
      intros ?. apply Hgone. by apply (shrinks_table _ _ Hd).
    + intros y Hy. eapply Hkeep; [|done]. by eapply shrinks_trans.
  - intros [= <-]. by split; [|split].
Qed.

(** Removal keeps the children index complete: when the entry of [r] is
    dropped, every registered child of [r] has been removed. *)
Lemma _removeReflection_complete fuel :
  ∀ w r w', indexComplete w → _removeReflection fuel w r = Some w' →
    indexComplete w'.
Proof.
  induction fuel as [|fuel IH]; intros w r w' Hw; simpl; [done|].
  destruct (getReferenceGraph _) as [graph w1] eqn:Hg.
  destruct (forEach _ w1 _) as [w2|] eqn:L1; [|done].
  destruct (forEach _ (dropReferrers r w2) _) as [w3|] eqn:L2; [|done].
  intros [= <-].
  assert (∀ s x s', indexComplete s → _removeReflection fuel s x = Some s' →
            indexComplete s' ∧ shrinks s s' ∧ x ∉ reflections s') as Hrec.
  { intros s x s' Hs E. split; [by eapply IH|].
    split; [by eapply _removeReflection_shrinks|by eapply _removeReflection_gone]. }
  assert (indexComplete w1) as H1.
  { assert (w1 = (getReferenceGraph
                    (set_files (λ f, FileRegistry.removeReflection f r) w)).2) as ->
      by (by rewrite Hg).
    eapply indexComplete_frame; [apply shrinks_getReferenceGraph| |].
    - apply getReferenceGraph_children.
    - eapply indexComplete_frame; [apply shrinks_set_files|done..]. }
  assert (∀ s x, indexComplete s → indexComplete (detachFromParent s x)) as Hdet.
  { intros s x Hs. eapply indexComplete_frame;
      [apply shrinks_detachFromParent|apply detachFromParent_children|done]. }
  destruct (removeReferrers_inv _ indexComplete _
              (λ s x s' _, Hrec s x s') Hdet w1 w2 H1 L1) as (H2 & _ & _).
  assert (indexComplete (dropReferrers r w2)) as H2'.
  { eapply indexComplete_frame; [apply shrinks_dropReferrers|done..]. }
  destruct (removeChildren_post _ indexComplete r _
              (λ s x s' Hs _, Hrec s x s' Hs) _ _ H2' L2) as (H3 & Hs3 & Hkids).
  intros c p Hc Hp. simpl in Hc. apply elem_of_difference in Hc as [Hc Hne].
  rewrite elem_of_singleton in Hne.
  assert (parentOf w3 c = Some p) as Hp3 by done.
  pose proof (H3 c p Hc Hp3) as Hin.
  unfold childrenOf. simpl. destruct (decide (p = r)) as [->|Hpr].
  - exfalso. destruct (Hkids c) as [?|?]; [|done..].
    change (c ∈ childrenOf (dropReferrers r w2) r). by eapply shrinks_childrenOf.
  - by rewrite lookup_delete_ne.
Qed.

Lemma removeReflection_complete fuel w r w' :
  indexComplete w → removeReflection fuel w r = Some w' → indexComplete w'.
Proof.
  unfold removeReflection. intros Hw.
  destruct (_removeReflection fuel w r) as [w1|] eqn:E; [|done]. intros [= <-].
  eapply indexComplete_frame;
    [apply shrinks_detachFromParent|apply detachFromParent_children|].
  by eapply _removeReflection_complete.
Qed.

Lemma shrinks_isObject w w' i :
  shrinks w w' → is_Some (objs w' !! i) ↔ is_Some (objs w !! i).
Proof.
  intros [H _ _ _]. apply (f_equal (λ m, m !! i)) in H. unfold heads in H.
  rewrite !lookup_fmap in H.
  destruct (objs w' !! i), (objs w !! i); simplify_eq/=; split; intros [? ?]; done.
Qed.

Lemma storeInv_shrinks w w' :
  shrinks w w' → indexComplete w' → storeInv w → storeInv w'.
Proof.
  intros Hs Hc [H1 H2 H3 _]. split; [| | |done].
  - intros i Hi. rewrite (shrinks_nextId _ _ Hs). apply H1.
    by apply (shrinks_isObject _ _ i Hs).
  - intros i Hi. apply (shrinks_isObject _ _ i Hs). apply H2.
    by apply (shrinks_table _ _ Hs).
  - by eapply indexSound_shrinks.
Qed.

Lemma storeInv_newProject firstId nm registry :
  storeInv (newProject ∅ firstId nm registry).
Proof.
  split; simpl.
  - intros i [o Hi]. apply lookup_insert_Some in Hi as [[<- _]|[_ Hi]]; [lia|done].
  - intros i ->%elem_of_singleton. by rewrite lookup_insert_eq.
  - intros x q. unfold childrenOf. simpl. rewrite lookup_empty.
    by intros ?%elem_of_nil.
  - intros c p Hc. simpl in Hc. apply elem_of_singleton in Hc as ->.
    unfold parentOf. simpl. by rewrite lookup_insert_eq.
Qed.

Lemma storeInv_newReflection w v nm k par tgt :
  storeInv w → storeInv (newReflection w v nm k par tgt).2.
Proof.
  intros [H1 H2 H3 H4].
  assert (objs w !! nextReflectionId w = None) as Hfresh.
  { destruct (objs w !! nextReflectionId w) eqn:E; [|done].
    assert (nextReflectionId w < nextReflectionId w) by (apply H1; by rewrite E). lia. }
  assert (∀ y, y ≠ nextReflectionId w →
            parentOf (newReflection w v nm k par tgt).2 y = parentOf w y) as Hpar.
  { intros y Hy. unfold parentOf. simpl. by rewrite lookup_insert_ne. }
  split; simpl.
  - intros i [o Hi]. apply lookup_insert_Some in Hi as [[<- _]|[_ Hi]]; [lia|].
    assert (i < nextReflectionId w) by (apply H1; by rewrite Hi). lia.
  - intros i Hi. destruct (decide (nextReflectionId w = i)) as [<-|Hne].
    + by rewrite lookup_insert_eq.
    + rewrite lookup_insert_ne by done. by apply H2.
  - intros x q Hx. change (x ∈ childrenOf w q) in Hx.
    pose proof (H3 x q Hx) as Hp. rewrite Hpar; [done|].
    intros ->. unfold parentOf in Hp. by rewrite Hfresh in Hp.
  - intros c p Hc Hp. change (c ∈ childrenOf w p). apply H4; [done|].
    rewrite <- Hpar; [done|]. intros ->. apply H2 in Hc. rewrite Hfresh in Hc.
    by destruct Hc.
Qed.

Lemma registerReflection_fields w r sid path :
  objs (registerReflection w r sid path) = objs w
  ∧ nextReflectionId (registerReflection w r sid path) = nextReflectionId w
  ∧ reflections (registerReflection w r sid path) = {[r]} ∪ reflections w
  ∧ reflectionChildren (registerReflection w r sid path)
    = match parentOf w r with
      | Some p => <[p := childrenOf w p ++ [r]]> (reflectionChildren w)
      | None => reflectionChildren w
      end.
Proof.
  unfold registerReflection.
  change (parentOf (set_referenceGraph None w) r) with (parentOf w r).
  destruct (parentOf w r), sid, path as [path|]; try destruct (JsString.truthy path); done.
Qed.

Lemma storeInv_registerReflection w r sid path :
  is_Some (objs w !! r) → storeInv w → storeInv (registerReflection w r sid path).
Proof.
  intros Hr [H1 H2 H3 H4].
  destruct (registerReflection_fields w r sid path) as (Ho & Hn & Ht & Hc).
  assert (∀ y, parentOf (registerReflection w r sid path) y = parentOf w y) as Hpar.
  { intros y. unfold parentOf. by rewrite Ho. }
  assert (∀ x q, x ∈ childrenOf (registerReflection w r sid path) q ↔
            x ∈ childrenOf w q ∨ (x = r ∧ parentOf w r = Some q)) as Hkids.
  { intros x q. unfold childrenOf at 1. rewrite Hc.
    destruct (parentOf w r) as [p|]; [|naive_solver].
    destruct (decide (p = q)) as [->|Hpq].
    - rewrite lookup_insert_eq. simpl. rewrite elem_of_app, list_elem_of_singleton.
      naive_solver.
    - rewrite lookup_insert_ne by done. naive_solver. }
  split.
  - intros i. rewrite Ho, Hn. apply H1.
  - intros i. rewrite Ho, Ht. intros [->%elem_of_singleton|?]%elem_of_union; auto.
  - intros x q [Hx|[-> Hx]]%Hkids; rewrite Hpar; auto.
  - intros c p. rewrite Ht, Hpar. intros Hin Hp. apply Hkids.
    apply elem_of_union in Hin as [->%elem_of_singleton|Hin]; auto.
Qed.

Lemma is_Some_insert_present (m : gmap Z Reflection) x o i :
  is_Some (m !! x) → is_Some (<[x := o]> m !! i) ↔ is_Some (m !! i).
Proof.
  intros Hx. rewrite lookup_insert_is_Some.
  destruct (decide (x = i)) as [->|?]; naive_solver.
Qed.

Lemma moveChild_skip source target w x :
  stillChild source w x = false → moveChild source target w x = w.
Proof.
  unfold stillChild, moveChild. destruct (getReflectionById w x); [|done].
  intros H%bool_decide_eq_false. by rewrite decide_False.
Qed.

Lemma stillChild_true source w x :
  stillChild source w x = true ↔ x ∈ reflections w ∧ parentOf w x = Some source.
Proof.
  unfold stillChild. destruct (getReflectionById w x) as [o|] eqn:E.
  - rewrite bool_decide_eq_true, (getReflectionById_parent _ _ _ E).
    apply getReflectionById_Some in E. naive_solver.
  - apply getReflectionById_None in E as [?|E]; [naive_solver|].
    rewrite E. naive_solver.
Qed.

Lemma moveChild_move source target w x :
  stillChild source w x = true →
  (∀ y, parentOf (moveChild source target w x) y
        = if decide (y = x) then Some target else parentOf w y)
  ∧ reflectionChildren (moveChild source target w x)
    = <[target := childrenOf w target ++ [x]]> (reflectionChildren w)
  ∧ reflections (moveChild source target w x) = reflections w
  ∧ nextReflectionId (moveChild source target w x) = nextReflectionId w
  ∧ ∀ i, is_Some (objs (moveChild source target w x) !! i) ↔ is_Some (objs w !! i).
Proof.
  unfold stillChild, moveChild.
  destruct (getReflectionById w x) as [o|] eqn:E; [|done].
  intros Hp%bool_decide_eq_true. rewrite decide_True by done.
  apply getReflectionById_Some in E as [Hx Ho]. simpl.
  destruct (<[x:=set_parent (Some target) o]> (objs w) !! target) as [t|] eqn:Ht; simpl.
  - split; [|split; [done|split; [done|split; [done|]]]].
    + intros y. unfold parentOf. simpl.
      destruct (decide (y = target)) as [->|Hyt].
      * rewrite lookup_insert_eq. simpl.
        apply lookup_insert_Some in Ht as [[<- <-]|[Hne Ht]].
        -- by rewrite decide_True.
        -- rewrite decide_False by done. by rewrite Ht.
      * rewrite lookup_insert_ne by done.
        destruct (decide (y = x)) as [->|Hyx].
        -- by rewrite lookup_insert_eq.
        -- by rewrite lookup_insert_ne.
    + intros i. rewrite is_Some_insert_present by (by rewrite Ht).
      apply is_Some_insert_present. by rewrite Ho.
  - split; [|split; [done|split; [done|split; [done|]]]].
    + intros y. unfold parentOf. simpl.
      destruct (decide (y = x)) as [->|Hyx].
      * by rewrite lookup_insert_eq.
      * by rewrite lookup_insert_ne.
    + intros i. apply is_Some_insert_present. by rewrite Ho.
Qed.

Lemma moveChildren_inv source target :
  source ≠ target →
  ∀ l w,
    mergeInv source w →
    (∀ c, c ∈ reflections w → parentOf w c = Some source → c ∈ l) →
    mergeInv source (foldl (moveChild source target) w l)
    ∧ ∀ c, c ∈ reflections (foldl (moveChild source target) w l) →
        parentOf (foldl (moveChild source target) w l) c ≠ Some source.
Proof.
  intros Hst. induction l as [|x l IH]; intros w Hw Hall; simpl.
  - split; [done|]. intros c Hc Hp. by apply (Hall c Hc) in Hp; apply elem_of_nil in Hp.
  - destruct (stillChild source w x) eqn:Hx.
    + destruct (moveChild_move source target w x Hx) as (Hpar & Hkids & Ht & Hn & Ho).
      apply stillChild_true in Hx as [Hxin Hxp].
      destruct Hw as [H1 H2 H3 H4]. apply IH.
      * split.
        -- intros i Hi. rewrite Hn. apply H1. by apply Ho.
        -- intros i Hi. apply Ho. apply H2. by rewrite <- Ht.
        -- intros y q Hq. unfold childrenOf. rewrite Hkids, Hpar.
           destruct (decide (target = q)) as [<-|Hne].
           ++ rewrite lookup_insert_eq. simpl.
              intros [Hy|Hy%list_elem_of_singleton]%elem_of_app;
                [|by rewrite decide_True].
              case_decide; [done|]. by apply H3.
           ++ rewrite lookup_insert_ne by done. intros Hy.
              pose proof (H3 y q Hq Hy) as Hyp.
              case_decide as Hyx; [|done]. subst y. congruence.
        -- intros c p Hps. rewrite Ht, Hpar. unfold childrenOf. rewrite Hkids.
           intros Hc. case_decide as Hcx.
           ++ intros [= <-]. rewrite lookup_insert_eq. simpl. subst c.
              apply elem_of_app. right. by apply list_elem_of_singleton.
           ++ intros Hp. pose proof (H4 c p Hps Hc Hp) as Hin.
              destruct (decide (target = p)) as [<-|Hne].
              ** rewrite lookup_insert_eq. simpl. apply elem_of_app. by left.
              ** by rewrite lookup_insert_ne.
      * intros c. rewrite Ht, Hpar. intros Hc. case_decide as Hcx; [congruence|].
        intros Hp. pose proof (Hall c Hc Hp) as Hin.
        by apply elem_of_cons in Hin as [->|?].
    + rewrite (moveChild_skip _ _ _ _ Hx). apply IH; [done|].
      intros c Hc Hp. pose proof (Hall c Hc Hp) as Hin.
      apply elem_of_cons in Hin as [->|?]; [|done].
      assert (stillChild source w x = true) by (by apply stillChild_true). congruence.
Qed.

Lemma shrinks_set_slots w p o f :
  objs w !! p = Some o → shrinks w (set_objs (<[p := set_slots f o]>) w).
Proof.
  intros Hp. split; simpl; [|done|by left|done].
  unfold heads. simpl. rewrite fmap_insert.
  apply insert_id. by rewrite lookup_fmap, Hp.
Qed.

Lemma storeInv_mergeReflections fuel w source target w' :
  storeInv w → mergeReflections fuel w source target = Some w' → storeInv w'.
Proof.
  intros Hw. unfold mergeReflections.
  set (wb := set_reflectionChildren _ (set_referenceGraph None w)).
  change (reflectionChildren (set_referenceGraph None w) !! source)
    with (reflectionChildren w !! source).
  assert (∀ q, childrenOf wb q = childrenOf w q) as Hkids.
  { intros q. unfold childrenOf, wb. simpl.
    destruct (reflectionChildren w !! target) eqn:Ht; [done|].
    destruct (decide (target = q)) as [<-|?].
    - by rewrite lookup_insert_eq, Ht.
    - by rewrite lookup_insert_ne. }
  assert (mergeInv source wb) as Hb.
  { destruct Hw as [H1 H2 H3 H4]. split; [done|done| |].
    - intros x q _. rewrite Hkids. apply H3.
    - intros c p _ Hc Hp. rewrite Hkids. by apply H4. }
  assert (∀ c, c ∈ reflections wb → parentOf wb c = Some source →
            c ∈ default [] (reflectionChildren w !! source)) as Hall.
  { intros c Hc Hp. by apply (inv_complete _ Hw). }
  match goal with |- match ?m with _ => _ end = _ → _ =>
    assert (∀ m', m = Some m' →
              mergeInv source m'
              ∧ ∀ c, c ∈ reflections m' → parentOf m' c ≠ Some source) as Hm;
    [|destruct m as [m'|]; [|done]]
  end.
  { intros m'. destruct (decide (source = target)) as [<-|Hst].
    - destruct (existsb _ _) eqn:Hex; [done|]. intros [= <-]. split; [done|].
      intros c Hc Hp. pose proof (Hall c Hc Hp) as Hin.
      assert (existsb (stillChild source wb) (default [] (reflectionChildren w !! source))
              = true); [|congruence].
      apply existsb_exists. exists c. split; [by apply list_elem_of_In|].
      by apply stillChild_true.
    - intros [= <-]. by apply moveChildren_inv. }
  destruct (Hm m' eq_refl) as [[H1 H2 H3 H4] Hnone]. clear Hm.
  destruct (removeReflection fuel _ source) as [wd|] eqn:Hrm; [|done].
  assert (storeInv (set_reflectionChildren (delete source) m')) as Hc.
  { split; [done|done| |].
    - intros x q. unfold childrenOf. simpl.
      destruct (decide (q = source)) as [->|Hq].
      + rewrite lookup_delete_eq. by intros ?%elem_of_nil.
      + rewrite lookup_delete_ne by done. by apply H3.
    - intros c p Hin Hp. unfold childrenOf. simpl.
      destruct (decide (p = source)) as [->|Hq].
      + by destruct (Hnone c Hin).
      + rewrite lookup_delete_ne by done. by apply H4. }
  assert (storeInv wd) as Hd.
  { eapply storeInv_shrinks; [by eapply removeReflection_shrinks| |done].
    eapply removeReflection_complete; [|done]. apply Hc. }
  destruct (objs wd !! target) as [t|] eqn:Ht; intros [= <-]; [|done].
  eapply storeInv_shrinks; [by apply shrinks_set_slots| |done].
  eapply indexComplete_frame; [by apply shrinks_set_slots|done|apply Hd].
Qed.

Lemma storeInv_exec fuel w op w' :
  storeInv w → exec fuel w op = Some w' → storeInv w'.
Proof.
  intros Hw. destruct op as [v nm k par tgt|r sid path|r|source target]; simpl.
  - intros [= <-]. by apply storeInv_newReflection.
  - unfold isObject. case_bool_decide; [|done]. intros [= <-].
    by apply storeInv_registerReflection.
  - destruct (isObject w r); [|done]. intros Hrm.
    eapply storeInv_shrinks; [by eapply removeReflection_shrinks| |done].
    eapply removeReflection_complete; [|done]. apply Hw.
  - destruct (isObject w source && isObject w target); [|done].
    by apply storeInv_mergeReflections.
Qed.

Lemma storeInv_run fuel ops w w' :
  storeInv w → run fuel w ops = Some w' → storeInv w'.
Proof.
  intros Hw. apply (forEach_inv (exec fuel) storeInv); [|done].
  intros s op s' _. apply storeInv_exec.
Qed.

(** C9: after any sequence of [registerReflection], [removeReflection] and
    [mergeReflections] on a new project (with the reflection objects
    created in between), for every parent [p] and every reflection [c] in
    the store, [c] is listed in the entry of the children index for [p]
    exactly when the parent of [c] is [p]. *)
Theorem childrenIndex_consistent (fuel : nat) (firstId : Z) (nm : string)
    (registry : FileRegistry.t) (ops : list Op) (w : t) :
  run fuel (newProject ∅ firstId nm registry) ops = Some w →
  ∀ p c, c ∈ reflections w → (c ∈ childrenOf w p ↔ parentOf w c = Some p).
Proof.
  intros Hrun p c Hc.
  pose proof (storeInv_run _ _ _ _ (storeInv_newProject firstId nm registry) Hrun)
    as [_ _ Hs Hcomp].
  split; [apply Hs|by apply Hcomp].
Qed.

Lemma childrenIndex_consistent_witness :
  ∃ w, sampleRun = Some w
       ∧ ∀ p c, c ∈ reflections w → (c ∈ childrenOf w p ↔ parentOf w c = Some p).
Proof.
  eexists. split; [vm_compute; reflexivity|].
  apply (childrenIndex_consistent 8 1 "R" FileRegistry.empty sampleOps).
  vm_compute. reflexivity.
Defined.

(** *** The symbol index *)

(** Whatever relation holds of the single steps of a removal, and is
    reflexive and transitive, holds of the removal up to its last step. *)
Lemma _removeReflection_steps (R : t → t → Prop) :
  (∀ w, R w w) →
  (∀ w1 w2 w3, R w1 w2 → R w2 w3 → R w1 w3) →
  (∀ w f, R w (set_files f w)) →
  (∀ w, R w (getReferenceGraph w).2) →
  (∀ w x, R w (detachFromParent w x)) →
  (∀ w r, R w (dropReferrers r w)) →
  (∀ w r, R w (forget r w)) →
  ∀ fuel w r w', _removeReflection fuel w r = Some w' →
    ∃ w3, w' = forget r w3 ∧ R w w3.
Proof.
  intros Hrefl Htrans Hfiles Hgraph Hdet Hdrop Hforget.
  induction fuel as [|fuel IH]; intros w r w'; simpl; [done|].
  destruct (getReferenceGraph _) as [graph w1] eqn:Hg.
  destruct (forEach _ w1 _) as [w2|] eqn:L1; [|done].
  destruct (forEach _ (dropReferrers r w2) _) as [w3|] eqn:L2; [|done].
  intros [= <-]. exists w3. split; [done|].
  eapply Htrans; [apply (Hfiles w (λ f, FileRegistry.removeReflection f r))|].
  eapply Htrans.
  { pose proof (Hgraph (set_files (λ f, FileRegistry.removeReflection f r) w)) as H.
    rewrite Hg in H. exact H. }
  eapply Htrans.
  { eapply (forEach_inv _ (R w1)); [|apply Hrefl|exact L1].
    intros s x s' _ Hs. unfold removeReferrer.
    destruct (getReflectionById s x); [|by intros [= <-]].
    destruct (_removeReflection fuel s x) as [s1|] eqn:E; [|done]. intros [= <-].
    destruct (IH _ _ _ E) as (s0 & -> & H0).
    eapply Htrans; [exact Hs|]. eapply Htrans; [exact H0|].
    eapply Htrans; [apply Hforget|apply Hdet]. }
  eapply Htrans; [apply (Hdrop w2 r)|].
  eapply (forEach_inv _ (R (dropReferrers r w2))); [|apply Hrefl|exact L2].
  intros s x s' _ Hs. unfold removeChildOf.
  destruct (getReflectionById s x) as [child|]; [|by intros [= <-]].
  destruct (decide _); [|by intros [= <-]].
  intros E. destruct (IH _ _ _ E) as (s0 & -> & H0).
  eapply Htrans; [exact Hs|]. eapply Htrans; [exact H0|apply Hforget].
Qed.

Lemma unregisterAll_app l1 l2 ix :
  unregisterAll (l1 ++ l2) ix = unregisterAll l2 (unregisterAll l1 ix).
Proof. apply foldl_app. Qed.

Lemma unregisters_frame w w' :
  shrinks w w' → symbols w' = symbols w → unregisters w w'.
Proof. intros Hs Hx. split; [done|]. exists []. split; [done|]. by intros y ?%elem_of_nil. Qed.

Lemma unregisters_trans w1 w2 w3 :
  unregisters w1 w2 → unregisters w2 w3 → unregisters w1 w3.
Proof.
  intros [H1 (l1 & E1 & G1)] [H2 (l2 & E2 & G2)]. split; [by eapply shrinks_trans|].
  exists (l1 ++ l2). rewrite unregisterAll_app, <- E1, <- E2. split; [done|].
  intros y [Hy|Hy]%elem_of_app; [|by apply G2].
  intros ?. apply (G1 y Hy). by apply (shrinks_table _ _ H2).
Qed.

Lemma detachFromParent_symbols w r : symbols (detachFromParent w r) = symbols w.
Proof. unfold detachFromParent. by repeat case_match. Qed.

Lemma getReferenceGraph_symbols w : symbols (getReferenceGraph w).2 = symbols w.
Proof. unfold getReferenceGraph. by case_match. Qed.

Lemma unregisters_forget r w : unregisters w (forget r w).
Proof.
  split; [apply shrinks_forget|]. exists [r]. split; [done|].
  intros y ->%list_elem_of_singleton. simpl. set_solver.
Qed.

(** What a removal does to the symbol index: it unregisters reflections
    that it removes, and the given one last. *)
Lemma removeReflection_unregisters fuel w r w' :
  removeReflection fuel w r = Some w' →
  shrinks w w'
  ∧ ∃ l, symbols w' = unregisterSymbol r (unregisterAll l (symbols w))
         ∧ ∀ y, y ∈ l → y ∉ reflections w'.
Proof.
  unfold removeReflection.
  destruct (_removeReflection fuel w r) as [w1|] eqn:E; [|done]. intros [= <-].
  split.
  { eapply shrinks_trans; [by eapply _removeReflection_shrinks|].
    apply shrinks_detachFromParent. }
  destruct (_removeReflection_steps unregisters)
    with (fuel := fuel) (w := w) (r := r) (w' := w1)
    as (w3 & -> & [H3 (l & El & Gl)]); [..|exact E|].
  - intros ?. apply unregisters_frame; [apply shrinks_refl|done].
  - apply unregisters_trans.
  - intros ??. by apply unregisters_frame; [apply shrinks_set_files|].
  - intros ?. apply unregisters_frame;
      [apply shrinks_getReferenceGraph|apply getReferenceGraph_symbols].
  - intros ??. apply unregisters_frame;
      [apply shrinks_detachFromParent|apply detachFromParent_symbols].
  - intros ??. by apply unregisters_frame; [apply shrinks_dropReferrers|].
  - intros ??. apply unregisters_forget.
  - exists l. rewrite detachFromParent_symbols. simpl. rewrite El. split; [done|].
    intros y Hy Hin. apply (Gl y Hy).
    apply (shrinks_table _ _ (shrinks_detachFromParent _ r)) in Hin.
    simpl in Hin. set_solver.
Qed.

Lemma symbolState_other s entry owners tomb ix y :
  y ∉ owners →
  symbolState s entry owners tomb ix →
  symbolState s entry owners tomb (unregisterSymbol y ix).
Proof.
  intros Hy [H1 H2 H3].
  assert (reflectionIdToSymbolIdMap ix !! y ≠ Some s) as Hne by (by rewrite H2).
  assert (∀ z, delete y (reflectionIdToSymbolIdMap ix) !! z = Some s ↔ z ∈ owners) as Hd.
  { intros z. destruct (decide (y = z)) as [<-|?].
    - rewrite lookup_delete_eq. naive_solver.
    - by rewrite lookup_delete_ne. }
  unfold unregisterSymbol.
  destruct (reflectionIdToSymbolIdMap ix !! y) as [sid|] eqn:Hsid; [|by split].
  assert (sid ≠ s) as Hs by congruence.
  destruct (symbolToReflectionIdMap ix !! sid) as [[saved|saved]|]; [| |by split].
  - case_decide; [|by split]. split; simpl; [|done|].
    + by rewrite lookup_delete_ne.
    + rewrite <- H3. set_solver.
  - split; simpl; [|done|].
    + by rewrite lookup_insert_ne.
    + rewrite <- H3. destruct (removeFirst y saved); set_solver.
Qed.

Lemma symbolState_all s entry owners tomb ix l :
  (∀ y, y ∈ l → y ∉ owners) →
  symbolState s entry owners tomb ix →
  symbolState s entry owners tomb (unregisterAll l ix).
Proof.
  revert ix. induction l as [|y l IH]; intros ix Hl Hix; [done|]. simpl.
  apply IH; [intros ??; apply Hl; by right|].
  apply symbolState_other; [apply Hl; by left|done].
Qed.

Lemma symbolState_first s r1 r2 ix :
  r1 ≠ r2 →
  symbolState s (Some (Many [r1; r2])) [r1; r2] false ix →
  symbolState s (Some (Many [r2])) [r2] false (unregisterSymbol r1 ix).
Proof.
  intros Hne [H1 H2 H3]. unfold unregisterSymbol.
  assert (reflectionIdToSymbolIdMap ix !! r1 = Some s) as -> by (apply H2; by left).
  rewrite H1. simpl. rewrite decide_True by done. split; simpl.
  - by rewrite lookup_insert_eq.
  - intros y. destruct (decide (r1 = y)) as [<-|?].
    + rewrite lookup_delete_eq, list_elem_of_singleton. naive_solver.
    + rewrite lookup_delete_ne by done. rewrite H2, !elem_of_cons. naive_solver.
  - done.
Qed.

Lemma symbolState_last s r2 ix :
  symbolState s (Some (Many [r2])) [r2] false ix →
  symbolState s (Some (Many [])) [] true (unregisterSymbol r2 ix).
Proof.
  intros [H1 H2 H3]. unfold unregisterSymbol.
  assert (reflectionIdToSymbolIdMap ix !! r2 = Some s) as -> by (apply H2; by left).
  rewrite H1. simpl. rewrite decide_True by done. split; simpl.
  - by rewrite lookup_insert_eq.
  - intros y. destruct (decide (r2 = y)) as [<-|?].
    + rewrite lookup_delete_eq. split; [done|by intros ?%elem_of_nil].
    + rewrite lookup_delete_ne by done. rewrite H2, list_elem_of_singleton.
      split; [congruence|by intros ?%elem_of_nil].
  - split; [done|set_solver].
Qed.

Lemma symbolState_registered s r1 r2 ix :
  symbolToReflectionIdMap ix !! s = None →
  (∀ y, reflectionIdToSymbolIdMap ix !! y ≠ Some s) →
  r1 ≠ 0 →
  symbolState s (Some (Many [r1; r2])) [r1; r2] false
    (registerSymbolIdIn r2 s (registerSymbolIdIn r1 s ix)).
Proof.
  intros H1 H2 Hz. unfold registerSymbolIdIn at 1. simpl. rewrite H1.
  rewrite lookup_insert_eq. rewrite decide_False by done. split; simpl.
  - by rewrite lookup_insert_eq.
  - intros y. rewrite !elem_of_cons.
    destruct (decide (r2 = y)) as [<-|?]; [rewrite lookup_insert_eq; naive_solver|].
    rewrite lookup_insert_ne by done.
    destruct (decide (r1 = y)) as [<-|?]; [rewrite lookup_insert_eq; naive_solver|].
    rewrite lookup_insert_ne by done. split; [by intros ?%H2|].
    intros [?|[?|?%elem_of_nil]]; done.
  - split; [set_solver|done].
Qed.

Lemma symbolState_removed_first s r1 r2 l ix :
  r1 ≠ r2 → r2 ∉ l →
  symbolState s (Some (Many [r1; r2])) [r1; r2] false ix →
  symbolState s (Some (Many [r2])) [r2] false
    (unregisterSymbol r1 (unregisterAll l ix)).
Proof.
  intros Hne. revert ix. induction l as [|y l IH]; intros ix Hl HA; simpl.
  - by apply symbolState_first.
  - apply not_elem_of_cons in Hl as [Hy Hl].
    destruct (decide (y = r1)) as [->|Hy1].
    + apply symbolState_other; [by intros ?%list_elem_of_singleton|].
      apply symbolState_all; [|by apply symbolState_first].
      intros z Hz Hz2%list_elem_of_singleton. by subst z.
    + apply IH; [done|]. apply symbolState_other; [|done].
      rewrite !elem_of_cons. intros [?|[?|?%elem_of_nil]]; done.
Qed.

Lemma symbolState_removed_last s r2 l ix :
  symbolState s (Some (Many [r2])) [r2] false ix →
  symbolState s (Some (Many [])) [] true
    (unregisterSymbol r2 (unregisterAll l ix)).
Proof.
  revert ix. induction l as [|y l IH]; intros ix HB; simpl.
  - by apply symbolState_last.
  - destruct (decide (y = r2)) as [->|Hy2].
    + apply symbolState_other; [by intros ?%elem_of_nil|].
      apply symbolState_all; [by intros z _ ?%elem_of_nil|].
      by apply symbolState_last.
    + apply IH. apply symbolState_other; [|done].
      by intros ?%list_elem_of_singleton.
Qed.

Lemma getReflectionById_shrinks w w' i o :
  shrinks w w' → i ∈ reflections w' → getReflectionById w i = Some o →
  ∃ o', getReflectionById w' i = Some o' ∧ head o' = head o.
Proof.
  intros Hs Hi [_ Ho]%getReflectionById_Some.
  pose proof (shrinks_heads _ _ Hs) as Hh.
  apply (f_equal (λ m, m !! i)) in Hh. unfold heads in Hh.
  rewrite !lookup_fmap, Ho in Hh.
  destruct (objs w' !! i) as [o'|] eqn:Ho'; [|done]. exists o'.
  split; [by apply getReflectionById_Some|]. simpl in Hh. congruence.
Qed.

(** *** Removals that return *)

Lemma referenceGraph_detachFromParent w r :
  referenceGraph (detachFromParent w r) = referenceGraph w.
Proof. unfold detachFromParent. by repeat case_match. Qed.

Lemma cacheShrinks_refl w : cacheShrinks w w.
Proof. split; [apply shrinks_refl|]. intros g Hg. exists g. split; [done|]. by left. Qed.

Lemma cacheShrinks_trans w1 w2 w3 :
  cacheShrinks w1 w2 → cacheShrinks w2 w3 → cacheShrinks w1 w3.
Proof.
  intros [H1 G1] [H2 G2]. split; [by eapply shrinks_trans|].
  intros g Hg. destruct (G1 g Hg) as (g2 & Hg2 & E2).
  destruct (G2 g2 Hg2) as (g3 & Hg3 & E3). exists g3. split; [done|].
  intros x. destruct (E3 x) as [->|?]; [apply E2|by right].
Qed.

Lemma cacheShrinks_frame w w' :
  shrinks w w' → referenceGraph w' = referenceGraph w → cacheShrinks w w'.
Proof. intros Hs Hg. split; [done|]. intros g E. exists g. rewrite Hg. split; [done|]. by left. Qed.

Lemma cacheShrinks_getReferenceGraph w : cacheShrinks w (getReferenceGraph w).2.
Proof.
  split; [apply shrinks_getReferenceGraph|]. intros g Hg.
  unfold getReferenceGraph. rewrite Hg. exists g. split; [done|]. by left.
Qed.

Lemma cacheShrinks_dropReferrers r w : cacheShrinks w (dropReferrers r w).
Proof.
  split; [apply shrinks_dropReferrers|]. intros g Hg. exists (delete r g).
  split; [by simpl; rewrite Hg|]. intros x.
  destruct (decide (x = r)) as [->|?];
    [right; apply lookup_delete_eq|left; by apply lookup_delete_ne].
Qed.

(** A removal that returns has only dropped entries of a cached graph. *)
Lemma _removeReflection_cacheShrinks fuel w r w' :
  _removeReflection fuel w r = Some w' → cacheShrinks w w'.
Proof.
  intros E.
  destruct (_removeReflection_steps cacheShrinks)
    with (fuel := fuel) (w := w) (r := r) (w' := w') as (w3 & -> & H3); [..|exact E|].
  - apply cacheShrinks_refl.
  - apply cacheShrinks_trans.
  - intros ??. by apply cacheShrinks_frame; [apply shrinks_set_files|].
  - apply cacheShrinks_getReferenceGraph.
  - intros ??. apply cacheShrinks_frame;
      [apply shrinks_detachFromParent|apply referenceGraph_detachFromParent].
  - intros ??. apply cacheShrinks_dropReferrers.
  - intros ??. by apply cacheShrinks_frame; [apply shrinks_forget|].
  - eapply cacheShrinks_trans; [exact H3|].
    by apply cacheShrinks_frame; [apply shrinks_forget|].
Qed.

(** So it keeps a bound on the depth of further removals. *)
Lemma ranked_cacheShrinks rank w w' :
  is_Some (referenceGraph w) → cacheShrinks w w' → ranked rank w →
  is_Some (referenceGraph w') ∧ ranked rank w'.
Proof.
  intros [g Hg] [Hs Hc] [H1 H2]. destruct (Hc g Hg) as (g' & Hg' & E).
  split; [by rewrite Hg'|]. split.
  - unfold getReferenceGraph in *. rewrite Hg in H1. rewrite Hg'. simpl in *.
    intros x refs Hx. destruct (E x) as [E1|E1]; [|congruence].
    apply (H1 x). by rewrite <- E1.
  - intros x kids Hx.
    destruct (shrinks_children _ _ Hs x) as [E1|[E1 _]]; [|congruence].
    rewrite E1 in Hx. specialize (H2 x kids Hx). simpl in H2.
    eapply Forall_impl; [exact H2|]. intros c Hcx. simpl.
    by rewrite (shrinks_parentOf _ _ c Hs).
Qed.

(** Where [rank] bounds the depth of the calls, [_removeReflection]
    returns once the fuel exceeds the rank of the reflection. *)
Lemma _removeReflection_returns (rank : Z → nat) fuel :
  ∀ w r,
    is_Some (referenceGraph w) → ranked rank w → (rank r < fuel)%nat →
    is_Some (_removeReflection fuel w r).
Proof.
  induction fuel as [|fuel IH]; intros w r [g Hg] Hrk Hlt; [lia|]. simpl.
  unfold getReferenceGraph. simpl. rewrite Hg.
  set (wa := set_files (λ f, FileRegistry.removeReflection f r) w).
  set (I := λ s : t, is_Some (referenceGraph s) ∧ ranked rank s).
  assert (I wa) as Ha.
  { apply (ranked_cacheShrinks rank w); [by rewrite Hg| |done].
    by apply cacheShrinks_frame; [apply shrinks_set_files|]. }
  assert (∀ x, x ∈ default [] (g !! r) → (rank x < fuel)%nat) as Hrefs.
  { intros x Hx. destruct Hrk as [H1 _]. unfold getReferenceGraph in H1.
    rewrite Hg in H1. simpl in H1.
    destruct (g !! r) as [refs|] eqn:Er; [|by apply elem_of_nil in Hx].
    specialize (H1 r refs Er). simpl in H1. rewrite Forall_forall in H1.
    specialize (H1 x Hx). lia. }
  destruct (forEach_total (removeReferrer (_removeReflection fuel)) I
              (default [] (g !! r))) with (s := wa) as (w2 & -> & H2); [|done|].
  { intros s x Hx [Hsg Hsr]. unfold removeReferrer.
    destruct (getReflectionById s x); [|by exists s].
    destruct (IH s x Hsg Hsr (Hrefs x Hx)) as [s1 E]. rewrite E.
    eexists. split; [done|].
    apply (ranked_cacheShrinks rank s); [done| |done].
    eapply cacheShrinks_trans; [by eapply _removeReflection_cacheShrinks|].
    apply cacheShrinks_frame;
      [apply shrinks_detachFromParent|apply referenceGraph_detachFromParent]. }
  cbv zeta. set (wd := dropReferrers r w2).
  change (reflectionChildren w2) with (reflectionChildren wd).
  assert (I wd) as Hd.
  { destruct H2. by apply (ranked_cacheShrinks rank w2);
      [|apply cacheShrinks_dropReferrers|]. }
  destruct (forEach_total (removeChildOf (_removeReflection fuel) r)
              (λ s, I s ∧ shrinks wd s)
              (default [] (reflectionChildren wd !! r))) with (s := wd)
    as (w3 & -> & H3); [|split; [done|apply shrinks_refl]|done].
  intros s x Hx [[Hsg Hsr] Hss]. unfold removeChildOf.
  destruct (getReflectionById s x) as [child|] eqn:Hc; [|by exists s].
  destruct (decide _) as [Hp|]; [|by exists s].
  assert (rank x < fuel)%nat as Hxr.
  { destruct Hd as [_ [_ Hk]].
    destruct (reflectionChildren wd !! r) as [kids|] eqn:Ek;
      [|by apply elem_of_nil in Hx].
    specialize (Hk r kids Ek). simpl in Hk. rewrite Forall_forall in Hk.
    assert (parentOf wd x = Some r) as Hpx.
    { rewrite <- (shrinks_parentOf _ _ x Hss). unfold parentOf.
      apply getReflectionById_Some in Hc as [_ ->]. done. }
    specialize (Hk x Hx Hpx). lia. }
  destruct (IH s x Hsg Hsr Hxr) as [s1 E]. rewrite E. exists s1. split; [done|].
  split.
  - apply (ranked_cacheShrinks rank s); [done| |done].
    by eapply _removeReflection_cacheShrinks.
  - eapply shrinks_trans; [exact Hss|]. by eapply _removeReflection_shrinks.
Qed.

Lemma _removeReflection_cached fuel w r :
  _removeReflection fuel w r = _removeReflection fuel (getReferenceGraph w).2 r.
Proof.
  destruct fuel as [|fuel]; [done|]. simpl.
  unfold getReferenceGraph. simpl. destruct (referenceGraph w) eqn:E; simpl; rewrite ?E; done.
Qed.

Lemma getReferenceGraph_cached w :
  referenceGraph (getReferenceGraph w).2 = Some (getReferenceGraph w).1.
Proof. unfold getReferenceGraph. by destruct (referenceGraph w) eqn:E. Qed.

Lemma getReferenceGraph_again w :
  (getReferenceGraph (getReferenceGraph w).2).1 = (getReferenceGraph w).1.
Proof.
  unfold getReferenceGraph. destruct (referenceGraph w) eqn:E; simpl; rewrite ?E; done.
Qed.

Lemma ranked_getReferenceGraph rank w :
  ranked rank w → ranked rank (getReferenceGraph w).2.
Proof.
  intros [H1 H2]. split.
  - by rewrite getReferenceGraph_again.
  - rewrite getReferenceGraph_children.
    intros x kids Hx. specialize (H2 x kids Hx). simpl in *.
    eapply Forall_impl; [exact H2|]. intros c Hc. simpl.
    by rewrite (shrinks_parentOf _ _ c (shrinks_getReferenceGraph w)).
Qed.

(** And so does [removeReflection], whether the graph is cached or not;
    the bound holds of the store it returns. *)
Lemma removeReflection_returns (rank : Z → nat) fuel w r :
  ranked rank w → (rank r < fuel)%nat →
  ∃ w', removeReflection fuel w r = Some w' ∧ ranked rank w'.
Proof.
  intros Hrk Hlt. unfold removeReflection. rewrite _removeReflection_cached.
  destruct (_removeReflection_returns rank fuel (getReferenceGraph w).2 r)
    as [w1 E]; [by rewrite getReferenceGraph_cached
               |by apply ranked_getReferenceGraph|done|].
  rewrite E. eexists. split; [done|].
  apply (ranked_cacheShrinks rank (getReferenceGraph w).2);
    [by rewrite getReferenceGraph_cached| |by apply ranked_getReferenceGraph].
  eapply cacheShrinks_trans; [by eapply _removeReflection_cacheShrinks|].
  apply cacheShrinks_frame;
    [apply shrinks_detachFromParent|apply referenceGraph_detachFromParent].
Qed.

(** *** A cycle of references *)

Lemma getReferenceGraph_set_files f w :
  (getReferenceGraph (set_files f w)).1 = (getReferenceGraph w).1.
Proof. unfold getReferenceGraph. simpl. by destruct (referenceGraph w). Qed.

Lemma getReflectionById_getReferenceGraph w i :
  getReflectionById (getReferenceGraph w).2 i = getReflectionById w i.
Proof. unfold getReferenceGraph. by destruct (referenceGraph w). Qed.

(** Two registered reflections, each listed by the reference graph as
    referring to the other: removing either calls for the removal of the
    other, and so on; no bound on the depth of the calls is enough. *)
Lemma _removeReflection_cycle a b fuel :
  ∀ w r,
    is_Some (getReflectionById w a) → is_Some (getReflectionById w b) →
    (getReferenceGraph w).1 !! a = Some [b] →
    (getReferenceGraph w).1 !! b = Some [a] →
    r = a ∨ r = b →
    _removeReflection fuel w r = None.
Proof.
  induction fuel as [|fuel IH]; intros w r Ha Hb Ga Gb Hr; [done|]. simpl.
  destruct (getReferenceGraph (set_files _ w)) as [graph w1] eqn:Hgw.
  assert (graph = (getReferenceGraph w).1) as ->.
  { rewrite <- (getReferenceGraph_set_files (λ f, FileRegistry.removeReflection f r) w).
    by rewrite Hgw. }
  assert (w1 = (getReferenceGraph
                  (set_files (λ f, FileRegistry.removeReflection f r) w)).2) as ->
    by (by rewrite Hgw).
  clear Hgw.
  assert (∀ x, x = a ∨ x = b →
            _removeReflection fuel
              (getReferenceGraph
                 (set_files (λ f, FileRegistry.removeReflection f r) w)).2 x = None)
    as Hrec.
  { intros x Hx. apply IH; rewrite ?getReflectionById_getReferenceGraph,
      ?getReferenceGraph_again, ?getReferenceGraph_set_files; done. }
  destruct Ha as [oa Hoa], Hb as [ob Hob].
  destruct Hr as [-> | ->]; rewrite ?Ga, ?Gb; simpl; unfold removeReferrer;
    rewrite getReflectionById_getReferenceGraph.
  - change (getReflectionById (set_files _ w) b) with (getReflectionById w b).
    rewrite Hob, (Hrec b); [done|by right].
  - change (getReflectionById (set_files _ w) a) with (getReflectionById w a).
    rewrite Hoa, (Hrec a); [done|by left].
Qed.

(** In a store with two references that have each other for target,
    [removeReflection] of one of them does not return. *)
Lemma removeReflection_reference_cycle :
  ∀ fuel, removeReflection fuel mutualReferences 2 = None.
Proof.
  intros fuel. unfold removeReflection.
  rewrite (_removeReflection_cycle 2 3 fuel mutualReferences 2); [done|..].
  - vm_compute. eauto.
  - vm_compute. eauto.
  - vm_compute. reflexivity.
  - vm_compute. reflexivity.
  - by left.
Qed.

(** *** Symbols that were never registered *)

Lemma symbolState_unseen_register s r sid ix :
  sid ≠ s →
  symbolState s None [] false ix →
  symbolState s None [] false (registerSymbolIdIn r sid ix).
Proof.
  intros Hne [H1 H2 H3]. split; simpl.
  - destruct (symbolToReflectionIdMap ix !! sid) as [[previous|previous]|];
      [destruct (decide (previous = 0))| |]; by rewrite lookup_insert_ne.
  - intros y. destruct (decide (r = y)) as [<-|?].
    + rewrite lookup_insert_eq. split; [congruence|by intros ?%elem_of_nil].
    + by rewrite lookup_insert_ne.
  - rewrite <- H3. set_solver.
Qed.

Lemma symbolState_unseen_removeReflection s fuel w r w' :
  removeReflection fuel w r = Some w' →
  symbolState s None [] false (symbols w) →
  symbolState s None [] false (symbols w').
Proof.
  intros Hrm H. destruct (removeReflection_unregisters _ _ _ _ Hrm) as (_ & l & -> & _).
  apply symbolState_other; [by intros ?%elem_of_nil|].
  apply symbolState_all; [by intros ? _ ?%elem_of_nil|done].
Qed.

Lemma moveChild_symbols source target w x :
  symbols (moveChild source target w x) = symbols w.
Proof. unfold moveChild. by repeat case_match. Qed.

Lemma moveChildren_symbols source target l :
  ∀ w, symbols (foldl (moveChild source target) w l) = symbols w.
Proof.
  induction l as [|x l IH]; intros w; simpl; [done|].
  by rewrite IH, moveChild_symbols.
Qed.

Lemma symbolState_unseen_mergeReflections s fuel w source target w' :
  mergeReflections fuel w source target = Some w' →
  symbolState s None [] false (symbols w) →
  symbolState s None [] false (symbols w').
Proof.
  unfold mergeReflections. intros Hm H.
  match type of Hm with
  | match ?moved with _ => _ end = _ => destruct moved as [w1|] eqn:E1; [|done]
  end.
  assert (symbols w1 = symbols w) as Hw1.
  { case_decide.
    - destruct (existsb _ _); [done|]. by injection E1 as <-.
    - injection E1 as <-. by rewrite moveChildren_symbols. }
  destruct (removeReflection fuel _ source) as [w2|] eqn:E2; [|done].
  assert (symbolState s None [] false (symbols w2)) as H2.
  { apply (symbolState_unseen_removeReflection s _ _ _ _ E2). simpl. by rewrite Hw1. }
  destruct (objs w2 !! target); by injection Hm as <-.
Qed.

(** A symbol that was never registered has no entry, no reflection
    recorded for it and no tombstone. *)
Lemma neverRegistered_unseen s w :
  neverRegistered s w → symbolState s None [] false (symbols w).
Proof.
  induction 1 as [| |w r sid path _ IH Hne|w r sid _ IH Hne| |]; simpl.
  - split; simpl; [done| |done]. intros y. rewrite lookup_empty.
    split; [done|by intros ?%elem_of_nil].
  - done.
  - assert (symbols (registerReflection w r sid path)
            = match sid with
              | Some sid => registerSymbolIdIn r sid (symbols w)
              | None => symbols w
              end) as ->.
    { unfold registerReflection. simpl.
      destruct path as [p|]; [destruct (JsString.truthy p)|];
        destruct sid; simpl; by destruct (parentOf _ _). }
    destruct sid as [sid|]; [|done].
    apply symbolState_unseen_register; [congruence|done].
  - by apply symbolState_unseen_register.
  - by eapply symbolState_unseen_removeReflection.
  - by eapply symbolState_unseen_mergeReflections.
Qed.

(** C7, as the specification words it, fails when the second reflection
    is a child of the first: removing the declaration removes its signature
    with it, and what is left for the symbol is an empty entry and a
    tombstone, not an entry that resolves to the signature. *)
Lemma symbol_merge_counterexample :
  symbolToReflectionIdMap (symbols declarationWithSignature) !! "f"
    = Some (Many [2; 3])
  ∧ (λ w : t, (getReflectionsFromSymbolId w "f", symbolIdHasBeenRemoved w "f",
               getReflectionById w 3))
      <$> removeReflection 3 declarationWithSignature 2
    = Some ([], true, None).
Proof. split; vm_compute; reflexivity. Qed.

(** The test [if (previous)] of [registerSymbolId] takes a first reflection
    with the id 0 for no reflection at all: the second registration
    replaces the entry. *)
Lemma registerSymbolId_first_id_zero :
  symbolToReflectionIdMap (symbols projectWithIdZero) !! "m" = Some (One 1).
Proof. vm_compute. reflexivity. Qed.

(** C7, amended: for a symbol [s] that the index has not seen (no entry
    and no reflection recorded for it) and two distinct registered
    reflections, the first with an id other than 0, registering both for
    [s] gives the entry [[first; second]], and the lookup returns them in
    that order.  Where the calls that a removal makes of itself are bounded
    in depth ([rank] decreases from a reflection to the references to it
    and to its children, and the fuel exceeds the ranks of the two),
    removing the first returns; when that removal does not take the second
    with it, it leaves an entry that resolves to the second only and no
    tombstone, and removing the second as well returns and leaves a
    tombstone for [s], and nothing to look up.  A symbol that was never
    registered, in a store built from a new project by calls none of which
    registers it, has no tombstone and nothing to look up. *)
Theorem symbol_merge (w0 : t) (s : ReflectionSymbolId) (r1 r2 : Z)
    (o1 o2 : Reflection) (rank : Z → nat) (fuel : nat) :
  symbolToReflectionIdMap (symbols w0) !! s = None →
  (∀ y, reflectionIdToSymbolIdMap (symbols w0) !! y ≠ Some s) →
  r1 ≠ r2 →
  r1 ≠ 0 →
  getReflectionById w0 r1 = Some o1 →
  getReflectionById w0 r2 = Some o2 →
  ranked rank (registerSymbolId (registerSymbolId w0 r1 s) r2 s) →
  (rank r1 < fuel)%nat →
  (rank r2 < fuel)%nat →
  let w2 := registerSymbolId (registerSymbolId w0 r1 s) r2 s in
  symbolToReflectionIdMap (symbols w2) !! s = Some (Many [r1; r2])
  ∧ getReflectionsFromSymbolId w2 s = [Some o1; Some o2]
  ∧ (∃ w3,
       removeReflection fuel w2 r1 = Some w3
       ∧ (r2 ∈ reflections w3 →
          symbolToReflectionIdMap (symbols w3) !! s = Some (Many [r2])
          ∧ (∃ o2', getReflectionsFromSymbolId w3 s = [Some o2'] ∧ head o2' = head o2)
          ∧ symbolIdHasBeenRemoved w3 s = false
          ∧ ∃ w4,
              removeReflection fuel w3 r2 = Some w4
              ∧ symbolIdHasBeenRemoved w4 s = true
              ∧ getReflectionsFromSymbolId w4 s = []))
  ∧ ∀ w s',
      neverRegistered s' w →
      symbolIdHasBeenRemoved w s' = false ∧ getReflectionsFromSymbolId w s' = [].
Proof.
  intros Hs Hown Hne Hz Ho1 Ho2 Hrk Hlt1 Hlt2 w2.
  pose proof (symbolState_registered s r1 r2 (symbols w0) Hs Hown Hz) as HA.
  change (symbolState s (Some (Many [r1; r2])) [r1; r2] false (symbols w2)) in HA.
  split; [by destruct HA|]. split.
  { unfold getReflectionsFromSymbolId. rewrite (sym_entry _ _ _ _ _ HA). simpl.
    change (getReflectionById w2 r1) with (getReflectionById w0 r1).
    change (getReflectionById w2 r2) with (getReflectionById w0 r2).
    by rewrite Ho1, Ho2. }
  split.
  { destruct (removeReflection_returns rank fuel w2 r1 Hrk Hlt1) as (w3 & Hrm1 & Hrk3).
    exists w3. split; [done|]. intros Hr2.
    destruct (removeReflection_unregisters _ _ _ _ Hrm1) as (Hs3 & l & El & Gl).
    assert (symbolState s (Some (Many [r2])) [r2] false (symbols w3)) as HB.
    { rewrite El. apply symbolState_removed_first; [done| |done].
      intros Hin. by apply (Gl r2 Hin). }
    destruct (removeReflection_returns rank fuel w3 r2 Hrk3 Hlt2) as (w4 & Hrm2 & _).
    destruct (removeReflection_unregisters _ _ _ _ Hrm2) as (Hs4 & l' & El' & Gl').
    assert (symbolState s (Some (Many [])) [] true (symbols w4)) as HC.
    { rewrite El'. by apply symbolState_removed_last. }
    destruct HB as [HB1 _ HB3], HC as [HC1 _ HC3].
    split; [done|]. split.
    { destruct (getReflectionById_shrinks w2 w3 r2 o2 Hs3 Hr2 Ho2) as (o2' & Ho2' & Hh).
      exists o2'. split; [|done].
      unfold getReflectionsFromSymbolId. rewrite HB1. simpl. by rewrite Ho2'. }
    split.
    { unfold symbolIdHasBeenRemoved. apply bool_decide_eq_false. intros H.
      by apply HB3 in H. }
    exists w4. split; [done|]. split.
    { unfold symbolIdHasBeenRemoved. apply bool_decide_eq_true. by apply HC3. }
    unfold getReflectionsFromSymbolId. by rewrite HC1. }
  intros w s' [He _ Ht]%neverRegistered_unseen. split.
  - unfold symbolIdHasBeenRemoved. apply bool_decide_eq_false. intros H.
    by apply Ht in H.
  - unfold getReflectionsFromSymbolId. by rewrite He.
Qed.

Lemma symbol_merge_witness :
  symbolToReflectionIdMap
    (symbols (registerSymbolId (registerSymbolId twoSiblings 2 "s") 3 "s")) !! "s"
  = Some (Many [2; 3])
  ∧ ∃ w3 w4,
      removeReflection 1 (registerSymbolId (registerSymbolId twoSiblings 2 "s") 3 "s") 2
        = Some w3
      ∧ removeReflection 1 w3 3 = Some w4
      ∧ symbolToReflectionIdMap (symbols w3) !! "s" = Some (Many [3])
      ∧ symbolIdHasBeenRemoved w4 "s" = true.
Proof.
  destruct (getReflectionById twoSiblings 2) as [o1|] eqn:E1; [|by vm_compute in E1].
  destruct (getReflectionById twoSiblings 3) as [o2|] eqn:E2; [|by vm_compute in E2].
  destruct (symbol_merge twoSiblings "s" 2 3 o1 o2 (λ x, Z.to_nat (2 - x)) 1)
    as (H1 & _ & (w3 & E3 & H3) & _).
  - reflexivity.
  - intros y. vm_compute. discriminate.
  - lia.
  - lia.
  - exact E1.
  - exact E2.
  - split; apply (bool_decide_unpack _); vm_compute; exact I.
  - vm_compute. lia.
  - vm_compute. lia.
  - split; [exact H1|]. exists w3.
    destruct H3 as (H4 & _ & _ & w4 & E4 & H5 & _).
    + pose proof E3 as E3'. vm_compute in E3'. injection E3' as <-.
      vm_compute. reflexivity.
    + exists w4. auto.
Defined.

(** *** The cascade *)

Lemma shrinks_variantOf w w' i : shrinks w w' → variantOf w' i = variantOf w i.
Proof.
  intros [H _ _ _]. apply (f_equal (λ m, m !! i)) in H. unfold heads in H.
  rewrite !lookup_fmap in H. unfold variantOf.
  destruct (objs w' !! i), (objs w !! i); simplify_eq/=; congruence.
Qed.

Lemma shrinks_removable r0 w w' x : shrinks w w' → removable r0 w x → removable r0 w' x.
Proof.
  intros Hs. unfold removable.
  by rewrite (shrinks_variantOf _ _ x Hs), (shrinks_parentOf _ _ x Hs).
Qed.

(** Steps that touch neither table, index nor graph keep the invariant. *)
Lemma cascadeInv_frame r0 g0 k0 t0 w w' :
  shrinks w w' →
  reflections w' = reflections w →
  reflectionChildren w' = reflectionChildren w →
  referenceGraph w' = referenceGraph w →
  cascadeInv r0 g0 k0 t0 w → cascadeInv r0 g0 k0 t0 w'.
Proof.
  intros Hs Ht Hk Hg [H1 H2 H3 H4 H5]. split.
  - intros i. rewrite Ht. intros Hi. apply (shrinks_isObject _ _ i Hs). by apply H1.
  - intros x ref Hin. rewrite (shrinks_variantOf _ _ ref Hs). by eapply H2.
  - rewrite Hg, Ht. done.
  - intros x. rewrite Hk, Ht. destruct (H4 x) as [?|[? Hx]]; [by left|right].
    split; [done|]. intros c Hc. rewrite (shrinks_parentOf _ _ c Hs). by apply Hx.
  - intros x Hx. rewrite Ht. intros Hn. destruct (H5 x Hx Hn) as (Ha & Hb & Hc).
    split; [by eapply shrinks_removable|]. split; [done|].
    intros c Hin. rewrite (shrinks_parentOf _ _ c Hs). by apply Hc.
Qed.

Lemma reflections_detachFromParent w r :
  reflections (detachFromParent w r) = reflections w.
Proof. unfold detachFromParent. by repeat case_match. Qed.

Lemma cascadeInv_detachFromParent r0 g0 k0 t0 w x :
  cascadeInv r0 g0 k0 t0 w → cascadeInv r0 g0 k0 t0 (detachFromParent w x).
Proof.
  apply cascadeInv_frame;
    [apply shrinks_detachFromParent|apply reflections_detachFromParent
    |apply detachFromParent_children|apply referenceGraph_detachFromParent].
Qed.

(** The invariant of the cascade is kept by every call of
    [_removeReflection] on a reflection that may be removed. *)
Lemma _removeReflection_cascade r0 g0 k0 t0 fuel :
  ∀ w r w',
    cascadeInv r0 g0 k0 t0 w → removable r0 w r →
    _removeReflection fuel w r = Some w' →
    cascadeInv r0 g0 k0 t0 w'.
Proof.
  induction fuel as [|fuel IH]; intros w r w' Hw Hr; simpl; [done|].
  destruct (casc_graph _ _ _ _ _ Hw) as (g & Hg & Hgx).
  unfold getReferenceGraph. simpl. rewrite Hg.
  set (wa := set_files (λ f, FileRegistry.removeReflection f r) w).
  destruct (forEach _ wa _) as [w2|] eqn:L1; [|done].
  destruct (forEach _ (dropReferrers r w2) _) as [w3|] eqn:L2; [|done].
  intros [= <-].
  assert (cascadeInv r0 g0 k0 t0 wa) as Ha.
  { by eapply cascadeInv_frame; [apply shrinks_set_files|..]. }
  (* the referrers *)
  assert (∀ s x s', x ∈ default [] (g !! r) → cascadeInv r0 g0 k0 t0 s →
            _removeReflection fuel s x = Some s' →
            cascadeInv r0 g0 k0 t0 s' ∧ shrinks s s' ∧ x ∉ reflections s') as Hrec1.
  { intros s x s' Hx Hs E.
    split; [|split; [by eapply _removeReflection_shrinks
                    |by eapply _removeReflection_gone]].
    eapply IH; [done| |done]. right. left.
    apply (casc_refs _ _ _ _ _ Hs r).
    destruct (Hgx r) as [<-|[Hn _]]; [done|]. rewrite Hn in Hx.
    by apply elem_of_nil in Hx. }
  destruct (removeReferrers_inv _ (cascadeInv r0 g0 k0 t0) _ Hrec1
              (λ s x, cascadeInv_detachFromParent r0 g0 k0 t0 s x) wa w2 Ha L1)
    as (H2 & Hs2 & Hq2).
  assert (∀ ref, ref ∈ default [] (g0 !! r) → ref ∉ reflections w2) as Hrefs.
  { intros ref Hin Hc. destruct (Hgx r) as [E|[_ Hgone]].
    - rewrite <- E in Hin. specialize (Hq2 ref Hin).
      apply (casc_table _ _ _ _ _ H2) in Hc as Ho.
      unfold getReflectionById in Hq2. rewrite decide_True in Hq2 by done.
      rewrite Hq2 in Ho. by destruct Ho.
    - apply (Hgone ref Hin). by apply (shrinks_table _ _ Hs2) in Hc. }
  assert (cascadeInv r0 g0 k0 t0 (dropReferrers r w2)) as H2'.
  { destruct H2 as [T Rf (g2 & Hg2 & Hg2x) K Rm]. split; [done|done| |done|done].
    exists (delete r g2). split; [by simpl; rewrite Hg2|].
    intros x. destruct (decide (x = r)) as [->|Hx].
    - right. split; [apply lookup_delete_eq|done].
    - rewrite lookup_delete_ne by done. apply Hg2x. }
  (* the children *)
  assert (∀ s x s', cascadeInv r0 g0 k0 t0 s → parentOf s x = Some r →
            _removeReflection fuel s x = Some s' →
            cascadeInv r0 g0 k0 t0 s' ∧ shrinks s s' ∧ x ∉ reflections s') as Hrec2.
  { intros s x s' Hs Hp E.
    split; [|split; [by eapply _removeReflection_shrinks
                    |by eapply _removeReflection_gone]].
    eapply IH; [done| |done]. right. right. by rewrite Hp. }
  destruct (removeChildren_post _ (cascadeInv r0 g0 k0 t0) r _ Hrec2 _ _ H2' L2)
    as (H3 & Hs3 & Hkids).
  assert (∀ c, c ∈ default [] (k0 !! r) → parentOf w3 c = Some r →
            c ∉ reflections w3) as Hgone.
  { intros c Hin Hp Hc. destruct (casc_children _ _ _ _ _ H2' r) as [E|[_ Hg']].
    - simpl in E. destruct (Hkids c) as [?|?]; [by rewrite E|done..].
    - apply (Hg' c Hin).
      + by rewrite <- (shrinks_parentOf _ _ c Hs3).
      + by apply (shrinks_table _ _ Hs3). }
  assert (shrinks w w3) as Hs.
  { eapply shrinks_trans; [apply (shrinks_set_files (λ f, FileRegistry.removeReflection f r))|].
    eapply shrinks_trans; [exact Hs2|].
    eapply shrinks_trans; [apply (shrinks_dropReferrers r)|exact Hs3]. }
  (* the last step *)
  assert (∀ y, y ∉ reflections w3 → y ∉ reflections w3 ∖ {[r]}) as Hweak.
  { intros y Hy [? _]%elem_of_difference. done. }
  destruct H3 as [T Rf (g3 & Hg3 & Hg3x) K Rm]. split.
  - intros i Hi. simpl in Hi. apply T. by apply elem_of_difference in Hi as [? _].
  - done.
  - exists g3. split; [done|]. intros x. destruct (Hg3x x) as [?|[? Hx]]; [by left|right].
    split; [done|]. intros ref Hin. simpl. apply Hweak. by apply Hx.
  - intros x. simpl. destruct (decide (x = r)) as [->|Hx].
    + right. split; [apply lookup_delete_eq|].
      intros c Hin Hp. apply Hweak. by apply Hgone.
    + rewrite lookup_delete_ne by done. destruct (K x) as [?|[? Hk]]; [by left|right].
      split; [done|]. intros c Hin Hp. apply Hweak. by apply Hk.
  - intros x Hx Hn. simpl in Hn.
    destruct (decide (x ∈ reflections w3)) as [Hin|Hnin].
    + assert (x = r) as ->.
      { destruct (decide (x = r)); [done|]. exfalso. apply Hn.
        apply elem_of_difference. split; [done|]. by rewrite elem_of_singleton. }
      split; [by apply (shrinks_removable _ _ _ _ Hs)|]. split.
      * intros ref Hr'. simpl. apply Hweak. intros Hc. apply (Hrefs ref Hr').
        apply (shrinks_table _ _ Hs3) in Hc. exact Hc.
      * intros c Hc Hp. simpl. apply Hweak. by apply Hgone.
    + destruct (Rm x Hx Hnin) as (Ha' & Hb & Hc). split; [done|]. split.
      * intros ref Hr'. simpl. apply Hweak. by apply Hb.
      * intros c Hc' Hp. simpl. apply Hweak. by apply Hc.
Qed.

(** *** The reference graph *)

Lemma addReference_lookup w g i x ref :
  ref ∈ default [] (addReference w g i !! x)
  ↔ ref ∈ default [] (g !! x) ∨ contributes w i x ref.
Proof.
  unfold addReference, contributes.
  destruct (getReflectionById w i) as [o|] eqn:Ho; [|naive_solver].
  destruct (variant o) eqn:Hv; try (split; [by left|intros [?|(?&?&?&?&?)]; congruence]).
  destruct (tryGetTargetReflection w o) as [tgt|] eqn:Ht;
    [|split; [by left|intros [?|(?&?&?&?&?&?)]; congruence]].
  destruct (decide (id tgt = x)) as [<-|Hx].
  - rewrite lookup_insert_eq. simpl. rewrite elem_of_app, list_elem_of_singleton.
    split; [intros [?| ->]; [by left|right; by exists o, tgt]|].
    intros [?|(o' & t' & ? & ? & ? & ? & ?)]; [by left|right]. congruence.
  - rewrite lookup_insert_ne by done.
    split; [by left|intros [?|(o' & t' & ? & ? & ? & ? & ?)]; [done|congruence]].
Qed.

Lemma foldl_addReference_lookup w l :
  ∀ g x ref,
    ref ∈ default [] (foldl (addReference w) g l !! x)
    ↔ ref ∈ default [] (g !! x) ∨ ∃ i, i ∈ l ∧ contributes w i x ref.
Proof.
  induction l as [|i l IH]; intros g x ref; simpl.
  - split; [by left|]. intros [?|(? & ?%elem_of_nil & _)]; done.
  - rewrite IH, addReference_lookup. split.
    + intros [[?|?]|(j & ? & ?)]; [by left|right; exists i|right; exists j];
        (split; [|done]); [by left|by right].
    + intros [?|(j & [->|?]%elem_of_cons & ?)];
        [by left; left|by left; right|right; by exists j].
Qed.

Lemma buildReferenceGraph_lookup w x ref :
  ref ∈ default [] (buildReferenceGraph w !! x)
  ↔ ∃ i, i ∈ reflections w ∧ contributes w i x ref.
Proof.
  unfold buildReferenceGraph. rewrite foldl_addReference_lookup, lookup_empty. simpl.
  split.
  - intros [?%elem_of_nil|(i & Hi & ?)]; [done|]. exists i. split; [|done].
    unfold reflectionIds in Hi. rewrite merge_sort_Permutation in Hi.
    by apply elem_of_elements in Hi.
  - intros (i & Hi & ?). right. exists i. split; [|done].
    unfold reflectionIds. rewrite merge_sort_Permutation. by apply elem_of_elements.
Qed.

(** *** The slots *)

Lemma elem_of_tagged c p q l : (c, p) ∈ tagged q l ↔ p = q ∧ c ∈ l.
Proof. unfold tagged. rewrite list_elem_of_fmap. naive_solver. Qed.

Lemma elem_of_traverse o c p :
  (c, p) ∈ traverse o ↔ variant o ≠ VTypeParam ∧ c ∈ slotList p (slots o).
Proof.
  unfold traverse.
  destruct (variant o) eqn:Hv;
    try (rewrite !elem_of_app, !elem_of_tagged; destruct p; simpl; naive_solver).
  split; [by intros ?%elem_of_nil|]. by intros [? _].
Qed.

Lemma removeFirst_sublist x l : removeFirst x l `sublist_of` l.
Proof.
  induction l as [|y l IH]; simpl; [done|].
  case_decide; [by apply sublist_cons|by apply sublist_skip].
Qed.

Lemma removeFirst_NoDup x l : NoDup l → x ∉ removeFirst x l.
Proof.
  induction 1 as [|y l Hy Hl IH]; simpl; [by intros ?%elem_of_nil|].
  case_decide as E; [by subst|]. intros [?|?]%elem_of_cons; [congruence|done].
Qed.

Lemma removeFromSlot_default x sl : default [] (removeFromSlot x sl) = removeFirst x (default [] sl).
Proof. destruct sl as [l|]; simpl; [|done]. by destruct (removeFirst x l). Qed.

Lemma removeFromSlot_elem c x sl :
  c ∈ default [] (removeFromSlot x sl) → c ∈ default [] sl.
Proof.
  rewrite removeFromSlot_default. intros H.
  by eapply elem_of_sublist; [|apply removeFirst_sublist].
Qed.

Lemma detachSlot_slotList x pr p s c :
  c ∈ slotList p (detachSlot x pr s) → c ∈ slotList p s.
Proof.
  destruct pr, p; simpl; try done; try apply removeFromSlot_elem;
    try (by intros ?%elem_of_nil).
Qed.

Lemma detachSlot_kids x pr s :
  default [] (children (detachSlot x pr s)) `sublist_of` default [] (children s).
Proof.
  destruct pr; simpl; try done;
    rewrite removeFromSlot_default; apply removeFirst_sublist.
Qed.

Lemma detach_shrinks x o :
  variant (detach x o) = variant o
  ∧ (∀ c pr, c ∈ slotList pr (slots (detach x o)) → c ∈ slotList pr (slots o))
  ∧ kidsOf (detach x o) `sublist_of` kidsOf o.
Proof.
  unfold detach. destruct (find _ _) as [[c' pr']|]; [|done]. simpl.
  split; [done|]. split; [intros c pr; apply detachSlot_slotList|apply detachSlot_kids].
Qed.

(** Once the first visit of [x] is under [Children], and the children hold
    [x] once, detaching [x] leaves the children without it. *)
Lemma detach_removes x o :
  variant o ≠ VTypeParam →
  NoDup (kidsOf o) →
  (∀ pr, x ∈ slotList pr (slots o) → pr = Children) →
  x ∉ kidsOf (detach x o).
Proof.
  intros Hv Hnd Honly. unfold detach.
  destruct (find _ _) as [[c' pr']|] eqn:Hf.
  - apply find_some in Hf as [Hin Hc]. apply bool_decide_eq_true in Hc. simpl in Hc.
    subst c'. apply list_elem_of_In, elem_of_traverse in Hin as [_ Hin].
    rewrite (Honly _ Hin). unfold kidsOf. simpl. rewrite removeFromSlot_default.
    by apply removeFirst_NoDup.
  - intros Hx. pose proof (find_none _ _ Hf (x, Children)) as Hn.
    rewrite bool_decide_eq_false in Hn. apply Hn; [|done].
    apply list_elem_of_In, elem_of_traverse. by split.
Qed.

Lemma slotsShrink_refl w : slotsShrink w w.
Proof. intros p o Ho. exists o. by repeat split. Qed.

Lemma slotsShrink_trans w1 w2 w3 :
  slotsShrink w1 w2 → slotsShrink w2 w3 → slotsShrink w1 w3.
Proof.
  intros H12 H23 p o Ho. destruct (H12 p o Ho) as (o2 & Ho2 & Hv2 & Hs2 & Hk2).
  destruct (H23 p o2 Ho2) as (o3 & Ho3 & Hv3 & Hs3 & Hk3).
  exists o3. split; [done|]. split; [congruence|]. split; [by auto|by etrans].
Qed.

Lemma slotsShrink_same w w' : objs w' = objs w → slotsShrink w w'.
Proof. intros E p o Ho. exists o. rewrite E. by repeat split. Qed.

Lemma slotsShrink_detachFromParent w x : slotsShrink w (detachFromParent w x).
Proof.
  unfold detachFromParent. destruct (parentOf w x) as [q|]; [|apply slotsShrink_refl].
  destruct (objs w !! q) as [po|] eqn:Hq; [|apply slotsShrink_refl].
  intros p o Ho. simpl. destruct (decide (q = p)) as [->|Hne].
  - rewrite lookup_insert_eq. exists (detach x po). split; [done|].
    assert (po = o) as -> by congruence. apply detach_shrinks.
  - rewrite lookup_insert_ne by done. exists o. by repeat split.
Qed.

Lemma getReferenceGraph_objs w : objs (getReferenceGraph w).2 = objs w.
Proof. unfold getReferenceGraph. by case_match. Qed.

Lemma removeReflection_slotsShrink fuel w r w' :
  _removeReflection fuel w r = Some w' → slotsShrink w w'.
Proof.
  intros E. destruct (_removeReflection_steps slotsShrink)
    with (fuel := fuel) (w := w) (r := r) (w' := w') as (w3 & -> & H3); [..|exact E|].
  - apply slotsShrink_refl.
  - apply slotsShrink_trans.
  - intros ??. by apply slotsShrink_same.
  - intros ?. apply slotsShrink_same, getReferenceGraph_objs.
  - apply slotsShrink_detachFromParent.
  - intros ??. by apply slotsShrink_same.
  - intros ??. by apply slotsShrink_same.
  - eapply slotsShrink_trans; [exact H3|]. by apply slotsShrink_same.
Qed.

(** *** Removing a reflection with its children and referrers *)

Lemma tryGetTargetReflection_registered w o tgt :
  map_Forall (λ i o, id o = i) (objs w) →
  tryGetTargetReflection w o = Some tgt → id tgt ∈ reflections w.
Proof.
  intros Hheap. unfold tryGetTargetReflection.
  assert (∀ i, getReflectionById w i = Some tgt → id tgt ∈ reflections w) as Hid.
  { intros i [Hi Ho]%getReflectionById_Some. by rewrite (Hheap i tgt Ho). }
  destruct (target o) as [[i|sid|]|]; [apply Hid| |done|done].
  unfold getReflectionFromSymbolId, getReflectionsFromSymbolId.
  destruct (symbolToReflectionIdMap (symbols w) !! sid) as [[i|[|i ids]]|];
    simpl; try done; apply Hid.
Qed.

(** What a current graph gives: the reflections it lists are references,
    and it lists what the graph built now would list. *)
Lemma graphCurrent_spec w :
  map_Forall (λ i o, id o = i) (objs w) →
  graphCurrent w = true →
  (∀ x ref, ref ∈ default [] ((getReferenceGraph w).1 !! x) →
            variantOf w ref = Some VReference)
  ∧ (∀ i x ref, i ∈ reflections w → contributes w i x ref →
                ref ∈ default [] ((getReferenceGraph w).1 !! x)).
Proof.
  intros Hheap. unfold graphCurrent, getReferenceGraph.
  destruct (referenceGraph w) as [g|]; simpl.
  - intros [H1 H2]%andb_true_iff.
    apply bool_decide_eq_true in H1, H2. split.
    + intros x ref Hin. destruct (g !! x) as [refs|] eqn:E;
        [|by apply elem_of_nil in Hin].
      specialize (H1 x refs E). simpl in *. rewrite Forall_forall in H1. by apply H1.
    + intros i x ref Hi Hc.
      assert (ref ∈ default [] (buildReferenceGraph w !! x)) as Hin
        by (apply buildReferenceGraph_lookup; eauto).
      destruct (buildReferenceGraph w !! x) as [refs|] eqn:E;
        [|by apply elem_of_nil in Hin].
      specialize (H2 x refs E). simpl in *. rewrite Forall_forall in H2. by apply H2.
  - intros _. split.
    + intros x ref (i & Hi & o & tgt & Ho & Hv & _ & _ & Hid)%buildReferenceGraph_lookup.
      apply getReflectionById_Some in Ho as [_ Ho].
      rewrite (Hheap i o Ho) in Hid. subst i.
      unfold variantOf. by rewrite Ho, <- Hv.
    + intros i x ref Hi Hc. apply buildReferenceGraph_lookup. eauto.
Qed.

Lemma cascadeInv_start r0 w :
  map_Forall (λ i o, id o = i) (objs w) →
  reflections w ⊆ dom (objs w) →
  graphCurrent w = true →
  cascadeInv r0 (getReferenceGraph w).1 (reflectionChildren w) (reflections w)
    (getReferenceGraph w).2.
Proof.
  intros Hheap Htab Hcur.
  destruct (graphCurrent_spec w Hheap Hcur) as [Hrefs _].
  pose proof (shrinks_getReferenceGraph w) as Hs.
  assert (reflections (getReferenceGraph w).2 = reflections w) as Ht
    by (unfold getReferenceGraph; by destruct (referenceGraph w)).
  split.
  - intros i Hi. rewrite Ht in Hi. apply (shrinks_isObject _ _ i Hs).
    apply elem_of_dom. by apply Htab.
  - intros x ref Hin. rewrite (shrinks_variantOf _ _ ref Hs). by eapply Hrefs.
  - exists (getReferenceGraph w).1. split; [apply getReferenceGraph_cached|]. by left.
  - intros x. left. by rewrite getReferenceGraph_children.
  - intros x Hx Hn. by rewrite Ht in Hn.
Qed.

(** The cascade: when [removeReflection] returns, every reflection it took
    out of the id table has lost its referrers and its children as well. *)
Lemma removeReflection_cascade fuel w r w' :
  map_Forall (λ i o, id o = i) (objs w) →
  reflections w ⊆ dom (objs w) →
  graphCurrent w = true →
  removeReflection fuel w r = Some w' →
  shrinks w w'
  ∧ (r ∉ reflections w')
  ∧ reflectionChildren w' !! r = None
  ∧ ∀ x, x ∈ reflections w → x ∉ reflections w' →
      removable r w x
      ∧ (∀ c, c ∈ childrenOf w x → parentOf w c = Some x → c ∉ reflections w')
      ∧ (∀ ref o tgt,
           getReflectionById w ref = Some o → variant o = VReference →
           tryGetTargetReflection w o = Some tgt → id tgt = x →
           ref ∉ reflections w').
Proof.
  intros Hheap Htab Hg Hrm.
  pose proof (removeReflection_shrinks _ _ _ _ Hrm) as Hs.
  pose proof (removeReflection_gone _ _ _ _ Hrm) as Hgone.
  split; [done|]. split; [done|].
  unfold removeReflection in Hrm.
  destruct (_removeReflection fuel w r) as [w1|] eqn:E; [|done].
  injection Hrm as <-.
  split.
  { destruct (_removeReflection_steps (λ _ _, True)) with
      (fuel := fuel) (w := w) (r := r) (w' := w1) as (w3 & -> & _); try done.
    rewrite detachFromParent_children. simpl. apply lookup_delete_eq. }
  pose proof (_removeReflection_shrinks _ _ _ _ E) as Hs1.
  rewrite _removeReflection_cached in E.
  assert (removable r (getReferenceGraph w).2 r) as Hr0 by (by left).
  pose proof (_removeReflection_cascade r _ _ _ fuel _ r w1
                (cascadeInv_start r w Hheap Htab Hg) Hr0 E)
    as [_ _ _ _ Hrmv].
  destruct (graphCurrent_spec w Hheap Hg) as [_ Hcomplete].
  intros x Hx Hnx. rewrite reflections_detachFromParent in Hnx.
  destruct (Hrmv x Hx Hnx) as (Ha & Hb & Hc).
  rewrite reflections_detachFromParent. split; [|split].
  - unfold removable in *.
    by rewrite (shrinks_variantOf _ _ x Hs1), (shrinks_parentOf _ _ x Hs1) in Ha.
  - intros c Hin Hp. apply Hc; [done|]. by rewrite (shrinks_parentOf _ _ c Hs1).
  - intros ref o tgt Ho Hv Ht Hid. apply Hb.
    pose proof Ho as [Hin Hobj]%getReflectionById_Some.
    apply (Hcomplete ref); [done|].
    exists o, tgt. repeat split; try done. by apply (Hheap ref o).
Qed.

(** C8, as the specification words it, fails in its last part: after
    [removeReflection(A)] the entry of the children index for [R] still
    lists the id 2. *)
Lemma removeReflection_scenario_counterexample :
  (λ w : t, childrenOf w 1) <$> removeReflection 3 rootAB 2 = Some [2; 4].
Proof. vm_compute. reflexivity. Qed.

(** With a cached reference graph that is out of date, a reference whose
    target resolves to the reflection that is removed stays in the id
    table. *)
Lemma removeReflection_stale_graph :
  graphCurrent staleGraph = false
  ∧ id <$> (getReflectionById staleGraph 4 ≫= tryGetTargetReflection staleGraph)
    = Some 2
  ∧ (λ w : t, (getReflectionById w 2, bool_decide (4 ∈ reflections w)))
      <$> removeReflection 3 staleGraph 2
    = Some (None, true).
Proof. repeat split; vm_compute; reflexivity. Qed.

(** C8, amended: in a store (every object kept under its id, every id of
    the id table with its object) with the project [R] (id 1), its child
    [A] (id 2) and the child [B] (id 3) of [A], in which a cached reference
    graph is current and the calls that a removal makes of itself are
    bounded in depth ([rank] decreases from a reflection to the references
    to it and to its children, and the fuel exceeds the rank of [A]),
    [removeReflection(A)] returns; it takes [A] and [B] out of the id
    table, and with them every reference reflection whose target resolves
    to a reflection that is removed; the entry of the children index for
    [A] is deleted, and the children of [R] (its own list, which holds no
    reflection twice and holds [A] nowhere else) no longer hold [A].  The
    entry of the children index for [R] is left as it was, and still lists
    the id 2. *)
Theorem removeReflection_scenario (rank : Z → nat) (fuel : nat) (w : t) (R : Reflection) :
  map_Forall (λ i o, id o = i) (objs w) →
  reflections w ⊆ dom (objs w) →
  graphCurrent w = true →
  ranked rank w →
  (rank 2%Z < fuel)%nat →
  objs w !! 1 = Some R →
  variant R = VProject →
  parent R = None →
  1 ∈ reflections w → 2 ∈ reflections w → 3 ∈ reflections w →
  parentOf w 2 = Some 1 →
  parentOf w 3 = Some 2 →
  2 ∈ childrenOf w 1 →
  3 ∈ childrenOf w 2 →
  NoDup (kidsOf R) →
  (∀ pr, 2 ∈ slotList pr (slots R) → pr = Children) →
  ∃ w',
    removeReflection fuel w 2 = Some w'
    ∧ getReflectionById w' 2 = None
    ∧ getReflectionById w' 3 = None
    ∧ (∀ ref o tgt,
         getReflectionById w ref = Some o → variant o = VReference →
         tryGetTargetReflection w o = Some tgt → id tgt ∉ reflections w' →
         getReflectionById w' ref = None)
    ∧ reflectionChildren w' !! 2 = None
    ∧ (∃ R', objs w' !! 1 = Some R' ∧ 2 ∉ kidsOf R')
    ∧ childrenOf w' 1 = childrenOf w 1
    ∧ 2 ∈ childrenOf w' 1.
Proof.
  intros Hheap Htab Hg Hrk Hlt HR Hv Hp H1 H2 H3 Hp2 Hp3 Hk1 Hk2 Hnd Honly.
  destruct (removeReflection_returns rank fuel w 2 Hrk Hlt) as (w' & Hrm & _).
  exists w'. split; [done|].
  destruct (removeReflection_cascade _ _ _ _ Hheap Htab Hg Hrm)
    as (Hs & Hgone & Hentry & Hcasc).
  assert (∀ i, i ∉ reflections w' → getReflectionById w' i = None) as Hnone.
  { intros i Hi. unfold getReflectionById. by rewrite decide_False. }
  destruct (Hcasc 2 H2 Hgone) as (_ & Hkids & _).
  assert (childrenOf w' 1 = childrenOf w 1) as Hsame.
  { unfold childrenOf. destruct (shrinks_children _ _ Hs 1) as [->|[_ Hn]]; [done|].
    destruct (Hcasc 1 H1 Hn) as ([?|[Hr|Hr]] & _); [done| |].
    - unfold variantOf in Hr. rewrite HR in Hr. simpl in Hr. congruence.
    - unfold parentOf in Hr. rewrite HR, Hp in Hr. by destruct Hr. }
  split; [by apply Hnone|]. split; [by apply Hnone, Hkids|]. split.
  { intros ref o tgt Ho Hvo Ht Hn. apply Hnone.
    pose proof (tryGetTargetReflection_registered _ _ _ Hheap Ht) as Hin.
    destruct (Hcasc (id tgt) Hin Hn) as (_ & _ & Hrefs). by eapply Hrefs. }
  split; [done|]. split; [|by rewrite Hsame].
  unfold removeReflection in Hrm.
  destruct (_removeReflection fuel w 2) as [w1|] eqn:E; [|done].
  injection Hrm as <-.
  destruct (removeReflection_slotsShrink _ _ _ _ E 1 R HR)
    as (R1 & HR1 & Hv1 & Hsl & Hsub).
  unfold detachFromParent.
  rewrite (shrinks_parentOf _ _ 2 (_removeReflection_shrinks _ _ _ _ E)), Hp2, HR1.
  simpl. rewrite lookup_insert_eq. eexists. split; [done|].
  apply detach_removes.
  - congruence.
  - by eapply sublist_NoDup.
  - intros pr Hin. by apply Honly, Hsl.
Qed.

Lemma removeReflection_scenario_witness :
  (∃ w', removeReflection 3 rootAB 2 = Some w'
        ∧ getReflectionById w' 2 = None
        ∧ getReflectionById w' 3 = None
        ∧ reflectionChildren w' !! 2 = None
        ∧ 2 ∈ childrenOf w' 1)
  ∧ is_Some (referenceGraph rootABAgain)
  ∧ ∃ w', removeReflection 3 rootABAgain 2 = Some w'
        ∧ getReflectionById w' 2 = None
        ∧ getReflectionById w' 3 = None.
Proof.
  split; [|split; [vm_compute; eauto|]].
  - destruct (objs rootAB !! 1) as [R|] eqn:ER; [|vm_compute in ER; discriminate ER].
    destruct (removeReflection_scenario (λ x, Z.to_nat (4 - x)) 3 rootAB R)
      as (w' & E & H2 & H3 & _ & H4 & _ & _ & H5).
    + apply (bool_decide_unpack _). vm_compute. exact I.
    + apply (bool_decide_unpack _). vm_compute. exact I.
    + vm_compute. reflexivity.
    + split; apply (bool_decide_unpack _); vm_compute; exact I.
    + vm_compute. lia.
    + exact ER.
    + vm_compute in ER. injection ER as <-. reflexivity.
    + vm_compute in ER. injection ER as <-. reflexivity.
    + vm_compute. reflexivity.
    + vm_compute. reflexivity.
    + vm_compute. reflexivity.
    + reflexivity.
    + reflexivity.
    + vm_compute. constructor.
    + vm_compute. constructor.
    + vm_compute in ER. injection ER as <-.
      apply (bool_decide_unpack _). vm_compute. exact I.
    + vm_compute in ER. injection ER as <-.
      intros pr Hin. destruct pr; [reflexivity|..]; vm_compute in Hin;
        apply elem_of_nil in Hin; destruct Hin.
    + exists w'. exact (conj E (conj H2 (conj H3 (conj H4 H5)))).
  - destruct (objs rootABAgain !! 1) as [R|] eqn:ER; [|vm_compute in ER; discriminate ER].
    destruct (removeReflection_scenario (λ x, Z.to_nat (4 - x)) 3 rootABAgain R)
      as (w' & E & H2 & H3 & _).
    + apply (bool_decide_unpack _). vm_compute. exact I.
    + apply (bool_decide_unpack _). vm_compute. exact I.
    + vm_compute. reflexivity.
    + split; apply (bool_decide_unpack _); vm_compute; exact I.
    + vm_compute. lia.
    + exact ER.
    + vm_compute in ER. injection ER as <-. reflexivity.
    + vm_compute in ER. injection ER as <-. reflexivity.
    + vm_compute. reflexivity.
    + vm_compute. reflexivity.
    + vm_compute. reflexivity.
    + reflexivity.
    + reflexivity.
    + vm_compute. constructor.
    + vm_compute. constructor.
    + vm_compute in ER. injection ER as <-.
      apply (bool_decide_unpack _). vm_compute. exact I.
    + vm_compute in ER. injection ER as <-.
      intros pr Hin. destruct pr; [reflexivity|..]; vm_compute in Hin;
        apply elem_of_nil in Hin; destruct Hin.
    + exists w'. exact (conj E (conj H2 H3)).
Defined.

(** *** Merging a reflection into another *)

Lemma moveChildren_parentOf source target :
  source ≠ target →
  ∀ l w y,
    reflections (foldl (moveChild source target) w l) = reflections w
    ∧ ((y ∈ l ∧ y ∈ reflections w ∧ parentOf w y = Some source) →
       parentOf (foldl (moveChild source target) w l) y = Some target)
    ∧ (¬ (y ∈ l ∧ y ∈ reflections w ∧ parentOf w y = Some source) →
       parentOf (foldl (moveChild source target) w l) y = parentOf w y).
Proof.
  intros Hst. induction l as [|x l IH]; intros w y; cbn [foldl].
  - split; [done|]. split; [|done]. by intros [?%elem_of_nil _].
  - destruct (stillChild source w x) eqn:Hx.
    + destruct (moveChild_move source target w x Hx) as (Hpar & _ & Ht & _).
      apply stillChild_true in Hx as [Hxin Hxp].
      destruct (IH (moveChild source target w x) y) as (Hr & Hmoved & Hkept).
      rewrite Ht, Hpar in *. split; [done|].
      destruct (decide (y = x)) as [->|Hyx].
      * split; [|intros []; split; [by left|done]].
        intros _. rewrite Hkept; [done|]. intros (_ & _ & [=]). by apply Hst.
      * split.
        -- intros ([->|Hin]%elem_of_cons & Hy & Hp); [done|]. by apply Hmoved.
        -- intros Hn. apply Hkept. intros (Hin & Hy & Hp). apply Hn.
           split; [by right|done].
    + rewrite (moveChild_skip _ _ _ _ Hx).
      destruct (IH w y) as (Hr & Hmoved & Hkept). split; [done|].
      assert (¬ (x ∈ reflections w ∧ parentOf w x = Some source)) as Hnx.
      { intros H%stillChild_true. congruence. }
      split.
      * intros ([->|Hin]%elem_of_cons & Hy & Hp); [by destruct Hnx|]. by apply Hmoved.
      * intros Hn. apply Hkept. intros (Hin & Hy & Hp). apply Hn.
        split; [by right|done].
Qed.

(** X14: [mergeReflections(source, target)] with two different
    reflections, when it returns, has removed [source]; every registered
    reflection that the children index listed for [source] and whose
    parent was [source] has [target] for parent now, and no other
    reflection object has another parent than before; no reflection was
    added to the id table; [groups] and [categories] of [target] are
    deleted. *)
Theorem mergeReflections_moves_children (fuel : nat) (w w' : t) (source target : Z) :
  source ≠ target →
  mergeReflections fuel w source target = Some w' →
  (source ∉ reflections w')
  ∧ reflections w' ⊆ reflections w
  ∧ reflectionChildren w' !! source = None
  ∧ (∀ c, c ∈ childrenOf w source → c ∈ reflections w → parentOf w c = Some source →
          parentOf w' c = Some target)
  ∧ (∀ c, ¬ (c ∈ childrenOf w source ∧ c ∈ reflections w ∧ parentOf w c = Some source) →
          parentOf w' c = parentOf w c)
  ∧ (∀ t, objs w' !! target = Some t →
          groups (slots t) = None ∧ categories (slots t) = None).
Proof.
  intros Hst. unfold mergeReflections.
  set (wb := set_reflectionChildren _ (set_referenceGraph None w)).
  change (reflectionChildren (set_referenceGraph None w) !! source)
    with (reflectionChildren w !! source).
  fold (childrenOf w source).
  rewrite decide_False by done.
  set (wc := foldl (moveChild source target) wb (childrenOf w source)).
  destruct (removeReflection fuel _ source) as [wd|] eqn:Hrm; [|done].
  pose proof (removeReflection_shrinks _ _ _ _ Hrm) as Hsh.
  pose proof (removeReflection_gone _ _ _ _ Hrm) as Hgone.
  assert (∀ y, parentOf wd y = parentOf wc y) as Hpd.
  { intros y. by rewrite (shrinks_parentOf _ _ y Hsh). }
  assert (reflections wc = reflections w) as Hrc.
  { exact (proj1 (moveChildren_parentOf source target Hst (childrenOf w source)
                     wb source)). }
  assert (reflectionChildren wd !! source = None) as Hks.
  { destruct (shrinks_children _ _ Hsh source) as [->|[? _]]; [|done].
    simpl. apply lookup_delete_eq. }
  assert (∀ wf, (∀ y, parentOf wf y = parentOf wd y) →
                reflections wf = reflections wd →
                reflectionChildren wf = reflectionChildren wd →
                (source ∉ reflections wf)
                ∧ reflections wf ⊆ reflections w
                ∧ reflectionChildren wf !! source = None
                ∧ (∀ c, c ∈ childrenOf w source → c ∈ reflections w →
                        parentOf w c = Some source → parentOf wf c = Some target)
                ∧ (∀ c, ¬ (c ∈ childrenOf w source ∧ c ∈ reflections w
                           ∧ parentOf w c = Some source) →
                        parentOf wf c = parentOf w c)) as Hfin.
  { intros wf Hp Hr Hk. rewrite Hr, Hk. split; [done|].
    split; [rewrite <- Hrc; apply (shrinks_table _ _ Hsh)|]. split; [done|].
    split.
    - intros c Hin Hc Hpc. rewrite Hp, Hpd.
      exact (proj1 (proj2 (moveChildren_parentOf source target Hst
                             (childrenOf w source) wb c)) (conj Hin (conj Hc Hpc))).
    - intros c Hn. rewrite Hp, Hpd.
      exact (proj2 (proj2 (moveChildren_parentOf source target Hst
                             (childrenOf w source) wb c)) Hn). }
  destruct (objs wd !! target) as [t0|] eqn:Ht; intros [= <-].
  - destruct (Hfin (set_objs (<[target := set_slots dropGroups t0]>) wd))
      as (H1 & H2 & H3 & H4 & H5); [|done|done|].
    { intros y. apply shrinks_parentOf. by apply shrinks_set_slots. }
    do 5 (split; [done|]). intros t1. simpl. rewrite lookup_insert_eq.
    by intros [= <-].
  - destruct (Hfin wd) as (H1 & H2 & H3 & H4 & H5); [done..|].
    do 5 (split; [done|]). intros t1 Ht1. congruence.
Qed.

Lemma mergeReflections_moves_children_witness :
  ∃ w', mergeReflections 5 rootAB 2 1 = Some w'
        ∧ parentOf w' 3 = Some 1 ∧ 2 ∉ reflections w'.
Proof.
  destruct (mergeReflections 5 rootAB 2 1) as [w'|] eqn:E;
    [|vm_compute in E; discriminate E].
  exists w'. split; [reflexivity|].
  destruct (mergeReflections_moves_children 5 rootAB w' 2 1) as (H1 & _ & _ & H2 & _).
  - discriminate.
  - exact E.
  - split; [|exact H1]. apply H2.
    + vm_compute. apply list_elem_of_here.
    + apply (bool_decide_unpack _). vm_compute. exact I.
    + vm_compute. reflexivity.
Defined.

(** *** The reference graph, and the removal of what is not there *)

(** X15: the graph that [getReferenceGraph] builds lists, for every
    reflection, exactly the registered reference reflections whose target
    resolves to it.  The graph is kept: a second call returns the same
    graph and changes nothing, and nothing but the cache differs from the
    store before the call.  [registerReflection] drops the cache. *)
Theorem getReferenceGraph_lists_references (w : t) :
  let res := getReferenceGraph w in
  (referenceGraph w = None →
   ∀ x ref, ref ∈ default [] (res.1 !! x)
            ↔ ∃ i, i ∈ reflections w ∧ contributes w i x ref)
  ∧ getReferenceGraph res.2 = res
  ∧ res.2 = set_referenceGraph (Some res.1) w
  ∧ ∀ r sid path, referenceGraph (registerReflection res.2 r sid path) = None.
Proof.
  cbv zeta. split; [|split; [|split]].
  - intros Hg x ref. unfold getReferenceGraph. rewrite Hg. simpl.
    apply buildReferenceGraph_lookup.
  - unfold getReferenceGraph. by destruct (referenceGraph w) eqn:E; simpl; [rewrite E|].
  - unfold getReferenceGraph. destruct (referenceGraph w) eqn:E; simpl; [|done].
    rewrite <- E. by destruct w.
  - intros r sid path. unfold registerReflection.
    destruct path as [path|]; [destruct (JsString.truthy path)|];
      destruct sid; simpl; by destruct (parentOf _ _).
Qed.

Lemma removeReflection_entry fuel w r w' :
  removeReflection fuel w r = Some w' → reflectionChildren w' !! r = None.
Proof.
  unfold removeReflection.
  destruct (_removeReflection fuel w r) as [w1|] eqn:E; [|done]. intros [= <-].
  destruct (_removeReflection_steps (λ _ _, True)) with
    (fuel := fuel) (w := w) (r := r) (w' := w1) as (w3 & -> & _); try done.
  rewrite detachFromParent_children. simpl. apply lookup_delete_eq.
Qed.

Lemma removeReflection_symbol fuel w r w' :
  removeReflection fuel w r = Some w' →
  reflectionIdToSymbolIdMap (symbols w') !! r = None.
Proof.
  intros (_ & l & -> & _)%removeReflection_unregisters.
  unfold unregisterSymbol. simpl. apply lookup_delete_eq.
Qed.

(** After the removal of [r] the graph is cached and has no entry for
    [r]. *)
Lemma removeReflection_dropped fuel w r w' :
  removeReflection fuel w r = Some w' →
  ∃ g, referenceGraph w' = Some g ∧ g !! r = None.
Proof.
  unfold removeReflection.
  destruct (_removeReflection fuel w r) as [w1|] eqn:E; [|done]. intros [= <-].
  rewrite referenceGraph_detachFromParent.
  destruct fuel as [|fuel]; [done|]. simpl in E.
  destruct (getReferenceGraph _) as [graph wb] eqn:Hg.
  destruct (forEach _ wb _) as [w2|] eqn:L1; [|done].
  destruct (forEach _ (dropReferrers r w2) _) as [w3|] eqn:L2; [|done].
  injection E as <-.
  assert (referenceGraph wb = Some graph) as Hb.
  { pose proof (getReferenceGraph_cached
                  (set_files (λ f, FileRegistry.removeReflection f r) w)) as H.
    by rewrite Hg in H. }
  assert (cacheShrinks wb w2) as H2.
  { eapply (forEach_inv _ (cacheShrinks wb)); [|apply cacheShrinks_refl|exact L1].
    intros s x s' _ Hs. unfold removeReferrer.
    destruct (getReflectionById s x); [|by intros [= <-]].
    destruct (_removeReflection fuel s x) as [s1|] eqn:E; [|done]. intros [= <-].
    eapply cacheShrinks_trans; [exact Hs|].
    eapply cacheShrinks_trans; [by eapply _removeReflection_cacheShrinks|].
    apply cacheShrinks_frame;
      [apply shrinks_detachFromParent|apply referenceGraph_detachFromParent]. }
  destruct H2 as [_ H2]. destruct (H2 graph Hb) as (g2 & Hg2 & _).
  assert (cacheShrinks (dropReferrers r w2) w3) as H3.
  { eapply (forEach_inv _ (cacheShrinks (dropReferrers r w2)));
      [|apply cacheShrinks_refl|exact L2].
    intros s x s' _ Hs. unfold removeChildOf.
    destruct (getReflectionById s x) as [child|]; [|by intros [= <-]].
    destruct (decide _); [|by intros [= <-]].
    intros E. eapply cacheShrinks_trans; [exact Hs|].
    by eapply _removeReflection_cacheShrinks. }
  destruct H3 as [_ H3].
  destruct (H3 (delete r g2)) as (g3 & Hg3 & E3); [by simpl; rewrite Hg2|].
  exists g3. split; [done|].
  destruct (E3 r) as [->|?]; [apply lookup_delete_eq|done].
Qed.

Lemma buildReferenceGraph_absent w r :
  map_Forall (λ i o, id o = i) (objs w) →
  r ∉ reflections w →
  default [] (buildReferenceGraph w !! r) = [].
Proof.
  intros Hid Hr.
  destruct (default [] (buildReferenceGraph w !! r)) as [|ref l] eqn:E; [done|].
  assert (ref ∈ default [] (buildReferenceGraph w !! r)) as Hin
    by (rewrite E; left).
  apply buildReferenceGraph_lookup in Hin as (i & _ & o & tgt & _ & _ & Ht & <- & _).
  by apply (tryGetTargetReflection_registered w) in Ht.
Qed.

Lemma removeReflection_unlisted fuel w r :
  r ∉ reflections w →
  reflectionChildren w !! r = None →
  reflectionIdToSymbolIdMap (symbols w) !! r = None →
  default [] ((getReferenceGraph w).1 !! r) = [] →
  ∃ w', removeReflection (S fuel) w r = Some w'
        ∧ reflections w' = reflections w
        ∧ reflectionChildren w' = reflectionChildren w
        ∧ symbols w' = symbols w
        ∧ files w' = FileRegistry.removeReflection (files w) r
        ∧ objs w' = objs (detachFromParent w r).
Proof.
  intros Hr Hk Hs Hg.
  unfold removeReflection. cbn [_removeReflection].
  set (wa := set_files _ w).
  rewrite (surjective_pairing (getReferenceGraph wa)).
  replace ((getReferenceGraph wa).1) with ((getReferenceGraph w).1)
    by (symmetry; apply getReferenceGraph_set_files).
  rewrite Hg. cbn [forEach].
  assert (reflectionChildren (dropReferrers r (getReferenceGraph wa).2)
          = reflectionChildren w) as Hk'.
  { simpl. by rewrite getReferenceGraph_children. }
  rewrite Hk', Hk. cbn [default forEach]. eexists. split; [reflexivity|].
  assert (reflections (getReferenceGraph wa).2 = reflections w) as Ht
    by (unfold getReferenceGraph; by destruct (referenceGraph wa)).
  assert (objs (getReferenceGraph wa).2 = objs w) as Ho
    by (by rewrite getReferenceGraph_objs).
  split.
  { rewrite reflections_detachFromParent. simpl. rewrite Ht. set_solver. }
  split.
  { rewrite detachFromParent_children. simpl. rewrite getReferenceGraph_children.
    by apply delete_id. }
  split.
  { rewrite detachFromParent_symbols. simpl. rewrite getReferenceGraph_symbols.
    simpl. unfold unregisterSymbol. rewrite Hs. rewrite delete_id by done.
    by destruct (symbols w). }
  split.
  { unfold detachFromParent. repeat case_match; simpl;
      unfold getReferenceGraph; by destruct (referenceGraph wa). }
  unfold detachFromParent, parentOf. simpl. rewrite Ho.
  repeat case_match; simpl; rewrite ?Ho; congruence.
Qed.

(** X16: [removeReflection] of a reflection that the project does not
    hold, that has no entry in the children index and no symbol, and to
    which the reference graph (the cached one, or else the one that is
    built) lists no reference, returns and leaves the id table, the
    children index and the symbol index as they are.  It is not without
    effect: the file registry forgets the association of the reflection,
    and the parent of the reflection drops it from its slots.  A
    reflection that [removeReflection] has just removed is such a
    reflection, so this is what removing it a second time does; and so is
    every reflection that is not in the id table of a store without cached
    graph (whose objects are stored under their ids), as far as the graph
    is concerned. *)
Theorem removeReflection_absent :
  (∀ (fuel : nat) (w : t) (r : Z),
     r ∉ reflections w →
     reflectionChildren w !! r = None →
     reflectionIdToSymbolIdMap (symbols w) !! r = None →
     default [] ((getReferenceGraph w).1 !! r) = [] →
     ∃ w', removeReflection (S fuel) w r = Some w'
           ∧ reflections w' = reflections w
           ∧ reflectionChildren w' = reflectionChildren w
           ∧ symbols w' = symbols w
           ∧ files w' = FileRegistry.removeReflection (files w) r
           ∧ objs w' = objs (detachFromParent w r))
  ∧ (∀ (fuel fuel' : nat) (w w1 : t) (r : Z),
       removeReflection fuel w r = Some w1 →
       ∃ w2, removeReflection (S fuel') w1 r = Some w2
             ∧ reflections w2 = reflections w1
             ∧ reflectionChildren w2 = reflectionChildren w1
             ∧ symbols w2 = symbols w1
             ∧ files w2 = FileRegistry.removeReflection (files w1) r
             ∧ objs w2 = objs (detachFromParent w1 r))
  ∧ (∀ (w : t) (r : Z),
       map_Forall (λ i o, id o = i) (objs w) →
       referenceGraph w = None →
       r ∉ reflections w →
       default [] ((getReferenceGraph w).1 !! r) = []).
Proof.
  split; [exact removeReflection_unlisted|]. split.
  - intros fuel fuel' w w1 r Hrm. apply removeReflection_unlisted.
    + by eapply removeReflection_gone.
    + by eapply removeReflection_entry.
    + by eapply removeReflection_symbol.
    + destruct (removeReflection_dropped _ _ _ _ Hrm) as (g & Hg & Hr).
      unfold getReferenceGraph. rewrite Hg. simpl. by rewrite Hr.
  - intros w r Hid Hg Hr. unfold getReferenceGraph. rewrite Hg. simpl.
    by apply buildReferenceGraph_absent.
Qed.

Lemma removeReflection_absent_witness :
  (∃ w', removeReflection 1 unregisteredChild 5 = Some w'
         ∧ reflections w' = reflections unregisteredChild
         ∧ (children ∘ slots) <$> objs unregisteredChild !! 1 = Some (Some [2; 4; 5])
         ∧ (children ∘ slots) <$> objs w' !! 1 = Some (Some [2; 4]))
  ∧ ∃ w2, removeReflection 1 rootABAgain 4 = Some w2
          ∧ reflections w2 = reflections rootABAgain.
Proof.
  destruct removeReflection_absent as (HA & HB & _). split.
  - destruct (HA 0%nat unregisteredChild 5) as (w' & E & Hr & _ & _ & _ & Ho).
    + apply (bool_decide_unpack _). vm_compute. exact I.
    + vm_compute. reflexivity.
    + vm_compute. reflexivity.
    + vm_compute. reflexivity.
    + exists w'. split; [exact E|]. split; [exact Hr|]. rewrite Ho.
      split; vm_compute; reflexivity.
  - destruct (HB 3%nat 0%nat rootAB rootABAgain 4) as (w2 & E & Hr & _).
    + vm_compute. reflexivity.
    + exists w2. exact (conj E Hr).
Defined.

End store_facts.

(** ** The deserializer *)

Section symbol_fixup.

Import Models Effects Deserializer.

Lemma resolveOld_fixupSymbol e entry i : resolveOld (fixupSymbol e entry) i = resolveOld e i.
Proof.
  unfold fixupSymbol. destruct entry as [j sid].
  by destruct (ProjectReflection.getReflectionById _ _).
Qed.

Lemma warningsFor_cons e0 i l :
  warningsFor e0 (i :: l) = warningsFor e0 [i] ++ warningsFor e0 l.
Proof.
  unfold warningsFor. rewrite !filter_cons, filter_nil. by case_decide.
Qed.

Lemma fixupSymbol_step e0 e i sid :
  resolveOld e i = resolveOld e0 i →
  fixupSymbol e (i, sid)
  = {| world :=
         ProjectReflection.set_symbols
           (λ ix, registerResolved e0 ix (i, sid)) (world e);
       project := project e; projectRoot := projectRoot e;
       oldIdToNewId := oldIdToNewId e;
       oldFileIdToNewFileId := oldFileIdToNewFileId e;
       activeReflection := activeReflection e;
       logger := logger e ++ warningsFor e0 [i];
       packageInfo := packageInfo e |}.
Proof.
  intros He. unfold fixupSymbol, registerResolved, warningsFor.
  rewrite filter_cons, filter_nil. change (ProjectReflection.getReflectionById _ _)
    with (resolveOld e i). rewrite He. simpl.
  destruct (resolveOld e0 i) as [refl|] eqn:E.
  - rewrite decide_False by done. simpl. rewrite app_nil_r.
    by destruct e as [[] ? ? ? ? ? ? ?].
  - rewrite decide_True by done. simpl. by destruct e as [[] ? ? ? ? ? ? ?].
Qed.

Lemma fixupSymbol_fold entries :
  ∀ e0 e,
    (∀ i, resolveOld e i = resolveOld e0 i) →
    foldl fixupSymbol e entries
    = {| world :=
           ProjectReflection.set_symbols
             (λ ix, foldl (registerResolved e0) ix entries) (world e);
         project := project e; projectRoot := projectRoot e;
         oldIdToNewId := oldIdToNewId e;
         oldFileIdToNewFileId := oldFileIdToNewFileId e;
         activeReflection := activeReflection e;
         logger := logger e ++ warningsFor e0 entries.*1;
         packageInfo := packageInfo e |}.
Proof.
  induction entries as [|[i sid] entries IH]; intros e0 e He.
  - simpl. unfold warningsFor. simpl. rewrite app_nil_r. by destruct e as [[] ? ? ? ? ? ? ?].
  - change (foldl fixupSymbol e ((i, sid) :: entries))
      with (foldl fixupSymbol (fixupSymbol e (i, sid)) entries).
    rewrite (IH e0);
      [|intros j; etrans; [apply (resolveOld_fixupSymbol e (i, sid) j)|apply He]].
    rewrite (fixupSymbol_step e0 e i sid (He i)).
    cbn [world project projectRoot oldIdToNewId oldFileIdToNewFileId
         activeReflection logger packageInfo fmap list_fmap fst].
    f_equal. rewrite <- app_assoc. f_equal. symmetry. apply warningsFor_cons.
Qed.

(** C4: the fixup of [symbolIdMap] that [ProjectReflection.fromObject]
    defers neither throws nor queues work.  For every entry whose old
    reflection id does not resolve to a reflection of the project, it logs
    the warning that names that id, in the order of the entries; the other
    entries are registered, in that order.  Nothing but the symbol index
    and the log changes.  An id without a mapping, and an id mapped to a
    reflection that the project does not hold, are such entries. *)
Theorem symbolIdMap_fixup (map : option (list (Z * ReflectionSymbolId))) (e : Env) :
  (-1) ∉ ProjectReflection.reflections (world e) →
  let r := runDeferred (symbolIdMapFixup map) e in
  res_thrown r = None
  ∧ res_deferred r = []
  ∧ res_env r
    = {| world :=
           ProjectReflection.set_symbols
             (λ ix, foldl (registerResolved e) ix (default [] map)) (world e);
         project := project e; projectRoot := projectRoot e;
         oldIdToNewId := oldIdToNewId e;
         oldFileIdToNewFileId := oldFileIdToNewFileId e;
         activeReflection := activeReflection e;
         logger := logger e ++ warningsFor e (default [] map).*1;
         packageInfo := packageInfo e |}
  ∧ ∀ i sid, (i, sid) ∈ default [] map →
      (oldIdToNewId e !! i = None
       ∨ ∃ n, oldIdToNewId e !! i = Some n
              ∧ ProjectReflection.getReflectionById (world e) n = None) →
      serialized_project_referenced_0_not_part_of_project i ∈ logger (res_env r).
Proof.
  intros Hneg r. subst r. simpl.
  split; [done|]. split; [done|].
  rewrite (fixupSymbol_fold _ e e) by done. split; [done|].
  intros i sid Hin Hun. simpl. apply elem_of_app. right.
  unfold warningsFor. apply list_elem_of_fmap. exists i. split; [done|].
  apply list_elem_of_filter. split.
  - unfold resolveOld. destruct Hun as [->|(n & -> & Hn)]; simpl; [|done].
    unfold ProjectReflection.getReflectionById. by rewrite decide_False.
  - apply list_elem_of_fmap. by exists (i, sid).
Qed.

Lemma symbolIdMap_fixup_witness :
  let r := runDeferred
             (symbolIdMapFixup (Some [(10, "a"); (13, "b"); (11, "c"); (12, "d")]))
             revivedSiblings in
  res_thrown r = None
  ∧ logger (res_env r)
    = [serialized_project_referenced_0_not_part_of_project 13;
       serialized_project_referenced_0_not_part_of_project 12]
  ∧ ProjectReflection.reflectionIdToSymbolIdMap
      (ProjectReflection.symbols (world (res_env r)))
    = {[2 := "a"; 3 := "c"]}.
Proof.
  destruct (symbolIdMap_fixup
              (Some [(10, "a"); (13, "b"); (11, "c"); (12, "d")]) revivedSiblings)
    as (H1 & _ & H3 & _).
  - apply (bool_decide_unpack _). vm_compute. exact I.
  - split; [exact H1|]. cbv zeta. rewrite H3. split; vm_compute; reflexivity.
Defined.

End symbol_fixup.

(** ** The revival of projects *)

Section revival_facts.

Import Models Effects Deserializer.

Variable Body : Type.
Variable resolve : string → string → string.
Variable deserializeDisplayParts : list string → M (list string).
Variable containerFromObject : Z → WireProject Body → M unit.
Variable declarationFromObject : Z → WireProject Body → M unit.
Variable deserializers : list (Component (WireProject Body)).

Local Notation reviveProject :=
  (Deserializer.reviveProject Body resolve deserializeDisplayParts
     containerFromObject deserializers).
Local Notation reviveModule :=
  (Deserializer.reviveModule Body declarationFromObject deserializers).
Local Notation reviveProjects :=
  (Deserializer.reviveProjects Body resolve deserializeDisplayParts
     containerFromObject declarationFromObject deserializers).
Local Notation projectPass project obj :=
  (fromObject deserializers (OfReflection project)
     (projectFromObject Body resolve deserializeDisplayParts containerFromObject
        project obj) obj).
Local Notation modulePass m obj :=
  (fromObject deserializers (OfReflection m) (declarationFromObject m obj) obj).

Lemma forEachM_invoke q :
  ∀ e q0,
    noneThrows q e = true →
    forEachM invoke q {| env := e; deferred := q0 |}
    = ({| env := ranAll q e; deferred := q0 ++ queuedBy q e |}, inr tt).
Proof.
  induction q as [|d q IH]; intros e q0 Hq; simpl.
  - by rewrite app_nil_r.
  - simpl in Hq. unfold bind, invoke at 1. simpl.
    destruct (res_thrown (runDeferred d e)) as [err|]; [discriminate Hq|].
    rewrite (IH _ _ Hq). by rewrite app_assoc.
Qed.

Lemma runDeferredPass_spec de :
  noneThrows (deferred de) (env de) = true →
  runDeferredPass de
  = ({| env := ranAll (deferred de) (env de);
        deferred := queuedBy (deferred de) (env de) |},
     if bool_decide (queuedBy (deferred de) (env de) = []) then inr tt
     else inl (AssertionError "Work may not be double deferred when deserializing.")).
Proof.
  intros Hq. destruct de as [e q]. simpl in *.
  unfold runDeferredPass, bind, getDeferred, setDeferred. simpl.
  rewrite (forEachM_invoke q e [] Hq). simpl.
  unfold assert. by destruct (bool_decide _).
Qed.

Lemma forEachM_invoke_reached q :
  ∀ e q0,
    forEachM invoke q {| env := e; deferred := q0 |}
    = ({| env := ranAll (reached q e) e; deferred := q0 ++ queuedBy (reached q e) e |},
       match thrownBy q e with Some err => inl err | None => inr tt end).
Proof.
  induction q as [|d q IH]; intros e q0; simpl.
  - by rewrite app_nil_r.
  - unfold bind, invoke at 1. simpl.
    destruct (res_thrown (runDeferred d e)) as [err|]; simpl.
    + by rewrite app_nil_r.
    + rewrite IH. by rewrite app_assoc.
Qed.

Lemma runDeferredPass_reached de :
  runDeferredPass de
  = ({| env := ranAll (reached (deferred de) (env de)) (env de);
        deferred := queuedBy (reached (deferred de) (env de)) (env de) |},
     match thrownBy (deferred de) (env de) with
     | Some err => inl err
     | None =>
         if bool_decide (queuedBy (reached (deferred de) (env de)) (env de) = [])
         then inr tt
         else inl (AssertionError "Work may not be double deferred when deserializing.")
     end).
Proof.
  destruct de as [e q]. simpl.
  unfold runDeferredPass, bind, getDeferred, setDeferred. simpl.
  rewrite (forEachM_invoke_reached q e []). simpl.
  destruct (thrownBy q e) as [err|]; [done|].
  unfold assert. by destruct (bool_decide _).
Qed.

Lemma deferredPass_balanced de :
  bind runDeferredPass (λ _, assertBalanced) de = afterDeferred de.
Proof.
  unfold bind. rewrite (runDeferredPass_reached de).
  unfold afterDeferred. cbv zeta.
  destruct (thrownBy _ _) as [err|]; [done|].
  destruct (bool_decide (queuedBy _ _ = [])) eqn:E; [|done].
  apply bool_decide_eq_true in E. rewrite E.
  unfold assertBalanced, bind, getEnv, assert. simpl.
  by destruct (bool_decide (activeReflection _ = [])).
Qed.

Lemma ranAll_snoc q d e :
  ranAll (q ++ [d]) e = res_env (runDeferred d (ranAll q e)).
Proof. unfold ranAll. by rewrite foldl_app. Qed.

Lemma reached_spec q :
  ∀ e,
    match thrownBy q e with
    | None => reached q e = q
    | Some err =>
        ∃ before d after,
          q = before ++ d :: after
          ∧ reached q e = before ++ [d]
          ∧ thrownBy before e = None
          ∧ res_thrown (runDeferred d (ranAll before e)) = Some err
    end.
Proof.
  induction q as [|d q IH]; intros e; simpl; [done|].
  destruct (res_thrown (runDeferred d e)) as [err|] eqn:E.
  - by exists [], d, q.
  - specialize (IH (res_env (runDeferred d e))).
    destruct (thrownBy q _) as [err|].
    + destruct IH as (before & d' & after & -> & -> & H1 & H2).
      exists (d :: before), d', after. simpl. by rewrite E.
    + by rewrite IH.
Qed.

Lemma assertNothingDeferred_idle de :
  deferred de = [] → assertNothingDeferred de = (de, inr tt).
Proof.
  intros Hd. unfold assertNothingDeferred, bind, getDeferred, assert.
  by rewrite Hd.
Qed.

Lemma checkVersion_supported (obj : WireProject Body) de :
  schemaVersion obj ∈ supportedSchemaVersions → checkVersion obj de = (de, inr tt).
Proof. intros Hv. unfold checkVersion. by rewrite bool_decide_eq_true_2. Qed.

Lemma checkVersion_unsupported (obj : WireProject Body) de :
  schemaVersion obj ∉ supportedSchemaVersions →
  checkVersion obj de = (de, inl (ErrorOf (unsupportedVersionMessage (schemaVersion obj)))).
Proof. intros Hv. unfold checkVersion. by rewrite bool_decide_eq_false_2. Qed.

(** C3: the deferred pass runs the callbacks of the queue in the order of
    the queue, each once, up to the first one that throws: when none
    throws these are all the callbacks, and when one throws they are the
    callbacks before it and that one.  The pass leaves the state that these
    calls leave and, in the queue, only what they queued; it throws the
    error of the callback that threw, and otherwise the assertion on double
    deferral if a callback queued work, which is not run.  When the
    skeleton-and-field pass of [reviveProject], or of one turn of the loop
    of [reviveProjects], has returned, the revival is that deferred pass on
    the state and the queue it left, followed by the assertion on the stack
    of active reflections. *)
Theorem deferred_callbacks_run_in_order :
  (∀ q e,
     match thrownBy q e with
     | None => reached q e = q
     | Some err =>
         ∃ before d after,
           q = before ++ d :: after
           ∧ reached q e = before ++ [d]
           ∧ thrownBy before e = None
           ∧ res_thrown (runDeferred d (ranAll before e)) = Some err
     end)
  ∧ (∀ de,
       runDeferredPass de
       = ({| env := ranAll (reached (deferred de) (env de)) (env de);
             deferred := queuedBy (reached (deferred de) (env de)) (env de) |},
          match thrownBy (deferred de) (env de) with
          | Some err => inl err
          | None =>
              if bool_decide (queuedBy (reached (deferred de) (env de)) (env de) = [])
              then inr tt
              else inl (AssertionError
                          "Work may not be double deferred when deserializing.")
          end))
  ∧ (∀ name obj options de,
       deferred de = [] →
       schemaVersion obj ∈ supportedSchemaVersions →
       let e0 := beginProject name obj options (env de) in
       let project := ProjectReflection.self (world e0) in
       let pass := projectPass project obj {| env := e0; deferred := [] |} in
       pass.2 = inr tt →
       reviveProject name obj options de
       = match afterDeferred pass.1 with
         | (de2, inr _) =>
             ({| env := endRevival (env de2); deferred := deferred de2 |},
              inr project)
         | (de2, inl err) => (de2, inl err)
         end)
  ∧ (∀ project obj de,
       deferred de = [] →
       schemaVersion obj ∈ supportedSchemaVersions →
       let begun := beginModule project obj (env de) in
       let pass := modulePass begun.1 obj {| env := begun.2; deferred := [] |} in
       pass.2 = inr tt →
       reviveModule project obj de = afterDeferred pass.1).
Proof.
  split; [intros q e; exact (reached_spec q e)|].
  split; [exact runDeferredPass_reached|]. split.
  - intros name obj options de Hd Hv e0 project pass Hpass.
    unfold Deserializer.reviveProject.
    unfold bind at 1. rewrite (assertNothingDeferred_idle de Hd).
    unfold bind at 1. rewrite (checkVersion_supported obj de Hv).
    unfold bind at 1, modifyEnv at 1. unfold bind at 1, getEnv at 1.
    rewrite Hd. cbn [env deferred]. fold e0. fold project.
    unfold bind at 1. fold pass.
    destruct pass as [de1 [err|[]]] eqn:E; [discriminate Hpass|].
    cbn [fst snd] in *.
    pose proof (deferredPass_balanced de1) as HD.
    unfold bind at 1 in HD. unfold bind at 1.
    destruct (runDeferredPass de1) as [de2 [err|[]]].
    + by rewrite <- HD.
    + unfold bind at 1. rewrite HD.
      by destruct (afterDeferred de1) as [de3 [err|[]]].
  - intros project obj de Hd Hv begun pass Hpass.
    unfold Deserializer.reviveModule.
    unfold bind at 1. rewrite (assertNothingDeferred_idle de Hd).
    unfold bind at 1. rewrite (checkVersion_supported obj de Hv).
    unfold bind at 1, getEnv at 1. unfold bind at 1, modifyEnv at 1.
    rewrite Hd. cbn [env deferred]. fold begun.
    unfold bind at 1. fold pass.
    destruct pass as [de1 [err|[]]] eqn:E; [discriminate Hpass|].
    cbn [fst snd] in *.
    exact (deferredPass_balanced de1).
Qed.

(** *** The version check *)

Lemma forEachM_app {A : Type} (body : A → M unit) (l1 l2 : list A) de :
  forEachM body (l1 ++ l2) de
  = match forEachM body l1 de with
    | (de', inr _) => forEachM body l2 de'
    | (de', inl err) => (de', inl err)
    end.
Proof.
  revert de. induction l1 as [|x l1 IH]; intros de; simpl; [done|].
  unfold bind. destruct (body x de) as [de1 [err|[]]]; [done|]. apply IH.
Qed.

Lemma runDeferredPass_idle de de' :
  runDeferredPass de = (de', inr tt) → deferred de' = [].
Proof.
  unfold runDeferredPass, bind, getDeferred, setDeferred. simpl.
  destruct (forEachM invoke _ _) as [de1 [err|[]]]; [discriminate|].
  unfold assert. destruct (bool_decide (deferred de1 = [])) eqn:E; [|discriminate].
  intros [= <-]. by apply bool_decide_eq_true in E.
Qed.

Lemma assertBalanced_state de de' r : assertBalanced de = (de', r) → de' = de.
Proof.
  unfold assertBalanced, bind, getEnv, assert.
  destruct (bool_decide _); by intros [= <- _].
Qed.

Lemma reviveModule_idle project obj de de' :
  reviveModule project obj de = (de', inr tt) → deferred de' = [].
Proof.
  unfold Deserializer.reviveModule.
  unfold bind at 1. destruct (assertNothingDeferred de) as [d1 [err|[]]]; [discriminate|].
  unfold bind at 1. destruct (checkVersion obj d1) as [d2 [err|[]]]; [discriminate|].
  unfold bind at 1, getEnv at 1. unfold bind at 1, modifyEnv at 1.
  unfold bind at 1. destruct (fromObject _ _ _ _ _) as [d3 [err|[]]]; [discriminate|].
  unfold bind at 1. destruct (runDeferredPass d3) as [d4 [err|[]]] eqn:E; [discriminate|].
  intros Hb. apply assertBalanced_state in Hb as ->.
  exact (runDeferredPass_idle _ _ E).
Qed.

Lemma forEachM_reviveModule_idle project oks :
  ∀ de de',
    deferred de = [] →
    forEachM (reviveModule project) oks de = (de', inr tt) →
    deferred de' = [].
Proof.
  induction oks as [|obj oks IH]; intros de de' Hd; simpl.
  - by intros [= <-].
  - unfold bind. destruct (reviveModule project obj de) as [d1 [err|[]]] eqn:E;
      [discriminate|].
    apply IH. exact (reviveModule_idle _ _ _ _ E).
Qed.

Lemma reviveProject_unsupported name (bad : WireProject Body) options de :
  schemaVersion bad ∉ supportedSchemaVersions →
  deferred de = [] →
  reviveProject name bad options de
  = (de, inl (ErrorOf (unsupportedVersionMessage (schemaVersion bad)))).
Proof.
  intros Hv Hd. unfold Deserializer.reviveProject.
  unfold bind at 1. rewrite (assertNothingDeferred_idle de Hd).
  unfold bind at 1. by rewrite (checkVersion_unsupported bad de Hv).
Qed.

Lemma reviveModule_unsupported project (bad : WireProject Body) de :
  schemaVersion bad ∉ supportedSchemaVersions →
  deferred de = [] →
  reviveModule project bad de
  = (de, inl (ErrorOf (unsupportedVersionMessage (schemaVersion bad)))).
Proof.
  intros Hv Hd. unfold Deserializer.reviveModule.
  unfold bind at 1. rewrite (assertNothingDeferred_idle de Hd).
  unfold bind at 1. by rewrite (checkVersion_unsupported bad de Hv).
Qed.

Lemma reviveProjects_merge name projects options :
  alwaysCreateEntryPointModule options = true ∨ List.length projects ≠ 1%nat →
  reviveProjects name projects options
  = bind (modifyEnv (beginProjects name options)) (λ _,
    bind getEnv (λ e,
    bind (forEachM (reviveModule (ProjectReflection.self (world e))) projects) (λ _,
    bind (modifyEnv endRevival) (λ _,
    ret (ProjectReflection.self (world e)))))).
Proof.
  intros H. unfold Deserializer.reviveProjects.
  destruct projects as [|p [|q l]]; try reflexivity.
  destruct (alwaysCreateEntryPointModule options); [reflexivity|].
  by destruct H.
Qed.

Lemma reviveProjects_unsupported name oks (bad : WireProject Body) rest options de de' :
  schemaVersion bad ∉ supportedSchemaVersions →
  deferred de = [] →
  alwaysCreateEntryPointModule options = true ∨ oks ++ rest ≠ [] →
  forEachM
    (reviveModule (ProjectReflection.self (world (beginProjects name options (env de)))))
    oks {| env := beginProjects name options (env de); deferred := [] |}
  = (de', inr tt) →
  reviveProjects name (oks ++ bad :: rest) options de
  = (de', inl (ErrorOf (unsupportedVersionMessage (schemaVersion bad)))).
Proof.
  intros Hv Hd Hm Hoks. rewrite reviveProjects_merge.
  - unfold bind at 1, modifyEnv at 1. unfold bind at 1, getEnv at 1.
    rewrite Hd. cbn [env deferred]. unfold bind at 1.
    rewrite forEachM_app, Hoks. cbn [forEachM]. unfold bind at 1.
    rewrite (reviveModule_unsupported _ bad de' Hv); [done|].
    apply (forEachM_reviveModule_idle _ _ _ _ (eq_refl : deferred {| env := beginProjects name options (env de); deferred := [] |} = []) Hoks).
  - destruct Hm as [?|Hm]; [by left|right].
    destruct oks as [|? [|? ?]], rest; simpl; try lia. by destruct Hm.
    all: rewrite ?List.length_app; simpl; lia.
Qed.

(** C2: a wire project whose schema version is not a supported one makes
    [reviveProject], and the turn of the loop of [reviveProjects] that
    reaches it, throw the error that names the version, in the state in
    which it was reached: nothing of that wire project is registered.
    [reviveProjects] then throws in the state that the projects before it
    left; when it is the first of a merge, that state holds the new root
    alone, without children. *)
Theorem unsupported_version_throws_first (bad : WireProject Body) :
  schemaVersion bad ∉ supportedSchemaVersions →
  let err := ErrorOf (unsupportedVersionMessage (schemaVersion bad)) in
  (∀ name options de,
     deferred de = [] → reviveProject name bad options de = (de, inl err))
  ∧ (∀ project de,
       deferred de = [] → reviveModule project bad de = (de, inl err))
  ∧ (∀ name options de,
       deferred de = [] →
       alwaysCreateEntryPointModule options = false →
       reviveProjects name [bad] options de = (de, inl err))
  ∧ (∀ name oks rest options de de',
       deferred de = [] →
       alwaysCreateEntryPointModule options = true ∨ oks ++ rest ≠ [] →
       let begun := {| env := beginProjects name options (env de); deferred := [] |} in
       forEachM (reviveModule (ProjectReflection.self (world (env begun)))) oks begun
       = (de', inr tt) →
       reviveProjects name (oks ++ bad :: rest) options de = (de', inl err))
  ∧ (∀ name rest options de,
       deferred de = [] →
       alwaysCreateEntryPointModule options = true ∨ rest ≠ [] →
       let begun := {| env := beginProjects name options (env de); deferred := [] |} in
       let root := ProjectReflection.self (world (env begun)) in
       reviveProjects name (bad :: rest) options de = (begun, inl err)
       ∧ ProjectReflection.reflections (world (env begun)) = {[root]}
       ∧ ProjectReflection.reflectionChildren (world (env begun)) = ∅
       ∧ slots <$> ProjectReflection.objs (world (env begun)) !! root = Some noSlots)
  ∧ unsupportedVersionMessage (schemaVersion bad)
    = "Attempted to deserialize version " +:+ quote +:+ schemaVersion bad +:+ quote
      +:+ " JSON, which is not supported. Supported versions: 2.0".
Proof.
  intros Hv err. split; [|split; [|split; [|split; [|split]]]].
  - intros name options de Hd. by apply reviveProject_unsupported.
  - intros project de Hd. by apply reviveModule_unsupported.
  - intros name options de Hd Ha. unfold Deserializer.reviveProjects. rewrite Ha.
    by apply reviveProject_unsupported.
  - intros name oks rest options de de' Hd Hm begun Hoks.
    by apply reviveProjects_unsupported.
  - intros name rest options de Hd Hm begun root. split.
    + apply (reviveProjects_unsupported name [] bad rest options de begun Hv Hd Hm).
      reflexivity.
    + split; [reflexivity|]. split; [reflexivity|].
      unfold root, begun. simpl. by rewrite lookup_insert_eq.
  - reflexivity.
Qed.

(** *** What a revival that returns has done, and what makes it throw *)

Lemma assertNothingDeferred_returns de de' :
  assertNothingDeferred de = (de', inr tt) → de' = de ∧ deferred de = [].
Proof.
  unfold assertNothingDeferred, bind, getDeferred, assert.
  destruct (bool_decide (deferred de = [])) eqn:E; [|discriminate].
  intros [= <-]. by apply bool_decide_eq_true in E.
Qed.

Lemma assertNothingDeferred_stale de :
  deferred de ≠ [] →
  assertNothingDeferred de
  = (de, inl (AssertionError "Deserializer.defer was called when not deserializing")).
Proof.
  intros Hd. unfold assertNothingDeferred, bind, getDeferred, assert.
  by rewrite bool_decide_eq_false_2.
Qed.

Lemma checkVersion_returns (obj : WireProject Body) de de' :
  checkVersion obj de = (de', inr tt) →
  de' = de ∧ schemaVersion obj ∈ supportedSchemaVersions.
Proof.
  unfold checkVersion.
  destruct (bool_decide (schemaVersion obj ∈ supportedSchemaVersions)) eqn:E;
    [|discriminate].
  intros [= <-]. by apply bool_decide_eq_true in E.
Qed.

Lemma assertBalanced_returns de de' :
  assertBalanced de = (de', inr tt) → de' = de ∧ activeReflection (env de) = [].
Proof.
  unfold assertBalanced, bind, getEnv, assert.
  destruct (bool_decide (activeReflection (env de) = [])) eqn:E; [|discriminate].
  intros [= <-]. by apply bool_decide_eq_true in E.
Qed.

Lemma reviveProject_returns name obj options de de' p :
  reviveProject name obj options de = (de', inr p) →
  deferred de = [] ∧ schemaVersion obj ∈ supportedSchemaVersions
  ∧ p = ProjectReflection.nextReflectionId (world (env de))
  ∧ deferred de' = [] ∧ activeReflection (env de') = []
  ∧ project (env de') = None ∧ projectRoot (env de') = None
  ∧ oldIdToNewId (env de') = ∅ ∧ oldFileIdToNewFileId (env de') = ∅.
Proof.
  unfold Deserializer.reviveProject.
  unfold bind at 1.
  destruct (assertNothingDeferred de) as [d1 [err|[]]] eqn:E1; [discriminate|].
  apply assertNothingDeferred_returns in E1 as [-> Hd].
  unfold bind at 1.
  destruct (checkVersion obj de) as [d2 [err|[]]] eqn:E2; [discriminate|].
  apply checkVersion_returns in E2 as [-> Hv].
  unfold bind at 1, modifyEnv at 1. unfold bind at 1, getEnv at 1.
  unfold bind at 1. destruct (fromObject _ _ _ _ _) as [d3 [err|[]]]; [discriminate|].
  unfold bind at 1. destruct (runDeferredPass d3) as [d4 [err|[]]] eqn:E4;
    [discriminate|].
  apply runDeferredPass_idle in E4.
  unfold bind at 1. destruct (assertBalanced d4) as [d5 [err|[]]] eqn:E5;
    [discriminate|].
  apply assertBalanced_returns in E5 as [-> Hb].
  unfold bind, modifyEnv, ret. intros [= <- <-]. by cbn.
Qed.

Lemma reviveModule_returns root obj de de' :
  reviveModule root obj de = (de', inr tt) →
  deferred de = [] ∧ schemaVersion obj ∈ supportedSchemaVersions
  ∧ deferred de' = [] ∧ activeReflection (env de') = [].
Proof.
  unfold Deserializer.reviveModule.
  unfold bind at 1.
  destruct (assertNothingDeferred de) as [d1 [err|[]]] eqn:E1; [discriminate|].
  apply assertNothingDeferred_returns in E1 as [-> Hd].
  unfold bind at 1.
  destruct (checkVersion obj de) as [d2 [err|[]]] eqn:E2; [discriminate|].
  apply checkVersion_returns in E2 as [-> Hv].
  unfold bind at 1, getEnv at 1. unfold bind at 1, modifyEnv at 1.
  unfold bind at 1. destruct (fromObject _ _ _ _ _) as [d3 [err|[]]]; [discriminate|].
  unfold bind at 1. destruct (runDeferredPass d3) as [d4 [err|[]]] eqn:E4;
    [discriminate|].
  apply runDeferredPass_idle in E4.
  intros [-> Hb]%assertBalanced_returns. done.
Qed.

Lemma forEachM_reviveModule_returns root projects :
  ∀ de de',
    forEachM (reviveModule root) projects de = (de', inr tt) →
    Forall (λ obj, schemaVersion obj ∈ supportedSchemaVersions) projects
    ∧ (projects ≠ [] →
       deferred de = [] ∧ deferred de' = [] ∧ activeReflection (env de') = [])
    ∧ (projects = [] → de' = de).
Proof.
  induction projects as [|obj projects IH]; intros de de'; simpl.
  - intros [= <-]. by split; [constructor|].
  - unfold bind. destruct (reviveModule root obj de) as [d1 [err|[]]] eqn:E;
      [discriminate|].
    apply reviveModule_returns in E as (Hd & Hv & Hd1 & Hb1).
    intros (Hall & Hne & Hnil)%IH. split; [by constructor|]. split; [|done].
    intros _. split; [done|]. destruct projects as [|obj' projects].
    + by rewrite (Hnil eq_refl).
    + by destruct Hne as (_ & ? & ?).
Qed.

(** X9: [reviveProjects], and [reviveProject], when they return have left
    the deserializer ready for the next revival: [project], [projectRoot]
    and the two id maps are reset, and (unless the merge had no projects)
    the queue of deferred work and the stack of active reflections are
    empty.  Every wire project had a supported schema version, and the
    queue was empty when the revival began. *)
Theorem revival_returns_ready (name : string) (projects : list (WireProject Body))
    (options : Options) (de de' : De) (p : Z) :
  reviveProjects name projects options de = (de', inr p) →
  Forall (λ obj, schemaVersion obj ∈ supportedSchemaVersions) projects
  ∧ project (env de') = None ∧ projectRoot (env de') = None
  ∧ oldIdToNewId (env de') = ∅ ∧ oldFileIdToNewFileId (env de') = ∅
  ∧ (projects ≠ [] →
     deferred de = [] ∧ deferred de' = [] ∧ activeReflection (env de') = [])
  ∧ (projects = [] →
     deferred de' = deferred de
     ∧ activeReflection (env de') = activeReflection (env de)).
Proof.
  assert (∀ only, reviveProject name only options de = (de', inr p) →
          Forall (λ obj, schemaVersion obj ∈ supportedSchemaVersions) [only]
          ∧ project (env de') = None ∧ projectRoot (env de') = None
          ∧ oldIdToNewId (env de') = ∅ ∧ oldFileIdToNewFileId (env de') = ∅
          ∧ ([only] ≠ [] →
             deferred de = [] ∧ deferred de' = [] ∧ activeReflection (env de') = [])
          ∧ ([only] = [] →
             deferred de' = deferred de
             ∧ activeReflection (env de') = activeReflection (env de))) as Hone.
  { intros only (? & ? & ? & ? & ? & ? & ? & ? & ?)%reviveProject_returns.
    split; [apply List.Forall_cons; [done|apply List.Forall_nil]|].
    do 4 (split; [done|]).
    split; [done|]. intros [=]. }
  assert (bind (modifyEnv (beginProjects name options)) (λ _,
          bind getEnv (λ e,
          bind (forEachM (reviveModule (ProjectReflection.self (world e))) projects)
            (λ _,
          bind (modifyEnv endRevival) (λ _,
          ret (ProjectReflection.self (world e)))))) de = (de', inr p) →
          Forall (λ obj, schemaVersion obj ∈ supportedSchemaVersions) projects
          ∧ project (env de') = None ∧ projectRoot (env de') = None
          ∧ oldIdToNewId (env de') = ∅ ∧ oldFileIdToNewFileId (env de') = ∅
          ∧ (projects ≠ [] →
             deferred de = [] ∧ deferred de' = [] ∧ activeReflection (env de') = [])
          ∧ (projects = [] →
             deferred de' = deferred de
             ∧ activeReflection (env de') = activeReflection (env de))) as Hmany.
  { unfold bind at 1, modifyEnv at 1. unfold bind at 1, getEnv at 1.
    cbn [env deferred]. unfold bind at 1.
    destruct (forEachM _ projects _) as [d1 [err|[]]] eqn:E; [discriminate|].
    apply forEachM_reviveModule_returns in E as (Hall & Hne & Hnil).
    unfold bind, modifyEnv, ret. intros [= <- <-]. cbn.
    split; [done|]. do 4 (split; [done|]). split.
    - intros Hp. destruct (Hne Hp) as (? & ? & ?). done.
    - intros Hp. by rewrite (Hnil Hp). }
  unfold Deserializer.reviveProjects.
  destruct projects as [|only [|second rest]]; [exact Hmany| |exact Hmany].
  destruct (alwaysCreateEntryPointModule options); [exact Hmany|apply Hone].
Qed.

(** X10: work that was deferred while nothing was being revived is never
    run and never dropped: with such work in the queue, [reviveProject]
    throws the assertion error before it looks at the wire project (an
    unsupported schema version is not reported), and changes nothing;
    [reviveProjects] of one or more projects throws it as well, with the
    queue as it was, so that every later revival fails the same way. *)
Theorem stale_deferred_work_blocks_revival (name : string)
    (projects : list (WireProject Body)) (options : Options) (de : De) :
  deferred de ≠ [] →
  let err :=
    AssertionError "Deserializer.defer was called when not deserializing" in
  (∀ obj, reviveProject name obj options de = (de, inl err))
  ∧ (projects ≠ [] →
     ∃ de', reviveProjects name projects options de = (de', inl err)
            ∧ deferred de' = deferred de).
Proof.
  intros Hd err.
  assert (∀ obj, reviveProject name obj options de = (de, inl err)) as Hone.
  { intros obj. unfold Deserializer.reviveProject, bind at 1.
    by rewrite (assertNothingDeferred_stale de Hd). }
  split; [exact Hone|]. intros Hp.
  assert (∃ de',
            bind (modifyEnv (beginProjects name options)) (λ _,
            bind getEnv (λ e,
            bind (forEachM (reviveModule (ProjectReflection.self (world e))) projects)
              (λ _,
            bind (modifyEnv endRevival) (λ _,
            ret (ProjectReflection.self (world e)))))) de = (de', inl err)
            ∧ deferred de' = deferred de) as Hmany.
  { destruct projects as [|obj rest]; [done|].
    eexists. split.
    - unfold bind at 1, modifyEnv at 1. unfold bind at 1, getEnv at 1.
      cbn [env deferred forEachM]. unfold bind at 1. unfold bind at 1.
      unfold Deserializer.reviveModule, bind at 1.
      rewrite assertNothingDeferred_stale by done. reflexivity.
    - reflexivity. }
  unfold Deserializer.reviveProjects.
  destruct projects as [|only [|second rest]]; [done| |exact Hmany].
  destruct (alwaysCreateEntryPointModule options); [exact Hmany|].
  exists de. by rewrite Hone.
Qed.

Local Notation projectFromObject :=
  (Deserializer.projectFromObject Body resolve deserializeDisplayParts
     containerFromObject).

Lemma filesFromObject_missing (obj : WireProject Body) de :
  wireFiles obj = None ∨ (∃ f, wireFiles obj = Some f ∧ entries f = None) →
  filesFromObject resolve
    (default {| entries := None; wireReflections := None |} (wireFiles obj)) de
  = (de, inl (TypeError "Cannot convert undefined or null to object")).
Proof.
  unfold filesFromObject. by intros [->|(f & -> & Hf)]; simpl; [|rewrite Hf].
Qed.

(** X11: a wire project without [files], or whose [files] has no
    [entries], cannot be revived: [ProjectReflection.fromObject] throws
    whatever the inherited part does, and so does [reviveProject].  When
    the inherited part returns (and there is no readme), what is thrown is
    the type error of [Object.entries], after the package name and version
    were copied and before the fixup of the symbols is deferred. *)
Theorem project_without_files_is_rejected (obj : WireProject Body) :
  wireFiles obj = None ∨ (∃ f, wireFiles obj = Some f ∧ entries f = None) →
  (∀ this de, ∃ de' err, projectFromObject this obj de = (de', inl err))
  ∧ (∀ name options de, ∃ de' err, reviveProject name obj options de = (de', inl err))
  ∧ (∀ this de de1,
       readme obj = None →
       containerFromObject this obj de = (de1, inr tt) →
       projectFromObject this obj de
       = ({| env := set_packageInfo
                      (packageName obj, packageVersion obj, (packageInfo (env de1)).2)
                      (env de1);
             deferred := deferred de1 |},
          inl (TypeError "Cannot convert undefined or null to object"))).
Proof.
  intros Hf.
  assert (∀ this de, ∃ de' err, projectFromObject this obj de = (de', inl err)) as H1.
  { intros this de. unfold Deserializer.projectFromObject.
    unfold bind at 1. destruct (containerFromObject this obj de) as [d1 [err|[]]];
      [by eauto|].
    unfold bind at 1, modifyEnv at 1. unfold bind at 1.
    destruct (readme obj) as [parts|].
    - unfold bind at 1.
      destruct (deserializeDisplayParts parts _) as [d2 [err|r]]; [by eauto|].
      unfold modifyEnv at 1. unfold bind at 1.
      rewrite filesFromObject_missing by done. eauto.
    - unfold ret at 1. unfold bind at 1.
      rewrite filesFromObject_missing by done. eauto. }
  split; [exact H1|]. split.
  - intros name options de. unfold Deserializer.reviveProject.
    unfold bind at 1. destruct (assertNothingDeferred de) as [d1 [err|[]]]; [by eauto|].
    unfold bind at 1. destruct (checkVersion obj d1) as [d2 [err|[]]]; [by eauto|].
    unfold bind at 1, modifyEnv at 1. unfold bind at 1, getEnv at 1.
    unfold bind at 1. unfold fromObject. unfold bind at 1, modifyEnv at 1.
    unfold bind at 1.
    match goal with
    | |- context [Deserializer.projectFromObject _ _ _ _ ?this obj ?d] =>
        destruct (H1 this d) as (d3 & err & ->)
    end.
    eauto.
  - intros this de de1 Hr Hc. unfold Deserializer.projectFromObject.
    unfold bind at 1. rewrite Hc. unfold bind at 1, modifyEnv at 1.
    unfold bind at 1. rewrite Hr. unfold ret at 1. unfold bind at 1.
    by rewrite filesFromObject_missing by done.
Qed.

End revival_facts.

Section revival_samples.

Import Models Effects Deserializer.

Lemma deferred_callbacks_run_in_order_witness :
  (sampleReviveProject "" [LogIt 1; LogIt 2]).2 = inr 4
  ∧ logger (env (sampleReviveProject "" [LogIt 1; LogIt 2]).1)
    = [serialized_project_referenced_0_not_part_of_project 1;
       serialized_project_referenced_0_not_part_of_project 2;
       serialized_project_referenced_0_not_part_of_project 5]
  ∧ (sampleReviveProject "" [LogIt 1; DeferAgain 2; LogIt 3]).2
    = inl (AssertionError "Work may not be double deferred when deserializing.")
  ∧ logger (env (sampleReviveProject "" [LogIt 1; DeferAgain 2; LogIt 3]).1)
    = [serialized_project_referenced_0_not_part_of_project 1;
       serialized_project_referenced_0_not_part_of_project 3;
       serialized_project_referenced_0_not_part_of_project 5]
  ∧ List.length (deferred (sampleReviveProject "" [LogIt 1; DeferAgain 2; LogIt 3]).1)
    = 1%nat
  ∧ (sampleReviveWithoutReflections [LogIt 1; LogIt 2]).2
    = inl (TypeError "Cannot convert undefined or null to object")
  ∧ logger (env (sampleReviveWithoutReflections [LogIt 1; LogIt 2]).1)
    = [serialized_project_referenced_0_not_part_of_project 1;
       serialized_project_referenced_0_not_part_of_project 2].
Proof.
  destruct (deferred_callbacks_run_in_order (list SampleWork) (λ _ path, path)
              ret sampleFromObject sampleFromObject []) as (_ & _ & H & _).
  assert (SCHEMA_VERSION ∈ supportedSchemaVersions) as Hv by (left; reflexivity).
  unfold sampleReviveProject, sampleReviveWithoutReflections.
  rewrite (H "" (sampleWire SCHEMA_VERSION "P" [LogIt 1; LogIt 2]) sampleOptions
             (newDeserializer ProjectReflection.twoSiblings));
    [|reflexivity|exact Hv|vm_compute; reflexivity].
  rewrite (H "" (sampleWire SCHEMA_VERSION "P" [LogIt 1; DeferAgain 2; LogIt 3])
             sampleOptions (newDeserializer ProjectReflection.twoSiblings));
    [|reflexivity|exact Hv|vm_compute; reflexivity].
  rewrite (H "" (sampleWithoutReflections [LogIt 1; LogIt 2])
             sampleOptions (newDeserializer ProjectReflection.twoSiblings));
    [|reflexivity|exact Hv|vm_compute; reflexivity].
  clear H Hv. repeat split; vm_compute; reflexivity.
Defined.

(** C3, as the specification words it, fails: in the revival of a wire
    project whose file registry lacks [reflections], the pass returns with
    three callbacks queued; the second throws, and the third, the fixup of
    the symbol ids, which would log a warning, is never run and is no
    longer in the queue. *)
Lemma deferred_callbacks_counterexample :
  (samplePassWithoutReflections [LogIt 1]).2 = inr tt
  ∧ List.length (deferred (samplePassWithoutReflections [LogIt 1]).1) = 3%nat
  ∧ logger (ranAll (deferred (samplePassWithoutReflections [LogIt 1]).1)
              (env (samplePassWithoutReflections [LogIt 1]).1))
    = [serialized_project_referenced_0_not_part_of_project 1;
       serialized_project_referenced_0_not_part_of_project 5]
  ∧ (sampleReviveWithoutReflections [LogIt 1]).2
    = inl (TypeError "Cannot convert undefined or null to object")
  ∧ logger (env (sampleReviveWithoutReflections [LogIt 1]).1)
    = [serialized_project_referenced_0_not_part_of_project 1]
  ∧ deferred (sampleReviveWithoutReflections [LogIt 1]).1 = [].
Proof. repeat split; vm_compute; reflexivity. Qed.

Lemma unsupported_version_throws_first_witness :
  sampleMerge ["1.0"; "1.0"]
  = ({| env := beginProjects "merged" sampleOptions
                 (env (newDeserializer ProjectReflection.twoSiblings));
        deferred := [] |},
     inl (ErrorOf (unsupportedVersionMessage "1.0")))
  ∧ ProjectReflection.reflections (world (env (sampleMerge ["1.0"; "1.0"]).1)) = {[4]}
  ∧ (sampleMerge ["2.0"; "1.0"]).2 = inl (ErrorOf (unsupportedVersionMessage "1.0"))
  ∧ ProjectReflection.reflections (world (env (sampleMerge ["2.0"; "1.0"]).1))
    = {[4; 5]}.
Proof.
  assert ("1.0" ∉ supportedSchemaVersions) as Hv.
  { apply (bool_decide_unpack _). vm_compute. exact I. }
  destruct (unsupported_version_throws_first (list SampleWork) (λ _ path, path)
              ret sampleFromObject sampleFromObject []
              (sampleWire "1.0" "P" [LogIt 1]) Hv) as (_ & _ & _ & H4 & H5 & _).
  clear Hv.
  destruct (H5 "merged" [sampleWire "1.0" "P" [LogIt 1]] sampleOptions
              (newDeserializer ProjectReflection.twoSiblings) eq_refl)
    as (E1 & E2 & _).
  { right. discriminate. }
  clear H5.
  change (sampleMerge ["1.0"; "1.0"]
          = ({| env := beginProjects "merged" sampleOptions
                         (env (newDeserializer ProjectReflection.twoSiblings));
                deferred := [] |},
             inl (ErrorOf (unsupportedVersionMessage "1.0")))) in E1.
  assert (∃ de', sampleMerge ["2.0"; "1.0"]
                 = (de', inl (ErrorOf (unsupportedVersionMessage "1.0")))
                 ∧ ProjectReflection.reflections (world (env de')) = {[4; 5]})
    as (de' & E3 & E4).
  { eexists. split.
    - apply (H4 "merged" [sampleWire "2.0" "P" [LogIt 1]] [] sampleOptions
               (newDeserializer ProjectReflection.twoSiblings) _ eq_refl).
      + right. discriminate.
      + vm_compute. reflexivity.
    - vm_compute. reflexivity. }
  clear H4.
  split; [exact E1|]. split; [rewrite E1; exact E2|].
  rewrite E3. split; [reflexivity|exact E4].
Defined.

Lemma revival_returns_ready_witness :
  (sampleMerge ["2.0"; "2.0"]).2 = inr 4
  ∧ deferred (sampleMerge ["2.0"; "2.0"]).1 = []
  ∧ activeReflection (env (sampleMerge ["2.0"; "2.0"]).1) = []
  ∧ project (env (sampleMerge ["2.0"; "2.0"]).1) = None
  ∧ oldIdToNewId (env (sampleMerge ["2.0"; "2.0"]).1) = ∅.
Proof.
  assert (reviveProjects (list SampleWork) (λ _ path, path) ret sampleFromObject
            sampleFromObject [] "merged"
            ((λ v, sampleWire v "P" [LogIt 1]) <$> ["2.0"; "2.0"]) sampleOptions
            (newDeserializer ProjectReflection.twoSiblings)
          = ((sampleMerge ["2.0"; "2.0"]).1, inr 4)) as E
    by (vm_compute; reflexivity).
  destruct (revival_returns_ready _ _ _ _ _ _ _ _ _ _ _ _ E)
    as (_ & Hproj & _ & Hids & _ & Hne & _).
  destruct Hne as (_ & Hd & Hb); [discriminate|].
  split; [vm_compute; reflexivity|]. split; [exact Hd|]. split; [exact Hb|].
  split; [exact Hproj|exact Hids].
Defined.
Lemma stale_deferred_work_blocks_revival_witness :
  reviveProject (list SampleWork) (λ _ path, path) ret sampleFromObject []
    "" (sampleWire "1.0" "P" []) sampleOptions staleDeserializer
  = (staleDeserializer,
     inl (AssertionError "Deserializer.defer was called when not deserializing")).
Proof.
  refine (proj1 (stale_deferred_work_blocks_revival (list SampleWork) (λ _ path, path)
                   ret sampleFromObject sampleFromObject [] "" [] sampleOptions
                   staleDeserializer _) _).
  discriminate.
Defined.

Lemma project_without_files_is_rejected_witness :
  projectFromObject (list SampleWork) (λ _ path, path) ret sampleFromObject
    1 sampleWithoutFiles (newDeserializer ProjectReflection.twoSiblings)
  = ({| env := set_packageInfo (Some "pkg", None, None)
                 (env (newDeserializer ProjectReflection.twoSiblings));
        deferred := [] |},
     inl (TypeError "Cannot convert undefined or null to object")).
Proof.
  refine (proj2 (proj2 (project_without_files_is_rejected (list SampleWork)
                          (λ _ path, path) ret sampleFromObject []
                          sampleWithoutFiles _))
            1 (newDeserializer ProjectReflection.twoSiblings)
            (newDeserializer ProjectReflection.twoSiblings) eq_refl eq_refl).
  by left.
Defined.

End revival_samples.

(** ** Code with state and exceptions *)

Section hoare_facts.

Import Models Effects.

Context {S E : Type} (step : S → S → Prop).
Hypothesis step_refl : ∀ σ, step σ σ.
Hypothesis step_trans : ∀ σ1 σ2 σ3, step σ1 σ2 → step σ2 σ3 → step σ1 σ3.

Local Notation hoare := (hoare (E := E) step).
Local Notation stable := (stable step).

Lemma hoare_ret {A} (Pre : S → Prop) (a : A) (Q : S → A → Prop) :
  (∀ σ, Pre σ → Q σ a) → hoare Pre (ret a) Q.
Proof. intros H σ Hp. exists σ, a. auto. Qed.

Lemma hoare_bind {A B} Pre (m : SE S E A) (k : A → SE S E B) Q1 Q2 :
  hoare Pre m Q1 → (∀ a, hoare (λ σ, Q1 σ a) (k a) Q2) → hoare Pre (bind m k) Q2.
Proof.
  intros Hm Hk σ Hp. destruct (Hm σ Hp) as (σ1 & a & E1 & S1 & H1).
  destruct (Hk a σ1 H1) as (σ2 & b & E2 & S2 & H2).
  exists σ2, b. unfold bind. rewrite E1, E2. eauto.
Qed.

Lemma hoare_conseq {A} (Pre Pre' : S → Prop) (m : SE S E A) (Q Q' : S → A → Prop) :
  (∀ σ, Pre' σ → Pre σ) → (∀ σ a, Q σ a → Q' σ a) → hoare Pre m Q → hoare Pre' m Q'.
Proof.
  intros H1 H2 Hm σ Hp. destruct (Hm σ (H1 σ Hp)) as (σ1 & a & ? & ? & ?). eauto 10.
Qed.

Lemma hoare_frame {A} (F : S → Prop) Pre (m : SE S E A) Q :
  stable F → hoare Pre m Q → hoare (λ σ, Pre σ ∧ F σ) m (λ σ a, Q σ a ∧ F σ).
Proof.
  intros HF Hm σ [Hp Hf]. destruct (Hm σ Hp) as (σ1 & a & ? & ? & ?).
  exists σ1, a. eauto.
Qed.

Lemma hoare_mapM {A B} (I : S → Prop) (Q : S → A → B → Prop) (h : A → SE S E B) l :
  (∀ x y, stable (λ σ, Q σ x y)) →
  Forall (λ x, hoare I (h x) (λ σ y, I σ ∧ Q σ x y)) l →
  hoare I (mapM h l) (λ σ l', I σ ∧ Forall2 (Q σ) l l').
Proof.
  intros HQ. induction 1 as [|x l Hx Hl IH]; simpl.
  - apply hoare_ret. auto.
  - eapply hoare_bind; [exact Hx|]. intros y. simpl.
    eapply hoare_bind.
    + eapply hoare_conseq; [| |apply (hoare_frame (λ σ, Q σ x y) I _ _ (HQ x y) IH)].
      * intros σ [? ?]. split; eauto.
      * intros σ a H. exact H.
    + intros ys. apply hoare_ret. intros σ [[? Hl'] ?]. split; [done|].
      by apply List.Forall2_cons.
Qed.

Lemma hoare_optM {A B} (I : S → Prop) (Q : S → A → B → Prop) (h : A → SE S E B) o :
  from_option (λ x, hoare I (h x) (λ σ y, I σ ∧ Q σ x y)) True o →
  hoare I (optM h o) (λ σ o', I σ ∧ option_Forall2 (Q σ) o o').
Proof.
  intros H. destruct o as [x|]; simpl.
  - eapply hoare_bind; [exact H|]. intros y. apply hoare_ret.
    intros σ [? ?]. split; [done|]. by constructor.
  - apply hoare_ret. intros σ ?. split; [done|]. constructor.
Qed.

End hoare_facts.

(** ** Types and slots up to their reflections *)

Section relation_facts.

Import Models.

Lemma Forall2_impl_Forall {A B} (P Q : A → B → Prop) l l' :
  Forall (λ x, ∀ y, P x y → Q x y) l → Forall2 P l l' → Forall2 Q l l'.
Proof.
  intros HF H2. revert HF. induction H2; intros HF; [constructor|].
  inversion HF; subst. apply List.Forall2_cons; auto.
Qed.

Lemma option_Forall2_impl_from {A B} (P Q : A → B → Prop) o o' :
  from_option (λ x, ∀ y, P x y → Q x y) True o →
  option_Forall2 P o o' → option_Forall2 Q o o'.
Proof. intros H H2. destruct H2; constructor. simpl in H. auto. Qed.

Lemma option_Forall2_list_impl_from {A B} (P Q : A → B → Prop) o o' :
  from_option (Forall (λ x, ∀ y, P x y → Q x y)) True o →
  option_Forall2 (Forall2 P) o o' → option_Forall2 (Forall2 Q) o o'.
Proof.
  intros H H2. destruct H2; constructor. simpl in H.
  by eapply Forall2_impl_Forall.
Qed.

Lemma Forall2_diag_Forall {A} (Q : A → A → Prop) l :
  Forall2 Q l l → Forall (λ x, Q x x) l.
Proof.
  induction l as [|x l IH]; intros H; inversion H; subst; constructor; auto.
Qed.

Lemma Forall_mp {A} (P Q : A → Prop) l :
  Forall (λ x, P x → Q x) l → Forall P l → Forall Q l.
Proof. induction 1; intros H2; inversion H2; subst; constructor; auto. Qed.

Lemma Forall2_mp {A B} (P Q : A → B → Prop) l l' :
  Forall2 (λ x y, P x y → Q x y) l l' → Forall2 P l l' → Forall2 Q l l'.
Proof.
  induction 1; intros H2; inversion H2; subst; [constructor|].
  apply List.Forall2_cons; auto.
Qed.

Lemma option_Forall2_mp {A B} (P Q : A → B → Prop) o o' :
  option_Forall2 (λ x y, P x y → Q x y) o o' →
  option_Forall2 P o o' → option_Forall2 Q o o'.
Proof. destruct 1; intros H2; inversion H2; subst; constructor; auto. Qed.

Lemma option_Forall2_fmap_r {A B C} (P : A → C → Prop) (h : B → C) o o' :
  option_Forall2 (λ x y, P x (h y)) o o' → option_Forall2 P o (h <$> o').
Proof. destruct 1; constructor; auto. Qed.

Ltac type_induction t :=
  induction t as [e IHe|c x t1 t2 IHc IHx IH1 IH2|o i IHo IHi|n c IHc|ts IHts|n|v
                  |p pt tp r o nt IHpt IHtp IHnt|e IHe|n a tg IHtg|q IHq
                  |n tg args IHargs|d|e IHe|h tl IHtl|es IHes|n o e IHe|t o IHt
                  |ts IHts|n] using SomeTypeOf_nested_ind.

Lemma TRel_impl {D D'} (R R' : D → D' → Prop) (T T' : relation ReferenceTarget) t :
  (∀ x y, R x y → R' x y) → (∀ a b, T a b → T' a b) →
  ∀ t', TRel R T t t' → TRel R' T' t t'.
Proof.
  intros HR HT'. type_induction t; intros t' HT; inversion HT; subst;
    constructor;
    eauto using Forall2_impl_Forall, option_Forall2_impl_from,
      option_Forall2_list_impl_from.
  eapply Forall2_impl_Forall; [|eassumption].
  eapply Forall_impl; [eassumption|]. simpl. intros p Hp p' [? ?]. auto.
Qed.

Lemma option_Forall2_weaken {A B} (P Q : A → B → Prop) o o' :
  (∀ x y, P x y → Q x y) → option_Forall2 P o o' → option_Forall2 Q o o'.
Proof. intros H; destruct 1; constructor; auto. Qed.

Lemma SRel_impl {D D'} (R R' : D → D' → Prop) (T T' : relation ReferenceTarget) s s' :
  (∀ x y, R x y → R' x y) → (∀ a b, T a b → T' a b) →
  SRel R T s s' → SRel R' T' s s'.
Proof.
  intros HR HT [].
  split;
    (eapply option_Forall2_weaken; [|eassumption]);
    eauto using Forall2_impl, TRel_impl.
Qed.

Lemma Forall2_flip_Forall {A B} (P : A → B → Prop) (Q : B → A → Prop) l l' :
  Forall (λ x, ∀ y, P x y → Q y x) l → Forall2 P l l' → Forall2 Q l' l.
Proof.
  intros HF H2. revert HF. induction H2; intros HF; [constructor|].
  inversion HF; subst. apply List.Forall2_cons; auto.
Qed.

Lemma option_Forall2_flip_from {A B} (P : A → B → Prop) (Q : B → A → Prop) o o' :
  from_option (λ x, ∀ y, P x y → Q y x) True o →
  option_Forall2 P o o' → option_Forall2 Q o' o.
Proof. intros H H2. destruct H2; constructor. simpl in H. auto. Qed.

Lemma option_Forall2_list_flip_from {A B} (P : A → B → Prop) (Q : B → A → Prop) o o' :
  from_option (Forall (λ x, ∀ y, P x y → Q y x)) True o →
  option_Forall2 (Forall2 P) o o' → option_Forall2 (Forall2 Q) o' o.
Proof.
  intros H H2. destruct H2; constructor. simpl in H.
  by eapply Forall2_flip_Forall.
Qed.

Lemma TRel_flip {D D'} (R : D → D' → Prop) (T : relation ReferenceTarget) t :
  ∀ t', TRel R T t t' → TRel (flip R) (flip T) t' t.
Proof.
  type_induction t; intros t' HT; inversion HT; subst;
    constructor;
    eauto using Forall2_flip_Forall, option_Forall2_flip_from,
      option_Forall2_list_flip_from.
  eapply Forall2_flip_Forall; [|eassumption].
  eapply Forall_impl; [eassumption|]. simpl. intros p Hp p' [? ?]. auto.
Qed.

Lemma option_Forall2_flip_weaken {A B} (P : A → B → Prop) (Q : B → A → Prop) o o' :
  (∀ x y, P x y → Q y x) → option_Forall2 P o o' → option_Forall2 Q o' o.
Proof. intros H; destruct 1; constructor; auto. Qed.

Lemma SRel_flip {D D'} (R : D → D' → Prop) (T : relation ReferenceTarget) s s' :
  SRel R T s s' → SRel (flip R) (flip T) s' s.
Proof.
  intros [].
  split;
    (eapply option_Forall2_flip_weaken; [|eassumption]);
    eauto using TRel_flip; intros ? ?; apply Forall2_flip.
Qed.

Lemma Forall2_fmap_Forall {A B C} (P : A → B → Prop) (Q : A → C → Prop)
    (h : B → C) l l' :
  Forall (λ x, ∀ y, P x y → Q x (h y)) l → Forall2 P l l' → Forall2 Q l (h <$> l').
Proof.
  intros HF H2. revert HF. induction H2; intros HF; [constructor|].
  inversion HF; subst. apply List.Forall2_cons; auto.
Qed.

Lemma option_Forall2_fmap_from {A B C} (P : A → B → Prop) (Q : A → C → Prop)
    (h : B → C) o o' :
  from_option (λ x, ∀ y, P x y → Q x (h y)) True o →
  option_Forall2 P o o' → option_Forall2 Q o (h <$> o').
Proof. intros H H2. destruct H2; constructor. simpl in H. auto. Qed.

Lemma option_Forall2_list_fmap_from {A B C} (P : A → B → Prop) (Q : A → C → Prop)
    (h : B → C) o o' :
  from_option (Forall (λ x, ∀ y, P x y → Q x (h y))) True o →
  option_Forall2 (Forall2 P) o o' →
  option_Forall2 (Forall2 Q) o (option_map (fmap (M := list) h) o').
Proof.
  intros H H2. destruct H2; constructor. simpl in H.
  by eapply Forall2_fmap_Forall.
Qed.

Lemma TRel_map_r {D D' D''} (Q : D → D'' → Prop) (T : relation ReferenceTarget)
    (φ : D' → D'') (γ : ReferenceTarget → ReferenceTarget) t :
  ∀ t', TRel (λ a b, Q a (φ b)) (λ a b, T a (γ b)) t t' → TRel Q T t (tmap φ γ t').
Proof.
  type_induction t; intros t' HT; inversion HT; subst; simpl;
    constructor;
    eauto using Forall2_fmap_Forall, option_Forall2_fmap_from,
      option_Forall2_list_fmap_from.
  eapply (Forall2_fmap_Forall
            (λ p p', TRel (λ a b, Q a (φ b)) (λ a b, T a (γ b)) p.1 p'.1 ∧ p.2 = p'.2));
    [|eassumption].
  eapply Forall_impl; [eassumption|]. simpl. intros p Hp p' [? ?]. auto.
Qed.

Lemma option_Forall2_list_fmap_r {A B C} (Q : A → C → Prop) (h : B → C) o o' :
  option_Forall2 (Forall2 (λ a b, Q a (h b))) o o' →
  option_Forall2 (Forall2 Q) o (fmap (M := list) h <$> o').
Proof. destruct 1; constructor. by apply Forall2_fmap_r. Qed.

Lemma SRel_map_r {D D' D''} (Q : D → D'' → Prop) (T : relation ReferenceTarget)
    (φ : D' → D'') (γ : ReferenceTarget → ReferenceTarget) s s' :
  SRel (λ a b, Q a (φ b)) (λ a b, T a (γ b)) s s' →
  SRel Q T s (noIds (smap φ γ s')).
Proof.
  intros []. split; simpl;
    try (by apply option_Forall2_list_fmap_r);
    try (by apply option_Forall2_fmap_r).
  - apply option_Forall2_fmap_r. eapply option_Forall2_weaken; [|eassumption].
    intros ??. apply TRel_map_r.
  - apply option_Forall2_fmap_r. eapply option_Forall2_weaken; [|eassumption].
    intros ??. apply TRel_map_r.
Qed.

Lemma Forall2_and_Forall {A B} (P1 P2 Q : A → B → Prop) l l' :
  Forall (λ x, ∀ y, P1 x y → P2 x y → Q x y) l →
  Forall2 P1 l l' → Forall2 P2 l l' → Forall2 Q l l'.
Proof.
  intros HF H1. revert HF. induction H1; intros HF H2; [constructor|].
  inversion HF; subst. inversion H2; subst. apply List.Forall2_cons; auto.
Qed.

Lemma option_Forall2_and_from {A B} (P1 P2 Q : A → B → Prop) o o' :
  from_option (λ x, ∀ y, P1 x y → P2 x y → Q x y) True o →
  option_Forall2 P1 o o' → option_Forall2 P2 o o' → option_Forall2 Q o o'.
Proof.
  intros H H1 H2. destruct H1; inversion H2; subst; constructor. simpl in H. auto.
Qed.

Lemma option_Forall2_list_and_from {A B} (P1 P2 Q : A → B → Prop) o o' :
  from_option (Forall (λ x, ∀ y, P1 x y → P2 x y → Q x y)) True o →
  option_Forall2 (Forall2 P1) o o' → option_Forall2 (Forall2 P2) o o' →
  option_Forall2 (Forall2 Q) o o'.
Proof.
  intros H H1 H2. destruct H1; inversion H2; subst; constructor. simpl in H.
  by eapply Forall2_and_Forall.
Qed.

Lemma TRel_and {D D'} (R1 R2 : D → D' → Prop) (T1 T2 : relation ReferenceTarget) t :
  ∀ t', TRel R1 T1 t t' → TRel R2 T2 t t' →
        TRel (λ x y, R1 x y ∧ R2 x y) (λ a b, T1 a b ∧ T2 a b) t t'.
Proof.
  type_induction t; intros t' HT1 HT2; inversion HT1; subst; inversion HT2; subst;
    constructor;
    eauto using Forall2_and_Forall, option_Forall2_and_from,
      option_Forall2_list_and_from.
  eapply (Forall2_and_Forall
            (λ p p', TRel R1 T1 p.1 p'.1 ∧ p.2 = p'.2)
            (λ p p', TRel R2 T2 p.1 p'.1 ∧ p.2 = p'.2));
    [|eassumption|eassumption].
  eapply Forall_impl; [eassumption|]. simpl. intros p Hp p' [? ?] [? ?]. auto.
Qed.

Lemma option_Forall2_and {A B} (P1 P2 Q : A → B → Prop) o o' :
  (∀ x y, P1 x y → P2 x y → Q x y) →
  option_Forall2 P1 o o' → option_Forall2 P2 o o' → option_Forall2 Q o o'.
Proof. intros H H1 H2. destruct H1; inversion H2; subst; constructor. auto. Qed.

Lemma Forall2_and {A B} (P1 P2 Q : A → B → Prop) l l' :
  (∀ x y, P1 x y → P2 x y → Q x y) →
  Forall2 P1 l l' → Forall2 P2 l l' → Forall2 Q l l'.
Proof.
  intros H. apply Forall2_and_Forall. apply Forall_forall. auto.
Qed.

Lemma SRel_and {D D'} (R1 R2 : D → D' → Prop) (T1 T2 : relation ReferenceTarget) s s' :
  SRel R1 T1 s s' → SRel R2 T2 s s' →
  SRel (λ x y, R1 x y ∧ R2 x y) (λ a b, T1 a b ∧ T2 a b) s s'.
Proof.
  intros H1 H2.
  split.
  - eapply option_Forall2_and;
      [|apply (srel_signatures _ _ _ _ H1)|apply (srel_signatures _ _ _ _ H2)].
    intros ??. apply Forall2_and. auto.
  - eapply option_Forall2_and;
      [|apply (srel_getSignature _ _ _ _ H1)|apply (srel_getSignature _ _ _ _ H2)].
    auto.
  - eapply option_Forall2_and;
      [|apply (srel_setSignature _ _ _ _ H1)|apply (srel_setSignature _ _ _ _ H2)].
    auto.
  - eapply option_Forall2_and;
      [|apply (srel_parameters _ _ _ _ H1)|apply (srel_parameters _ _ _ _ H2)].
    intros ??. apply Forall2_and. auto.
  - eapply option_Forall2_and;
      [|apply (srel_typeParameters _ _ _ _ H1)|apply (srel_typeParameters _ _ _ _ H2)].
    intros ??. apply Forall2_and. auto.
  - eapply option_Forall2_and;
      [|apply (srel_indexSignatures _ _ _ _ H1)
       |apply (srel_indexSignatures _ _ _ _ H2)].
    intros ??. apply Forall2_and. auto.
  - eapply option_Forall2_and;
      [|apply (srel_type _ _ _ _ H1)|apply (srel_type _ _ _ _ H2)].
    intros ??. apply TRel_and.
  - eapply option_Forall2_and;
      [|apply (srel_defaultType _ _ _ _ H1)|apply (srel_defaultType _ _ _ _ H2)].
    intros ??. apply TRel_and.
  - eapply option_Forall2_and;
      [|apply (srel_children _ _ _ _ H1)|apply (srel_children _ _ _ _ H2)].
    intros ??. apply Forall2_and. auto.
  - eapply option_Forall2_and;
      [|apply (srel_documents _ _ _ _ H1)|apply (srel_documents _ _ _ _ H2)].
    intros ??. apply Forall2_and. auto.
Qed.

Lemma Forall2_left_Forall {A B} (P : A → A → Prop) (R Q : A → B → Prop) l l' :
  Forall (λ x, P x x → ∀ y, R x y → Q x y) l →
  Forall2 P l l → Forall2 R l l' → Forall2 Q l l'.
Proof.
  intros HF HP H2. apply Forall2_diag_Forall in HP. revert HF HP.
  induction H2; intros HF HP; [constructor|].
  inversion HF; subst. inversion HP; subst. apply List.Forall2_cons; auto.
Qed.

Lemma option_Forall2_left_from {A B} (P : A → A → Prop) (R Q : A → B → Prop) o o' :
  from_option (λ x, P x x → ∀ y, R x y → Q x y) True o →
  option_Forall2 P o o → option_Forall2 R o o' → option_Forall2 Q o o'.
Proof.
  intros H HP H2. destruct H2; constructor. simpl in H. inversion HP; subst. auto.
Qed.

Lemma option_Forall2_list_left_from {A B} (P : A → A → Prop) (R Q : A → B → Prop)
    o o' :
  from_option (Forall (λ x, P x x → ∀ y, R x y → Q x y)) True o →
  option_Forall2 (Forall2 P) o o →
  option_Forall2 (Forall2 R) o o' → option_Forall2 (Forall2 Q) o o'.
Proof.
  intros H HP H2. destruct H2; constructor. simpl in H. inversion HP; subst.
  by eapply Forall2_left_Forall.
Qed.

Lemma TRel_left {D D'} (P : D → Prop) (R : D → D' → Prop)
    (T0 T : relation ReferenceTarget) t :
  TRel (λ x _, P x) T0 t t →
  ∀ t', TRel R T t t' → TRel (λ x y, P x ∧ R x y) T t t'.
Proof.
  type_induction t; intros HP t' HT; inversion HP; subst; inversion HT; subst;
    constructor;
    eauto using Forall2_left_Forall, option_Forall2_left_from,
      option_Forall2_list_left_from.
  eapply (Forall2_left_Forall
            (λ p p', TRel (λ x _, P x) T0 p.1 p'.1 ∧ p.2 = p'.2));
    [|eassumption|eassumption].
  eapply Forall_impl; [exact IHtl|]. simpl. intros p IHp [Hp _] p' [? ?]. auto.
Qed.

Lemma option_Forall2_left {A B} (P : A → Prop) (R : A → B → Prop) o o' :
  option_Forall2 (λ x _, P x) o o → option_Forall2 R o o' →
  option_Forall2 (λ x y, P x ∧ R x y) o o'.
Proof. intros HP H2. destruct H2; constructor. inversion HP; subst. auto. Qed.

Lemma Forall2_left {A B} (P : A → Prop) (R : A → B → Prop) l l' :
  Forall2 (λ x _, P x) l l → Forall2 R l l' → Forall2 (λ x y, P x ∧ R x y) l l'.
Proof.
  apply (Forall2_left_Forall (λ x _, P x)). apply Forall_forall. auto.
Qed.

Lemma option_Forall2_list_left {A B} (P : A → Prop) (R : A → B → Prop) o o' :
  option_Forall2 (Forall2 (λ x _, P x)) o o → option_Forall2 (Forall2 R) o o' →
  option_Forall2 (Forall2 (λ x y, P x ∧ R x y)) o o'.
Proof.
  intros HP H2. destruct H2; constructor. inversion HP; subst. by apply Forall2_left.
Qed.

Lemma option_TRel_left {D D'} (P : D → Prop) (R : D → D' → Prop)
    (T0 T : relation ReferenceTarget) o o' :
  option_Forall2 (TRel (λ x _, P x) T0) o o → option_Forall2 (TRel R T) o o' →
  option_Forall2 (TRel (λ x y, P x ∧ R x y) T) o o'.
Proof.
  intros HP H2. destruct H2; constructor. inversion HP; subst. by eapply TRel_left.
Qed.

Lemma SRel_left {D D'} (P : D → Prop) (R : D → D' → Prop)
    (T0 T : relation ReferenceTarget) s s' :
  SRel (λ x _, P x) T0 s s → SRel R T s s' → SRel (λ x y, P x ∧ R x y) T s s'.
Proof.
  intros [] [].
  split;
    eauto using option_Forall2_left, option_Forall2_list_left, option_TRel_left.
Qed.

End relation_facts.

(** ** Traversals *)

Section traversal_facts.

Import Models Effects.

Context {S E : Type} (step : S → S → Prop).
Hypothesis step_refl : ∀ σ, step σ σ.
Hypothesis step_trans : ∀ σ1 σ2 σ3, step σ1 σ2 → step σ2 σ3 → step σ1 σ3.
Context {D D' : Type} (I : S → Prop) (R : S → D → D' → Prop) (f : D → SE S E D').
Context (g : ReferenceTarget → ReferenceTarget).
Hypothesis R_stable : ∀ x y, stable step (λ σ, R σ x y).

Local Notation hoare := (hoare (E := E) step).
Local Notation stable := (stable step).
Local Notation built := (λ a b : ReferenceTarget, b = g a).
Local Notation any := (λ _ _ : ReferenceTarget, True).

Local Notation revives := (λ x, hoare I (f x) (λ σ y, I σ ∧ R σ x y)).

Lemma TRel_step t t' σ σ' :
  TRel (R σ) built t t' → step σ σ' → TRel (R σ') built t t'.
Proof.
  intros H Hs. eapply TRel_impl; [| |exact H]; [|done]. intros x y Hxy.
  by apply (R_stable x y σ σ').
Qed.

Lemma Forall2_step {A B} (Q : S → A → B → Prop) l l' σ σ' :
  (∀ x y, stable (λ σ, Q σ x y)) →
  Forall2 (Q σ) l l' → step σ σ' → Forall2 (Q σ') l l'.
Proof.
  intros HQ H Hs. eapply Forall2_impl; [exact H|]. intros x y Hxy.
  by apply (HQ x y σ σ').
Qed.

Lemma option_Forall2_step {A B} (Q : S → A → B → Prop) o o' σ σ' :
  (∀ x y, stable (λ σ, Q σ x y)) →
  option_Forall2 (Q σ) o o' → step σ σ' → option_Forall2 (Q σ') o o'.
Proof.
  intros HQ H Hs. eapply option_Forall2_weaken; [|exact H]. intros x y Hxy.
  by apply (HQ x y σ σ').
Qed.

Local Notation revivesType :=
  (λ t, hoare I (traverseType f g t) (λ σ t', I σ ∧ TRel (R σ) built t t')).

Ltac run IH :=
  let σ' := fresh "σ" in let a := fresh "a" in
  let Eq := fresh "Eq" in let St := fresh "St" in
  let HI := fresh "HI" in let HR := fresh "HR" in
  match goal with
  | HIσ : I ?σ |- _ =>
      destruct (IH σ HIσ) as (σ' & a & Eq & St & HI & HR); clear HIσ;
      unfold bind at 1; rewrite Eq; clear Eq
  end.

Ltac finish :=
  eexists _, _; split; [reflexivity|];
  split; [eauto 6|]; split; [done|];
  constructor; eauto 7 using TRel_step.

Lemma revivesType_list ts :
  Forall (λ t, TRel (λ x _, revives x) any t t → revivesType t) ts →
  Forall2 (TRel (λ x _, revives x) any) ts ts →
  hoare I (mapM (traverseType f g) ts) (λ σ l', I σ ∧ Forall2 (TRel (R σ) built) ts l').
Proof.
  intros IH HT.
  apply (hoare_mapM step step_refl step_trans I (λ σ, TRel (R σ) built)).
  - intros x y σ σ'. apply TRel_step.
  - eapply Forall_mp; [exact IH|]. by apply Forall2_diag_Forall.
Qed.

Lemma revivesType_option o :
  from_option (λ t, TRel (λ x _, revives x) any t t → revivesType t) True o →
  option_Forall2 (TRel (λ x _, revives x) any) o o →
  hoare I (optM (traverseType f g) o)
    (λ σ o', I σ ∧ option_Forall2 (TRel (R σ) built) o o').
Proof.
  intros IH HT.
  apply (hoare_optM step step_refl step_trans I (λ σ, TRel (R σ) built)).
  destruct o as [t|]; simpl in *; [|done]. apply IH. by inversion HT.
Qed.

Lemma hoare_traverseType t :
  TRel (λ x _, revives x) any t t → revivesType t.
Proof.
  induction t as [e IHe|c x t1 t2 IHc IHx IH1 IH2|o i IHo IHi|n c IHc|ts IHts|n|v
                  |p pt tp r o nt IHpt IHtp IHnt|e IHe|n a tg IHtg|q IHq
                  |n tg args IHargs|d|e IHe|h tl IHtl|es IHes|n o e IHe|t o IHt
                  |ts IHts|n] using SomeTypeOf_nested_ind;
    intros HT; inversion HT; subst; clear HT; intros σ0 HI0; simpl; cbv beta in *.
  - run (IHe ltac:(assumption)). finish.
  - run (IHc ltac:(assumption)). run (IHx ltac:(assumption)).
    run (IH1 ltac:(assumption)). run (IH2 ltac:(assumption)). finish.
  - run (IHo ltac:(assumption)). run (IHi ltac:(assumption)). finish.
  - run (revivesType_option c IHc ltac:(assumption)). finish.
  - run (revivesType_list ts IHts ltac:(assumption)). finish.
  - finish.
  - finish.
  - run (IHpt ltac:(assumption)). run (IHtp ltac:(assumption)).
    run (revivesType_option nt IHnt ltac:(assumption)). finish.
  - run (IHe ltac:(assumption)). finish.
  - run (revivesType_option tg IHtg ltac:(assumption)). finish.
  - run (IHq ltac:(assumption)). finish.
  - assert (hoare I (optM (mapM (traverseType f g)) args)
              (λ σ o', I σ ∧ option_Forall2 (Forall2 (TRel (R σ) built)) args o'))
      as Hargs.
    { apply (hoare_optM step step_refl step_trans I (λ σ, Forall2 (TRel (R σ) built))).
      destruct args as [l|]; simpl in *; [|done].
      apply (revivesType_list l IHargs).
      match goal with H : option_Forall2 _ _ _ |- _ => by inversion H end. }
    run Hargs. finish.
  - match goal with H : Effects.hoare _ I (f d) _ |- _ => run H end. finish.
  - run (IHe ltac:(assumption)). finish.
  - assert (hoare I (mapM (λ p, bind (traverseType f g p.1) (λ t', ret (t', p.2))) tl)
              (λ σ tl', I σ
                 ∧ Forall2 (λ p p', TRel (R σ) built p.1 p'.1 ∧ p.2 = p'.2) tl tl'))
      as Htl.
    { apply (hoare_mapM step step_refl step_trans I
               (λ σ p p', TRel (R σ) built p.1 p'.1 ∧ p.2 = p'.2)).
      - intros p p' σ σ' [H1 H2] Hs. split; [|done]. by eapply TRel_step.
      - match goal with
        | H : Forall2 _ tl tl |- _ => apply Forall2_diag_Forall in H; rename H into Hd
        end.
        eapply Forall_mp; [|exact Hd]. eapply Forall_impl; [exact IHtl|].
        simpl. intros p IHp [Hp _] σ HI. run (IHp Hp).
        eexists _, _. split; [reflexivity|]. split; [done|]. split; [done|]. done. }
    run Htl. finish.
  - run (revivesType_list es IHes ltac:(assumption)). finish.
  - run (IHe ltac:(assumption)). finish.
  - run (IHt ltac:(assumption)). finish.
  - run (revivesType_list ts IHts ltac:(assumption)). finish.
  - finish.
Qed.

Lemma revives_list l :
  Forall2 (λ x _, revives x) l l →
  hoare I (mapM f l) (λ σ l', I σ ∧ Forall2 (R σ) l l').
Proof.
  intros H. apply (hoare_mapM step step_refl step_trans I R); [exact R_stable|].
  by apply Forall2_diag_Forall in H.
Qed.

Lemma Forall2_R_stable l l' : stable (λ σ, Forall2 (R σ) l l').
Proof. intros σ σ' H Hs. by eapply Forall2_step. Qed.

Lemma TRel_R_stable t t' : stable (λ σ, TRel (R σ) built t t').
Proof. intros σ σ' H Hs. by eapply TRel_step. Qed.

Lemma revives_optlist o :
  option_Forall2 (Forall2 (λ x _, revives x)) o o →
  hoare I (optM (mapM f) o) (λ σ o', I σ ∧ option_Forall2 (Forall2 (R σ)) o o').
Proof.
  intros H. apply (hoare_optM step step_refl step_trans I (λ σ, Forall2 (R σ))).
  destruct o as [l|]; simpl; [|done]. apply revives_list. by inversion H.
Qed.

Lemma revives_opt o :
  option_Forall2 (λ x _, revives x) o o →
  hoare I (optM f o) (λ σ o', I σ ∧ option_Forall2 (R σ) o o').
Proof.
  intros H. apply (hoare_optM step step_refl step_trans I R).
  destruct o as [x|]; simpl; [|done]. by inversion H.
Qed.

Lemma revives_opttype o :
  option_Forall2 (TRel (λ x _, revives x) any) o o →
  hoare I (optM (traverseType f g) o)
    (λ σ o', I σ ∧ option_Forall2 (TRel (R σ) built) o o').
Proof.
  intros H. apply revivesType_option; [|exact H].
  destruct o as [t|]; simpl; [|done]. apply hoare_traverseType.
Qed.

Ltac carry H :=
  first
    [ eapply (option_Forall2_step (λ σ, Forall2 (R σ)));
        [intros ? ?; apply Forall2_R_stable|exact H|eauto 20]
    | eapply (option_Forall2_step R); [exact R_stable|exact H|eauto 20]
    | eapply (option_Forall2_step (λ σ, TRel (R σ) built));
        [intros ? ?; apply TRel_R_stable|exact H|eauto 20] ].

Lemma hoare_traverseSlots s :
  SRel (λ x _, revives x) any s s →
  hoare I (traverseSlots f g s) (λ σ s', I σ ∧ SRel (R σ) built s s').
Proof.
  intros [H1 H2 H3 H4 H5 H6 H7 H8 H9 H10] σ0 HI0. unfold traverseSlots.
  run (revives_optlist _ H1). run (revives_opt _ H2). run (revives_opt _ H3).
  run (revives_optlist _ H4). run (revives_optlist _ H5). run (revives_optlist _ H6).
  run (revives_opttype _ H7). run (revives_opttype _ H8).
  run (revives_optlist _ H9). run (revives_optlist _ H10).
  eexists _, _. split; [reflexivity|]. split; [eauto 20|]. split; [done|].
  split; simpl.
  - carry HR.
  - carry HR0.
  - carry HR1.
  - carry HR2.
  - carry HR3.
  - carry HR4.
  - carry HR5.
  - carry HR6.
  - carry HR7.
  - exact HR8.
Qed.

Lemma hoare_traverseOwn v s :
  SRel (λ x _, revives x) any s s →
  hoare I (traverseOwn f g v s) (λ σ s', I σ ∧ SRel (R σ) built (ownSlots v s) s').
Proof.
  intros Hs. destruct v; try exact (hoare_traverseSlots s Hs).
  destruct Hs as [H1 H2 H3 H4 H5 H6 H7 H8 H9 H10]. intros σ0 HI0.
  unfold traverseOwn.
  run (revives_opttype _ H7). run (revives_opttype _ H8).
  eexists _, _. split; [reflexivity|]. split; [eauto|]. split; [done|].
  split; simpl; try constructor.
  - carry HR.
  - exact HR0.
Qed.

End traversal_facts.

(** *** Traversals by code that only reads *)

Section reader_facts.

Import Models Effects.

Context {S E D D' : Type} (f : D → SE S E D') (g : ReferenceTarget → ReferenceTarget).
Context (σ : S).
Hypothesis f_reads : ∀ x σ' y, f x σ = (σ', inr y) → σ' = σ.

Local Notation built := (λ a b : ReferenceTarget, b = g a).
Local Notation returns := (λ x y, f x σ = (σ, inr y)).

Lemma mapM_reads {A B} (h : A → SE S E B) (Q : A → B → Prop) l :
  Forall (λ x, ∀ σ' y, h x σ = (σ', inr y) → σ' = σ ∧ Q x y) l →
  ∀ σ' l', mapM h l σ = (σ', inr l') → σ' = σ ∧ Forall2 Q l l'.
Proof.
  induction 1 as [|x l Hx Hl IH]; intros σ' l'; simpl.
  - intros [= <- <-]. split; [done|constructor].
  - unfold bind at 1. destruct (h x σ) as [σ1 [err|y]] eqn:E1; [discriminate|].
    destruct (Hx _ _ eq_refl) as [-> Hy].
    unfold bind at 1. destruct (mapM h l σ) as [σ2 [err|ys]] eqn:E2; [discriminate|].
    destruct (IH _ _ eq_refl) as [-> Hys].
    intros [= <- <-]. split; [done|]. by apply List.Forall2_cons.
Qed.

Lemma optM_reads {A B} (h : A → SE S E B) (Q : A → B → Prop) o :
  from_option (λ x, ∀ σ' y, h x σ = (σ', inr y) → σ' = σ ∧ Q x y) True o →
  ∀ σ' o', optM h o σ = (σ', inr o') → σ' = σ ∧ option_Forall2 Q o o'.
Proof.
  intros H σ' o'. destruct o as [x|]; simpl in *.
  - unfold bind at 1. destruct (h x σ) as [σ1 [err|y]] eqn:E1; [discriminate|].
    destruct (H _ _ eq_refl) as [-> Hy]. intros [= <- <-]. split; [done|]. by constructor.
  - intros [= <- <-]. split; [done|constructor].
Qed.

Ltac open_call IH :=
  let σ1 := fresh "σ" in let a := fresh "a" in
  let Eq := fresh "Eq" in let HT := fresh "HT" in
  unfold bind at 1;
  match goal with
  | |- context [match ?c with _ => _ end] =>
      destruct c as [σ1 [?|a]] eqn:Eq; [discriminate|];
      first [destruct (IH _ _ Eq) as [-> HT]|destruct (IH _ _ eq_refl) as [-> HT]];
      clear Eq
  end.

Ltac close_call :=
  intros [= <- <-]; split; [done|]; constructor; eauto.

Lemma traverseType_reads t :
  ∀ σ' t', traverseType f g t σ = (σ', inr t') → σ' = σ ∧ TRel returns built t t'.
Proof.
  induction t as [e IHe|c x t1 t2 IHc IHx IH1 IH2|o i IHo IHi|n c IHc|ts IHts|n|v
                  |p pt tp r o nt IHpt IHtp IHnt|e IHe|n a tg IHtg|q IHq
                  |n tg args IHargs|d|e IHe|h tl IHtl|es IHes|n o e IHe|t o IHt
                  |ts IHts|n] using SomeTypeOf_nested_ind;
    intros σ' t'; simpl.
  - open_call IHe. close_call.
  - open_call IHc. open_call IHx. open_call IH1. open_call IH2. close_call.
  - open_call IHo. open_call IHi. close_call.
  - open_call (optM_reads (traverseType f g) (TRel returns built) c IHc). close_call.
  - open_call (mapM_reads (traverseType f g) (TRel returns built) ts IHts). close_call.
  - close_call.
  - close_call.
  - open_call IHpt. open_call IHtp.
    open_call (optM_reads (traverseType f g) (TRel returns built) nt IHnt). close_call.
  - open_call IHe. close_call.
  - open_call (optM_reads (traverseType f g) (TRel returns built) tg IHtg). close_call.
  - open_call IHq. close_call.
  - assert (from_option
              (λ l, ∀ σ' l', mapM (traverseType f g) l σ = (σ', inr l')
                             → σ' = σ ∧ Forall2 (TRel returns built) l l') True args)
      as Hargs.
    { destruct args as [l|]; simpl in *; [|done]. by apply mapM_reads. }
    open_call (optM_reads (mapM (traverseType f g)) (Forall2 (TRel returns built))
                 args Hargs).
    close_call.
  - unfold bind at 1. destruct (f d σ) as [σ1 [?|a]] eqn:Eq; [discriminate|].
    pose proof (f_reads _ _ _ Eq) as ->. close_call.
  - open_call IHe. close_call.
  - assert (Forall
              (λ p, ∀ σ' p', bind (traverseType f g p.1) (λ t', ret (t', p.2)) σ
                             = (σ', inr p')
                             → σ' = σ ∧ TRel returns built p.1 p'.1 ∧ p.2 = p'.2) tl)
      as Htl.
    { eapply Forall_impl; [exact IHtl|]. simpl. intros p IHp σ1 p'.
      open_call IHp. intros [= <- <-]. auto. }
    open_call (mapM_reads (λ p, bind (traverseType f g p.1) (λ t', ret (t', p.2)))
                 (λ p p', TRel returns built p.1 p'.1 ∧ p.2 = p'.2) tl Htl).
    close_call.
  - open_call (mapM_reads (traverseType f g) (TRel returns built) es IHes). close_call.
  - open_call IHe. close_call.
  - open_call IHt. close_call.
  - open_call (mapM_reads (traverseType f g) (TRel returns built) ts IHts). close_call.
  - close_call.
Qed.

Lemma reads_element x : ∀ σ' y, f x σ = (σ', inr y) → σ' = σ ∧ returns x y.
Proof. intros σ' y Eq. pose proof (f_reads _ _ _ Eq) as ->. done. Qed.

Lemma reads_list l :
  ∀ σ' l', mapM f l σ = (σ', inr l') → σ' = σ ∧ Forall2 returns l l'.
Proof. apply mapM_reads. apply Forall_forall. intros x _. apply reads_element. Qed.

Lemma reads_optlist o :
  ∀ σ' o', optM (mapM f) o σ = (σ', inr o') →
           σ' = σ ∧ option_Forall2 (Forall2 returns) o o'.
Proof. apply optM_reads. destruct o; simpl; [apply reads_list|done]. Qed.

Lemma reads_opt o :
  ∀ σ' o', optM f o σ = (σ', inr o') → σ' = σ ∧ option_Forall2 returns o o'.
Proof. apply optM_reads. destruct o; simpl; [apply reads_element|done]. Qed.

Lemma reads_opttype o :
  ∀ σ' o', optM (traverseType f g) o σ = (σ', inr o') →
           σ' = σ ∧ option_Forall2 (TRel returns built) o o'.
Proof. apply optM_reads. destruct o; simpl; [apply traverseType_reads|done]. Qed.

Lemma traverseSlots_reads s :
  ∀ σ' s', traverseSlots f g s σ = (σ', inr s') → σ' = σ ∧ SRel returns built s s'.
Proof.
  intros σ' s'. unfold traverseSlots.
  open_call (reads_optlist (signatures s)). open_call (reads_opt (getSignature s)).
  open_call (reads_opt (setSignature s)). open_call (reads_optlist (parameters s)).
  open_call (reads_optlist (typeParameters s)).
  open_call (reads_optlist (indexSignatures s)).
  open_call (reads_opttype (type s)). open_call (reads_opttype (defaultType s)).
  open_call (reads_optlist (children s)). open_call (reads_optlist (documents s)).
  intros [= <- <-]. split; [done|]. by split.
Qed.

Lemma traverseOwn_reads v s :
  ∀ σ' s', traverseOwn f g v s σ = (σ', inr s') →
           σ' = σ ∧ SRel returns built (ownSlots v s) s'.
Proof.
  intros σ' s'. destruct v; try apply traverseSlots_reads.
  unfold traverseOwn.
  open_call (reads_opttype (type s)). open_call (reads_opttype (defaultType s)).
  intros [= <- <-]. split; [done|]. split; simpl; (done || constructor).
Qed.

End reader_facts.

(** ** Shapes of graphs *)

Section shape_facts.

Import Models Effects Isomorphism.

Lemma SRel_flip_back {D D'} (R : D → D' → Prop) (T : relation ReferenceTarget) s s' :
  SRel (flip R) (flip T) s' s → SRel R T s s'.
Proof.
  intros H. apply SRel_flip in H. eapply SRel_impl; [| |exact H]; auto.
Qed.

Lemma shaped_mono (look look' : Z → option Reflection) strict sh :
  (∀ i o, look i = Some o → look' i = Some o) →
  ∀ par i, shaped look strict par i sh → shaped look' strict par i sh.
Proof.
  intros Hlook. induction sh as [[] n v k sl IH] using TreeOf_nested_ind.
  intros par i Hsh. inversion Hsh as [par' i' o sl' Ho Hp Hs Hc Hg Hcat]; subst.
  apply Shaped; auto.
  apply SRel_flip_back.
  eapply SRel_impl; [| |apply (SRel_left _ _ _ _ _ _ IH (SRel_flip _ _ _ _ Hs))].
  - intros x y [HP Hxy]. apply HP. exact Hxy.
  - auto.
Qed.

Lemma window_mono (h h' : gmap Z Reflection) lo hi lo' hi' :
  lo' ≤ lo → hi ≤ hi' →
  (∀ i, lo ≤ i < hi → h' !! i = h !! i) →
  ∀ i o, window h lo hi i = Some o → window h' lo' hi' i = Some o.
Proof.
  intros Hlo Hhi Hh i o. unfold window.
  destruct (decide (lo ≤ i < hi)) as [Hi|]; [|done].
  rewrite decide_True by lia. by rewrite Hh.
Qed.

Lemma window_full (h : gmap Z Reflection) lo hi :
  ∀ i o, window h lo hi i = Some o → h !! i = Some o.
Proof. intros i o. unfold window. by destruct (decide _). Qed.

End shape_facts.

(** ** More on the file registry *)

Section file_registry_more.

Import FileRegistry.

Local Arguments String.append !_ _ / : simpl nomatch.

Lemma registerAbsolute_stripped r p :
  ∃ q a, registerAbsolute r p = registerStripped r q a.
Proof. unfold registerAbsolute, registerStripped. eauto. Qed.

Lemma kept_registerStripped r p a : kept r → kept (registerStripped r p a).2.
Proof.
  intros [Hn Hi Hp Hu Hd Hm]. unfold registerStripped.
  destruct (pathToMedia r !! p) as [existing|] eqn:E.
  - destruct (Hi _ _ E) as [[? ?] ?].
    rewrite decide_False by lia. by split.
  - split; simpl; try done.
    + lia.
    + intros q id. destruct (decide (q = p)) as [->|Hq].
      * rewrite lookup_insert_eq. intros [= <-]. rewrite lookup_insert_eq.
        split; [lia|done].
      * rewrite lookup_insert_ne by done. intros Hq'.
        destruct (Hi _ _ Hq') as [[? ?] ?].
        rewrite lookup_insert_ne by lia. split; [lia|done].
    + intros id q. destruct (decide (id = nextId r)) as [->|Hid].
      * rewrite lookup_insert_eq. intros [= <-]. by rewrite lookup_insert_eq.
      * rewrite lookup_insert_ne by done. intros Hq'.
        pose proof (Hp _ _ Hq') as Hq''.
        rewrite lookup_insert_ne; [done|]. intros <-. congruence.
    + intros id n Hid. destruct (decide (id = nextId r)) as [->|?].
      * by rewrite lookup_insert_eq.
      * rewrite lookup_insert_ne by done. by eapply Hm.
Qed.

Lemma kept_registerAbsolute r p : kept r → kept (registerAbsolute r p).2.
Proof.
  intros H. destruct (registerAbsolute_stripped r p) as (q & a & ->).
  by apply kept_registerStripped.
Qed.

Lemma kept_frame r r' :
  nextId r' = nextId r → mediaToPath r' = mediaToPath r →
  pathToMedia r' = pathToMedia r → names r' = names r →
  nameUsage r' = nameUsage r → kept r → kept r'.
Proof.
  intros E1 E2 E3 E4 E5 [Hn Hi Hp Hu Hd Hm].
  split; rewrite ?E1, ?E2, ?E3, ?E4, ?E5; done.
Qed.

Lemma freeCounter_free fuel (usage : gmap string Z) name ext :
  ∀ c c', freeCounter fuel usage name ext c = Some c' →
          usage !! suffixed name ext c' = None.
Proof.
  induction fuel as [|fuel IH]; intros c c'; simpl; [done|].
  destruct (usage !! suffixed name ext c) eqn:E; [apply IH|].
  by intros [= <-].
Qed.

(** What [getName] does to a file that has a path and no name yet: the name
    it hands out was not in use, and is recorded for that file alone. *)
Lemma getName_fresh r id n r' :
  getName r id = Some (Some n, r') →
  names r !! id = None →
  nameUsage r !! n = None
  ∧ names r' = <[id := n]> (names r)
  ∧ (∀ m, is_Some (nameUsage r !! m) → is_Some (nameUsage r' !! m))
  ∧ is_Some (nameUsage r' !! n)
  ∧ nextId r' = nextId r ∧ mediaToPath r' = mediaToPath r
  ∧ pathToMedia r' = pathToMedia r.
Proof.
  unfold getName. intros H Hid.
  destruct (mediaToPath r !! id) as [absolute|]; [|done].
  destruct (JsString.truthy absolute); cbn [negb] in H; [|done].
  rewrite Hid in H.
  destruct (nameUsage r !! NormalizedPathUtils.basename absolute) as [k|] eqn:Ek.
  - destruct (NormalizedPathUtils.splitFilename _) as [name ext].
    destruct (freeCounter _ _ _ _ _) as [c|] eqn:Ec; [|done].
    apply freeCounter_free in Ec. injection H as <- <-. simpl.
    split; [done|]. split; [done|]. split; [|split; [|done]].
    + intros m Hm. destruct (decide (m = suffixed name ext c)) as [->|?].
      * by rewrite lookup_insert_eq.
      * rewrite lookup_insert_ne by done.
        destruct (decide (m = NormalizedPathUtils.basename absolute)) as [->|?].
        -- by rewrite lookup_insert_eq.
        -- by rewrite lookup_insert_ne.
    + by rewrite lookup_insert_eq.
  - injection H as <- <-. simpl.
    split; [done|]. split; [done|]. split; [|split; [|done]].
    + intros m Hm. destruct (decide (m = NormalizedPathUtils.basename absolute)) as [->|?].
      * by rewrite lookup_insert_eq.
      * by rewrite lookup_insert_ne.
    + by rewrite lookup_insert_eq.
Qed.

Lemma getName_known r id n r' :
  getName r id = Some (n, r') → is_Some (names r !! id) ∨ n = None → r' = r.
Proof.
  unfold getName. intros H Hid.
  destruct (mediaToPath r !! id) as [absolute|]; [|by injection H as <- <-].
  destruct (JsString.truthy absolute); cbn [negb] in H; [|by injection H as <- <-].
  destruct (names r !! id) as [m|]; [by injection H as <- <-|].
  destruct Hid as [[? [=]]| ->].
  destruct (nameUsage r !! _); [|done].
  destruct (NormalizedPathUtils.splitFilename _).
  by destruct (freeCounter _ _ _ _ _).
Qed.

Lemma getName_named r id n r' :
  getName r id = Some (Some n, r') →
  ∃ p, mediaToPath r !! id = Some p ∧ JsString.truthy p = true.
Proof.
  unfold getName. intros H.
  destruct (mediaToPath r !! id) as [absolute|]; [|done].
  destruct (JsString.truthy absolute) eqn:Et; cbn [negb] in H; [|done]. eauto.
Qed.

Lemma kept_getName r id n r' : kept r → getName r id = Some (n, r') → kept r'.
Proof.
  intros Hk H. destruct (names r !! id) as [m|] eqn:Em.
  { by rewrite (getName_known _ _ _ _ H) by eauto. }
  destruct n as [n|]; [|by rewrite (getName_known _ _ _ _ H) by eauto].
  destruct (getName_fresh _ _ _ _ H Em) as (Hfree & Hnames & Hmono & Hn & E1 & E2 & E3).
  destruct (getName_named _ _ _ _ H) as (pth & Hpth & _).
  destruct Hk as [Hnx Hi Hp Hu Hd Hm].
  split; rewrite ?E1, ?E2, ?E3, ?Hnames; try done.
  - intros a m. destruct (decide (a = id)) as [->|?].
    + rewrite lookup_insert_eq. by intros [= <-].
    + rewrite lookup_insert_ne by done. intros Ha. apply Hmono. by eapply Hu.
  - assert (∀ a, names r !! a ≠ Some n) as Hnew.
    { intros a Ha. apply Hu in Ha. rewrite Hfree in Ha. by destruct Ha. }
    intros a b m. destruct (decide (a = id)) as [->|?], (decide (b = id)) as [->|?];
      rewrite ?lookup_insert_eq, ?lookup_insert_ne by done; try done.
    + intros [= <-] Hb. by destruct (Hnew b).
    + intros Ha [= <-]. by destruct (Hnew a).
    + apply Hd.
  - intros a m. destruct (decide (a = id)) as [->|?].
    + by rewrite Hpth.
    + rewrite lookup_insert_ne by done. apply Hm.
Qed.

Lemma reachable_kept r : reachable r → kept r.
Proof.
  induction 1 as [|r p _ IH|r p refl _ IH|r p refl _ IH|r refl _ IH|r id n r' _ IH H].
  - split; simpl; try done; intros ? ?; by rewrite lookup_empty.
  - by apply kept_registerAbsolute.
  - unfold registerReflection.
    pose proof (kept_registerAbsolute r p IH) as Hk.
    destruct (registerAbsolute r p) as [res r1]. by eapply kept_frame; [..|exact Hk].
  - unfold registerReflectionPath.
    pose proof (kept_registerAbsolute r p IH) as Hk.
    destruct (registerAbsolute r p) as [res r1]. by eapply kept_frame; [..|exact Hk].
  - unfold removeReflection.
    destruct (reflectionToPath r !! refl) as [abs|]; [|done].
    destruct (JsString.truthy abs); [|done].
    destruct (pathToMedia r !! abs); by eapply kept_frame; [..|exact IH].
  - by eapply kept_getName.
Qed.

Lemma registerStripped_lookup r p a :
  kept r →
  mediaToPath (registerStripped r p a).2 !! target (registerStripped r p a).1 = Some p
  ∧ pathToMedia (registerStripped r p a).2 !! p = Some (target (registerStripped r p a).1)
  ∧ ∀ id q, mediaToPath r !! id = Some q →
            mediaToPath (registerStripped r p a).2 !! id = Some q.
Proof.
  intros Hk. pose proof (kept_registerStripped r p a Hk) as Hk'.
  destruct (registerStripped_spec r p a (kept_next r Hk)) as (Hp & _ & _).
  split; [by apply (kept_ids _ Hk')|]. split; [done|].
  intros id q Hq. unfold registerStripped.
  destruct (pathToMedia r !! p) as [existing|] eqn:E.
  - destruct (kept_ids r Hk _ _ E) as [[? ?] ?]. by rewrite decide_False by lia.
  - simpl. rewrite lookup_insert_ne; [done|].
    destruct (kept_ids r Hk _ _ (kept_paths r Hk _ _ Hq)) as [[? ?] ?]. lia.
Qed.

(** X1: in a registry built from [new FileRegistry()], registering a path
    without anchor gives an id under which [resolvePath] finds that path;
    the ids that were there keep their paths; and no other id has that
    path. *)
Theorem registerAbsolute_resolvePath (r : t) (p : string) :
  reachable r →
  JsString.contains "#" p = false →
  let res := registerAbsolute r p in
  resolvePath res.2 (target res.1) = Some p
  ∧ (∀ id q, resolvePath r id = Some q → resolvePath res.2 id = Some q)
  ∧ (∀ id, resolvePath res.2 id = Some p → id = target res.1).
Proof.
  intros Hr Hp res. subst res. rewrite (registerAbsolute_plain r p Hp).
  pose proof (reachable_kept r Hr) as Hk.
  destruct (registerStripped_lookup r p None Hk) as (H1 & H2 & H3).
  unfold resolvePath. split; [done|]. split; [done|].
  intros id Hid.
  pose proof (kept_paths _ (kept_registerStripped r p None Hk) _ _ Hid) as Hid'.
  congruence.
Qed.

Lemma registerAbsolute_resolvePath_witness :
  resolvePath (registerAbsolute empty "/a/b.md").2 1 = Some "/a/b.md"
  ∧ ∀ id, resolvePath (registerAbsolute empty "/a/b.md").2 id = Some "/a/b.md" → id = 1.
Proof.
  destruct (registerAbsolute_resolvePath empty "/a/b.md" reach_empty eq_refl)
    as (H1 & _ & H3).
  split; [exact H1|exact H3].
Defined.

(** X2: once a path without anchor is registered for a reflection, by
    [registerReflectionPath] or by [registerReflection], [resolve] of its
    file id gives what the project holds under the id of the reflection:
    the reflection, or [undefined] when the project does not hold it, not
    the path.  A reflection with the id 0 is taken for none, and the path
    is returned. *)
Theorem resolve_registered_reflection {R : Type} (r : t) (p : string) (refl : Z)
    (getReflectionById : Z → option R) :
  reachable r →
  JsString.contains "#" p = false →
  let id := target (registerAbsolute r p).1 in
  let found :=
    if decide (refl = 0) then ResolvedPath p
    else match getReflectionById refl with
         | Some o => ResolvedReflection o
         | None => ResolvedUndefined
         end in
  resolve (registerReflectionPath r p refl) id getReflectionById = found
  ∧ resolve (registerReflection r p refl) id getReflectionById = found.
Proof.
  intros Hr Hp id found. subst id found.
  pose proof (reachable_kept r Hr) as Hk.
  unfold registerReflectionPath, registerReflection.
  rewrite (registerAbsolute_plain r p Hp).
  destruct (registerStripped_lookup r p None Hk) as (H1 & _ & _).
  destruct (registerStripped r p None) as [res r1]. simpl in *.
  unfold resolve. simpl. rewrite !lookup_insert_eq, H1. done.
Qed.

Lemma resolve_registered_reflection_witness :
  resolve (registerReflectionPath empty "/a/b.md" 7) 1 (λ i, Some i)
  = ResolvedReflection 7
  ∧ resolve (registerReflectionPath empty "/a/b.md" 0) 1 (λ i, Some i)
    = ResolvedPath "/a/b.md"
  ∧ resolve (registerReflection empty "/a/b.md" 7) 1 (λ _, @None Z)
    = ResolvedUndefined.
Proof.
  split; [|split].
  - exact (proj1 (resolve_registered_reflection empty "/a/b.md" 7 (λ i, Some i)
                    reach_empty eq_refl)).
  - exact (proj1 (resolve_registered_reflection empty "/a/b.md" 0 (λ i, Some i)
                    reach_empty eq_refl)).
  - exact (proj2 (resolve_registered_reflection empty "/a/b.md" 7 (λ _, None)
                    reach_empty eq_refl)).
Defined.

(** X3: [removeReflection] undoes the association that
    [registerReflection] made for a path without anchor that is not empty:
    the file id resolves to the path again, and the other file ids resolve
    as before.  For the empty path it does nothing.  In both cases it does
    not forget the canonical path: [getReflectionPath] still returns it. *)
Theorem removeReflection_after_registerReflection {R : Type} (r : t) (p : string)
    (refl : Z) (getReflectionById : Z → option R) :
  reachable r →
  JsString.contains "#" p = false →
  let id := target (registerAbsolute r p).1 in
  let r1 := registerReflection r p refl in
  (if JsString.truthy p then
     resolve (removeReflection r1 refl) id getReflectionById = ResolvedPath p
     ∧ ∀ id', id' ≠ id →
         resolve (removeReflection r1 refl) id' getReflectionById
         = resolve r1 id' getReflectionById
   else removeReflection r1 refl = r1)
  ∧ getReflectionPath (removeReflection r1 refl) refl = Some p.
Proof.
  intros Hr Hp id r1. subst id r1.
  pose proof (reachable_kept r Hr) as Hk.
  unfold registerReflection.
  rewrite (registerAbsolute_plain r p Hp).
  destruct (registerStripped_lookup r p None Hk) as (H1 & H2 & _).
  destruct (registerStripped r p None) as [res r1]. simpl in *.
  unfold removeReflection. simpl. rewrite lookup_insert_eq.
  destruct (JsString.truthy p).
  - rewrite H2. unfold resolve, getReflectionPath. simpl.
    rewrite lookup_delete_eq, H1, lookup_insert_eq.
    split; [|done]. split; [done|].
    intros id' Hid'. by rewrite lookup_delete_ne by done.
  - split; [done|]. unfold getReflectionPath. simpl. by rewrite lookup_insert_eq.
Qed.

Lemma removeReflection_after_registerReflection_witness :
  resolve (removeReflection (registerReflection empty "/a/b.md" 7) 7) 1 (λ i, Some i)
  = ResolvedPath "/a/b.md"
  ∧ getReflectionPath (removeReflection (registerReflection empty "/a/b.md" 7) 7) 7
    = Some "/a/b.md".
Proof.
  destruct (removeReflection_after_registerReflection empty "/a/b.md" 7 (λ i, Some i)
              reach_empty eq_refl) as ((H1 & _) & H2).
  split; [exact H1|exact H2].
Defined.

(** X4: in a registry built from [new FileRegistry()] no two files have the
    same display name. *)
Theorem display_names_distinct (r : t) (a b : Z) (n : string) :
  reachable r → a ≠ b → names r !! a = Some n → names r !! b ≠ Some n.
Proof.
  intros Hr Hab Ha Hb. apply Hab.
  exact (kept_distinct r (reachable_kept r Hr) _ _ _ Ha Hb).
Qed.

Lemma reachable_getNames ids :
  ∀ r ns r', reachable r → getNames r ids = Some (ns, r') → reachable r'.
Proof.
  induction ids as [|i ids IH]; intros r ns r' Hr; simpl.
  - by intros [= _ <-].
  - destruct (getName r i) as [[n r1]|] eqn:E; [|done].
    destruct (getNames r1 ids) as [[ns' r2]|] eqn:E2; [|done].
    intros [= _ <-]. eapply IH; [|done]. by eapply reach_getName.
Qed.

Lemma reachable_threeIndexFilesNamed : reachable threeIndexFilesNamed.
Proof.
  apply (reachable_getNames [1; 2; 3] threeIndexFiles
           [Some "index.md"; Some "index-1.md"; Some "index-2.md"]).
  - do 3 apply reach_registerAbsolute. apply reach_empty.
  - vm_compute. reflexivity.
Qed.

Lemma display_names_distinct_witness :
  names threeIndexFilesNamed !! 2 = Some "index-1.md"
  ∧ names threeIndexFilesNamed !! 3 ≠ Some "index-1.md".
Proof.
  assert (names threeIndexFilesNamed !! 2 = Some "index-1.md") as H2
    by (vm_compute; reflexivity).
  split; [exact H2|].
  apply (display_names_distinct threeIndexFilesNamed 2 3 "index-1.md").
  - exact reachable_threeIndexFilesNamed.
  - lia.
  - exact H2.
Defined.

(** X5: [getName] always returns: the loop that looks for a free counter
    ends.  It returns [undefined] exactly for a file id that has no path or
    the empty path, and then leaves the registry as it was.  Asked again, it
    returns the same name and changes nothing. *)
Theorem getName_returns (r : t) (id : Z) :
  ∃ n r',
    getName r id = Some (n, r')
    ∧ (n = None ↔ mediaToPath r !! id = None ∨ mediaToPath r !! id = Some "")
    ∧ (n = None → r' = r)
    ∧ getName r' id = Some (n, r').
Proof.
  destruct (getName_total r id) as [[n r'] H]. exists n, r'. split; [done|].
  split; [|split].
  - destruct n as [n|].
    + destruct (getName_named _ _ _ _ H) as (p & Hp & Ht).
      split; [done|]. intros [E|E]; rewrite E in Hp; [done|].
      injection Hp as <-. done.
    + split; [|done]. intros _. unfold getName in H.
      destruct (mediaToPath r !! id) as [[|c p]|]; [by right| |by left].
      cbn [JsString.truthy negb] in H. destruct (names r !! id); [done|].
      destruct (nameUsage r !! _); [|done].
      destruct (NormalizedPathUtils.splitFilename _).
      destruct (freeCounter _ _ _ _ _); discriminate H.
  - intros ->. eapply getName_known; eauto.
  - destruct (names r !! id) as [m|] eqn:Em.
    { by pose proof (getName_known _ _ _ _ H ltac:(eauto)) as ->. }
    destruct n as [n|]; [|by pose proof (getName_known _ _ _ _ H ltac:(eauto)) as ->].
    destruct (getName_fresh _ _ _ _ H Em) as (_ & Hnames & _ & _ & _ & E2 & _).
    destruct (getName_named _ _ _ _ H) as (p & Hp & Ht).
    unfold getName. rewrite E2, Hp, Ht, Hnames, lookup_insert_eq. done.
Qed.

Lemma getNameToAbsoluteMap_lookup r (l : list (Z * string)) :
  ∀ (acc : gmap string (option string)) n,
    foldl (λ result entry, <[entry.2 := mediaToPath r !! entry.1]> result) acc l !! n
    = match last (filter (λ entry, entry.2 = n) l) with
      | Some entry => Some (mediaToPath r !! entry.1)
      | None => acc !! n
      end.
Proof.
  induction l as [|[i m] l IH]; intros acc n; [done|].
  cbn [foldl]. rewrite IH. rewrite filter_cons. simpl.
  destruct (decide (m = n)) as [->|Hm].
  - rewrite last_cons. destruct (last _); [done|]. by rewrite lookup_insert_eq.
  - destruct (last _); [done|]. by rewrite lookup_insert_ne.
Qed.

(** X6: in a registry built from [new FileRegistry()], the map that
    [getNameToAbsoluteMap] returns has exactly the display names that were
    handed out for keys, each with the path of the one file that has this
    name; no value is [undefined]. *)
Theorem getNameToAbsoluteMap_names (r : t) (entries : list (Z * string)) :
  reachable r →
  entries ≡ₚ map_to_list (names r) →
  (∀ id n, names r !! id = Some n →
     ∃ p, resolvePath r id = Some p
          ∧ getNameToAbsoluteMap r entries !! n = Some (Some p))
  ∧ (∀ n v, getNameToAbsoluteMap r entries !! n = Some v →
       ∃ id p, names r !! id = Some n ∧ resolvePath r id = Some p ∧ v = Some p).
Proof.
  intros Hr Hperm. pose proof (reachable_kept r Hr) as Hk.
  assert (∀ i m, (i, m) ∈ entries ↔ names r !! i = Some m) as Hin.
  { intros i m. rewrite Hperm. apply elem_of_map_to_list. }
  assert (∀ n, match last (filter (λ entry : Z * string, entry.2 = n) entries) with
               | Some entry => names r !! entry.1 = Some n
               | None => ∀ i, names r !! i ≠ Some n
               end) as Hlast.
  { intros n. destruct (last _) as [[i m]|] eqn:El.
    - apply last_Some_elem_of, list_elem_of_filter in El as [E Hi]. simpl in E.
      subst m. by apply Hin.
    - apply last_None in El. intros i Hi. apply Hin in Hi.
      assert ((i, n) ∈ filter (λ entry : Z * string, entry.2 = n) entries) as Hf
        by (by apply list_elem_of_filter).
      rewrite El in Hf. by apply elem_of_nil in Hf. }
  unfold getNameToAbsoluteMap, resolvePath. split.
  - intros i n Hi. destruct (kept_named r Hk _ _ Hi) as [p Hp].
    exists p. split; [done|]. rewrite getNameToAbsoluteMap_lookup.
    specialize (Hlast n). destruct (last _) as [[j m]|]; simpl in *.
    + by rewrite (kept_distinct r Hk _ _ _ Hlast Hi), Hp.
    + by destruct (Hlast i).
  - intros n v. rewrite getNameToAbsoluteMap_lookup.
    specialize (Hlast n). destruct (last _) as [[j m]|]; simpl in *.
    + intros [= <-]. destruct (kept_named r Hk _ _ Hlast) as [p Hp].
      exists j, p. by rewrite Hp.
    + by rewrite lookup_empty.
Qed.

Lemma getNameToAbsoluteMap_names_witness :
  getNameToAbsoluteMap threeIndexFilesNamed
    [(1, "index.md"); (2, "index-1.md"); (3, "index-2.md")] !! "index-1.md"
  = Some (Some "/b/index.md").
Proof.
  assert ([(1, "index.md"); (2, "index-1.md"); (3, "index-2.md")]
          ≡ₚ map_to_list (names threeIndexFilesNamed)) as Hp.
  { vm_compute. symmetry.
    exact (reverse_Permutation [(1, "index.md"); (2, "index-1.md"); (3, "index-2.md")]). }
  destruct (proj1 (getNameToAbsoluteMap_names _ _ reachable_threeIndexFilesNamed Hp)
              2 "index-1.md" eq_refl) as (p & Hp1 & Hp2).
  vm_compute in Hp1. injection Hp1 as <-. exact Hp2.
Defined.

(** X18: for a reflection whose canonical path is not empty and holds no
    [#], and a second, different path without [#] that
    [registerReflectionPath] gave it (in a registry built from [new
    FileRegistry()]): [removeReflection] drops the association of the
    canonical path, whose file resolves to the path again, and that
    association only.  The second path keeps pointing at the reflection:
    its file id still resolves through the project, to the reflection, or
    to [undefined] once the project has dropped the reflection (to the
    path for the reflection with the id 0). *)
Theorem removeReflection_keeps_other_paths {R : Type} (r : t) (p1 p2 : string)
    (refl : Z) (getReflectionById : Z → option R) :
  reachable r →
  JsString.contains "#" p1 = false →
  JsString.contains "#" p2 = false →
  JsString.truthy p1 = true →
  p1 ≠ p2 →
  let r1 := registerReflection r p1 refl in
  let id1 := target (registerAbsolute r p1).1 in
  let id2 := target (registerAbsolute r1 p2).1 in
  let r3 := removeReflection (registerReflectionPath r1 p2 refl) refl in
  id1 ≠ id2
  ∧ resolve r3 id1 getReflectionById = ResolvedPath p1
  ∧ mediaToReflection r3 !! id2 = Some refl
  ∧ resolve r3 id2 getReflectionById
    = if decide (refl = 0) then ResolvedPath p2
      else match getReflectionById refl with
           | Some o => ResolvedReflection o
           | None => ResolvedUndefined
           end.
Proof.
  intros Hr Hp1 Hp2 Ht Hne r1 id1 id2 r3. subst r3 id2 id1 r1.
  pose proof (reachable_kept _ (reach_registerReflection r p1 refl Hr)) as Hk1.
  pose proof (reachable_kept r Hr) as Hk.
  unfold registerReflectionPath.
  rewrite (registerAbsolute_plain (registerReflection r p1 refl) p2 Hp2).
  destruct (registerStripped_lookup (registerReflection r p1 refl) p2 None Hk1)
    as (H2 & _ & Hold).
  pose proof (kept_registerStripped _ p2 None Hk1) as Hk2.
  assert (mediaToPath (registerReflection r p1 refl) !! target (registerAbsolute r p1).1
          = Some p1
          ∧ reflectionToPath (registerReflection r p1 refl) !! refl = Some p1
          ∧ mediaToReflection (registerReflection r p1 refl)
              !! target (registerAbsolute r p1).1 = Some refl) as (Hm1 & Hc1 & Ha1).
  { unfold registerReflection. rewrite (registerAbsolute_plain r p1 Hp1).
    destruct (registerStripped_lookup r p1 None Hk) as (H1 & _ & _).
    destruct (registerStripped r p1 None) as [res ra]. simpl in *.
    by rewrite !lookup_insert_eq. }
  set (id1 := target (registerAbsolute r p1).1) in *.
  set (r1 := registerReflection r p1 refl) in *.
  assert (reflectionToPath (registerStripped r1 p2 None).2 = reflectionToPath r1
          ∧ mediaToReflection (registerStripped r1 p2 None).2 = mediaToReflection r1)
    as [Hc2 Ha2].
  { unfold registerStripped. destruct (pathToMedia r1 !! p2); [case_decide|]; done. }
  apply Hold in Hm1.
  destruct (registerStripped r1 p2 None) as [res rb]. simpl in *.
  assert (id1 ≠ target res) as Hids by congruence.
  split; [done|].
  unfold removeReflection. simpl. rewrite Hc2, Hc1, Ht.
  rewrite (kept_paths _ Hk2 _ _ Hm1).
  unfold resolve. simpl.
  rewrite lookup_delete_eq, Hm1, lookup_delete_ne, lookup_insert_eq, H2 by done.
  done.
Qed.

Lemma removeReflection_keeps_other_paths_witness :
  resolve
    (removeReflection
       (registerReflectionPath (registerReflection empty "/a/b.md" 7) "/a/c.md" 7) 7)
    2 (λ _, @None Z)
  = ResolvedUndefined.
Proof.
  refine (proj2 (proj2 (proj2 (removeReflection_keeps_other_paths empty "/a/b.md"
            "/a/c.md" 7 (λ _, None) reach_empty eq_refl eq_refl eq_refl _)))).
  discriminate.
Defined.

End file_registry_more.

(** ** The revival of the file registry *)

Section files_revival.

Import Models Effects Deserializer.

Variable resolve : string → string → string.

Local Notation registerEntry := (Deserializer.registerEntry resolve).
Local Notation filesFromObject := (Deserializer.filesFromObject resolve).
Local Notation filesOf e := (ProjectReflection.files (world e)).

Local Notation registerStep :=
  (λ (e : Env) (entry : Z * string),
     set_maps (oldIdToNewId e)
       (<[entry.1 :=
            FileRegistry.target
              (FileRegistry.registerAbsolute (filesOf e)
                 (resolve (default "" (projectRoot e)) entry.2)).1]>
          (oldFileIdToNewFileId e))
       (set_world
          (ProjectReflection.set_files
             (λ _, (FileRegistry.registerAbsolute (filesOf e)
                      (resolve (default "" (projectRoot e)) entry.2)).2)) e)).

Lemma forEachM_registerEntry es :
  ∀ de, forEachM registerEntry es de
        = ({| env := foldl registerStep (env de) es; deferred := deferred de |}, inr tt).
Proof.
  induction es as [|[fileId path] es IH]; intros [e q]; [done|].
  cbn [forEachM foldl]. unfold bind, Deserializer.registerEntry at 1, modifyEnv.
  cbn [env deferred]. rewrite IH. cbn [env deferred fst snd].
  by destruct (FileRegistry.registerAbsolute _ _).
Qed.

Lemma registerEntries_spec root es :
  ∀ e,
    projectRoot e = Some root →
    FileRegistry.reachable (filesOf e) →
    NoDup es.*1 →
    let e' := foldl registerStep e es in
    e' = set_maps (oldIdToNewId e) (oldFileIdToNewFileId e')
           (set_world (ProjectReflection.set_files (λ _, filesOf e')) e)
    ∧ FileRegistry.reachable (filesOf e')
    ∧ FileRegistry.mediaToReflection (filesOf e')
      = FileRegistry.mediaToReflection (filesOf e)
    ∧ (∀ id q, FileRegistry.resolvePath (filesOf e) id = Some q →
               FileRegistry.resolvePath (filesOf e') id = Some q)
    ∧ (∀ fileId, fileId ∉ es.*1 →
         oldFileIdToNewFileId e' !! fileId = oldFileIdToNewFileId e !! fileId)
    ∧ (∀ fileId path, (fileId, path) ∈ es →
         ∃ id, oldFileIdToNewFileId e' !! fileId = Some id
               ∧ FileRegistry.resolvePath (filesOf e') id
                 = Some (FileRegistry.withoutAnchor (resolve root path))).
Proof.
  induction es as [|[k p] es IH]; intros e Hroot Hr Hnd; cbn [foldl].
  - cbv zeta. split.
    { destruct e as [w ? ? ? ? ? ? ?]; destruct w; reflexivity. }
    split; [done|]. split; [done|]. split; [done|]. split; [done|].
    intros ? ? H. by apply elem_of_nil in H.
  - apply NoDup_cons in Hnd as [Hk Hnd].
    cbn [fst snd] in *. rewrite Hroot in *. cbn [default] in *.
    pose proof (FileRegistry.reach_registerAbsolute _ (resolve root p) Hr) as Hr1.
    pose proof (reachable_kept _ Hr) as Hkept.
    destruct (registerAbsolute_withoutAnchor (filesOf e) (resolve root p))
      as [a Hplain].
    destruct (registerStripped_lookup (filesOf e)
                (FileRegistry.withoutAnchor (resolve root p)) a Hkept)
      as (H1 & _ & H3).
    rewrite <- Hplain in H1, H3.
    set (e1 := set_maps _ _ _) in *.
    assert (projectRoot e1 = Some root) as Hroot1 by done.
    destruct (IH e1 Hroot1 Hr1 Hnd) as (Hf & Hr' & Hm & Hold & Hkeep & Hnew).
    cbv zeta. split; [|split; [done|split; [|split; [|split]]]].
    + rewrite Hf at 1. destruct e as [w ? ? ? ? ? ? ?]; destruct w; reflexivity.
    + rewrite Hm. subst e1. cbn.
      rewrite Hplain. unfold FileRegistry.registerStripped.
      destruct (FileRegistry.pathToMedia _ !! _); [case_decide|]; done.
    + intros id q Hq. apply Hold. by apply H3.
    + intros fileId Hn. apply not_elem_of_cons in Hn as [Hn1 Hn2].
      rewrite (Hkeep _ Hn2). subst e1. cbn. by rewrite lookup_insert_ne.
    + intros fileId path [[= -> ->]|Hin]%elem_of_cons.
      * eexists. split.
        -- rewrite (Hkeep _ Hk). subst e1. cbn. by rewrite lookup_insert_eq.
        -- apply Hold. exact H1.
      * by apply Hnew.
Qed.

(** X7: [FileRegistry.fromObject] registers the resolved path of every
    entry on the wire and records the id that the file gets, so that every
    old file id is translated to a file whose path is the resolved path up
    to its first [#] (the resolved path itself when it holds no [#]).  It
    returns, with one callback deferred; file ids that were registered
    before keep their paths, the associations with reflections are not yet
    touched, and nothing else of the deserializer changes. *)
Theorem filesFromObject_translates (obj : WireFileRegistry) (es : list (Z * string))
    (root : string) (de : De) :
  entries obj = Some es →
  projectRoot (env de) = Some root →
  FileRegistry.reachable (filesOf (env de)) →
  NoDup es.*1 →
  let res := filesFromObject obj de in
  let files' := filesOf (env res.1) in
  res.2 = inr tt
  ∧ (∃ cb, deferred res.1 = deferred de ++ [cb])
  ∧ env res.1
    = set_maps (oldIdToNewId (env de)) (oldFileIdToNewFileId (env res.1))
        (set_world (ProjectReflection.set_files (λ _, files')) (env de))
  ∧ FileRegistry.mediaToReflection files'
    = FileRegistry.mediaToReflection (filesOf (env de))
  ∧ (∀ id q, FileRegistry.resolvePath (filesOf (env de)) id = Some q →
             FileRegistry.resolvePath files' id = Some q)
  ∧ (∀ fileId, fileId ∉ es.*1 →
       oldFileIdToNewFileId (env res.1) !! fileId
       = oldFileIdToNewFileId (env de) !! fileId)
  ∧ (∀ fileId path, (fileId, path) ∈ es →
       ∃ id, oldFileIdToNewFileId (env res.1) !! fileId = Some id
             ∧ FileRegistry.resolvePath files' id
               = Some (FileRegistry.withoutAnchor (resolve root path)))
  ∧ (∀ p, JsString.contains "#" p = false → FileRegistry.withoutAnchor p = p)
  ∧ (∀ p a, JsString.contains "#" p = false →
            FileRegistry.withoutAnchor (p +:+ "#" +:+ a) = p).
Proof.
  intros Hes Hroot Hr Hnd.
  destruct (registerEntries_spec root es (env de) Hroot Hr Hnd)
    as (Hf & _ & Hm & Hold & Hkeep & Hnew).
  unfold Deserializer.filesFromObject. rewrite Hes. unfold bind.
  rewrite forEachM_registerEntry. unfold defer. cbn [env deferred fst snd].
  split; [done|]. split; [by eexists|].
  do 5 (split; [done|]).
  split; [exact withoutAnchor_plain|exact withoutAnchor_anchored].
Qed.

Lemma withAssociations_same e :
  withAssociations (FileRegistry.mediaToReflection (filesOf e))
    (FileRegistry.undefinedMedia (filesOf e)) e = e.
Proof. destruct e as [w ? ? ? ? ? ? ?]; destruct w as [? ? ? ? ? ? ? f]; by destruct f. Qed.

Lemma fixupFileReflection_step e m u k r :
  ∃ m1 u1,
    fixupFileReflection (withAssociations m u e) (k, r) = withAssociations m1 u1 e
    ∧ m1 = match restoredReflection e r, oldFileIdToNewFileId e !! k with
           | Some o, Some f => <[f := id o]> m
           | _, _ => m
           end.
Proof.
  unfold fixupFileReflection, restoredReflection.
  change (oldIdToNewId (withAssociations m u e)) with (oldIdToNewId e).
  change (oldFileIdToNewFileId (withAssociations m u e)) with (oldFileIdToNewFileId e).
  destruct (oldIdToNewId e !! r) as [i|]; [|by exists m, u].
  change (ProjectReflection.getReflectionById (world (withAssociations m u e)) i)
    with (ProjectReflection.getReflectionById (world e) i).
  destruct (ProjectReflection.getReflectionById (world e) i) as [o|]; [|by exists m, u].
  destruct (oldFileIdToNewFileId e !! k) as [f|].
  - by exists (<[f := id o]> m), u.
  - by exists m, (Some (id o)).
Qed.

Lemma fixupFileReflection_fold e rs :
  ∀ m u, ∃ m' u',
    foldl fixupFileReflection (withAssociations m u e) rs = withAssociations m' u' e
    ∧ (∀ f, m' !! f = m !! f
            ∨ ∃ k r o, (k, r) ∈ rs ∧ oldFileIdToNewFileId e !! k = Some f
                       ∧ restoredReflection e r = Some o ∧ m' !! f = Some (id o))
    ∧ (∀ k r f o,
         (k, r) ∈ rs → oldFileIdToNewFileId e !! k = Some f →
         restoredReflection e r = Some o →
         ∃ k' r' o', (k', r') ∈ rs ∧ oldFileIdToNewFileId e !! k' = Some f
                     ∧ restoredReflection e r' = Some o' ∧ m' !! f = Some (id o')).
Proof.
  induction rs as [|[k0 r0] rs IH]; intros m u; cbn [foldl].
  - exists m, u. split; [done|]. split; [by left|].
    intros ? ? ? ? H. by apply elem_of_nil in H.
  - destruct (fixupFileReflection_step e m u k0 r0) as (m1 & u1 & -> & Hm1).
    destruct (IH m1 u1) as (m' & u' & -> & H1 & H2).
    exists m', u'. split; [done|].
    assert (∀ f, m' !! f = m1 !! f
                 ∨ ∃ k r o, (k, r) ∈ (k0, r0) :: rs
                            ∧ oldFileIdToNewFileId e !! k = Some f
                            ∧ restoredReflection e r = Some o
                            ∧ m' !! f = Some (id o)) as H1'.
    { intros f. destruct (H1 f) as [E|(k & r & o & Hin & ?)]; [by left|right].
      exists k, r, o. split; [by right|done]. }
    split.
    + intros f. destruct (H1' f) as [E|?]; [|by right]. rewrite E, Hm1.
      destruct (restoredReflection e r0) as [o|] eqn:Eo; [|by left].
      destruct (oldFileIdToNewFileId e !! k0) as [f0|] eqn:Ef; [|by left].
      destruct (decide (f = f0)) as [->|?].
      * right. exists k0, r0, o. rewrite lookup_insert_eq.
        split; [by left|done].
      * left. by rewrite lookup_insert_ne.
    + intros k r f o [[= -> ->]|Hin]%elem_of_cons Hf Ho.
      * destruct (H1' f) as [E|?]; [|done].
        exists k0, r0, o. rewrite E, Hm1, Ho, Hf, lookup_insert_eq.
        split; [by left|done].
      * destruct (H2 _ _ _ _ Hin Hf Ho) as (k' & r' & o' & ? & ?).
        exists k', r', o'. split; [by right|done].
Qed.

(** X8: the callback that [FileRegistry.fromObject] defers.  Without
    [reflections] on the wire it throws.  Otherwise it returns, queues
    nothing and logs nothing, and changes the associations of the registry
    only: a file is associated with a reflection only by an entry whose
    reflection id translates to a reflection of the project; a file for
    which there is no such entry keeps what it had; and a file for which
    the entries name one reflection id that does translate is associated
    with that reflection. *)
Theorem fileReflections_fixup (obj : WireFileRegistry) (es : list (Z * string))
    (de : De) (cb : Deferred) (e : Env) :
  entries obj = Some es →
  last (deferred (filesFromObject obj de).1) = Some cb →
  match wireReflections obj with
  | None =>
      runDeferred cb e
      = {| res_env := e; res_deferred := [];
           res_thrown := Some (TypeError "Cannot convert undefined or null to object") |}
  | Some rs =>
      ∃ m u,
        runDeferred cb e
        = {| res_env := withAssociations m u e; res_deferred := []; res_thrown := None |}
        ∧ (∀ f i, m !! f = Some i →
             FileRegistry.mediaToReflection (filesOf e) !! f = Some i
             ∨ ∃ fileId reflId o,
                 (fileId, reflId) ∈ rs ∧ oldFileIdToNewFileId e !! fileId = Some f
                 ∧ restoredReflection e reflId = Some o ∧ i = id o)
        ∧ (∀ f,
             (∀ fileId reflId, (fileId, reflId) ∈ rs →
                oldFileIdToNewFileId e !! fileId = Some f →
                restoredReflection e reflId = None) →
             m !! f = FileRegistry.mediaToReflection (filesOf e) !! f)
        ∧ (∀ fileId reflId f o,
             (fileId, reflId) ∈ rs → oldFileIdToNewFileId e !! fileId = Some f →
             restoredReflection e reflId = Some o →
             (∀ fileId' reflId', (fileId', reflId') ∈ rs →
                oldFileIdToNewFileId e !! fileId' = Some f → reflId' = reflId) →
             m !! f = Some (id o))
  end.
Proof.
  intros Hes Hcb. unfold Deserializer.filesFromObject in Hcb. rewrite Hes in Hcb.
  unfold bind in Hcb. rewrite forEachM_registerEntry in Hcb.
  unfold defer in Hcb. cbn [env deferred fst snd] in Hcb.
  rewrite last_snoc in Hcb. injection Hcb as <-. cbn [runDeferred].
  destruct (wireReflections obj) as [rs|]; [|done].
  destruct (fixupFileReflection_fold e rs
              (FileRegistry.mediaToReflection (filesOf e))
              (FileRegistry.undefinedMedia (filesOf e))) as (m & u & Hm & H1 & H2).
  rewrite withAssociations_same in Hm.
  exists m, u. rewrite Hm. split; [done|]. split; [|split].
  - intros f i Hi. destruct (H1 f) as [E|(k & r & o & ? & ? & ? & E)].
    + left. by rewrite <- E.
    + right. exists k, r, o. rewrite E in Hi. by injection Hi as <-.
  - intros f Hnone. destruct (H1 f) as [E|(k & r & o & Hin & Hf & Ho & _)]; [done|].
    rewrite (Hnone _ _ Hin Hf) in Ho. discriminate Ho.
  - intros k r f o Hin Hf Ho Huniq.
    destruct (H2 _ _ _ _ Hin Hf Ho) as (k' & r' & o' & Hin' & Hf' & Ho' & E).
    rewrite (Huniq _ _ Hin' Hf') in Ho'. rewrite Ho in Ho'. by injection Ho' as <-.
Qed.
End files_revival.

Section files_revival_samples.
Import Models Effects Deserializer.

Lemma filesFromObject_translates_witness :
  (∃ id, oldFileIdToNewFileId
           (env (filesFromObject String.append sampleFiles sampleReviving).1) !! 6
         = Some id
         ∧ FileRegistry.resolvePath
             (ProjectReflection.files
                (world (env (filesFromObject String.append sampleFiles sampleReviving).1)))
             id = Some "/docs/b.md")
  ∧ ∃ id, oldFileIdToNewFileId
            (env (filesFromObject String.append sampleAnchoredFiles sampleReviving).1) !! 7
          = Some id
          ∧ FileRegistry.resolvePath
              (ProjectReflection.files
                 (world (env (filesFromObject String.append sampleAnchoredFiles
                                sampleReviving).1)))
              id = Some "/docs/c.md".
Proof.
  split.
  - assert (NoDup [(5, "a.md"); (6, "b.md")].*1) as Hnd.
    { apply (bool_decide_unpack _). vm_compute. exact I. }
    destruct (filesFromObject_translates String.append sampleFiles _ "/docs/"
                sampleReviving eq_refl eq_refl FileRegistry.reach_empty Hnd)
      as (_ & _ & _ & _ & _ & _ & H & _).
    apply (H 6 "b.md"). apply list_elem_of_further, list_elem_of_here.
  - assert (NoDup [(7, "c.md#sec")].*1) as Hnd.
    { apply (bool_decide_unpack _). vm_compute. exact I. }
    destruct (filesFromObject_translates String.append sampleAnchoredFiles _ "/docs/"
                sampleReviving eq_refl eq_refl FileRegistry.reach_empty Hnd)
      as (_ & _ & _ & _ & _ & _ & H & _).
    apply (H 7 "c.md#sec"). apply list_elem_of_here.
Defined.

Lemma fileReflections_fixup_witness :
  ∃ cb m u,
    last (deferred (filesFromObject String.append sampleFiles sampleReviving).1) = Some cb
    ∧ runDeferred cb
        (set_maps {[10 := 2; 11 := 3; 12 := 99]} {[5 := 1; 6 := 2]} (env sampleReviving))
      = {| res_env :=
             withAssociations m u
               (set_maps {[10 := 2; 11 := 3; 12 := 99]} {[5 := 1; 6 := 2]}
                  (env sampleReviving));
           res_deferred := []; res_thrown := None |}
    ∧ m !! 2 = Some 2 ∧ m !! 1 = None.
Proof.
  eexists.
  destruct (fileReflections_fixup String.append sampleFiles _ sampleReviving _
              (set_maps {[10 := 2; 11 := 3; 12 := 99]} {[5 := 1; 6 := 2]}
                 (env sampleReviving)) eq_refl eq_refl)
    as (m & u & Hrun & _ & Hnone & Hsome).
  exists m, u. split; [reflexivity|]. split; [exact Hrun|]. split.
  - destruct (restoredReflection
                (set_maps {[10 := 2; 11 := 3; 12 := 99]} {[5 := 1; 6 := 2]}
                   (env sampleReviving)) 10) as [o|] eqn:Ho;
      [|vm_compute in Ho; discriminate Ho].
    rewrite (Hsome 6 10 2 o).
    + vm_compute in Ho. by injection Ho as <-.
    + apply list_elem_of_here.
    + vm_compute. reflexivity.
    + exact Ho.
    + intros k r [[= -> ->]|[[= -> ->]|[]%elem_of_nil]%elem_of_cons]%elem_of_cons;
        [done|]. vm_compute. intros [=].
  - rewrite (Hnone 1); [reflexivity|].
    intros k r [[= -> ->]|[[= -> ->]|[]%elem_of_nil]%elem_of_cons]%elem_of_cons.
    + vm_compute. intros [=].
    + intros _. vm_compute. reflexivity.
Defined.
End files_revival_samples.

(** ** The construction of revived reflections *)

Section reflection_revival.
Import Models Effects Deserializer.

(** X12: with a reflection being revived and a project to register with,
    [constructReflection] of a wire reflection that is not a project
    returns a new reflection that the project now holds under its id: it
    has the name, the variant and (for declarations, parameters and
    signatures) the kind on the wire, the innermost active reflection for
    parent (and, if it is a reference, for target), and no slots yet.  The
    id on the wire is mapped to the new id, the new id is appended to the
    entry of the children index for the parent, the cached reference graph
    is dropped, and no other reflection object changes. *)
Theorem constructReflection_registers (obj : Wire) (de : De) (par pr : Z) :
  last (activeReflection (env de)) = Some par →
  project (env de) = Some pr →
  variantOfTree obj ≠ VProject →
  ∃ de' i o,
    constructReflection obj de = (de', inr i)
    ∧ ProjectReflection.getReflectionById (world (env de')) i = Some o
    ∧ o = {| id := i; name := nameOf obj;
             kind := builtKind (variantOfTree obj) (kindOf obj);
             variant := variantOfTree obj; parent := Some par;
             target := if decide (variantOfTree obj = VReference)
                       then Some (TargetId par) else None;
             slots := noSlots |}
    ∧ oldIdToNewId (env de') = <[label obj := i]> (oldIdToNewId (env de))
    ∧ ProjectReflection.childrenOf (world (env de')) par
      = ProjectReflection.childrenOf (world (env de)) par ++ [i]
    ∧ ProjectReflection.reflections (world (env de'))
      = {[i]} ∪ ProjectReflection.reflections (world (env de))
    ∧ ProjectReflection.referenceGraph (world (env de')) = None
    ∧ (∀ j, j ≠ i → ProjectReflection.objs (world (env de')) !! j
                    = ProjectReflection.objs (world (env de)) !! j)
    ∧ activeReflection (env de') = activeReflection (env de)
    ∧ oldFileIdToNewFileId (env de') = oldFileIdToNewFileId (env de)
    ∧ logger (env de') = logger (env de)
    ∧ deferred de' = deferred de.
Proof.
  intros Hlast Hproj Hv.
  unfold constructReflection, bind at 1, getEnv at 1. rewrite Hlast.
  set (w := world (env de)).
  set (i := ProjectReflection.nextReflectionId w).
  assert (∀ v, v = variantOfTree obj →
    ∃ de' o,
      (let '(result, w0) :=
         ProjectReflection.newReflection w v (nameOf obj) (builtKind v (kindOf obj))
           (Some par) (match v with VReference => Some (TargetId par) | _ => None end) in
       bind (modifyEnv (λ e, set_maps (<[label obj := result]> (oldIdToNewId e))
                               (oldFileIdToNewFileId e) (set_world (λ _, w0) e)))
         (λ _, match project (env de) with
               | None => throw (TypeError "Cannot read properties of undefined")
               | Some _ =>
                   bind (modifyEnv
                           (set_world (λ w, ProjectReflection.registerReflection
                                              w result None None)))
                     (λ _, ret result)
               end)) de = (de', inr i)
      ∧ ProjectReflection.getReflectionById (world (env de')) i = Some o
      ∧ o = {| id := i; name := nameOf obj; kind := builtKind v (kindOf obj);
               variant := v; parent := Some par;
               target := if decide (v = VReference) then Some (TargetId par) else None;
               slots := noSlots |}
      ∧ oldIdToNewId (env de') = <[label obj := i]> (oldIdToNewId (env de))
      ∧ ProjectReflection.childrenOf (world (env de')) par
        = ProjectReflection.childrenOf w par ++ [i]
      ∧ ProjectReflection.reflections (world (env de'))
        = {[i]} ∪ ProjectReflection.reflections w
      ∧ ProjectReflection.referenceGraph (world (env de')) = None
      ∧ (∀ j, j ≠ i → ProjectReflection.objs (world (env de')) !! j
                      = ProjectReflection.objs w !! j)
      ∧ activeReflection (env de') = activeReflection (env de)
      ∧ oldFileIdToNewFileId (env de') = oldFileIdToNewFileId (env de)
      ∧ logger (env de') = logger (env de)
      ∧ deferred de' = deferred de) as H.
  { intros v _. unfold ProjectReflection.newReflection. fold i.
    unfold bind, modifyEnv, ret. rewrite Hproj. cbn [env deferred fst snd].
    set (o := {| id := i; name := nameOf obj; kind := builtKind v (kindOf obj);
                 variant := v; parent := Some par;
                 target := match v with
                           | VReference => Some (TargetId par)
                           | _ => None
                           end;
                 slots := noSlots |}).
    set (w1 := ProjectReflection.Build_t _ _ _ _ _ _ _ _).
    eexists. exists o. split; [reflexivity|].
    cbn [env world set_world set_maps oldIdToNewId activeReflection
         oldFileIdToNewFileId logger deferred].
    destruct (registerReflection_fields w1 i None None) as (Ho & _ & Hr & Hc).
    assert (ProjectReflection.parentOf w1 i = Some par) as Hpar.
    { unfold ProjectReflection.parentOf, w1. cbn. by rewrite lookup_insert_eq. }
    rewrite Hpar in Hc.
    split.
    { apply getReflectionById_Some. rewrite Hr, Ho. split; [set_solver|].
      unfold w1. cbn. by rewrite lookup_insert_eq. }
    split; [unfold o; by destruct v|]. split; [reflexivity|].
    split.
    { unfold ProjectReflection.childrenOf. rewrite Hc. by rewrite lookup_insert_eq. }
    split; [by rewrite Hr|].
    split.
    { unfold ProjectReflection.registerReflection. cbn.
      by destruct (ProjectReflection.parentOf _ _). }
    split; [|done].
    intros j Hj. rewrite Ho. unfold w1. cbn. by rewrite lookup_insert_ne. }
  destruct (H (variantOfTree obj) eq_refl) as (de' & o & E & Hrest).
  exists de', i, o. split; [|exact Hrest].
  rewrite <- E. by destruct (variantOfTree obj).
Qed.

Lemma constructReflection_registers_witness :
  ∃ de' i o,
    constructReflection sampleNode sampleActive = (de', inr i)
    ∧ ProjectReflection.getReflectionById (world (env de')) i = Some o
    ∧ parent o = Some 2 ∧ target o = Some (TargetId 2)
    ∧ oldIdToNewId (env de') !! 10 = Some i.
Proof.
  destruct (constructReflection_registers sampleNode sampleActive 2 1
              eq_refl eq_refl) as (de' & i & o & E & Hget & Ho & Hids & _).
  { discriminate. }
  exists de', i, o. split; [exact E|]. split; [exact Hget|].
  rewrite Ho, Hids. split; [reflexivity|]. split; [reflexivity|].
  apply lookup_insert_eq.
Defined.

End reflection_revival.

(** ** The stack of active reflections *)

Section stack_facts.
Import Models Effects Deserializer.

Context {W : Type}.

Lemma forEachM_balanced {A : Type} (body : A → M unit) (xs : list A) :
  (∀ x, x ∈ xs → balanced (body x)) → balanced (forEachM body xs).
Proof.
  induction xs as [|x xs IH]; intros Hb d d' res; simpl.
  - intros [= <- <-]. reflexivity.
  - unfold bind. destruct (body x d) as [d1 [err|[]]] eqn:E.
    + intros [= <- <-]. apply (Hb x (list_elem_of_here _ _) _ _ _ E).
    + intros H. pose proof (Hb x (list_elem_of_here _ _) _ _ _ E) as H1.
      simpl in H1. rewrite <- H1. revert H. apply IH.
      intros y Hy. apply Hb. by right.
Qed.

(** X13: [Deserializer.fromObject] on a reflection keeps the stack of
    active reflections balanced, provided the [fromObject] of the receiver
    and the components that support it do: when it returns, the stack is
    as it was before the call.  When it throws, the receiver is not popped:
    the stack is as before with the receiver, and whatever nested calls
    left, on top. *)
Theorem fromObject_balanced (deserializers : list (Component W)) (r : Z)
    (receiverFromObject : M unit) (obj : W) :
  balanced receiverFromObject →
  (∀ c, c ∈ deserializers → supports c (OfReflection r) obj = true →
        balanced (componentFromObject c (OfReflection r) obj)) →
  balanced (fromObject deserializers (OfReflection r) receiverFromObject obj)
  ∧ ∀ de de' err,
      fromObject deserializers (OfReflection r) receiverFromObject obj de
      = (de', inl err) →
      ∃ rest, activeReflection (env de') = activeReflection (env de) ++ r :: rest.
Proof.
  intros Hm Hc.
  assert (∀ de de' res,
            fromObject deserializers (OfReflection r) receiverFromObject obj de
            = (de', res) →
            match res with
            | inr _ => activeReflection (env de') = activeReflection (env de)
            | inl _ => ∃ rest, activeReflection (env de')
                               = activeReflection (env de) ++ r :: rest
            end) as H.
  { intros de de' res. unfold fromObject.
    unfold bind at 1, modifyEnv at 1.
    set (d0 := {| env := _; deferred := _ |}).
    assert (activeReflection (env d0) = activeReflection (env de) ++ [r]) as H0 by done.
    assert (balanced (forEachM
              (λ c, if supports c (OfReflection r) obj
                    then componentFromObject c (OfReflection r) obj else ret tt)
              deserializers)) as Hall.
    { apply forEachM_balanced. intros c Hin d d' res'.
      destruct (supports c (OfReflection r) obj) eqn:Es; [by apply Hc|].
      intros [= <- <-]. reflexivity. }
    unfold bind at 1. destruct (receiverFromObject d0) as [d1 [err|[]]] eqn:E1.
    { intros [= <- <-]. destruct (Hm _ _ _ E1) as [rest Hrest].
      exists rest. rewrite Hrest. change (activeReflection (env d0))
        with (activeReflection (env de) ++ [r]). by rewrite <- app_assoc. }
    apply Hm in E1. simpl in E1. unfold bind at 1.
    destruct (forEachM _ deserializers d1) as [d2 [err|[]]] eqn:E2.
    - intros [= <- <-]. destruct (Hall _ _ _ E2) as [rest Hrest].
      exists rest. rewrite Hrest, E1. change (activeReflection (env d0))
        with (activeReflection (env de) ++ [r]). by rewrite <- app_assoc.
    - unfold modifyEnv. intros [= <- <-]. cbn.
      pose proof (Hall _ _ _ E2) as H2. simpl in H2.
      rewrite H2, E1. change (activeReflection (env d0))
        with (activeReflection (env de) ++ [r]). apply removelast_last. }
  split; [|intros de de' err E; exact (H _ _ _ E)].
  intros de de' [err|[]] E; specialize (H _ _ _ E); simpl in H.
  - destruct H as [rest ->]. by eexists.
  - done.
Qed.
End stack_facts.

Section stack_samples.

Import Models Effects Deserializer.

Lemma fromObject_balanced_witness :
  ∃ rest,
    activeReflection
      (env (fromObject [] (OfReflection 5) (throw (ErrorOf "boom")) sampleNode
              sampleActive).1)
    = [1; 2] ++ 5 :: rest.
Proof.
  refine (proj2 (fromObject_balanced (W := Wire) [] 5 (throw (ErrorOf "boom"))
                   sampleNode _ _) sampleActive _ (ErrorOf "boom") eq_refl).
  - intros de de' res [= <- <-]. exists []. symmetry. apply app_nil_r.
  - intros c Hc. by apply elem_of_nil in Hc.
Defined.

End stack_samples.

(** ** Symbol ids through serialization *)

Section symbol_round_trip.
Import Models Effects Deserializer.

Local Notation rism w :=
  (ProjectReflection.reflectionIdToSymbolIdMap (ProjectReflection.symbols w)).

Lemma elem_of_entriesOf {V : Type} (m : gmap Z V) i v :
  (i, v) ∈ Serializer.entriesOf m ↔ m !! i = Some v.
Proof.
  unfold Serializer.entriesOf. rewrite list_elem_of_omap. split.
  - intros (k & _ & Hk). destruct (m !! k) as [v'|] eqn:E; [|done].
    simpl in Hk. by injection Hk as -> ->.
  - intros Hi. exists i. split.
    + rewrite merge_sort_Permutation. apply elem_of_elements, elem_of_dom. by eexists.
    + by rewrite Hi.
Qed.

Lemma registerResolved_fold e j sid l :
  ∀ ix,
    (∀ i' s' o', (i', s') ∈ l → resolveOld e i' = Some o' → id o' = j → s' = sid) →
    ((∃ i o, (i, sid) ∈ l ∧ resolveOld e i = Some o ∧ id o = j)
     ∨ (ProjectReflection.reflectionIdToSymbolIdMap ix !! j = Some sid
        ∧ sid ∉ ProjectReflection.removedSymbolIds ix)) →
    ProjectReflection.reflectionIdToSymbolIdMap (foldl (registerResolved e) ix l) !! j
    = Some sid
    ∧ sid ∉ ProjectReflection.removedSymbolIds (foldl (registerResolved e) ix l).
Proof.
  induction l as [|[i0 s0] l IH]; intros ix Hall Hsome; cbn [foldl].
  - destruct Hsome as [(i & o & Hin & _)|?]; [by apply elem_of_nil in Hin|done].
  - apply IH.
    { intros i' s' o' Hin. apply Hall. by right. }
    unfold registerResolved. cbn [fst snd].
    destruct (resolveOld e i0) as [o0|] eqn:E0.
    + destruct (decide (id o0 = j)) as [Hj|Hj].
      * right. rewrite (Hall i0 s0 o0 (list_elem_of_here _ _) E0 Hj). simpl.
        rewrite Hj, lookup_insert_eq. split; [done|set_solver].
      * destruct Hsome as [(i & o & [[= -> ->]|Hin]%elem_of_cons & Ho & Hid)|[H1 H2]].
        -- congruence.
        -- left. by exists i, o.
        -- right. simpl. rewrite lookup_insert_ne by done. split; [done|set_solver].
    + destruct Hsome as [(i & o & [[= -> ->]|Hin]%elem_of_cons & Ho & Hid)|?].
      * congruence.
      * left. by exists i, o.
      * by right.
Qed.

Lemma NoDup_fmap_inj {A B : Type} (f : A → B) (l : list A) x y :
  NoDup (f <$> l) → x ∈ l → y ∈ l → f x = f y → x = y.
Proof.
  induction l as [|a l IH]; intros Hnd Hx Hy Hf; [by apply elem_of_nil in Hx|].
  rewrite fmap_cons in Hnd. apply NoDup_cons in Hnd as [Hn Hnd].
  apply elem_of_cons in Hx as [->|Hx]; apply elem_of_cons in Hy as [->|Hy].
  - done.
  - destruct Hn. rewrite Hf. by apply list_elem_of_fmap_2.
  - destruct Hn. rewrite <- Hf. by apply list_elem_of_fmap_2.
  - by apply IH.
Qed.

(** X17: the symbol ids survive a round trip.  When the fixup that
    [ProjectReflection.fromObject] defers runs on the [symbolIdMap] that
    [toObject] wrote for a project, in a state where every reflection of
    that project that has a symbol was revived and registered under a new
    id of its own, then it logs no warning, and each of these reflections
    has, under its new id, the symbol it had; none of these symbols counts
    as removed. *)
Theorem symbolIdMap_round_trip (w : ProjectReflection.t) (e : Env) :
  map_Forall (λ i o, id o = i) (ProjectReflection.objs (world e)) →
  NoDup (map_to_list (oldIdToNewId e)).*2 →
  map_Forall (λ i _, is_Some (restoredReflection e i)) (rism w) →
  let r := runDeferred (symbolIdMapFixup (Some (Serializer.entriesOf (rism w)))) e in
  res_thrown r = None
  ∧ res_deferred r = []
  ∧ logger (res_env r) = logger e
  ∧ ∀ i sid j,
      rism w !! i = Some sid → oldIdToNewId e !! i = Some j →
      ProjectReflection.getSymbolIdFromReflection (world (res_env r)) j = Some sid
      ∧ ProjectReflection.symbolIdHasBeenRemoved (world (res_env r)) sid = false.
Proof.
  intros Hid Hinj Hall r. subst r.
  assert (∀ i sid, rism w !! i = Some sid →
            ∃ j o, oldIdToNewId e !! i = Some j ∧ resolveOld e i = Some o ∧ id o = j)
    as Hres.
  { intros i sid Hi. destruct (Hall i sid Hi) as [o Ho].
    unfold restoredReflection in Ho. unfold resolveOld.
    destruct (oldIdToNewId e !! i) as [j|]; [|done].
    exists j, o. split; [done|]. split; [done|].
    apply getReflectionById_Some in Ho as [_ Ho]. by apply (Hid _ _ Ho). }
  assert (∀ i i' j, oldIdToNewId e !! i = Some j → oldIdToNewId e !! i' = Some j →
                    i = i') as Hinj'.
  { intros i i' j Hi Hi'. apply elem_of_map_to_list in Hi, Hi'.
    by pose proof (NoDup_fmap_inj snd _ _ _ Hinj Hi Hi' eq_refl) as [= ->]. }
  unfold symbolIdMapFixup, quietly.
  cbn [runDeferred res_thrown res_deferred res_env].
  change (default [] (Some (Serializer.entriesOf (rism w))))
    with (Serializer.entriesOf (rism w)).
  rewrite (fixupSymbol_fold _ e e) by done.
  cbn [logger world]. split; [done|]. split; [done|]. split.
  { unfold warningsFor.
    destruct (filter _ _) as [|i l] eqn:E; [by rewrite app_nil_r|].
    assert (i ∈ filter (λ i, resolveOld e i = None) (Serializer.entriesOf (rism w)).*1)
      as [Hn [[i' sid] [-> Hin]]%list_elem_of_fmap]%list_elem_of_filter
      by (rewrite E; left).
    apply elem_of_entriesOf in Hin. destruct (Hres _ _ Hin) as (j & o & _ & Ho & _).
    simpl in Hn. congruence. }
  intros i sid j Hi Hj.
  destruct (Hres _ _ Hi) as (j' & o & Hj' & Ho & Hoj). rewrite Hj in Hj'.
  injection Hj' as <-.
  destruct (registerResolved_fold e j sid (Serializer.entriesOf (rism w))
              (ProjectReflection.symbols (world e))) as [H1 H2].
  - intros i' s' o' Hin Ho' Hid'. apply elem_of_entriesOf in Hin.
    destruct (Hres _ _ Hin) as (j' & o'' & Hj' & Ho'' & Hoj').
    rewrite Ho' in Ho''. injection Ho'' as <-. rewrite Hid' in Hoj'. subst j'.
    rewrite (Hinj' _ _ _ Hj' Hj) in Hin. congruence.
  - left. exists i, o. split; [by apply elem_of_entriesOf|done].
  - unfold ProjectReflection.getSymbolIdFromReflection,
      ProjectReflection.symbolIdHasBeenRemoved. cbn. split; [done|].
    by apply bool_decide_eq_false.
Qed.
End symbol_round_trip.

Section symbol_samples.
Import Models Effects Deserializer.
Lemma symbolIdMap_round_trip_witness :
  ProjectReflection.getSymbolIdFromReflection
    (world (res_env (runDeferred
       (symbolIdMapFixup
          (Some (Serializer.entriesOf
                   (ProjectReflection.reflectionIdToSymbolIdMap
                      (ProjectReflection.symbols ProjectReflection.siblingsWithSymbols)))))
       swappedSiblings))) 3
  = Some "a".
Proof.
  destruct (symbolIdMap_round_trip ProjectReflection.siblingsWithSymbols swappedSiblings)
    as (_ & _ & _ & H).
  - apply (bool_decide_unpack _). vm_compute. exact I.
  - apply (bool_decide_unpack _). vm_compute. exact I.
  - apply (bool_decide_unpack _). vm_compute. exact I.
  - apply (H 2 "a" 3); vm_compute; reflexivity.
Defined.
End symbol_samples.

(** ** Reflections registered with their file *)

Section store_files.
Import Models ProjectReflection.

Lemma resolve_after_registerReflection {R : Type} (r : FileRegistry.t) (p : string)
    (refl : Z) (look : Z → option R) :
  FileRegistry.kept r →
  JsString.contains "#" p = false →
  FileRegistry.resolve (FileRegistry.registerReflection r p refl)
    (FileRegistry.target (FileRegistry.registerAbsolute r p).1) look
  = if decide (refl = 0) then FileRegistry.ResolvedPath p
    else match look refl with
         | Some o => FileRegistry.ResolvedReflection o
         | None => FileRegistry.ResolvedUndefined
         end.
Proof.
  intros Hk Hp. unfold FileRegistry.registerReflection.
  rewrite (registerAbsolute_plain r p Hp).
  destruct (registerStripped_lookup r p None Hk) as (H1 & _ & _).
  destruct (FileRegistry.registerStripped r p None) as [res r1]. simpl in *.
  unfold FileRegistry.resolve. simpl. by rewrite !lookup_insert_eq, H1.
Qed.

(** X19: [ProjectReflection.registerReflection] with a file path without
    [#], on an object of the store whose file registry was built from [new
    FileRegistry()], puts the reflection in the id table; when the path is
    not empty it makes the path the canonical path of the reflection, and
    the reflection what the file registry resolves the file of that path
    to, except for the reflection with the id 0, for which the file
    resolves to the path.  With the empty path the registry is not
    touched. *)
Theorem registerReflection_with_file (w : t) (r : Z) (o : Reflection)
    (sid : option ReflectionSymbolId) (path : string) :
  FileRegistry.reachable (files w) →
  objs w !! r = Some o →
  JsString.contains "#" path = false →
  let w1 := registerReflection w r sid (Some path) in
  getReflectionById w1 r = Some o
  ∧ if JsString.truthy path then
      FileRegistry.resolve (files w1)
        (FileRegistry.target (FileRegistry.registerAbsolute (files w) path).1)
        (getReflectionById w1)
      = (if decide (r = 0) then FileRegistry.ResolvedPath path
         else FileRegistry.ResolvedReflection o)
      ∧ FileRegistry.getReflectionPath (files w1) r = Some path
    else files w1 = files w.
Proof.
  intros Hr Ho Hp w1. subst w1.
  destruct (registerReflection_fields w r sid (Some path)) as (Hobjs & _ & Hrefl & _).
  assert (getReflectionById (registerReflection w r sid (Some path)) r = Some o) as Hget.
  { apply getReflectionById_Some. rewrite Hrefl, Hobjs. split; [set_solver|done]. }
  split; [done|].
  assert (files (registerReflection w r sid (Some path))
          = if JsString.truthy path
            then FileRegistry.registerReflection (files w) path r
            else files w) as Hf.
  { unfold registerReflection. destruct (JsString.truthy path), sid; simpl;
      by destruct (parentOf _ _). }
  destruct (JsString.truthy path); [|done]. rewrite Hf.
  rewrite (resolve_after_registerReflection (files w) path r _
             (reachable_kept _ Hr) Hp).
  rewrite Hget. split; [done|].
  unfold FileRegistry.getReflectionPath, FileRegistry.registerReflection.
  destruct (FileRegistry.registerAbsolute (files w) path). simpl.
  by rewrite lookup_insert_eq.
Qed.

Lemma registerReflection_with_file_witness :
  FileRegistry.resolve
    (files (registerReflection twoSiblings 2 None (Some "/src/a.ts"))) 1
    (getReflectionById (registerReflection twoSiblings 2 None (Some "/src/a.ts")))
  = FileRegistry.ResolvedReflection
      {| id := 2; name := "A"; kind := ReflectionKind.Module; variant := VDeclaration;
         parent := Some 1; target := None; slots := noSlots |}
  ∧ FileRegistry.resolve
      (files (registerReflection projectWithIdZero 0 None (Some "/src/r.ts"))) 1
      (getReflectionById (registerReflection projectWithIdZero 0 None (Some "/src/r.ts")))
    = FileRegistry.ResolvedPath "/src/r.ts".
Proof.
  split.
  - destruct (registerReflection_with_file twoSiblings 2
                {| id := 2; name := "A"; kind := ReflectionKind.Module;
                   variant := VDeclaration; parent := Some 1; target := None;
                   slots := noSlots |} None "/src/a.ts" FileRegistry.reach_empty)
      as [_ H].
    + vm_compute. reflexivity.
    + reflexivity.
    + cbn [JsString.truthy] in H. exact (proj1 H).
  - destruct (objs projectWithIdZero !! 0) as [o|] eqn:Eo;
      [|vm_compute in Eo; discriminate Eo].
    destruct (registerReflection_with_file projectWithIdZero 0 o None "/src/r.ts"
                FileRegistry.reach_empty Eo)
      as [_ H].
    + reflexivity.
    + cbn [JsString.truthy] in H. exact (proj1 H).
Defined.
End store_files.

(** ** The file registry through serialization *)

Section registry_invariants.
Import FileRegistry.
Local Arguments String.append !_ _ / : simpl nomatch.

Lemma split_anchor (s : string) :
  JsString.contains "#" s = false
  ∨ ∃ p a, s = p +:+ "#" +:+ a ∧ JsString.contains "#" p = false.
Proof.
  induction s as [|c s IH]; [by left|]. simpl.
  destruct (Ascii.eqb c "#") eqn:Ec.
  - right. apply Ascii.eqb_eq in Ec as ->. by exists "", s.
  - destruct IH as [->|(p & a & -> & Hp)]; [by left|].
    right. exists (String c p), a. simpl. by rewrite Ec, Hp.
Qed.

Lemma registerAbsolute_stripped_plain r s :
  ∃ q a, registerAbsolute r s = registerStripped r q a
         ∧ JsString.contains "#" q = false.
Proof.
  destruct (split_anchor s) as [Hs|(p & a & -> & Hp)].
  - exists s, None. split; [by apply registerAbsolute_plain|done].
  - exists p, (Some a). split; [by apply registerAbsolute_anchored|done].
Qed.

Lemma registerStripped_keeps_plain x q a :
  (∀ id p, mediaToPath x !! id = Some p → JsString.contains "#" p = false) →
  JsString.contains "#" q = false →
  ∀ id p, mediaToPath (registerStripped x q a).2 !! id = Some p →
          JsString.contains "#" p = false.
Proof.
  intros Hx Hq id p. unfold registerStripped.
  destruct (pathToMedia x !! q); [case_decide|]; simpl; try apply Hx.
  all: intros [[_ <-]|[_ ?]]%lookup_insert_Some; [done|by eapply Hx].
Qed.

Lemma registerAbsolute_keeps_plain x s :
  (∀ id p, mediaToPath x !! id = Some p → JsString.contains "#" p = false) →
  ∀ id p, mediaToPath (registerAbsolute x s).2 !! id = Some p →
          JsString.contains "#" p = false.
Proof.
  intros Hx. destruct (registerAbsolute_stripped_plain x s) as (q & a & -> & Hq).
  by apply registerStripped_keeps_plain.
Qed.

Lemma reachable_plain r :
  reachable r →
  ∀ id p, mediaToPath r !! id = Some p → JsString.contains "#" p = false.
Proof.
  induction 1 as [|r s _ IH|r s refl _ IH|r s refl _ IH|r refl _ IH|r id n r' _ IH H].
  - intros id p. unfold empty. cbn [mediaToPath]. by rewrite lookup_empty.
  - by apply registerAbsolute_keeps_plain.
  - unfold registerReflection. pose proof (registerAbsolute_keeps_plain r s IH) as Hs.
    by destruct (registerAbsolute r s).
  - unfold registerReflectionPath.
    pose proof (registerAbsolute_keeps_plain r s IH) as Hs.
    by destruct (registerAbsolute r s).
  - unfold removeReflection. destruct (reflectionToPath r !! refl) as [abs|]; [|done].
    destruct (JsString.truthy abs); [|done]. by destruct (pathToMedia r !! abs).
  - destruct (names r !! id) as [m|] eqn:Em.
    { by rewrite (getName_known _ _ _ _ H) by eauto. }
    destruct n as [n|]; [|by rewrite (getName_known _ _ _ _ H) by eauto].
    destruct (getName_fresh _ _ _ _ H Em) as (_ & _ & _ & _ & _ & -> & _). done.
Qed.

Lemma getName_associations r id n r' :
  getName r id = Some (n, r') →
  mediaToReflection r' = mediaToReflection r ∧ mediaToPath r' = mediaToPath r.
Proof.
  unfold getName. intros H.
  destruct (mediaToPath r !! id) as [absolute|]; [|by injection H as <- <-].
  destruct (JsString.truthy absolute); cbn [negb] in H; [|by injection H as <- <-].
  destruct (names r !! id) as [m|]; [by injection H as <- <-|].
  destruct (nameUsage r !! _); [|by injection H as <- <-].
  destruct (NormalizedPathUtils.splitFilename _).
  destruct (freeCounter _ _ _ _ _); [|done]. by injection H as <- <-.
Qed.

Lemma registerAbsolute_associated x s :
  kept x →
  (∀ id rf, mediaToReflection x !! id = Some rf → is_Some (mediaToPath x !! id)) →
  mediaToReflection (registerAbsolute x s).2 = mediaToReflection x
  ∧ is_Some (mediaToPath (registerAbsolute x s).2 !! target (registerAbsolute x s).1)
  ∧ ∀ id rf, mediaToReflection x !! id = Some rf →
             is_Some (mediaToPath (registerAbsolute x s).2 !! id).
Proof.
  intros Hk Hx. destruct (registerAbsolute_stripped x s) as (q & a & ->).
  destruct (registerStripped_lookup x q a Hk) as (H1 & _ & H3).
  split; [|split].
  - unfold registerStripped. destruct (pathToMedia x !! q); [case_decide|]; done.
  - by rewrite H1.
  - intros id rf Hid. destruct (Hx _ _ Hid) as [p Hp]. by rewrite (H3 _ _ Hp).
Qed.

Lemma reachable_associated r :
  reachable r →
  ∀ id refl, mediaToReflection r !! id = Some refl → is_Some (mediaToPath r !! id).
Proof.
  induction 1 as [|r s Hr IH|r s refl Hr IH|r s refl Hr IH|r refl Hr IH|r id n r' Hr IH H].
  - intros id refl. unfold empty. cbn [mediaToReflection]. by rewrite lookup_empty.
  - destruct (registerAbsolute_associated r s (reachable_kept r Hr) IH) as (-> & _ & H3).
    done.
  - destruct (registerAbsolute_associated r s (reachable_kept r Hr) IH) as (Hm & H2 & H3).
    unfold registerReflection. destruct (registerAbsolute r s) as [res r1]. simpl in *.
    intros id rf [[<- _]|[_ Hid]]%lookup_insert_Some; [done|].
    rewrite Hm in Hid. by eapply H3.
  - destruct (registerAbsolute_associated r s (reachable_kept r Hr) IH) as (Hm & H2 & H3).
    unfold registerReflectionPath. destruct (registerAbsolute r s) as [res r1].
    simpl in *.
    intros id rf [[<- _]|[_ Hid]]%lookup_insert_Some; [done|].
    rewrite Hm in Hid. by eapply H3.
  - unfold removeReflection. destruct (reflectionToPath r !! refl) as [abs|]; [|done].
    destruct (JsString.truthy abs); [|done].
    destruct (pathToMedia r !! abs); simpl; [|done].
    intros id rf [_ Hid]%lookup_delete_Some. by eapply IH.
  - destruct (getName_associations _ _ _ _ H) as [-> ->]. done.
Qed.
End registry_invariants.

Section files_round_trip.
Import Models Effects Deserializer.

Variable resolve relative : string → string → string.

Local Notation filesOf e := (ProjectReflection.files (world e)).

(** [resolve] undoes [relative] on the paths of the registry [old], for
    the root [root]. *)
Local Notation undone root old :=
  (map_Forall (λ (_ : Z) (p : string), resolve root (relative root p) = p)
     (FileRegistry.mediaToPath old)).

Lemma entriesOf_keys {V : Type} (m : gmap Z V) :
  (Serializer.entriesOf m).*1 = merge_sort Z.le (elements (dom m)).
Proof.
  unfold Serializer.entriesOf.
  assert (∀ k, k ∈ merge_sort Z.le (elements (dom m)) → is_Some (m !! k)) as H.
  { intros k. rewrite merge_sort_Permutation, elem_of_elements. apply elem_of_dom. }
  revert H. generalize (merge_sort Z.le (elements (dom m))).
  induction l as [|k l IH]; intros H; [done|].
  destruct (H k (list_elem_of_here _ _)) as [v Hv].
  cbn [omap list_omap]. rewrite Hv. cbn [fmap option_fmap option_map list_fmap fst].
  f_equal. apply IH. intros k' Hk'. apply H. by right.
Qed.

Local Notation written ser old :=
  (filter (λ kv : Z * Z,
             is_Some (ProjectReflection.getReflectionById (Serializer.project ser) kv.2))
     (Serializer.entriesOf (FileRegistry.mediaToReflection old))).

Lemma filesToObject_revived (ser : Serializer.t) (old : FileRegistry.t) (de : De) :
  FileRegistry.reachable old →
  FileRegistry.reachable (filesOf (env de)) →
  projectRoot (env de) = Some (Serializer.projectRoot ser) →
  undone (Serializer.projectRoot ser) old →
  let res := filesFromObject resolve (Serializer.filesToObject relative ser old) de in
  res.2 = inr tt
  ∧ last (deferred res.1)
    = Some (Defer (λ e, {| res_env := foldl fixupFileReflection e (written ser old);
                           res_deferred := []; res_thrown := None |}))
  ∧ ∀ id p, FileRegistry.resolvePath old id = Some p →
      ∃ id', oldFileIdToNewFileId (env res.1) !! id = Some id'
             ∧ FileRegistry.resolvePath (filesOf (env res.1)) id' = Some p.
Proof.
  intros Hold Hnew Hroot Hundo.
  set (es := prod_map (λ k, k) (relative (Serializer.projectRoot ser))
               <$> Serializer.entriesOf (FileRegistry.mediaToPath old)).
  assert (NoDup es.*1) as Hnd.
  { unfold es. rewrite <- list_fmap_compose.
    change (fst ∘ prod_map (λ k : Z, k) (relative (Serializer.projectRoot ser)))
      with (@fst Z string).
    rewrite entriesOf_keys, merge_sort_Permutation. apply NoDup_elements. }
  assert (∀ id q, (id, q) ∈ es ↔
            ∃ p, FileRegistry.mediaToPath old !! id = Some p
                 ∧ q = relative (Serializer.projectRoot ser) p) as Hes.
  { intros id q. unfold es. rewrite list_elem_of_fmap. split.
    - intros ([k p] & [= -> ->] & Hin%elem_of_entriesOf). by exists p.
    - intros (p & Hp & ->). exists (id, p). split; [done|by apply elem_of_entriesOf]. }
  destruct (registerEntries_spec resolve (Serializer.projectRoot ser) es (env de)
              Hroot Hnew Hnd) as (_ & _ & _ & _ & _ & Hget).
  cbv zeta. unfold filesFromObject, Serializer.filesToObject.
  cbn [entries wireReflections].
  fold es. unfold bind. rewrite forEachM_registerEntry. unfold defer.
  cbn [env deferred fst snd]. split; [done|]. split; [by rewrite last_snoc|].
  intros id p Hp. destruct (Hget id (relative (Serializer.projectRoot ser) p))
    as (id' & H1 & H2).
  { apply Hes. by exists p. }
  exists id'. split; [done|]. rewrite H2. f_equal.
  rewrite (Hundo id p Hp). apply withoutAnchor_plain.
  by apply (reachable_plain old Hold id).
Qed.

(** X20: the paths of a file registry survive a round trip.  For a
    registry built from [new FileRegistry()], a deserializer whose
    registry is one too and whose root is the root of the serializer, and
    functions [NormalizedPathUtils.resolve] and [relative] such that, for
    that root, [resolve] undoes [relative] on every path of the registry:
    [FileRegistry.fromObject], given what [toObject] wrote for the
    registry, returns, and translates every file id of the registry to an
    id that the receiving registry resolves to the same path. *)
Theorem files_round_trip (ser : Serializer.t) (old : FileRegistry.t) (de : De) :
  FileRegistry.reachable old →
  FileRegistry.reachable (filesOf (env de)) →
  projectRoot (env de) = Some (Serializer.projectRoot ser) →
  undone (Serializer.projectRoot ser) old →
  let res := filesFromObject resolve (Serializer.filesToObject relative ser old) de in
  res.2 = inr tt
  ∧ ∀ id p, FileRegistry.resolvePath old id = Some p →
      ∃ id', oldFileIdToNewFileId (env res.1) !! id = Some id'
             ∧ FileRegistry.resolvePath (filesOf (env res.1)) id' = Some p.
Proof.
  intros Hold Hnew Hroot Hundo.
  destruct (filesToObject_revived ser old de Hold Hnew Hroot Hundo) as (H1 & _ & H2).
  by split.
Qed.

(** X21: so do its associations, under the same conditions.  When the
    callback that [FileRegistry.fromObject] deferred runs (the translation
    of the file ids being still the one it recorded), every association of
    a file with a reflection that the serialized project held, and whose
    id now translates to a reflection of the project, is there again: the
    translated file id, which has the same path, is associated with that
    reflection. *)
Theorem file_associations_round_trip (ser : Serializer.t) (old : FileRegistry.t)
    (de : De) (cb : Deferred) (e : Env) :
  FileRegistry.reachable old →
  FileRegistry.reachable (filesOf (env de)) →
  projectRoot (env de) = Some (Serializer.projectRoot ser) →
  undone (Serializer.projectRoot ser) old →
  let res := filesFromObject resolve (Serializer.filesToObject relative ser old) de in
  last (deferred res.1) = Some cb →
  oldFileIdToNewFileId e = oldFileIdToNewFileId (env res.1) →
  ∃ m u,
    runDeferred cb e
    = {| res_env := withAssociations m u e; res_deferred := []; res_thrown := None |}
    ∧ ∀ fid rid o,
        FileRegistry.mediaToReflection old !! fid = Some rid →
        is_Some (ProjectReflection.getReflectionById (Serializer.project ser) rid) →
        restoredReflection e rid = Some o →
        ∃ fid' p,
          oldFileIdToNewFileId e !! fid = Some fid'
          ∧ FileRegistry.resolvePath old fid = Some p
          ∧ FileRegistry.resolvePath (filesOf (env res.1)) fid' = Some p
          ∧ m !! fid' = Some (id o).
Proof.
  intros Hold Hnew Hroot Hundo res Hcb HT. subst res.
  destruct (filesToObject_revived ser old de Hold Hnew Hroot Hundo)
    as (_ & Hlast & Hget).
  cbv zeta in Hlast, Hget. rewrite Hlast in Hcb. injection Hcb as <-.
  cbn [runDeferred].
  destruct (fixupFileReflection_fold e (written ser old)
              (FileRegistry.mediaToReflection (filesOf e))
              (FileRegistry.undefinedMedia (filesOf e))) as (m & u & Hm & _ & H2).
  rewrite withAssociations_same in Hm. exists m, u. rewrite Hm. split; [done|].
  assert (∀ k r, (k, r) ∈ written ser old →
            FileRegistry.mediaToReflection old !! k = Some r
            ∧ ∃ p k', FileRegistry.mediaToPath old !! k = Some p
                      ∧ oldFileIdToNewFileId e !! k = Some k'
                      ∧ FileRegistry.resolvePath
                          (filesOf (env (filesFromObject resolve
                             (Serializer.filesToObject relative ser old) de).1)) k'
                        = Some p) as Hw.
  { intros k r [_ Hk%elem_of_entriesOf]%list_elem_of_filter. split; [done|].
    destruct (reachable_associated old Hold _ _ Hk) as [p Hp].
    destruct (Hget k p Hp) as (k' & Hk' & Hp'). exists p, k'. by rewrite HT. }
  intros fid rid o Hfid Hheld Ho.
  assert ((fid, rid) ∈ written ser old) as Hin.
  { apply list_elem_of_filter. split; [done|]. by apply elem_of_entriesOf. }
  destruct (Hw _ _ Hin) as (_ & p & fid' & Hp & Hfid' & Hp').
  exists fid', p. split; [done|]. split; [done|]. split; [done|].
  destruct (H2 _ _ _ _ Hin Hfid' Ho) as (k' & r' & o' & Hin' & Hk' & Ho' & ->).
  destruct (Hw _ _ Hin') as (Hr' & p' & k'' & Hpk & Hk'' & Hp'').
  rewrite Hk' in Hk''. injection Hk'' as <-.
  unfold FileRegistry.resolvePath in *. rewrite Hp' in Hp''. injection Hp'' as <-.
  pose proof (FileRegistry.kept_paths old (reachable_kept old Hold)) as Hinj.
  pose proof (Hinj _ _ Hp) as E1. pose proof (Hinj _ _ Hpk) as E2.
  rewrite E1 in E2. injection E2 as <-. rewrite Hfid in Hr'. injection Hr' as <-.
  rewrite Ho in Ho'. by injection Ho' as <-.
Qed.
End files_round_trip.

Section files_round_trip_samples.
Import Models Effects Deserializer.

Lemma reachable_sampleRegistry : FileRegistry.reachable Serializer.sampleRegistry.
Proof.
  apply FileRegistry.reach_registerReflection, FileRegistry.reach_registerAbsolute,
    FileRegistry.reach_empty.
Qed.

Lemma undone_sampleRegistry :
  map_Forall
    (λ (_ : Z) (p : string),
       Serializer.sampleResolve "/docs/" (Serializer.sampleRelative "/docs/" p) = p)
    (FileRegistry.mediaToPath Serializer.sampleRegistry).
Proof. apply (bool_decide_unpack _). vm_compute. exact I. Qed.

Lemma files_round_trip_witness :
  ∃ id', oldFileIdToNewFileId (env Serializer.sampleRevived.1) !! 2 = Some id'
         ∧ FileRegistry.resolvePath (ProjectReflection.files (world (env Serializer.sampleRevived.1)))
             id' = Some "/docs/b.md".
Proof.
  refine (proj2 (files_round_trip Serializer.sampleResolve Serializer.sampleRelative
                   Serializer.sampleSerializer Serializer.sampleRegistry sampleReviving
                   reachable_sampleRegistry FileRegistry.reach_empty eq_refl
                   undone_sampleRegistry)
            2 "/docs/b.md" _).
  vm_compute. reflexivity.
Defined.

Lemma file_associations_round_trip_witness :
  ∃ cb m u,
    last (deferred Serializer.sampleRevived.1) = Some cb
    ∧ runDeferred cb
        (set_maps {[2 := 3; 3 := 2]} (oldFileIdToNewFileId (env Serializer.sampleRevived.1))
           (env Serializer.sampleRevived.1))
      = {| res_env :=
             withAssociations m u
               (set_maps {[2 := 3; 3 := 2]} (oldFileIdToNewFileId (env Serializer.sampleRevived.1))
                  (env Serializer.sampleRevived.1));
           res_deferred := []; res_thrown := None |}
    ∧ m !! 2 = Some 3.
Proof.
  unfold Serializer.sampleRevived.
  pose proof (proj1 (proj2 (filesToObject_revived Serializer.sampleResolve
                              Serializer.sampleRelative
                              Serializer.sampleSerializer Serializer.sampleRegistry
                              sampleReviving reachable_sampleRegistry
                              FileRegistry.reach_empty eq_refl
                              undone_sampleRegistry))) as Hcb.
  cbv zeta in Hcb.
  set (res := filesFromObject _ _ _) in *.
  set (e := set_maps {[2 := 3; 3 := 2]} (oldFileIdToNewFileId (env res.1))
              (env res.1)).
  assert (oldFileIdToNewFileId e = oldFileIdToNewFileId (env res.1)) as HT.
  { vm_compute. reflexivity. }
  destruct (file_associations_round_trip Serializer.sampleResolve
              Serializer.sampleRelative
              Serializer.sampleSerializer Serializer.sampleRegistry sampleReviving _ e
              reachable_sampleRegistry FileRegistry.reach_empty eq_refl
              undone_sampleRegistry Hcb HT)
    as (m & u & Hrun & H).
  eexists. exists m, u. split; [exact Hcb|]. split; [exact Hrun|].
  destruct (restoredReflection e 2) as [o|] eqn:Ho;
    [|vm_compute in Ho; discriminate Ho].
  destruct (H 2 2 o) as (fid' & p & Hf & _ & _ & Hm).
  - vm_compute. reflexivity.
  - vm_compute. eexists. reflexivity.
  - exact Ho.
  - vm_compute in Hf. injection Hf as <-. rewrite Hm. vm_compute in Ho. injection Ho as <-. reflexivity.
Defined.
End files_round_trip_samples.
